(** * Definite Initialization: the lifetime checker of
      lib/SILPasses/DefiniteInitialization.cpp

    A shallow embedding of the per-element lattice, the availability bit
    vector, the on-demand live-out dataflow, the use classifier with its
    diagnostics, and the rewrites (assign lowering, conditional destroys). *)

From Stdlib Require Import ZArith Lia Bool.
From Stdlib Require Import String Ascii.
From stdpp Require Import base option list strings gmap pretty relations.

(** ** Outcomes of fallible code

    An [assert] or an [Optional::getValue] on an empty optional aborts the
    pass; recursion that is bounded in the source by the CFG is bounded here
    by a depth counter. *)

Inductive Outcome (A : Type) : Type :=
  | Ok (a : A)
  | AssertFail
  | OutOfFuel.
Arguments Ok {A} a.
Arguments AssertFail {A}.
Arguments OutOfFuel {A}.

Definition isOk {A} (r : Outcome A) : bool :=
  match r with Ok _ => true | _ => false end.

(** [Optional<T>::hasValue]. *)
Definition hasValue {A} (o : option A) : bool :=
  match o with Some _ => true | None => false end.

(** ** The lattice *)

Inductive DIKind : Type := No | Yes | Partial.

Definition DIKind_eqb (a b : DIKind) : bool :=
  match a, b with
  | No, No | Yes, Yes | Partial, Partial => true
  | _, _ => false
  end.

#[global] Instance DIKind_eq_dec : EqDecision DIKind.
Proof. solve_decision. Defined.

(** [mergeKinds]: the lattice merge operation for two optional DIKinds. *)
Definition mergeKinds (OK1 OK2 : option DIKind) : option DIKind :=
  match OK1 with
  | None => OK2
  | Some K1 =>
      if DIKind_eqb K1 Partial then Some K1
      else match OK2 with
           | None => Some K1
           | Some K2 => if negb (DIKind_eqb K1 K2) then Some Partial else Some K1
           end
  end.

(** ** AvailabilitySet: two bits per element in an [llvm::SmallBitVector] *)

Module AvSet.

(** The bit vector.  [operator[]] of the source asserts [Idx < size()];
    every access below is made at an index the callers keep in range, and
    the lemmas carry that bound.  Out of range this model reads [false]
    and writes nothing. *)
Abbreviation SmallBitVector := (list bool).

Definition bit (d : SmallBitVector) (i : nat) : bool :=
  match d !! i with Some b => b | None => false end.

Definition setbit (d : SmallBitVector) (i : nat) (b : bool) : SmallBitVector :=
  <[i := b]> d.

Record AvailabilitySet : Type := mk { Data : SmallBitVector }.

(** [AvailabilitySet(unsigned NumElts)]: [Data.resize(NumElts*2, true)]. *)
Definition new (NumElts : nat) : AvailabilitySet :=
  mk (replicate (NumElts * 2) true).

Definition empty (a : AvailabilitySet) : bool :=
  match Data a with [] => true | _ => false end.

Definition size (a : AvailabilitySet) : nat := length (Data a) / 2.

Definition getConditional (a : AvailabilitySet) (Elt : nat) : option DIKind :=
  let V1 := bit (Data a) (Elt * 2) in
  let V2 := bit (Data a) (Elt * 2 + 1) in
  if Bool.eqb V1 V2 then (if V1 then None else Some No)
  else (if V2 then Some Yes else Some Partial).

(** [get] is [getConditional(Elt).getValue()]: it aborts on Unknown, and
    on an element the vector does not have. *)
Definition get (a : AvailabilitySet) (Elt : nat) : Outcome DIKind :=
  if Elt <? size a then
    match getConditional a Elt with
    | Some K => Ok K
    | None => AssertFail
    end
  else AssertFail.

Definition set (a : AvailabilitySet) (Elt : nat) (K : DIKind) : AvailabilitySet :=
  match K with
  | No => mk (setbit (setbit (Data a) (Elt * 2) false) (Elt * 2 + 1) false)
  | Yes => mk (setbit (setbit (Data a) (Elt * 2) false) (Elt * 2 + 1) true)
  | Partial => mk (setbit (setbit (Data a) (Elt * 2) true) (Elt * 2 + 1) false)
  end.

(** The overload [set(unsigned, Optional<DIKind>)]. *)
Definition set_optional (a : AvailabilitySet) (Elt : nat) (K : option DIKind)
  : AvailabilitySet :=
  match K with
  | None => mk (setbit (setbit (Data a) (Elt * 2) true) (Elt * 2 + 1) true)
  | Some K => set a Elt K
  end.

Definition containsUnknownElements (a : AvailabilitySet) : bool :=
  existsb (fun i => negb (hasValue (getConditional a i))) (seq 0 (size a)).

Definition isAll (a : AvailabilitySet) (K : DIKind) : bool :=
  forallb (fun i => match getConditional a i with
                    | Some E => DIKind_eqb E K
                    | None => false
                    end) (seq 0 (size a)).

Definition hasAny (a : AvailabilitySet) (K : DIKind) : bool :=
  existsb (fun i => match getConditional a i with
                    | Some E => DIKind_eqb E K
                    | None => false
                    end) (seq 0 (size a)).

Definition isAllYes (a : AvailabilitySet) : bool := isAll a Yes.
Definition isAllNo (a : AvailabilitySet) : bool := isAll a No.

Definition changeUnsetElementsTo (a : AvailabilitySet) (K : DIKind)
  : AvailabilitySet :=
  fold_left (fun acc i => if hasValue (getConditional acc i) then acc
                          else set acc i K)
            (seq 0 (size a)) a.

Definition mergeIn (a RHS : AvailabilitySet) : AvailabilitySet :=
  fold_left (fun acc i =>
               set_optional acc i
                 (mergeKinds (getConditional acc i) (getConditional RHS i)))
            (seq 0 (size a)) a.

End AvSet.

Abbreviation AvailabilitySet := AvSet.AvailabilitySet.

Arguments AvSet.set : simpl never.
Arguments AvSet.set_optional : simpl never.
Arguments AvSet.getConditional : simpl never.
Arguments AvSet.new : simpl never.
Arguments AvSet.size : simpl never.


(** ** A state and failure monad for the checker's methods *)

Definition M (S A : Type) : Type := S -> Outcome (A * S).

Definition ret {S A} (a : A) : M S A := fun s => Ok (a, s).

Definition bind {S A B} (m : M S A) (k : A -> M S B) : M S B :=
  fun s => match m s with
           | Ok (a, s') => k a s'
           | AssertFail => AssertFail
           | OutOfFuel => OutOfFuel
           end.

Definition assert {S} (b : bool) : M S unit :=
  fun s => if b then Ok (tt, s) else AssertFail.

Definition liftOutcome {S A} (r : Outcome A) : M S A :=
  fun s => match r with
           | Ok a => Ok (a, s)
           | AssertFail => AssertFail
           | OutOfFuel => OutOfFuel
           end.

(** Dereference a pointer that must be valid. *)
Definition deref {S A} (o : option A) : M S A :=
  fun s => match o with Some a => Ok (a, s) | None => AssertFail end.

Definition gets {S A} (f : S -> A) : M S A := fun s => Ok (f s, s).
Definition modify {S} (f : S -> S) : M S unit := fun s => Ok (tt, f s).

Declare Scope checker_scope.
Delimit Scope checker_scope with checker.
Notation "x <- m ;; k" := (bind m (fun x => k))
  (at level 20, m at level 99, k at level 200, only parsing) : checker_scope.
Notation "' pat <- m ;; k" := (bind m (fun x => match x with pat => k end))
  (at level 20, pat pattern, m at level 99, k at level 200, only parsing) : checker_scope.
Notation "m ;;; k" := (bind m (fun _ => k))
  (at level 100, k at level 200, right associativity,
   only parsing) : checker_scope.
Open Scope checker_scope.

(** [for (auto x : xs) body]: a loop over a list in the monad. *)
Fixpoint forEach {S A} (xs : list A) (body : A -> M S unit) : M S unit :=
  match xs with
  | [] => ret tt
  | x :: xs => body x ;;; forEach xs body
  end.

(** ** Per-block state of the live-out dataflow *)

(** Basic blocks and instructions are identified by their address. *)
Abbreviation SILBasicBlock := nat (only parsing).

Inductive LiveOutStateTy : Type := IsUnknown | IsComputingLiveOut | IsKnown.

#[global] Instance LiveOutStateTy_eq_dec : EqDecision LiveOutStateTy.
Proof. solve_decision. Defined.

Record LiveOutBlockState : Type := mkLiveOutBlockState {
  HasNonLoadUse : bool;
  Availability : AvailabilitySet;
  LOState : LiveOutStateTy
}.

Definition LiveOutBlockState_new (NumElements : nat) : LiveOutBlockState :=
  mkLiveOutBlockState false (AvSet.new NumElements) IsUnknown.

Definition setHasNonLoadUse (s : LiveOutBlockState) (b : bool) : LiveOutBlockState :=
  mkLiveOutBlockState b (Availability s) (LOState s).

Definition setAvailability (s : LiveOutBlockState) (a : AvailabilitySet)
  : LiveOutBlockState :=
  mkLiveOutBlockState (HasNonLoadUse s) a (LOState s).

Definition setLOState (s : LiveOutBlockState) (l : LiveOutStateTy)
  : LiveOutBlockState :=
  mkLiveOutBlockState (HasNonLoadUse s) (Availability s) l.

Definition getAvailability (s : LiveOutBlockState) (Elt : nat) : Outcome DIKind :=
  AvSet.get (Availability s) Elt.

Definition getAvailabilityConditional (s : LiveOutBlockState) (Elt : nat)
  : option DIKind :=
  AvSet.getConditional (Availability s) Elt.

Definition setBlockAvailability (s : LiveOutBlockState) (AV : AvailabilitySet)
  : Outcome LiveOutBlockState :=
  if decide (LOState s = IsKnown) then AssertFail
  else if AvSet.containsUnknownElements AV then AssertFail
  else Ok (mkLiveOutBlockState (HasNonLoadUse s) AV IsKnown).

Definition setBlockAvailability1 (s : LiveOutBlockState) (K : DIKind)
  : Outcome LiveOutBlockState :=
  if decide (LOState s = IsKnown) then AssertFail
  else if negb (AvSet.size (Availability s) =? 1) then AssertFail
  else Ok (mkLiveOutBlockState (HasNonLoadUse s)
             (AvSet.set (Availability s) 0 K) IsKnown).

(** [PerBlockInfo]: the [SmallDenseMap] from blocks to their state. *)
Abbreviation PerBlockInfoMap := (gmap SILBasicBlock LiveOutBlockState).

(** [getBlockInfo]: [PerBlockInfo.insert({BB, LiveOutBlockState(N)})], which
    leaves an existing entry alone, and the entry then found. *)
Definition getBlockInfo (NumElements : nat) (BB : SILBasicBlock)
  : M PerBlockInfoMap LiveOutBlockState :=
  fun PBI =>
    match PBI !! BB with
    | Some s => Ok (s, PBI)
    | None =>
        let s := LiveOutBlockState_new NumElements in Ok (s, <[BB := s]> PBI)
    end.

(** One write of [LOState]: the block, the state before, the state after. *)
Abbreviation LOTransition :=
  (SILBasicBlock * LiveOutStateTy * LiveOutStateTy)%type.

(** ** The live-out dataflow *)

Section Dataflow.

(** [TheMemory.NumElements] and the predecessor lists of the CFG. *)
Variable NumElements : nat.
Variable getPreds : SILBasicBlock -> list SILBasicBlock.

(** The loop of [getPredsLiveOut1] over the predecessors, with the
    recursive call to [getLiveOut1] passed in. *)
Fixpoint getPredsLiveOut1_loop {S}
    (getLiveOut1 : SILBasicBlock -> M S (option DIKind))
    (Preds : list SILBasicBlock) (Result : option DIKind)
  : M S (option DIKind) :=
  match Preds with
  | [] => ret Result
  | P :: Preds =>
      R <- getLiveOut1 P ;;
      getPredsLiveOut1_loop getLiveOut1 Preds (mergeKinds Result R)
  end.

(** [getLiveOut1].  The recursion through the predecessors is cut by the
    [IsComputingLiveOut] state; [fuel] bounds its depth. *)
Fixpoint getLiveOut1 (fuel : nat) (BB : SILBasicBlock)
  : M PerBlockInfoMap (option DIKind) :=
  match fuel with
  | O => fun _ => OutOfFuel
  | S fuel =>
      BBState <- getBlockInfo NumElements BB ;;
      match LOState BBState with
      | IsKnown =>
          K <- liftOutcome (getAvailability BBState 0) ;; ret (Some K)
      | IsComputingLiveOut => ret None
      | IsUnknown =>
          let LocalAV := getAvailabilityConditional BBState 0 in
          if decide (LocalAV = Some Yes) then
            s <- liftOutcome (setBlockAvailability1 BBState Yes) ;;
            modify (insert BB s) ;;;
            ret LocalAV
          else
            modify (insert BB (setLOState BBState IsComputingLiveOut)) ;;;
            Result <- getPredsLiveOut1_loop (getLiveOut1 fuel) (getPreds BB)
                        (getAvailabilityConditional BBState 0) ;;
            BBState <- getBlockInfo NumElements BB ;;
            match Result with
            | Some K =>
                s <- liftOutcome (setBlockAvailability1 BBState K) ;;
                modify (insert BB s) ;;;
                ret Result
            | None =>
                modify (insert BB (setLOState BBState IsUnknown)) ;;;
                ret Result
            end
      end
  end.

Definition getPredsLiveOut1 (fuel : nat) (BB : SILBasicBlock)
    (Result : option DIKind) : M PerBlockInfoMap (option DIKind) :=
  getPredsLiveOut1_loop (getLiveOut1 fuel) (getPreds BB) Result.

(** The loop of [getPredsLiveOutN]. *)
Fixpoint getPredsLiveOutN_loop {S}
    (getLiveOutN : SILBasicBlock -> M S AvailabilitySet)
    (Preds : list SILBasicBlock) (Result : AvailabilitySet)
  : M S AvailabilitySet :=
  match Preds with
  | [] => ret Result
  | P :: Preds =>
      R <- getLiveOutN P ;;
      getPredsLiveOutN_loop getLiveOutN Preds (AvSet.mergeIn Result R)
  end.

(** The loop of [getLiveOutN] that lets a local Yes win. *)
Definition applyLocalYes (LocalAV Result : AvailabilitySet) : AvailabilitySet :=
  fold_left (fun R i =>
               match AvSet.getConditional LocalAV i with
               | Some Yes => AvSet.set R i Yes
               | _ => R
               end) (seq 0 NumElements) Result.

Fixpoint getLiveOutN (fuel : nat) (BB : SILBasicBlock)
  : M PerBlockInfoMap AvailabilitySet :=
  match fuel with
  | O => fun _ => OutOfFuel
  | S fuel =>
      BBState <- getBlockInfo NumElements BB ;;
      match LOState BBState with
      | IsKnown => ret (Availability BBState)
      | IsComputingLiveOut => ret (AvSet.new NumElements)
      | IsUnknown =>
          modify (insert BB (setLOState BBState IsComputingLiveOut)) ;;;
          Result <- getPredsLiveOutN_loop (getLiveOutN fuel) (getPreds BB)
                      (AvSet.new NumElements) ;;
          BBState <- getBlockInfo NumElements BB ;;
          let Result := applyLocalYes (Availability BBState) Result in
          if negb (AvSet.containsUnknownElements Result) then
            s <- liftOutcome (setBlockAvailability BBState Result) ;;
            modify (insert BB s) ;;;
            ret Result
          else
            modify (insert BB (setLOState BBState IsUnknown)) ;;;
            ret Result
      end
  end.

Definition getPredsLiveOutN (fuel : nat) (BB : SILBasicBlock)
    (Result : AvailabilitySet) : M PerBlockInfoMap AvailabilitySet :=
  getPredsLiveOutN_loop (getLiveOutN fuel) (getPreds BB) Result.

(** *** The same two functions, logging every write of [LOState]

    A log of the transitions [(block, from, to)] is carried next to the
    map; nothing else differs.  [traced_erase] below relates the two. *)

Definition onMap {A} (m : M PerBlockInfoMap A)
  : M (PerBlockInfoMap * list LOTransition) A :=
  fun s => match m (fst s) with
           | Ok (a, PBI) => Ok (a, (PBI, snd s))
           | AssertFail => AssertFail
           | OutOfFuel => OutOfFuel
           end.

Definition logTransition (BB : SILBasicBlock) (From To : LiveOutStateTy)
  : M (PerBlockInfoMap * list LOTransition) unit :=
  modify (fun s => (fst s, snd s ++ [(BB, From, To)])).

Fixpoint getLiveOut1_traced (fuel : nat) (BB : SILBasicBlock)
  : M (PerBlockInfoMap * list LOTransition) (option DIKind) :=
  match fuel with
  | O => fun _ => OutOfFuel
  | S fuel =>
      BBState <- onMap (getBlockInfo NumElements BB) ;;
      match LOState BBState with
      | IsKnown =>
          K <- liftOutcome (getAvailability BBState 0) ;; ret (Some K)
      | IsComputingLiveOut => ret None
      | IsUnknown =>
          let LocalAV := getAvailabilityConditional BBState 0 in
          if decide (LocalAV = Some Yes) then
            s <- liftOutcome (setBlockAvailability1 BBState Yes) ;;
            onMap (modify (insert BB s)) ;;;
            logTransition BB IsUnknown IsKnown ;;;
            ret LocalAV
          else
            onMap (modify (insert BB (setLOState BBState IsComputingLiveOut))) ;;;
            logTransition BB IsUnknown IsComputingLiveOut ;;;
            Result <- getPredsLiveOut1_loop (getLiveOut1_traced fuel)
                        (getPreds BB) (getAvailabilityConditional BBState 0) ;;
            BBState <- onMap (getBlockInfo NumElements BB) ;;
            match Result with
            | Some K =>
                s <- liftOutcome (setBlockAvailability1 BBState K) ;;
                onMap (modify (insert BB s)) ;;;
                logTransition BB (LOState BBState) IsKnown ;;;
                ret Result
            | None =>
                onMap (modify (insert BB (setLOState BBState IsUnknown))) ;;;
                logTransition BB (LOState BBState) IsUnknown ;;;
                ret Result
            end
      end
  end.

Fixpoint getLiveOutN_traced (fuel : nat) (BB : SILBasicBlock)
  : M (PerBlockInfoMap * list LOTransition) AvailabilitySet :=
  match fuel with
  | O => fun _ => OutOfFuel
  | S fuel =>
      BBState <- onMap (getBlockInfo NumElements BB) ;;
      match LOState BBState with
      | IsKnown => ret (Availability BBState)
      | IsComputingLiveOut => ret (AvSet.new NumElements)
      | IsUnknown =>
          onMap (modify (insert BB (setLOState BBState IsComputingLiveOut))) ;;;
          logTransition BB IsUnknown IsComputingLiveOut ;;;
          Result <- getPredsLiveOutN_loop (getLiveOutN_traced fuel)
                      (getPreds BB) (AvSet.new NumElements) ;;
          BBState <- onMap (getBlockInfo NumElements BB) ;;
          let Result := applyLocalYes (Availability BBState) Result in
          if negb (AvSet.containsUnknownElements Result) then
            s <- liftOutcome (setBlockAvailability BBState Result) ;;
            onMap (modify (insert BB s)) ;;;
            logTransition BB (LOState BBState) IsKnown ;;;
            ret Result
          else
            onMap (modify (insert BB (setLOState BBState IsUnknown))) ;;;
            logTransition BB (LOState BBState) IsUnknown ;;;
            ret Result
      end
  end.

End Dataflow.


(** ** The IR the pass reads and mutates

    Only what the checker inspects is kept: the kind of an instruction, its
    operands, its location, and the block it sits in.  Instructions and
    blocks are identified by a number standing for their address. *)

Abbreviation SILInstructionPtr := nat (only parsing).

(** A [SourceLoc]; [0] is the invalid location. *)
Abbreviation SourceLoc := nat (only parsing).

Definition SourceLoc_isInvalid (L : SourceLoc) : bool := L =? 0.

Record SILLocation : Type := mkSILLocation {
  LocIsNull : bool;
  LocSourceLoc : SourceLoc
}.

(** [SILLocation::getSourceLoc]: a null location has no source location. *)
Definition getSourceLoc (L : SILLocation) : SourceLoc :=
  if LocIsNull L then 0 else LocSourceLoc L.

Record SILType : Type := mkSILType {
  TyIsTrivial : bool;
  TyIsAddress : bool;
  TyIntWidth : nat
}.

Definition getBuiltinIntegerType (Width : nat) : SILType :=
  mkSILType true false Width.

Inductive ValueDef : Type :=
  | DefInst (I : SILInstructionPtr)
  | DefArg (n : nat).

#[global] Instance ValueDef_eq_dec : EqDecision ValueDef.
Proof. solve_decision. Defined.

Record SILValue : Type := mkSILValue {
  ValDef : ValueDef;
  ValResultNumber : nat;
  ValType : SILType
}.

Record FuncDecl : Type := mkFuncDecl {
  FnName : string;
  FnIsAccessor : bool;
  FnAccessorStorageName : string
}.

#[global] Instance SILType_eq_dec : EqDecision SILType.
Proof. solve_decision. Defined.
#[global] Instance SILValue_eq_dec : EqDecision SILValue.
Proof. solve_decision. Defined.
#[global] Instance FuncDecl_eq_dec : EqDecision FuncDecl.
Proof. solve_decision. Defined.

(** What the checker asks of the [ValueDecl] an access path ends in. *)
Record ValueDecl : Type := mkValueDecl {
  DeclIsImplicit : bool;
  DeclLoc : SourceLoc;
  DeclIsVarWithInitPattern : bool
}.

Inductive InstKind : Type :=
  | AssignInst (Src Dest : SILValue)
  | StoreInst (Src Dest : SILValue)
  | LoadInst (Addr : SILValue)
  | CopyAddrInst (Src Dest : SILValue) (IsInitializationOfDest : bool)
  | StoreWeakInst (Src Dest : SILValue) (IsInitializationOfDest : bool)
  | ReleaseValueInst (V : SILValue)
  | ReturnInst (V : SILValue)
  | ApplyInst (Callee : SILValue) (Args : list SILValue)
  | UpcastInst (V : SILValue)
  | RefElementAddrInst (V : SILValue) (Field : string)
  | ClassMethodInst (V : SILValue) (Member : option FuncDecl)
  | FunctionRefInst (ReferencedFunctionDecl : option FuncDecl)
  | MarkFunctionEscapeInst (Vs : list SILValue)
  | AddressToPointerInst (V : SILValue)
  | MarkUninitializedInst (V : SILValue)
  | AllocBoxInst (Ty : SILType)
  | AllocStackInst (Ty : SILType)
  | DeallocStackInst (V : SILValue)
  | DeallocBoxInst (Ty : SILType) (V : SILValue)
  | DeallocRefInst (V : SILValue)
  | StrongReleaseInst (V : SILValue)
  | DestroyAddrInst (V : SILValue)
  | BranchInst (Dest : SILBasicBlock)
  | CondBranchInst (Cond : SILValue) (TrueBB FalseBB : SILBasicBlock)
  | IntegerLiteralInst (Ty : SILType) (Value : N)
  | BuiltinInst (Name : string) (Ty : SILType) (Args : list SILValue)
  | ElementAddrInst (Elt : nat)
  | OtherInst (Operands : list SILValue).

#[global] Instance InstKind_eq_dec : EqDecision InstKind.
Proof. solve_decision. Defined.

Record SILInstruction : Type := mkSILInstruction {
  InstPtr : SILInstructionPtr;
  InstKindOf : InstKind;
  InstLoc : SILLocation
}.

Definition getOperands (K : InstKind) : list SILValue :=
  match K with
  | AssignInst Src Dest | StoreInst Src Dest => [Src; Dest]
  | CopyAddrInst Src Dest _ | StoreWeakInst Src Dest _ => [Src; Dest]
  | LoadInst V | ReleaseValueInst V | ReturnInst V | UpcastInst V
  | RefElementAddrInst V _ | ClassMethodInst V _ | AddressToPointerInst V
  | MarkUninitializedInst V | DeallocStackInst V | DeallocBoxInst _ V
  | DeallocRefInst V | StrongReleaseInst V | DestroyAddrInst V => [V]
  | ApplyInst Callee Args => Callee :: Args
  | MarkFunctionEscapeInst Vs | OtherInst Vs => Vs
  | BuiltinInst _ _ Args => Args
  | CondBranchInst Cond _ _ => [Cond]
  | FunctionRefInst _ | AllocBoxInst _ | AllocStackInst _ | BranchInst _
  | IntegerLiteralInst _ _ | ElementAddrInst _ => []
  end.

Definition getSuccessors (K : InstKind) : list SILBasicBlock :=
  match K with
  | BranchInst Dest => [Dest]
  | CondBranchInst _ TrueBB FalseBB => [TrueBB; FalseBB]
  | _ => []
  end.

(** A function: its blocks in layout order (the first is the entry), each
    with its instructions in order, and the next unused address. *)
Record SILFunction : Type := mkSILFunction {
  Blocks : list (SILBasicBlock * list SILInstruction);
  FnLocation : SILLocation;
  NextPtr : nat
}.

Definition getBlockInsts (F : SILFunction) (BB : SILBasicBlock)
  : list SILInstruction :=
  match find (fun b => fst b =? BB) (Blocks F) with
  | Some b => snd b
  | None => []
  end.

Definition containsInst (I : SILInstructionPtr) (Insts : list SILInstruction)
  : bool :=
  existsb (fun X => InstPtr X =? I) Insts.

(** [Inst->getParent()]. *)
Definition getParent (F : SILFunction) (I : SILInstructionPtr)
  : option SILBasicBlock :=
  fst <$> find (fun b => containsInst I (snd b)) (Blocks F).

Definition allInsts (F : SILFunction) : list SILInstruction :=
  flat_map snd (Blocks F).

Definition getInst (F : SILFunction) (I : SILInstructionPtr)
  : option SILInstruction :=
  find (fun X => InstPtr X =? I) (allInsts F).

(** [BB->getPreds()]: the blocks whose terminator names [BB], once per
    successor slot.  The source walks an intrusive list whose order is not
    part of this file; the layout order is used here. *)
Definition getPredsOf (F : SILFunction) (BB : SILBasicBlock)
  : list SILBasicBlock :=
  flat_map (fun b =>
              match last (snd b) with
              | Some T =>
                  map (fun _ => fst b)
                      (filter (fun Succ => Succ = BB)
                              (getSuccessors (InstKindOf T)))
              | None => []
              end) (Blocks F).

(** [BB->getSuccs()]. *)
Definition getSuccsOf (F : SILFunction) (BB : SILBasicBlock)
  : list SILBasicBlock :=
  match last (getBlockInsts F BB) with
  | Some T => getSuccessors (InstKindOf T)
  | None => []
  end.

Fixpoint takeWhile {A} (f : A -> bool) (l : list A) : list A :=
  match l with
  | [] => []
  | x :: l => if f x then x :: takeWhile f l else []
  end.

Fixpoint dropWhile {A} (f : A -> bool) (l : list A) : list A :=
  match l with
  | [] => []
  | x :: l' => if f x then dropWhile f l' else l
  end.

(** The instructions of [I]'s block above [I], nearest first: the order in
    which the backwards scans of the checker meet them. *)
Definition instsAbove (F : SILFunction) (BB : SILBasicBlock)
    (I : SILInstructionPtr) : list SILInstruction :=
  rev (takeWhile (fun X => negb (InstPtr X =? I)) (getBlockInsts F BB)).

(** The uses of the results of [I]: the users, once per operand slot. *)
Definition usesOfValue (V : SILValue) (I : SILInstructionPtr) : bool :=
  bool_decide (ValDef V = DefInst I).

Definition getUsers (F : SILFunction) (I : SILInstructionPtr)
  : list SILInstruction :=
  flat_map (fun X =>
              map (fun _ => X)
                  (filter (fun V => usesOfValue V I = true)
                          (getOperands (InstKindOf X))))
           (allInsts F).

Definition hasOneUse (F : SILFunction) (I : SILInstructionPtr) : bool :=
  length (getUsers F I) =? 1.


(** ** The instruction builder *)

(** A [SILBuilder]: the block and the instruction it inserts before
    ([None]: at the end of the block), and the list that tracks what it
    inserted when the client asked for it. *)
Record SILBuilder : Type := mkSILBuilder {
  InsertBB : SILBasicBlock;
  InsertPt : option SILInstructionPtr;
  InsertedInsts : list SILInstructionPtr
}.

Abbreviation Building := (M (SILFunction * SILBuilder)).

Definition updateBlock (F : SILFunction) (BB : SILBasicBlock)
    (f : list SILInstruction -> list SILInstruction) : SILFunction :=
  mkSILFunction
    (map (fun b => if fst b =? BB then (fst b, f (snd b)) else b) (Blocks F))
    (FnLocation F) (NextPtr F).

Definition insertAt (Pt : option SILInstructionPtr) (X : SILInstruction)
    (Insts : list SILInstruction) : list SILInstruction :=
  match Pt with
  | None => Insts ++ [X]
  | Some P =>
      takeWhile (fun Y => negb (InstPtr Y =? P)) Insts ++ X ::
      dropWhile (fun Y => negb (InstPtr Y =? P)) Insts
  end.

(** Allocate an instruction at the insertion point. *)
Definition insertInst (K : InstKind) (Loc : SILLocation)
  : Building SILInstructionPtr :=
  fun s =>
    let F := fst s in
    let B := snd s in
    let P := NextPtr F in
    let X := mkSILInstruction P K Loc in
    let F' := updateBlock F (InsertBB B) (insertAt (InsertPt B) X) in
    Ok (P, (mkSILFunction (Blocks F') (FnLocation F') (S P),
            mkSILBuilder (InsertBB B) (InsertPt B) (InsertedInsts B ++ [P]))).

Definition resultOf (I : SILInstructionPtr) (n : nat) (Ty : SILType) : SILValue :=
  mkSILValue (DefInst I) n Ty.

Definition getObjectType (Ty : SILType) : SILType :=
  mkSILType (TyIsTrivial Ty) false (TyIntWidth Ty).

Definition getAddressType (Ty : SILType) : SILType :=
  mkSILType (TyIsTrivial Ty) true (TyIntWidth Ty).

Definition createStore (Loc : SILLocation) (Src Dest : SILValue)
  : Building SILInstructionPtr :=
  insertInst (StoreInst Src Dest) Loc.

Definition createLoad (Loc : SILLocation) (Addr : SILValue) : Building SILValue :=
  I <- insertInst (LoadInst Addr) Loc ;;
  ret (resultOf I 0 (getObjectType (ValType Addr))).

(** Modelled from the spec: [SILBuilder::emitReleaseValueOperation], the
    "release old" of the assign lowering; it is applied to a value of
    non-trivial type and is taken to emit one release of that value. *)
Definition emitReleaseValueOperation (Loc : SILLocation) (V : SILValue)
  : Building unit :=
  insertInst (ReleaseValueInst V) Loc ;;; ret tt.

(** Modelled from the spec: [SILBuilder::emitDestroyAddr], "destroy the
    element in place"; it is taken to emit one [destroy_addr] and to
    return it. *)
Definition emitDestroyAddr (Loc : SILLocation) (Ptr : SILValue)
  : Building (option SILInstructionPtr) :=
  I <- insertInst (DestroyAddrInst Ptr) Loc ;; ret (Some I).

Definition createDeallocStack (Loc : SILLocation) (V : SILValue)
  : Building SILInstructionPtr :=
  insertInst (DeallocStackInst V) Loc.

Definition createDeallocRef (Loc : SILLocation) (V : SILValue)
  : Building SILInstructionPtr :=
  insertInst (DeallocRefInst V) Loc.

Definition createDeallocBox (Loc : SILLocation) (Ty : SILType) (V : SILValue)
  : Building SILInstructionPtr :=
  insertInst (DeallocBoxInst Ty V) Loc.

Definition createIntegerLiteral (Loc : SILLocation) (Ty : SILType) (V : N)
  : Building SILValue :=
  I <- insertInst (IntegerLiteralInst Ty V) Loc ;; ret (resultOf I 0 Ty).

Definition createBuiltin (Loc : SILLocation) (Name : string) (Ty : SILType)
    (Args : list SILValue) : Building SILValue :=
  I <- insertInst (BuiltinInst Name Ty Args) Loc ;; ret (resultOf I 0 Ty).

Definition createBranch (Loc : SILLocation) (Dest : SILBasicBlock)
  : Building SILInstructionPtr :=
  insertInst (BranchInst Dest) Loc.

Definition createCondBranch (Loc : SILLocation) (Cond : SILValue)
    (TrueBB FalseBB : SILBasicBlock) : Building SILInstructionPtr :=
  insertInst (CondBranchInst Cond TrueBB FalseBB) Loc.

(** [alloc_stack] has two results: the container and the address. *)
Definition createAllocStack (Loc : SILLocation) (Ty : SILType)
  : Building SILInstructionPtr :=
  insertInst (AllocStackInst Ty) Loc.

Definition onFunction {A} (f : SILFunction -> Outcome (A * SILFunction))
  : Building A :=
  fun s => match f (fst s) with
           | Ok (a, F) => Ok (a, (F, snd s))
           | AssertFail => AssertFail
           | OutOfFuel => OutOfFuel
           end.

Definition getInsertionBB : Building SILBasicBlock :=
  gets (fun s => InsertBB (snd s)).

Definition getInsertionPoint : Building (option SILInstructionPtr) :=
  gets (fun s => InsertPt (snd s)).

Definition setBuilderPoint (BB : SILBasicBlock) (Pt : option SILInstructionPtr)
  : Building unit :=
  modify (fun s => (fst s, mkSILBuilder BB Pt (InsertedInsts (snd s)))).

(** [setInsertionPoint(Inst)]: before [Inst], in its block. *)
Definition setInsertionPointInst (I : SILInstructionPtr) : Building unit :=
  F <- gets fst ;;
  BB <- deref (getParent F I) ;;
  setBuilderPoint BB (Some I).

(** [setInsertionPoint(BB)]: at the end of [BB]. *)
Definition setInsertionPointEnd (BB : SILBasicBlock) : Building unit :=
  setBuilderPoint BB None.

(** [setInsertionPoint(BB, BB->begin())]. *)
Definition setInsertionPointBegin (BB : SILBasicBlock) : Building unit :=
  F <- gets fst ;;
  setBuilderPoint BB (InstPtr <$> head (getBlockInsts F BB)).

(** [Inst->eraseFromParent()]. *)
Definition eraseFromParent (I : SILInstructionPtr) (F : SILFunction)
  : SILFunction :=
  match getParent F I with
  | Some BB =>
      updateBlock F BB
        (fun Insts => filter (fun X => InstPtr X <> I) Insts)
  | None => F
  end.

(** [BB->splitBasicBlock(I)]: a new block, placed after [BB], takes the
    instructions of [BB] from the insertion point on. *)
Definition splitBasicBlock (BB : SILBasicBlock) (Pt : option SILInstructionPtr)
    (F : SILFunction) : SILBasicBlock * SILFunction :=
  let NewBB := NextPtr F in
  let before Insts :=
    match Pt with
    | None => Insts
    | Some P => takeWhile (fun Y => negb (InstPtr Y =? P)) Insts
    end in
  let after Insts :=
    match Pt with
    | None => []
    | Some P => dropWhile (fun Y => negb (InstPtr Y =? P)) Insts
    end in
  (NewBB,
   mkSILFunction
     (flat_map (fun b => if fst b =? BB
                         then [(fst b, before (snd b)); (NewBB, after (snd b))]
                         else [b]) (Blocks F))
     (FnLocation F) (S NewBB)).

(** [new (Module) SILBasicBlock(F)] followed by [B.moveBlockTo(New, Before)]:
    an empty block placed just before [Before]. *)
Definition createBlockBefore (Before : SILBasicBlock) (F : SILFunction)
  : SILBasicBlock * SILFunction :=
  let NewBB := NextPtr F in
  (NewBB,
   mkSILFunction
     (flat_map (fun b => if fst b =? Before then [(NewBB, []); b] else [b])
               (Blocks F))
     (FnLocation F) (S NewBB)).

(** [LowerAssignInstruction]: the sequence an assign lowers to once it is
    known to be an initialization or an assignment. *)
Definition LowerAssignInstruction (Inst : SILInstruction)
    (isInitialization : bool) : Building unit :=
  match InstKindOf Inst with
  | AssignInst Src Dest =>
      (if isInitialization || TyIsTrivial (ValType Dest) then
         createStore (InstLoc Inst) Src Dest ;;; ret tt
       else
         IncomingVal <- createLoad (InstLoc Inst) Dest ;;
         createStore (InstLoc Inst) Src Dest ;;;
         emitReleaseValueOperation (InstLoc Inst) IncomingVal) ;;;
      modify (fun s => (eraseFromParent (InstPtr Inst) (fst s), snd s))
  | _ => fun _ => AssertFail
  end.

(** [InsertCFGDiamond]: split the block at the insertion point, create the
    true block and, when the client wants one, the false block, and branch
    on [Cond].  It returns the true, false and continuation blocks and
    leaves the builder at the start of the continuation. *)
Definition InsertCFGDiamond (Cond : SILValue) (Loc : SILLocation)
    (WantFalseBB : bool)
  : Building (SILBasicBlock * option SILBasicBlock * SILBasicBlock) :=
  StartBB <- getInsertionBB ;;
  Pt <- getInsertionPoint ;;
  ContBB <- (fun s => let r := splitBasicBlock StartBB Pt (fst s) in
                      Ok (fst r, (snd r, snd s))) ;;
  TrueBB <- (fun s => let r := createBlockBefore ContBB (fst s) in
                      Ok (fst r, (snd r, snd s))) ;;
  setInsertionPointEnd TrueBB ;;;
  createBranch Loc ContBB ;;;
  FalseBB <-
    (if WantFalseBB then
       FalseDest <- (fun s => let r := createBlockBefore ContBB (fst s) in
                              Ok (fst r, (snd r, snd s))) ;;
       setInsertionPointEnd FalseDest ;;;
       createBranch Loc ContBB ;;;
       ret (Some FalseDest)
     else ret None) ;;
  let FalseDest := match FalseBB with Some B => B | None => ContBB end in
  setInsertionPointEnd StartBB ;;;
  createCondBranch Loc Cond TrueBB FalseDest ;;;
  setInsertionPointBegin ContBB ;;;
  ret (TrueBB, FalseBB, ContBB).

(** ** Uses, the memory object, and diagnostics *)

Inductive DIUseKind : Type :=
  | Load | IndirectIn | InOutUse | Initialization | Assign | InitOrAssign
  | PartialStore | Escape | SuperInit | SelfInit.

#[global] Instance DIUseKind_eq_dec : EqDecision DIUseKind.
Proof. solve_decision. Defined.

Module DIMemoryUse.
(** [Inst] is [None] once the instruction was expanded away ([nullptr]). *)
Record t : Type := mk {
  Inst : option SILInstructionPtr;
  Kind : DIUseKind;
  FirstElement : nat;
  NumElements : nat
}.
End DIMemoryUse.

Abbreviation DIMemoryUse := DIMemoryUse.t.

Module DIMemoryObjectInfo.
(** The description of the memory object.  Its class is declared in the
    use collector, outside this file: what the checker reads from it is
    taken as given here, field by field. *)
Record t : Type := mk {
  MemoryInst : SILInstructionPtr;
  NumElements : nat;
  getNumMemoryElements : nat;
  MemorySILTypeIsTrivial : bool;
  getLoc : SILLocation;
  isAnyInitSelf : bool;
  isDelegatingInit : bool;
  isEnumInitSelf : bool;
  isClassInitSelf : bool;
  isDerivedClassSelf : bool;
  isAnyDerivedClassSelf : bool;
  isElementLetProperty : nat -> bool;
  getPathStringToElement : nat -> string * option ValueDecl;
  ElementTypeIsTrivial : nat -> bool
}.
End DIMemoryObjectInfo.

Abbreviation DIMemoryObjectInfo := DIMemoryObjectInfo.t.

(** Modelled from the spec: [DIMemoryUse::onlyTouchesTrivialElements] of the
    use collector, "the window is entirely trivial-typed". *)
Definition onlyTouchesTrivialElements (U : DIMemoryUse)
    (TheMemory : DIMemoryObjectInfo) : bool :=
  forallb (DIMemoryObjectInfo.ElementTypeIsTrivial TheMemory)
          (seq (DIMemoryUse.FirstElement U) (DIMemoryUse.NumElements U)).

Inductive DiagID : Type :=
  | variable_used_before_initialized
  | variable_inout_before_initialized
  | variable_escape_before_initialized
  | variable_addrtaken_before_initialized
  | global_variable_function_use_uninit
  | struct_not_fully_initialized
  | immutable_property_already_initialized
  | immutable_property_passed_inout
  | initial_value_provided_in_let_decl
  | stored_property_not_initialized
  | selfinit_multiple_times
  | superselfinit_not_called_before_return
  | self_use_before_fully_init
  | use_of_self_before_fully_init
  | return_from_init_without_initing_self
  | return_from_init_without_initing_stored_properties
  | return_from_init_without_self_init
  | self_use_before_init_in_delegatinginit
  | ivar_not_initialized_at_superinit
  | ivar_not_initialized_at_implicit_superinit
  | self_before_superselfinit
  | object_not_fully_initialized_before_failure
  | variable_defined_here.

#[global] Instance DiagID_eq_dec : EqDecision DiagID.
Proof. solve_decision. Defined.

Inductive DiagArg : Type :=
  | ArgString (s : string)
  | ArgUnsigned (n : nat)
  | ArgBool (b : bool).

(** One call of [Diags.diagnose(loc.getSourceLoc(), Diagnostic(args...))]. *)
Record Diagnostic : Type := mkDiagnostic {
  DiagLoc : SourceLoc;
  DiagKind : DiagID;
  DiagArgs : list DiagArg
}.

(** ** The lifetime checker *)

Record LifetimeChecker : Type := mkLifetimeChecker {
  (** The function being checked, and the diagnostics emitted so far. *)
  Fn : SILFunction;
  Diags : list Diagnostic;
  TheMemory : DIMemoryObjectInfo;
  Uses : list DIMemoryUse;
  Releases : list (option SILInstructionPtr);
  ConditionalDestroys : list (nat * AvailabilitySet);
  PerBlockInfo : PerBlockInfoMap;
  NonLoadUses : gmap SILInstructionPtr N;
  HasConditionalInitAssignOrDestroys : bool;
  EmittedErrorLocs : list SourceLoc;
  BlocksReachableFromEntry : gset SILBasicBlock
}.

Definition set_Fn (F : SILFunction) (C : LifetimeChecker) : LifetimeChecker :=
  mkLifetimeChecker F (Diags C) (TheMemory C) (Uses C) (Releases C)
    (ConditionalDestroys C) (PerBlockInfo C) (NonLoadUses C)
    (HasConditionalInitAssignOrDestroys C) (EmittedErrorLocs C)
    (BlocksReachableFromEntry C).

Definition set_Diags (D : list Diagnostic) (C : LifetimeChecker) : LifetimeChecker :=
  mkLifetimeChecker (Fn C) D (TheMemory C) (Uses C) (Releases C)
    (ConditionalDestroys C) (PerBlockInfo C) (NonLoadUses C)
    (HasConditionalInitAssignOrDestroys C) (EmittedErrorLocs C)
    (BlocksReachableFromEntry C).

Definition set_Uses (U : list DIMemoryUse) (C : LifetimeChecker) : LifetimeChecker :=
  mkLifetimeChecker (Fn C) (Diags C) (TheMemory C) U (Releases C)
    (ConditionalDestroys C) (PerBlockInfo C) (NonLoadUses C)
    (HasConditionalInitAssignOrDestroys C) (EmittedErrorLocs C)
    (BlocksReachableFromEntry C).

Definition set_Releases (R : list (option SILInstructionPtr))
    (C : LifetimeChecker) : LifetimeChecker :=
  mkLifetimeChecker (Fn C) (Diags C) (TheMemory C) (Uses C) R
    (ConditionalDestroys C) (PerBlockInfo C) (NonLoadUses C)
    (HasConditionalInitAssignOrDestroys C) (EmittedErrorLocs C)
    (BlocksReachableFromEntry C).

Definition set_ConditionalDestroys (CD : list (nat * AvailabilitySet))
    (C : LifetimeChecker) : LifetimeChecker :=
  mkLifetimeChecker (Fn C) (Diags C) (TheMemory C) (Uses C) (Releases C)
    CD (PerBlockInfo C) (NonLoadUses C)
    (HasConditionalInitAssignOrDestroys C) (EmittedErrorLocs C)
    (BlocksReachableFromEntry C).

Definition set_PerBlockInfo (PBI : PerBlockInfoMap) (C : LifetimeChecker)
  : LifetimeChecker :=
  mkLifetimeChecker (Fn C) (Diags C) (TheMemory C) (Uses C) (Releases C)
    (ConditionalDestroys C) PBI (NonLoadUses C)
    (HasConditionalInitAssignOrDestroys C) (EmittedErrorLocs C)
    (BlocksReachableFromEntry C).

Definition set_NonLoadUses (NLU : gmap SILInstructionPtr N)
    (C : LifetimeChecker) : LifetimeChecker :=
  mkLifetimeChecker (Fn C) (Diags C) (TheMemory C) (Uses C) (Releases C)
    (ConditionalDestroys C) (PerBlockInfo C) NLU
    (HasConditionalInitAssignOrDestroys C) (EmittedErrorLocs C)
    (BlocksReachableFromEntry C).

Definition set_HasConditionalInitAssignOrDestroys (b : bool)
    (C : LifetimeChecker) : LifetimeChecker :=
  mkLifetimeChecker (Fn C) (Diags C) (TheMemory C) (Uses C) (Releases C)
    (ConditionalDestroys C) (PerBlockInfo C) (NonLoadUses C)
    b (EmittedErrorLocs C) (BlocksReachableFromEntry C).

Definition set_EmittedErrorLocs (L : list SourceLoc) (C : LifetimeChecker)
  : LifetimeChecker :=
  mkLifetimeChecker (Fn C) (Diags C) (TheMemory C) (Uses C) (Releases C)
    (ConditionalDestroys C) (PerBlockInfo C) (NonLoadUses C)
    (HasConditionalInitAssignOrDestroys C) L (BlocksReachableFromEntry C).

Definition set_BlocksReachableFromEntry (B : gset SILBasicBlock)
    (C : LifetimeChecker) : LifetimeChecker :=
  mkLifetimeChecker (Fn C) (Diags C) (TheMemory C) (Uses C) (Releases C)
    (ConditionalDestroys C) (PerBlockInfo C) (NonLoadUses C)
    (HasConditionalInitAssignOrDestroys C) (EmittedErrorLocs C) B.

Abbreviation Checker := (M LifetimeChecker).

(** Run a method of the per-block map inside the checker. *)
Definition liftPBI {A} (m : M PerBlockInfoMap A) : Checker A :=
  fun C => match m (PerBlockInfo C) with
           | Ok (a, PBI) => Ok (a, set_PerBlockInfo PBI C)
           | AssertFail => AssertFail
           | OutOfFuel => OutOfFuel
           end.

(** The static [diagnose] helper. *)
Definition diagnose (loc : SILLocation) (ID : DiagID) (Args : list DiagArg)
  : Checker unit :=
  modify (fun C =>
            set_Diags (Diags C ++ [mkDiagnostic (getSourceLoc loc) ID Args]) C).

(** [SILLocation(Decl)]. *)
Definition SILLocation_ofDecl (D : ValueDecl) : SILLocation :=
  mkSILLocation false (DeclLoc D).

(** The bound handed to the live-out recursion: one more than the number
    of blocks of the function. *)
Definition liveOutFuel (F : SILFunction) : nat := S (length (Blocks F)).

(** [~0U], the entry of the memory instruction in [NonLoadUses]. *)
Definition AllOnesUnsigned : N := 4294967295%N.


(** [LiveOutBlockState::markAvailable].  The loop after the peeled first
    store runs [i] from [1] until it equals [Use.NumElements]; with a use
    of no element the unsigned counter runs off the end of the vector. *)
Definition markAvailable (s : LiveOutBlockState) (U : DIMemoryUse)
  : Outcome LiveOutBlockState :=
  if AvSet.empty (Availability s) then Ok s
  else
    let A := AvSet.set (Availability s) (DIMemoryUse.FirstElement U) Yes in
    if DIMemoryUse.NumElements U =? 0 then AssertFail
    else Ok (setAvailability s
               (fold_left (fun A i =>
                             AvSet.set A (DIMemoryUse.FirstElement U + i) Yes)
                          (seq 1 (DIMemoryUse.NumElements U - 1)) A)).

(** One iteration of the constructor's loop over the uses. *)
Definition LifetimeChecker_collect (ui : nat) : Checker unit :=
  C <- gets id ;;
  U <- deref (Uses C !! ui) ;;
  I <- deref (DIMemoryUse.Inst U) ;;
  if decide (DIMemoryUse.Kind U = Load \/ DIMemoryUse.Kind U = Escape)
  then ret tt
  else
    modify (fun C => set_NonLoadUses (<[I := N.of_nat ui]> (NonLoadUses C)) C) ;;;
    BB <- deref (getParent (Fn C) I) ;;
    BBInfo <- liftPBI (getBlockInfo (DIMemoryObjectInfo.NumElements (TheMemory C)) BB) ;;
    let BBInfo := setHasNonLoadUse BBInfo true in
    BBInfo <- liftOutcome (markAvailable BBInfo U) ;;
    let BBInfo :=
      if AvSet.isAllYes (Availability BBInfo) then setLOState BBInfo IsKnown
      else BBInfo in
    liftPBI (modify (insert BB BBInfo)).

(** The constructor [LifetimeChecker::LifetimeChecker]. *)
Definition LifetimeChecker_new (F : SILFunction) (TheMemory : DIMemoryObjectInfo)
    (Uses : list DIMemoryUse) (Releases : list (option SILInstructionPtr))
  : Outcome LifetimeChecker :=
  let C0 := mkLifetimeChecker F [] TheMemory Uses Releases [] ∅ ∅ false [] ∅ in
  let body : Checker unit :=
    forEach (seq 0 (length Uses)) LifetimeChecker_collect ;;;
    let MemoryInst := DIMemoryObjectInfo.MemoryInst TheMemory in
    modify (fun C =>
              set_NonLoadUses (<[MemoryInst := AllOnesUnsigned]> (NonLoadUses C)) C) ;;;
    BB <- deref (getParent F MemoryInst) ;;
    MemBBInfo <- liftPBI (getBlockInfo (DIMemoryObjectInfo.NumElements TheMemory) BB) ;;
    let MemBBInfo := setHasNonLoadUse MemBBInfo true in
    let MemBBInfo :=
      setAvailability MemBBInfo
        (AvSet.changeUnsetElementsTo (Availability MemBBInfo) No) in
    liftPBI (modify (insert BB (setLOState MemBBInfo IsKnown))) in
  match body C0 with
  | Ok (_, C) => Ok C
  | AssertFail => AssertFail
  | OutOfFuel => OutOfFuel
  end.

(** [NeededElements]: a [SmallBitVector] with one bit per element, and
    its [set(I, E)] and [reset(I, E)].  Past the end the source asserts
    and this model writes nothing; the theorems on [getLivenessAtInst]
    carry the bound that keeps the window inside the object. *)
Definition setRange (d : list bool) (lo hi : nat) (b : bool) : list bool :=
  fold_left (fun d i => AvSet.setbit d i b) (seq lo (hi - lo)) d.

Definition noneSet (d : list bool) : bool := forallb negb d.

(** The backwards scan of the single-element case of [getLivenessAtInst]:
    the first instruction above that is in [NonLoadUses]. *)
Definition scanLocal1 (NLU : gmap SILInstructionPtr N)
    (Above : list SILInstruction) : option SILInstructionPtr :=
  InstPtr <$> find (fun X => bool_decide (is_Some (NLU !! InstPtr X))) Above.

(** The backwards scan of the general case: either the answer is decided
    in the block ([inl]), or the elements still needed remain ([inr]). *)
Fixpoint scanLocalN (NLU : gmap SILInstructionPtr N) (Uses : list DIMemoryUse)
    (MemoryInst : SILInstructionPtr) (FirstElt NumElts : nat)
    (Above : list SILInstruction) (Result : AvailabilitySet)
    (NeededElements : list bool)
  : Outcome (AvailabilitySet + list bool) :=
  match Above with
  | [] => Ok (inr NeededElements)
  | TheInst :: Above =>
      match NLU !! InstPtr TheInst with
      | None =>
          scanLocalN NLU Uses MemoryInst FirstElt NumElts Above Result
            NeededElements
      | Some Idx =>
          if decide (InstPtr TheInst = MemoryInst) then
            Ok (inl (fold_left
                       (fun R i =>
                          AvSet.set R i
                            (if AvSet.bit NeededElements i then No else Yes))
                       (seq FirstElt NumElts) Result))
          else
            match Uses !! N.to_nat Idx with
            | None => AssertFail
            | Some TheInstUse =>
                let NeededElements :=
                  setRange NeededElements
                    (DIMemoryUse.FirstElement TheInstUse)
                    (DIMemoryUse.FirstElement TheInstUse
                     + DIMemoryUse.NumElements TheInstUse) false in
                if noneSet NeededElements then
                  Ok (inl (AvSet.changeUnsetElementsTo Result Yes))
                else
                  scanLocalN NLU Uses MemoryInst FirstElt NumElts Above
                    Result NeededElements
            end
      end
  end.

(** [getLivenessAtInst]: the liveness of the elements of the window
    [[FirstElt, FirstElt+NumElts)] just before [Inst]. *)
Definition getLivenessAtInst (Inst : SILInstructionPtr)
    (FirstElt NumElts : nat) : Checker AvailabilitySet :=
  C <- gets id ;;
  let N := DIMemoryObjectInfo.NumElements (TheMemory C) in
  let MemoryInst := DIMemoryObjectInfo.MemoryInst (TheMemory C) in
  let Result := AvSet.new N in
  if NumElts =? 0 then ret Result
  else
    InstBB <- deref (getParent (Fn C) Inst) ;;
    let Preds := getPredsOf (Fn C) in
    let Fuel := liveOutFuel (Fn C) in
    BBInfo <- liftPBI (getBlockInfo N InstBB) ;;
    let Above :=
      if HasNonLoadUse BBInfo then instsAbove (Fn C) InstBB Inst else [] in
    if N =? 1 then
      match scanLocal1 (NonLoadUses C) Above with
      | Some TheInst =>
          ret (AvSet.set Result 0
                 (if decide (TheInst = MemoryInst) then No else Yes))
      | None =>
          ResultVal <- liftPBI (getPredsLiveOut1 N Preds Fuel InstBB None) ;;
          let ResultVal :=
            match ResultVal with None => Some Yes | Some K => Some K end in
          ret (AvSet.set_optional Result 0 ResultVal)
      end
    else
      let NeededElements :=
        setRange (replicate N false) FirstElt (FirstElt + NumElts) true in
      Scan <- liftOutcome (scanLocalN (NonLoadUses C) (Uses C) MemoryInst
                            FirstElt NumElts Above Result NeededElements) ;;
      match Scan with
      | inl Result => ret Result
      | inr NeededElements =>
          Result <- liftPBI (getPredsLiveOutN N Preds Fuel InstBB Result) ;;
          ret (fold_left
                 (fun R i =>
                    if negb (AvSet.bit NeededElements i)
                       || negb (hasValue (AvSet.getConditional R i))
                    then AvSet.set R i Yes else R)
                 (seq FirstElt NumElts) Result)
      end.

(** [isInitializedAtUse]: the answer, and what it stores in
    [*SuperInitDone] when the caller passes a pointer for it
    ([WantSuperInitDone]). *)
Definition isInitializedAtUse (U : DIMemoryUse) (WantSuperInitDone : bool)
  : Checker (bool * bool) :=
  C <- gets id ;;
  I <- deref (DIMemoryUse.Inst U) ;;
  Liveness <- getLivenessAtInst I (DIMemoryUse.FirstElement U)
                (DIMemoryUse.NumElements U) ;;
  SuperInitDone <-
    (if WantSuperInitDone
        && (DIMemoryUse.FirstElement U + DIMemoryUse.NumElements U
            =? DIMemoryObjectInfo.NumElements (TheMemory C))
        && DIMemoryObjectInfo.isAnyDerivedClassSelf (TheMemory C)
     then
       K <- liftOutcome (AvSet.get Liveness (AvSet.size Liveness - 1)) ;;
       ret (DIKind_eqb K Yes)
     else ret true) ;;
  (fix check (l : list nat) : Checker (bool * bool) :=
     match l with
     | [] => ret (true, SuperInitDone)
     | i :: l =>
         K <- liftOutcome (AvSet.get Liveness i) ;;
         if negb (DIKind_eqb K Yes) then ret (false, SuperInitDone)
         else check l
     end) (seq (DIMemoryUse.FirstElement U) (DIMemoryUse.NumElements U)).


(** ** Diagnostics *)

(** Run the builder [B] on the function of the checker. *)
Definition building {A} (B : SILBuilder) (m : Building A)
  : Checker (A * SILBuilder) :=
  fun C => match m (Fn C, B) with
           | Ok (a, (F, B')) => Ok ((a, B'), set_Fn F C)
           | AssertFail => AssertFail
           | OutOfFuel => OutOfFuel
           end.

(** [SILBuilder B(Inst)]: a builder that inserts before [Inst]. *)
Definition builderAt (F : SILFunction) (I : SILInstructionPtr)
  : option SILBuilder :=
  (fun BB => mkSILBuilder BB (Some I) []) <$> getParent F I.

(** The worklist loop of [isBlockIsReachableFromEntry]; every block enters
    the worklist at most once, which bounds the number of rounds. *)
Fixpoint reachableLoop (fuel : nat) (F : SILFunction)
    (Worklist : list SILBasicBlock) (Reached : gset SILBasicBlock)
  : Outcome (gset SILBasicBlock) :=
  match rev Worklist with
  | [] => Ok Reached
  | BB :: Rest =>
      match fuel with
      | O => OutOfFuel
      | S fuel =>
          let step (acc : list SILBasicBlock * gset SILBasicBlock)
                   (Succ : SILBasicBlock) :=
            if decide (Succ ∈ snd acc) then acc
            else (fst acc ++ [Succ], {[Succ]} ∪ snd acc) in
          let acc := fold_left step (getSuccsOf F BB) (rev Rest, Reached) in
          reachableLoop fuel F (fst acc) (snd acc)
      end
  end.

Definition isBlockIsReachableFromEntry (BB : SILBasicBlock) : Checker bool :=
  C <- gets id ;;
  (if decide (BlocksReachableFromEntry C = ∅) then
     Entry <- deref (fst <$> head (Blocks (Fn C))) ;;
     R <- liftOutcome
            (reachableLoop (2 + 2 * length (Blocks (Fn C))) (Fn C)
               [Entry] {[Entry]}) ;;
     modify (set_BlocksReachableFromEntry R)
   else ret tt) ;;;
  C <- gets id ;;
  ret (bool_decide (BB ∈ BlocksReachableFromEntry C)).

(** [shouldEmitError]: [false] if an error was already emitted at the
    location of [Inst] (or the block is dead); otherwise the location is
    remembered and the answer is [true]. *)
Definition shouldEmitError (Inst : SILInstructionPtr) : Checker bool :=
  F <- gets Fn ;;
  I <- deref (getInst F Inst) ;;
  BB <- deref (getParent F Inst) ;;
  Reachable <- isBlockIsReachableFromEntry BB ;;
  if negb Reachable then ret false
  else
    C <- gets id ;;
    let L := getSourceLoc (InstLoc I) in
    if existsb (fun L' => L' =? L) (EmittedErrorLocs C) then ret false
    else
      modify (fun C => set_EmittedErrorLocs (EmittedErrorLocs C ++ [L]) C) ;;;
      ret true.

(** The location of the instruction of a use. *)
Definition getLocOf (Inst : SILInstructionPtr) : Checker SILLocation :=
  F <- gets Fn ;;
  I <- deref (getInst F Inst) ;;
  ret (InstLoc I).

Definition noteUninitializedMembers (U : DIMemoryUse) : Checker unit :=
  C <- gets id ;;
  let TM := TheMemory C in
  assert (DIMemoryObjectInfo.isAnyInitSelf TM
          && negb (DIMemoryObjectInfo.isDelegatingInit TM)) ;;;
  Inst <- deref (DIMemoryUse.Inst U) ;;
  Liveness <- getLivenessAtInst Inst (DIMemoryUse.FirstElement U)
                (DIMemoryUse.NumElements U) ;;
  forEach (seq (DIMemoryUse.FirstElement U) (DIMemoryUse.NumElements U))
    (fun i =>
       K <- liftOutcome (AvSet.get Liveness i) ;;
       if DIKind_eqb K Yes then ret tt
       else if (i =? DIMemoryObjectInfo.NumElements TM - 1)
               && DIMemoryObjectInfo.isDerivedClassSelf TM then ret tt
       else
         let (Name, Decl) := DIMemoryObjectInfo.getPathStringToElement TM i in
         InstLoc <- getLocOf Inst ;;
         let Loc :=
           match Decl with
           | Some D => if negb (DeclIsImplicit D) then SILLocation_ofDecl D
                       else InstLoc
           | None => InstLoc
           end in
         diagnose Loc stored_property_not_initialized [ArgString Name]).

(** The loop of [getUninitElementName]: the first element of the window
    that is not Yes; running past the window is the failed assertion. *)
Fixpoint firstUndefElement (Liveness : AvailabilitySet) (l : list nat)
  : Outcome nat :=
  match l with
  | [] => AssertFail
  | i :: l =>
      match AvSet.get Liveness i with
      | Ok K => if DIKind_eqb K Yes then firstUndefElement Liveness l else Ok i
      | AssertFail => AssertFail
      | OutOfFuel => OutOfFuel
      end
  end.

Definition getUninitElementName (U : DIMemoryUse) : Checker string :=
  C <- gets id ;;
  let TM := TheMemory C in
  Inst <- deref (DIMemoryUse.Inst U) ;;
  Liveness <- getLivenessAtInst Inst (DIMemoryUse.FirstElement U)
                (DIMemoryUse.NumElements U) ;;
  FirstUndefElement <-
    liftOutcome (firstUndefElement Liveness
                   (seq (DIMemoryUse.FirstElement U)
                        (DIMemoryUse.NumElements U))) ;;
  assert (negb (DIMemoryObjectInfo.isDerivedClassSelf TM)
          || negb (FirstUndefElement
                   =? DIMemoryObjectInfo.NumElements TM - 1)) ;;;
  ret (fst (DIMemoryObjectInfo.getPathStringToElement TM FirstUndefElement)).

Definition diagnoseInitError (U : DIMemoryUse) (DiagMessage : DiagID)
  : Checker unit :=
  Inst <- deref (DIMemoryUse.Inst U) ;;
  Emit <- shouldEmitError Inst ;;
  if negb Emit then ret tt
  else
    Name <- getUninitElementName U ;;
    C <- gets id ;;
    InstLoc <- getLocOf Inst ;;
    let DiagLoc :=
      if LocIsNull InstLoc || SourceLoc_isInvalid (getSourceLoc InstLoc)
      then FnLocation (Fn C) else InstLoc in
    diagnose DiagLoc DiagMessage [ArgString Name] ;;;
    if negb (DIMemoryObjectInfo.isAnyInitSelf (TheMemory C)) then
      diagnose (DIMemoryObjectInfo.getLoc (TheMemory C)) variable_defined_here []
    else ret tt.

(** ** Lowering a store once its state is known *)

Definition setUse (UseID : nat) (U : DIMemoryUse) : Checker unit :=
  modify (fun C => set_Uses (<[UseID := U]> (Uses C)) C).

Definition setUseKind (U : DIMemoryUse) (K : DIUseKind) : DIMemoryUse :=
  DIMemoryUse.mk (DIMemoryUse.Inst U) K (DIMemoryUse.FirstElement U)
    (DIMemoryUse.NumElements U).

Definition setUseInst (U : DIMemoryUse) (I : option SILInstructionPtr)
  : DIMemoryUse :=
  DIMemoryUse.mk I (DIMemoryUse.Kind U) (DIMemoryUse.FirstElement U)
    (DIMemoryUse.NumElements U).

Definition setInstKind (I : SILInstructionPtr) (K : InstKind)
    (F : SILFunction) : SILFunction :=
  mkSILFunction
    (map (fun b =>
            (fst b,
             map (fun X => if InstPtr X =? I
                           then mkSILInstruction (InstPtr X) K (InstLoc X)
                           else X) (snd b))) (Blocks F))
    (FnLocation F) (NextPtr F).

(** The loop of [updateInstructionForInitState] over the instructions the
    lowering inserted. *)
Definition recordInserted (Kind : DIUseKind) (FirstElement NumElements : nat)
    (I : SILInstructionPtr) : Checker unit :=
  F <- gets Fn ;;
  X <- deref (getInst F I) ;;
  match InstKindOf X with
  | StoreInst _ _ =>
      modify (fun C =>
                set_NonLoadUses
                  (<[I := N.of_nat (length (Uses C))]> (NonLoadUses C)) C) ;;;
      modify (fun C =>
                set_Uses (Uses C ++
                          [DIMemoryUse.mk (Some I) Kind FirstElement NumElements]) C)
  | LoadInst _ =>
      modify (fun C =>
                set_Uses (Uses C ++
                          [DIMemoryUse.mk (Some I) Load FirstElement NumElements]) C)
  | _ => ret tt
  end.

(** [updateInstructionForInitState], on the use at index [UseID]. *)
Definition updateInstructionForInitState (UseID : nat) : Checker unit :=
  C <- gets id ;;
  InstInfo <- deref (Uses C !! UseID) ;;
  Inst <- deref (DIMemoryUse.Inst InstInfo) ;;
  X <- deref (getInst (Fn C) Inst) ;;
  InitKind <-
    (if decide (DIMemoryUse.Kind InstInfo = Initialization
                \/ DIMemoryUse.Kind InstInfo = SelfInit)
     then ret true
     else assert (bool_decide (DIMemoryUse.Kind InstInfo = Assign)) ;;;
          ret false) ;;
  match InstKindOf X with
  | CopyAddrInst Src Dest IsInit =>
      assert (negb IsInit) ;;;
      modify (fun C => set_Fn (setInstKind Inst (CopyAddrInst Src Dest InitKind)
                                 (Fn C)) C)
  | StoreWeakInst Src Dest IsInit =>
      assert (negb IsInit) ;;;
      modify (fun C => set_Fn (setInstKind Inst (StoreWeakInst Src Dest InitKind)
                                 (Fn C)) C)
  | AssignInst _ _ =>
      let Kind := DIMemoryUse.Kind InstInfo in
      setUse UseID (setUseInst InstInfo None) ;;;
      modify (fun C => set_NonLoadUses (delete Inst (NonLoadUses C)) C) ;;;
      let FirstElement := DIMemoryUse.FirstElement InstInfo in
      let NumElements := DIMemoryUse.NumElements InstInfo in
      B <- deref (builderAt (Fn C) Inst) ;;
      r <- building B (LowerAssignInstruction X InitKind) ;;
      forEach (InsertedInsts (snd r))
        (recordInserted Kind FirstElement NumElements)
  | StoreInst _ _ => ret tt
  | _ => fun _ => AssertFail
  end.

(** The first loop of [handleStoreUse]: is every element of the window
    [Yes], and is every element [No]. *)
Fixpoint windowFlags (Liveness : AvailabilitySet) (l : list nat)
    (isFullyInitialized isFullyUninitialized : bool) : Checker (bool * bool) :=
  match l with
  | [] => ret (isFullyInitialized, isFullyUninitialized)
  | i :: l =>
      DI <- liftOutcome (AvSet.get Liveness i) ;;
      windowFlags Liveness l
        (if negb (DIKind_eqb DI Yes) then false else isFullyInitialized)
        (if negb (DIKind_eqb DI No) then false else isFullyUninitialized)
  end.

(** The second loop of [handleStoreUse]: the first element of the window
    that is a [let] property and is not known to be uninitialized. *)
Fixpoint findInitializedLet (TM : DIMemoryObjectInfo)
    (Liveness : AvailabilitySet) (l : list nat) : Checker (option nat) :=
  match l with
  | [] => ret None
  | i :: l =>
      DI <- liftOutcome (AvSet.get Liveness i) ;;
      if DIKind_eqb DI No
         || negb (DIMemoryObjectInfo.isElementLetProperty TM i)
      then findInitializedLet TM Liveness l else ret (Some i)
  end.

(** [handleStoreUse]. *)
Definition handleStoreUse (UseID : nat) : Checker unit :=
  C <- gets id ;;
  let TM := TheMemory C in
  InstInfo <- deref (Uses C !! UseID) ;;
  Inst <- deref (DIMemoryUse.Inst InstInfo) ;;
  let Window := seq (DIMemoryUse.FirstElement InstInfo)
                    (DIMemoryUse.NumElements InstInfo) in
  Liveness <- getLivenessAtInst Inst (DIMemoryUse.FirstElement InstInfo)
                (DIMemoryUse.NumElements InstInfo) ;;
  flags <- windowFlags Liveness Window true true ;;
  let isFullyInitialized := fst flags in
  let isFullyUninitialized := snd flags in
  if bool_decide (DIMemoryUse.Kind InstInfo = PartialStore)
     && negb isFullyInitialized then
    assert (DIMemoryUse.NumElements InstInfo =? 1) ;;;
    diagnoseInitError InstInfo struct_not_fully_initialized
  else
    LetElt <-
      (if bool_decide (DIMemoryUse.Kind InstInfo = PartialStore)
          || negb isFullyUninitialized then
         findInitializedLet TM Liveness Window
       else ret None) ;;
    match LetElt with
    | Some i =>
        let (PropertyName, VD) :=
          DIMemoryObjectInfo.getPathStringToElement TM i in
        InstLoc <- getLocOf Inst ;;
        diagnose InstLoc immutable_property_already_initialized
          [ArgString PropertyName] ;;;
        match VD with
        | Some D =>
            if DeclIsVarWithInitPattern D then
              diagnose (SILLocation_ofDecl D)
                initial_value_provided_in_let_decl []
            else ret tt
        | None => fun _ => AssertFail
        end
    | None =>
        if isFullyUninitialized then
          setUse UseID (setUseKind InstInfo Initialization) ;;;
          updateInstructionForInitState UseID
        else if isFullyInitialized then
          setUse UseID (setUseKind InstInfo Assign) ;;;
          updateInstructionForInitState UseID
        else
          assert (bool_decide (DIMemoryUse.Kind InstInfo = InitOrAssign)) ;;;
          if negb (onlyTouchesTrivialElements InstInfo TM) then
            modify (set_HasConditionalInitAssignOrDestroys true)
          else ret tt
    end.

(** [handleInOutUse]. *)
Definition handleInOutUse (U : DIMemoryUse) : Checker unit :=
  C <- gets id ;;
  let TM := TheMemory C in
  r <- isInitializedAtUse U false ;;
  if negb (fst r) then diagnoseInitError U variable_inout_before_initialized
  else
    match find (DIMemoryObjectInfo.isElementLetProperty TM)
               (seq (DIMemoryUse.FirstElement U) (DIMemoryUse.NumElements U)) with
    | None => ret tt
    | Some i =>
        Inst <- deref (DIMemoryUse.Inst U) ;;
        InstLoc <- getLocOf Inst ;;
        diagnose InstLoc immutable_property_passed_inout
          [ArgString (fst (DIMemoryObjectInfo.getPathStringToElement TM i))]
    end.

(** ** Load failures, [super.init] and [self.init] *)

Definition isLoadInst (K : InstKind) : bool :=
  match K with LoadInst _ => true | _ => false end.
Definition isReturnInst (K : InstKind) : bool :=
  match K with ReturnInst _ => true | _ => false end.
Definition isApplyInst (K : InstKind) : bool :=
  match K with ApplyInst _ _ => true | _ => false end.
Definition isUpcastInst (K : InstKind) : bool :=
  match K with UpcastInst _ => true | _ => false end.
Definition isAssignInst (K : InstKind) : bool :=
  match K with AssignInst _ _ => true | _ => false end.
Definition isStoreInst (K : InstKind) : bool :=
  match K with StoreInst _ _ => true | _ => false end.
Definition isAllocBoxInst (K : InstKind) : bool :=
  match K with AllocBoxInst _ => true | _ => false end.

(** The instruction that defines a value, if an instruction does. *)
Definition getDefInst (F : SILFunction) (V : SILValue) : option SILInstruction :=
  match ValDef V with
  | DefInst P => getInst F P
  | DefArg _ => None
  end.

(** [LI->hasOneUse()] and the one user is a [ReturnInst]. *)
Definition soleUserIsReturn (F : SILFunction) (I : SILInstructionPtr) : bool :=
  hasOneUse F I &&
  match head (getUsers F I) with
  | Some User => isReturnInst (InstKindOf User)
  | None => false
  end.

(** The scan of [handleLoadUseFailure] over the users of an upcast: the
    first [apply] and the first [class_method]; any other user ends the
    scan and forgets the [class_method]. *)
Fixpoint scanUpcastUsers (Users : list SILInstruction)
    (AI : option SILInstruction) (CMI : option SILInstruction)
  : option SILInstruction * option SILInstruction :=
  match Users with
  | [] => (AI, CMI)
  | User :: Users =>
      if isApplyInst (InstKindOf User) && negb (hasValue AI) then
        scanUpcastUsers Users (Some User) CMI
      else
        match InstKindOf User with
        | ClassMethodInst _ _ =>
            if negb (hasValue CMI) then scanUpcastUsers Users AI (Some User)
            else (AI, None)
        | _ => (AI, None)
        end
  end.

Definition memberOf (X : SILInstruction) : option FuncDecl :=
  match InstKindOf X with
  | ClassMethodInst _ Member => Member
  | _ => None
  end.

(** The method a failed load use calls, when the checker recognizes one. *)
Definition findMethod (F : SILFunction) (X : SILInstruction)
    (isClassInitSelf : bool) : option FuncDecl :=
  let Method :=
    if isUpcastInst (InstKindOf X) then
      match scanUpcastUsers (getUsers F (InstPtr X)) None None with
      | (Some _, Some CMI) => memberOf CMI
      | _ => None
      end
    else None in
  if isApplyInst (InstKindOf X) && isClassInitSelf then
    match head (getOperands (InstKindOf X)) with
    | Some Callee =>
        match InstKindOf <$> getDefInst F Callee with
        | Some (ClassMethodInst _ Member) => Member
        | Some (FunctionRefInst D) => D
        | _ => Method
        end
    | None => Method
    end
  else Method.

(** [if (!shouldEmitError(Inst)) return; diagnose(...); rest]. *)
Definition emitAt (Inst : SILInstructionPtr) (ID : DiagID)
    (Args : list DiagArg) (rest : Checker unit) : Checker unit :=
  Emit <- shouldEmitError Inst ;;
  if negb Emit then ret tt
  else
    Loc <- getLocOf Inst ;;
    diagnose Loc ID Args ;;;
    rest.

Definition handleLoadUseFailure (U : DIMemoryUse) (IsSuperInitComplete : bool)
  : Checker unit :=
  C <- gets id ;;
  let TM := TheMemory C in
  let F := Fn C in
  Inst <- deref (DIMemoryUse.Inst U) ;;
  X <- deref (getInst F Inst) ;;
  let unsignedOf (b : bool) := ArgUnsigned (if b then 1 else 0) in
  if isLoadInst (InstKindOf X) && soleUserIsReturn F Inst
     && DIMemoryObjectInfo.isEnumInitSelf TM then
    emitAt Inst return_from_init_without_initing_self [] (ret tt)
  else if isLoadInst (InstKindOf X) && soleUserIsReturn F Inst
          && DIMemoryObjectInfo.isAnyInitSelf TM
          && negb (DIMemoryObjectInfo.isClassInitSelf TM)
          && negb (DIMemoryObjectInfo.isDelegatingInit TM) then
    emitAt Inst return_from_init_without_initing_stored_properties []
      (noteUninitializedMembers U)
  else if isReturnInst (InstKindOf X)
          && DIMemoryObjectInfo.isAnyInitSelf TM then
    if negb IsSuperInitComplete then
      emitAt Inst superselfinit_not_called_before_return
        [unsignedOf (DIMemoryObjectInfo.isDelegatingInit TM)] (ret tt)
    else
      emitAt Inst return_from_init_without_initing_stored_properties []
        (noteUninitializedMembers U)
  else
    let REI :=
      if isUpcastInst (InstKindOf X) && hasOneUse F Inst
         && negb IsSuperInitComplete then
        match InstKindOf <$> head (getUsers F Inst) with
        | Some (RefElementAddrInst _ Field) => Some Field
        | _ => None
        end
      else None in
    match REI with
    | Some Field =>
        emitAt Inst self_use_before_fully_init
          [ArgString Field; ArgBool true; ArgBool true] (ret tt)
    | None =>
        match findMethod F X (DIMemoryObjectInfo.isClassInitSelf TM) with
        | Some Method =>
            let Name :=
              if FnIsAccessor Method then FnAccessorStorageName Method
              else FnName Method in
            emitAt Inst self_use_before_fully_init
              [ArgString Name; ArgBool (FnIsAccessor Method);
               ArgBool (negb IsSuperInitComplete)]
              (if IsSuperInitComplete then noteUninitializedMembers U
               else ret tt)
        | None =>
            if negb IsSuperInitComplete then
              emitAt Inst self_before_superselfinit
                [unsignedOf (DIMemoryObjectInfo.isDelegatingInit TM)] (ret tt)
            else if isApplyInst (InstKindOf X)
                    && DIMemoryObjectInfo.isClassInitSelf TM then
              emitAt Inst use_of_self_before_fully_init []
                (noteUninitializedMembers U)
            else if isLoadInst (InstKindOf X)
                    && DIMemoryObjectInfo.isAnyInitSelf TM
                    && negb (DIMemoryObjectInfo.isClassInitSelf TM) then
              emitAt Inst use_of_self_before_fully_init []
                (noteUninitializedMembers U)
            else diagnoseInitError U variable_used_before_initialized
        end
    end.

Definition handleSuperInitUse (InstInfo : DIMemoryUse) : Checker unit :=
  C <- gets id ;;
  let TM := TheMemory C in
  let N := DIMemoryObjectInfo.NumElements TM in
  Inst <- deref (DIMemoryUse.Inst InstInfo) ;;
  X <- deref (getInst (Fn C) Inst) ;;
  assert (isApplyInst (InstKindOf X)) ;;;
  Liveness <- getLivenessAtInst Inst 0 N ;;
  K <- liftOutcome (AvSet.get Liveness (N - 1)) ;;
  match K with
  | Yes | Partial =>
      emitAt Inst selfinit_multiple_times [ArgUnsigned 0] (ret tt)
  | No =>
      (fix check (l : list nat) : Checker unit :=
         match l with
         | [] => ret tt
         | i :: l =>
             Ki <- liftOutcome (AvSet.get Liveness i) ;;
             if DIKind_eqb Ki Yes then check l
             else
               let isImplicit :=
                 SourceLoc_isInvalid (getSourceLoc (InstLoc X)) in
               diagnoseInitError InstInfo
                 (if isImplicit then ivar_not_initialized_at_implicit_superinit
                  else ivar_not_initialized_at_superinit)
         end) (seq 0 (N - 1))
  end.

Definition handleSelfInitUse (UseID : nat) : Checker unit :=
  C <- gets id ;;
  let TM := TheMemory C in
  InstInfo <- deref (Uses C !! UseID) ;;
  Inst <- deref (DIMemoryUse.Inst InstInfo) ;;
  X <- deref (getInst (Fn C) Inst) ;;
  assert (DIMemoryObjectInfo.NumElements TM =? 1) ;;;
  Liveness <- getLivenessAtInst Inst 0 1 ;;
  K <- liftOutcome (AvSet.get Liveness 0) ;;
  match K with
  | Yes | Partial =>
      C <- gets id ;;
      match EmittedErrorLocs C with
      | [] => emitAt Inst selfinit_multiple_times [ArgUnsigned 1] (ret tt)
      | _ => ret tt
      end
  | No =>
      match InstKindOf X with
      | CopyAddrInst Src Dest _ =>
          modify (fun C => set_Fn (setInstKind Inst (CopyAddrInst Src Dest true)
                                     (Fn C)) C)
      | AssignInst _ _ => updateInstructionForInitState UseID
      | _ => ret tt
      end
  end.

(** ** Releases and the runtime liveness bitmap *)

(** Modelled from the spec: [DIMemoryObjectInfo::emitElementAddress], the
    address of element [Elt]; it is taken to emit one address projection
    at the insertion point. *)
Definition emitElementAddress (TM : DIMemoryObjectInfo) (Elt : nat)
    (Loc : SILLocation) : Building SILValue :=
  P <- insertInst (ElementAddrInst Elt) Loc ;;
  ret (resultOf P 0
         (mkSILType (DIMemoryObjectInfo.ElementTypeIsTrivial TM Elt) true 0)).

(** Modelled from the spec: [DIMemoryUse::getElementBitmask], "a bitmask of
    the touched element indices". *)
Definition getElementBitmask (U : DIMemoryUse) : N :=
  fold_left (fun m i => N.lor m (N.shiftl 1 (N.of_nat i)))
            (seq (DIMemoryUse.FirstElement U) (DIMemoryUse.NumElements U)) 0%N.

Definition isAllOnesValue (Width : nat) (V : N) : bool :=
  (V =? N.ones (N.of_nat Width))%N.

Definition getBinaryFunction (Name : string) (IntSILTy : SILType) : string :=
  Name +:+ "_Int" +:+ pretty (TyIntWidth IntSILTy).

Definition getTruncateToI1Function (IntSILTy : SILType) : string :=
  "trunc_Int" +:+ pretty (TyIntWidth IntSILTy) +:+ "_Int1".

(** The condition both rewrites build from the loaded bitmap: shift it
    right by [Elt] unless [Elt] is 0, and truncate to one bit, unless the
    memory object has a single element. *)
Definition emitElementCondition (Loc : SILLocation) (NumMemoryElements Elt : nat)
    (Mask : SILValue) : Building SILValue :=
  if negb (NumMemoryElements =? 1) then
    CondVal <-
      (if negb (Elt =? 0) then
         Amt <- createIntegerLiteral Loc (ValType Mask) (N.of_nat Elt) ;;
         createBuiltin Loc (getBinaryFunction "lshr" (ValType Mask))
           (ValType Mask) [Mask; Amt]
       else ret Mask) ;;
    createBuiltin Loc (getTruncateToI1Function (ValType Mask))
      (getBuiltinIntegerType 1) [CondVal]
  else ret Mask.

Definition pushRelease (DA : option SILInstructionPtr) : Checker unit :=
  match DA with
  | Some P => modify (fun C => set_Releases (Releases C ++ [Some P]) C)
  | None => ret tt
  end.

(** A builder whose insertion point is set before it is used. *)
Definition freshBuilder : SILBuilder := mkSILBuilder 0 None [].

(** The instruction after [P] in its block. *)
Definition getNextNode (F : SILFunction) (P : SILInstructionPtr)
  : option SILInstructionPtr :=
  match getParent F P with
  | Some BB =>
      InstPtr <$>
        head (tail (dropWhile (fun X => negb (InstPtr X =? P))
                      (getBlockInsts F BB)))
  | None => None
  end.

(** The dealloc_ref (and dealloc_box) emitted for a class [self] at an
    early release; it returns the dealloc_ref. *)
Definition emitClassSelfDealloc (F : SILFunction) (Release : SILInstruction)
  : Building (SILInstructionPtr * option SILInstructionPtr) :=
  Op0 <- deref (head (getOperands (InstKindOf Release))) ;;
  let OperandBox :=
    match InstKindOf <$> getDefInst F Op0 with
    | Some (AllocBoxInst Ty) => Some Ty
    | _ => None
    end in
  let Pointer :=
    match OperandBox with
    | Some Ty => mkSILValue (ValDef Op0) 1 (getAddressType Ty)
    | None => Op0
    end in
  Pointer <-
    (if TyIsAddress (ValType Pointer) then createLoad (InstLoc Release) Pointer
     else ret Pointer) ;;
  Dealloc <- createDeallocRef (InstLoc Release) Pointer ;;
  DB <-
    (match OperandBox with
     | Some _ =>
         DB <- createDeallocBox (InstLoc Release) (ValType Pointer) Op0 ;;
         ret (Some DB)
     | None => ret None
     end) ;;
  ret (Dealloc, DB).

Section Rewrites.

(** [recursivelyDeleteTriviallyDeadInstructions] of the pass utilities,
    which are not part of this file: taken as given. *)
Variable recursivelyDeleteTriviallyDeadInstructions :
  SILInstructionPtr -> SILFunction -> SILFunction.

Definition deleteDeadAddress (Addr : SILValue) : Checker unit :=
  match ValDef Addr with
  | DefInst AddrI =>
      modify (fun C =>
                set_Fn (recursivelyDeleteTriviallyDeadInstructions AddrI (Fn C)) C)
  | DefArg _ => ret tt
  end.

Definition processNonTrivialRelease (ReleaseID : nat) : Checker unit :=
  C <- gets id ;;
  let TM := TheMemory C in
  Slot <- deref (Releases C !! ReleaseID) ;;
  Release <- deref Slot ;;
  X <- deref (getInst (Fn C) Release) ;;
  match InstKindOf X with
  | DeallocStackInst _ | DeallocBoxInst _ _ | DeallocRefInst _ => ret tt
  | StrongReleaseInst Op | DestroyAddrInst Op =>
      Availability <-
        getLivenessAtInst Release 0 (DIMemoryObjectInfo.NumElements TM) ;;
      if AvSet.isAllYes Availability then ret tt
      else
        (if DIMemoryObjectInfo.isClassInitSelf TM then
           diagnose (InstLoc X) object_not_fully_initialized_before_failure []
         else ret tt) ;;;
        if AvSet.isAllNo Availability then
          if DIMemoryObjectInfo.isClassInitSelf TM then
            B <- deref (builderAt (Fn C) Release) ;;
            r <- building B (emitClassSelfDealloc (Fn C) X) ;;
            pushRelease (snd (fst r)) ;;;
            modify (fun C =>
                      set_Releases
                        (<[ReleaseID := Some (fst (fst r))]> (Releases C)) C) ;;;
            modify (fun C => set_Fn (eraseFromParent Release (Fn C)) C)
          else
            assert (match InstKindOf X with DestroyAddrInst _ => true
                                          | _ => false end) ;;;
            modify (fun C => set_Fn (eraseFromParent Release (Fn C)) C) ;;;
            deleteDeadAddress Op ;;;
            modify (fun C =>
                      set_Releases (<[ReleaseID := None]> (Releases C)) C)
        else
          (if AvSet.hasAny Availability Partial then
             modify (set_HasConditionalInitAssignOrDestroys true)
           else ret tt) ;;;
          modify (fun C =>
                    set_ConditionalDestroys
                      (ConditionalDestroys C ++ [(ReleaseID, Availability)]) C)
  | _ => fun _ => AssertFail
  end.

(** The body of the element loop of [handleConditionalInitAssign] at an
    ambiguous store: test bit [Elt] and destroy the element if it is set. *)
Definition destroyIfLive (Inst : SILInstructionPtr) (Loc : SILLocation)
    (Bitmask : SILValue) (Elt : nat) : Checker unit :=
  C <- gets id ;;
  let TM := TheMemory C in
  r <- building freshBuilder
         (setInsertionPointInst Inst ;;;
          CondVal <- emitElementCondition Loc
                       (DIMemoryObjectInfo.getNumMemoryElements TM) Elt Bitmask ;;
          BBs <- InsertCFGDiamond CondVal Loc false ;;
          setInsertionPointBegin (fst (fst BBs)) ;;;
          EltPtr <- emitElementAddress TM Elt Loc ;;
          emitDestroyAddr Loc EltPtr) ;;
  pushRelease (fst r).

(** The loop of [handleConditionalInitAssign] over the uses, from index
    [i].  An ambiguous store is made an initialization and its index is
    visited again; each use is visited at most twice and adds at most one
    use, which bounds the number of rounds. *)
Fixpoint conditionalInitAssignLoop (fuel i : nat) (Loc : SILLocation)
    (IVType : SILType) (AllocAddr : SILValue) : Checker unit :=
  match fuel with
  | O => fun _ => OutOfFuel
  | S fuel =>
      C <- gets id ;;
      let TM := TheMemory C in
      if i =? length (Uses C) then ret tt
      else
        U <- deref (Uses C !! i) ;;
        let next := conditionalInitAssignLoop fuel (S i) Loc IVType AllocAddr in
        match DIMemoryUse.Inst U, DIMemoryUse.Kind U with
        | None, _ => next
        | Some Inst, Initialization =>
            if onlyTouchesTrivialElements U TM then next
            else
              building freshBuilder
                (setInsertionPointInst Inst ;;;
                 let Bitmask := getElementBitmask U in
                 MaskVal <- createIntegerLiteral Loc IVType Bitmask ;;
                 MaskVal <-
                   (if negb (isAllOnesValue
                               (DIMemoryObjectInfo.getNumMemoryElements TM)
                               Bitmask) then
                      Tmp <- createLoad Loc AllocAddr ;;
                      createBuiltin Loc (getBinaryFunction "or" (ValType Tmp))
                        (ValType Tmp) [Tmp; MaskVal]
                    else ret MaskVal) ;;
                 createStore Loc MaskVal AllocAddr) ;;;
              next
        | Some Inst, InitOrAssign =>
            if onlyTouchesTrivialElements U TM then next
            else
              r <- building freshBuilder
                     (setInsertionPointInst Inst ;;;
                      createLoad Loc AllocAddr) ;;
              forEach (seq (DIMemoryUse.FirstElement U)
                           (DIMemoryUse.NumElements U))
                (destroyIfLive Inst Loc (fst r)) ;;;
              setUse i (setUseKind U Initialization) ;;;
              updateInstructionForInitState i ;;;
              conditionalInitAssignLoop fuel i Loc IVType AllocAddr
        | Some _, _ => next
        end
  end.

Definition handleConditionalInitAssign : Checker SILValue :=
  C <- gets id ;;
  let TM := TheMemory C in
  let Loc := DIMemoryObjectInfo.getLoc TM in
  let NumMemoryElements := DIMemoryObjectInfo.getNumMemoryElements TM in
  let IVType := getBuiltinIntegerType NumMemoryElements in
  Entry <- deref (fst <$> head (Blocks (Fn C))) ;;
  r <- building freshBuilder
         (setInsertionPointBegin Entry ;;;
          Alloc <- createAllocStack Loc IVType ;;
          F <- gets fst ;;
          forEach (Blocks F)
            (fun b =>
               match last (snd b) with
               | Some T =>
                   if isReturnInst (InstKindOf T) then
                     setInsertionPointInst (InstPtr T) ;;;
                     createDeallocStack Loc
                       (resultOf Alloc 0 (getAddressType IVType)) ;;;
                     ret tt
                   else ret tt
               | None => fun _ => AssertFail
               end) ;;;
          F <- gets fst ;;
          Next <- deref (getNextNode F (DIMemoryObjectInfo.MemoryInst TM)) ;;
          setInsertionPointInst Next ;;;
          let AllocAddr := resultOf Alloc 1 (getAddressType IVType) in
          Zero <- createIntegerLiteral Loc IVType 0 ;;
          createStore Loc Zero AllocAddr ;;;
          ret AllocAddr) ;;
  let AllocAddr := fst r in
  conditionalInitAssignLoop (3 * length (Uses C) + 1) 0 Loc IVType AllocAddr ;;;
  ret AllocAddr.

(** The body of the element loop of [handleConditionalDestroys]; it
    returns the loaded bitmap, if one was loaded so far. *)
Definition destroyElement (ControlVariableAddr : option SILValue)
    (Release : SILInstruction) (Availability : AvailabilitySet)
    (LoadedMask : option SILValue) (Elt : nat) : Checker (option SILValue) :=
  C <- gets id ;;
  let TM := TheMemory C in
  let Loc := InstLoc Release in
  K <- liftOutcome (AvSet.get Availability Elt) ;;
  match K with
  | No => ret LoadedMask
  | Yes =>
      r <- building freshBuilder
             (setInsertionPointInst (InstPtr Release) ;;;
              EltPtr <- emitElementAddress TM Elt Loc ;;
              emitDestroyAddr (InstLoc Release) EltPtr) ;;
      pushRelease (fst r) ;;;
      ret LoadedMask
  | Partial =>
      r <- building freshBuilder
             (setInsertionPointInst (InstPtr Release) ;;;
              Mask <-
                (match LoadedMask with
                 | Some Mask => ret Mask
                 | None =>
                     Addr <- deref ControlVariableAddr ;;
                     createLoad Loc Addr
                 end) ;;
              CondVal <- emitElementCondition Loc
                           (DIMemoryObjectInfo.getNumMemoryElements TM) Elt Mask ;;
              BBs <- InsertCFGDiamond CondVal Loc false ;;
              setInsertionPointBegin (fst (fst BBs)) ;;;
              EltPtr <- emitElementAddress TM Elt Loc ;;
              DA <- emitDestroyAddr Loc EltPtr ;;
              ret (Mask, DA)) ;;
      pushRelease (snd (fst r)) ;;;
      ret (Some (fst (fst r)))
  end.

(** The element loop of [handleConditionalDestroys] for one release. *)
Fixpoint destroyElements (ControlVariableAddr : option SILValue)
    (Release : SILInstruction) (Availability : AvailabilitySet)
    (LoadedMask : option SILValue) (Elts : list nat)
  : Checker (option SILValue) :=
  match Elts with
  | [] => ret LoadedMask
  | Elt :: Elts =>
      LoadedMask <- destroyElement ControlVariableAddr Release Availability
                      LoadedMask Elt ;;
      destroyElements ControlVariableAddr Release Availability LoadedMask Elts
  end.

(** One round of the loop of [handleConditionalDestroys]. *)
Definition handleConditionalDestroy (ControlVariableAddr : option SILValue)
    (CDElt : nat * AvailabilitySet) : Checker unit :=
  C <- gets id ;;
  let TM := TheMemory C in
  Slot <- deref (Releases C !! fst CDElt) ;;
  ReleasePtr <- deref Slot ;;
  Release <- deref (getInst (Fn C) ReleasePtr) ;;
  Addr <- deref (head (getOperands (InstKindOf Release))) ;;
  destroyElements ControlVariableAddr Release (snd CDElt) None
    (seq 0 (DIMemoryObjectInfo.getNumMemoryElements TM)) ;;;
  (if DIMemoryObjectInfo.isClassInitSelf TM then
     F <- gets Fn ;;
     r <- building freshBuilder
            (setInsertionPointInst ReleasePtr ;;;
             emitClassSelfDealloc F Release) ;;
     pushRelease (snd (fst r))
   else ret tt) ;;;
  modify (fun C => set_Fn (eraseFromParent ReleasePtr (Fn C)) C) ;;;
  deleteDeadAddress Addr.

Definition handleConditionalDestroys (ControlVariableAddr : option SILValue)
  : Checker unit :=
  C <- gets id ;;
  forEach (ConditionalDestroys C) (handleConditionalDestroy ControlVariableAddr).

(** ** The driver of the checker *)

Definition isMarkFunctionEscapeInst (K : InstKind) : bool :=
  match K with MarkFunctionEscapeInst _ => true | _ => false end.
Definition isAddressToPointerInst (K : InstKind) : bool :=
  match K with AddressToPointerInst _ => true | _ => false end.

(** The body of the loop of [doIt] for the use at index [i]. *)
Definition doItUse (i : nat) : Checker unit :=
  C <- gets id ;;
  let TM := TheMemory C in
  U <- deref (Uses C !! i) ;;
  match DIMemoryUse.Inst U with
  | None => ret tt
  | Some Inst =>
      X <- deref (getInst (Fn C) Inst) ;;
      match DIMemoryUse.Kind U with
      | Initialization => ret tt
      | Assign => ret tt
      | InitOrAssign =>
          if isStoreInst (InstKindOf X) then ret tt else handleStoreUse i
      | PartialStore => handleStoreUse i
      | IndirectIn | Load =>
          r <- isInitializedAtUse U true ;;
          if negb (fst r) then handleLoadUseFailure U (snd r) else ret tt
      | InOutUse => handleInOutUse U
      | Escape =>
          r <- isInitializedAtUse U false ;;
          if negb (fst r) then
            if DIMemoryObjectInfo.isDelegatingInit TM then
              if (isLoadInst (InstKindOf X) && soleUserIsReturn (Fn C) Inst)
                 || isReturnInst (InstKindOf X) then
                emitAt Inst return_from_init_without_self_init [] (ret tt)
              else diagnoseInitError U self_use_before_init_in_delegatinginit
            else if isMarkFunctionEscapeInst (InstKindOf X) then
              diagnoseInitError U global_variable_function_use_uninit
            else if isAddressToPointerInst (InstKindOf X) then
              diagnoseInitError U variable_addrtaken_before_initialized
            else diagnoseInitError U variable_escape_before_initialized
          else ret tt
      | SuperInit => handleSuperInitUse U
      | SelfInit => handleSelfInitUse i
      end
  end.

(** The loop of [doIt] over the uses, which grow as assigns are lowered:
    a use adds at most two uses and those add none, which bounds the
    number of rounds. *)
Fixpoint doItLoop (fuel i : nat) : Checker unit :=
  match fuel with
  | O => fun _ => OutOfFuel
  | S fuel =>
      C <- gets id ;;
      if i =? length (Uses C) then ret tt
      else doItUse i ;;; doItLoop fuel (S i)
  end.

(** What [doIt] does once the uses are classified and no error was
    emitted. *)
Definition doItRewrites : Checker unit :=
  C <- gets id ;;
  (if negb (DIMemoryObjectInfo.MemorySILTypeIsTrivial (TheMemory C)) then
     forEach (seq 0 (length (Releases C))) processNonTrivialRelease
   else ret tt) ;;;
  C <- gets id ;;
  ControlVariable <-
    (if HasConditionalInitAssignOrDestroys C then
       V <- handleConditionalInitAssign ;; ret (Some V)
     else ret None) ;;
  C <- gets id ;;
  match ConditionalDestroys C with
  | [] => ret tt
  | _ => handleConditionalDestroys ControlVariable
  end.

Definition doIt : Checker unit :=
  C <- gets id ;;
  doItLoop (3 * length (Uses C) + 1) 0 ;;;
  C <- gets id ;;
  match EmittedErrorLocs C with
  | _ :: _ => ret tt
  | [] => doItRewrites
  end.

End Rewrites.

(** ** Predicates of the statements below *)

(** The tri-state of a block; a block not yet in the map is [IsUnknown],
    as [getBlockInfo] would create it. *)
Definition loState (PBI : PerBlockInfoMap) (BB : SILBasicBlock)
  : LiveOutStateTy :=
  match PBI !! BB with
  | Some s => LOState s
  | None => IsUnknown
  end.

(** A known block caches no Unknown element. *)
Definition KnownIsDefined (PBI : PerBlockInfoMap) : Prop :=
  forall BB s, PBI !! BB = Some s -> LOState s = IsKnown ->
    AvSet.containsUnknownElements (Availability s) = false.

Definition SizesAre (N : nat) (PBI : PerBlockInfoMap) : Prop :=
  forall BB s, PBI !! BB = Some s -> AvSet.size (Availability s) = N.

(** In the single-element case a block whose local fact is Yes is known. *)
Definition LocalYesIsKnown (PBI : PerBlockInfoMap) : Prop :=
  forall BB s, PBI !! BB = Some s ->
    AvSet.getConditional (Availability s) 0 = Some Yes -> LOState s = IsKnown.

(** What a query may do to the map: entries that are known or being
    computed are left as they are, the others end unknown or known. *)
Definition evolves (PBI PBI' : PerBlockInfoMap) : Prop :=
  forall BB,
    match loState PBI BB with
    | IsUnknown => loState PBI' BB <> IsComputingLiveOut
    | _ => PBI' !! BB = PBI !! BB
    end.

Definition allowedTransition (t : LOTransition) : bool :=
  match t with
  | (_, IsUnknown, IsComputingLiveOut)
  | (_, IsComputingLiveOut, IsKnown)
  | (_, IsComputingLiveOut, IsUnknown) => true
  | _ => false
  end.

(** The blocks of [blocks] that are not being computed: the recursion of a
    query goes no deeper than their number. *)
Definition notInProgress (blocks : gset SILBasicBlock) (PBI : PerBlockInfoMap)
  : gset SILBasicBlock :=
  filter (fun BB => loState PBI BB <> IsComputingLiveOut) blocks.

(** A bound on the writes of [LOState] in one query, from the largest
    number [d] of predecessors and the number [k] of blocks not being
    computed. *)
Fixpoint transitionBound (d k : nat) : nat :=
  match k with
  | O => 0
  | S k => 2 + d * transitionBound d k
  end.

(** A set of blocks closed under predecessors: a finite CFG. *)
Definition closedUnderPreds (getPreds : SILBasicBlock -> list SILBasicBlock)
    (blocks : gset SILBasicBlock) : Prop :=
  forall BB P, BB ∈ blocks -> P ∈ getPreds BB -> P ∈ blocks.

Definition eraseLog {A} (r : Outcome (A * (PerBlockInfoMap * list LOTransition)))
  : Outcome (A * PerBlockInfoMap) :=
  match r with
  | Ok (a, s) => Ok (a, fst s)
  | AssertFail => AssertFail
  | OutOfFuel => OutOfFuel
  end.

(** The largest number of predecessors of a block of [blocks]. *)
Definition maxPreds (getPreds : SILBasicBlock -> list SILBasicBlock)
    (blocks : gset SILBasicBlock) : nat :=
  max_list ((fun BB => length (getPreds BB)) <$> elements blocks).

(** ** A small CFG with a loop, for the examples

    Block 0 is the entry, blocks 1 and 2 form a loop entered from 0. *)
Definition loopPreds (BB : SILBasicBlock) : list SILBasicBlock :=
  match BB with
  | 1 => [0; 2]
  | 2 => [1]
  | _ => []
  end.

Definition loopBlocks : gset SILBasicBlock := {[0; 1; 2]}.

(** [C] differs from [C0] in the per-block map at most. *)
Definition framePBI (C0 C : LifetimeChecker) : Prop :=
  C = set_PerBlockInfo (PerBlockInfo C) C0.

(** Every entry of [NonLoadUses] but the one of the memory instruction
    indexes [Uses]. *)
Definition NonLoadUsesValid (C : LifetimeChecker) : Prop :=
  forall I Idx,
    NonLoadUses C !! I = Some Idx ->
    I <> DIMemoryObjectInfo.MemoryInst (TheMemory C) ->
    N.to_nat Idx < length (Uses C).

(** The shape the constructor gives the checker and its methods keep. *)
Definition CheckerWf (C : LifetimeChecker) : Prop :=
  SizesAre (DIMemoryObjectInfo.NumElements (TheMemory C)) (PerBlockInfo C) /\
  KnownIsDefined (PerBlockInfo C) /\
  (DIMemoryObjectInfo.NumElements (TheMemory C) = 1 ->
     LocalYesIsKnown (PerBlockInfo C)) /\
  NonLoadUsesValid C.

(** ** A function with a conditional initialization, for the examples

    [var x : T] of non-trivial type is stored to in block 1 only, stored to
    again in block 3 where both paths join, and destroyed there. *)

Definition exLoc (n : nat) : SILLocation := mkSILLocation false n.

Definition exObjectTy : SILType := mkSILType false false 0.
Definition exAddressTy : SILType := mkSILType false true 0.

Definition exMemory : SILValue := mkSILValue (DefInst 10) 0 exAddressTy.
Definition exArg : SILValue := mkSILValue (DefArg 0) 0 exObjectTy.
Definition exCond : SILValue := mkSILValue (DefArg 1) 0 (getBuiltinIntegerType 1).
Definition exBox : SILValue := mkSILValue (DefArg 2) 0 exAddressTy.

Definition exFunction : SILFunction :=
  mkSILFunction
    [ (0, [mkSILInstruction 10 (MarkUninitializedInst exBox) (exLoc 100);
           mkSILInstruction 11 (CondBranchInst exCond 1 2) (exLoc 101)]);
      (1, [mkSILInstruction 20 (AssignInst exArg exMemory) (exLoc 102);
           mkSILInstruction 21 (BranchInst 3) (exLoc 103)]);
      (2, [mkSILInstruction 30 (BranchInst 3) (exLoc 104)]);
      (3, [mkSILInstruction 40 (AssignInst exArg exMemory) (exLoc 105);
           mkSILInstruction 41 (DestroyAddrInst exMemory) (exLoc 106);
           mkSILInstruction 42 (ReturnInst exArg) (exLoc 107)]) ]
    (exLoc 99) 1000.

(** The memory object: a local variable of one element; [isLet] says
    whether that element is a [let]. *)
Definition exMemoryInfo (isLet : bool) : DIMemoryObjectInfo :=
  DIMemoryObjectInfo.mk 10 1 1 false (exLoc 100)
    false false false false false false
    (fun _ => isLet)
    (fun _ => ("x"%string, Some (mkValueDecl false 100 false)))
    (fun _ => false).

Definition exUses : list DIMemoryUse :=
  [DIMemoryUse.mk (Some 20) InitOrAssign 0 1;
   DIMemoryUse.mk (Some 40) InitOrAssign 0 1].

Definition exReleases : list (option nat) := [Some 41].

(** The checker the constructor builds ([C0] if it were to fail). *)
Definition checkerOf (F : SILFunction) (TM : DIMemoryObjectInfo)
    (Us : list DIMemoryUse) (Rs : list (option nat)) : LifetimeChecker :=
  match LifetimeChecker_new F TM Us Rs with
  | Ok C => C
  | _ => mkLifetimeChecker F [] TM Us Rs [] ∅ ∅ false [] ∅
  end.

Definition exChecker : LifetimeChecker :=
  checkerOf exFunction (exMemoryInfo false) exUses exReleases.

(** The release of the example, the blocks before it, and the address of
    a liveness bitmap. *)
Definition exRelease : SILInstruction :=
  mkSILInstruction 41 (DestroyAddrInst exMemory) (exLoc 106).

Definition exBlocksAbove : list (nat * list SILInstruction) :=
  [ (0, [mkSILInstruction 10 (MarkUninitializedInst exBox) (exLoc 100);
         mkSILInstruction 11 (CondBranchInst exCond 1 2) (exLoc 101)]);
    (1, [mkSILInstruction 20 (AssignInst exArg exMemory) (exLoc 102);
         mkSILInstruction 21 (BranchInst 3) (exLoc 103)]);
    (2, [mkSILInstruction 30 (BranchInst 3) (exLoc 104)]) ].

Definition exControlVariable : SILValue :=
  mkSILValue (DefArg 3) 0 (mkSILType true true 1).

(** A function shown with one block in focus: the blocks before it, the
    block [BB] with its instructions, the blocks after it. *)
Definition focusBlock (Bs1 : list (nat * list SILInstruction)) (BB : nat)
    (Insts : list SILInstruction) (Bs2 : list (nat * list SILInstruction))
    (FLoc : SILLocation) (Next : nat) : SILFunction :=
  mkSILFunction (Bs1 ++ (BB, Insts) :: Bs2) FLoc Next.

(** No instruction of [Insts] has the address [P]. *)
Definition absentFrom (P : nat) (Insts : list SILInstruction) : Prop :=
  Forall (fun X => InstPtr X <> P) Insts.

(** What an assign lowers to: the instructions that replace it, given the
    first unused address. *)
Definition loweredAssign (Src Dest : SILValue) (Loc : SILLocation)
    (isInitialization : bool) (Next : nat) : list SILInstruction :=
  if isInitialization || TyIsTrivial (ValType Dest) then
    [mkSILInstruction Next (StoreInst Src Dest) Loc]
  else
    [mkSILInstruction Next (LoadInst Dest) Loc;
     mkSILInstruction (S Next) (StoreInst Src Dest) Loc;
     mkSILInstruction (S (S Next))
       (ReleaseValueInst (resultOf Next 0 (getObjectType (ValType Dest)))) Loc].

(** The focused block and the pointer [P] in it are set apart from the
    rest of the function, and every address in use is below [Next]. *)
Definition FocusOK (Bs1 : list (nat * list SILInstruction)) (BB P : nat)
    (pre post : list SILInstruction) (Bs2 : list (nat * list SILInstruction))
    (Next : nat) : Prop :=
  absentFrom P (flat_map snd Bs1) /\ absentFrom P pre /\ absentFrom P post /\
  P < Next /\ BB < Next /\
  Forall (fun b => fst b < Next /\ fst b <> BB) Bs1 /\
  Forall (fun b => fst b < Next /\ fst b <> BB) Bs2.

(** The load of the liveness bitmap at a release, if none was made yet,
    and the value that holds the bitmap. *)
Definition maskLoad (ControlVariableAddr : SILValue) (Loc : SILLocation)
    (LoadedMask : option SILValue) (Next : nat)
  : list SILInstruction * SILValue :=
  match LoadedMask with
  | Some Mask => ([], Mask)
  | None =>
      ([mkSILInstruction Next (LoadInst ControlVariableAddr) Loc],
       resultOf Next 0 (getObjectType (ValType ControlVariableAddr)))
  end.

(** The instructions that test bit [Elt] of the bitmap, and the value
    that holds the condition. *)
Definition conditionInsts (Loc : SILLocation) (NumMemoryElements Elt : nat)
    (Mask : SILValue) (Next : nat) : list SILInstruction * SILValue :=
  let Ty := ValType Mask in
  let I1 := getBuiltinIntegerType 1 in
  if NumMemoryElements =? 1 then ([], Mask)
  else if Elt =? 0 then
    ([mkSILInstruction Next
        (BuiltinInst (getTruncateToI1Function Ty) I1 [Mask]) Loc],
     resultOf Next 0 I1)
  else
    ([mkSILInstruction Next (IntegerLiteralInst Ty (N.of_nat Elt)) Loc;
      mkSILInstruction (S Next)
        (BuiltinInst (getBinaryFunction "lshr" Ty) Ty
           [Mask; resultOf Next 0 Ty]) Loc;
      mkSILInstruction (S (S Next))
        (BuiltinInst (getTruncateToI1Function Ty) I1
           [resultOf (S Next) 0 Ty]) Loc],
     resultOf (S (S Next)) 0 I1).

(** The two instructions that destroy element [Elt] in place. *)
Definition destroyInsts (TM : DIMemoryObjectInfo) (Elt : nat)
    (Loc : SILLocation) (Next : nat) : list SILInstruction :=
  [mkSILInstruction Next (ElementAddrInst Elt) Loc;
   mkSILInstruction (S Next)
     (DestroyAddrInst
        (resultOf Next 0
           (mkSILType (DIMemoryObjectInfo.ElementTypeIsTrivial TM Elt) true 0)))
     Loc].

(** *** What the emitted integer instructions compute

    The builtins are those of [getBinaryFunction] and
    [getTruncateToI1Function]: a logical shift right and a truncation to
    one bit.  An environment gives the value of the first result of the
    instructions executed so far. *)
Definition valueIn (env : gmap nat N) (V : SILValue) : option N :=
  match ValDef V with
  | DefInst P => env !! P
  | DefArg _ => None
  end.

Definition evalBuiltin (Name : string) (Args : list (SILValue * N)) : option N :=
  match Args with
  | [(A, a); (_, b)] =>
      if String.eqb Name (getBinaryFunction "lshr" (ValType A))
      then Some (N.shiftr a b)
      else if String.eqb Name (getBinaryFunction "or" (ValType A))
      then Some (N.lor a b)
      else None
  | [(A, a)] =>
      if String.eqb Name (getTruncateToI1Function (ValType A))
      then Some (a mod 2)%N
      else None
  | _ => None
  end.

Definition execInst (env : gmap nat N) (X : SILInstruction) : gmap nat N :=
  match InstKindOf X with
  | IntegerLiteralInst _ V => <[InstPtr X := V]> env
  | BuiltinInst Name _ Args =>
      match mapM (fun A => (fun a => (A, a)) <$> valueIn env A) Args with
      | Some Vs =>
          match evalBuiltin Name Vs with
          | Some v => <[InstPtr X := v]> env
          | None => env
          end
      | None => env
      end
  | _ => env
  end.

Definition execInsts (env : gmap nat N) (Xs : list SILInstruction)
  : gmap nat N :=
  fold_left execInst Xs env.

(** The loads of the address [Addr] in a function. *)
Definition loadsOf (Addr : SILValue) (F : SILFunction) : list SILInstruction :=
  filter (fun X => InstKindOf X = LoadInst Addr) (allInsts F).

(** The function a partial element leaves behind, on a function focused
    on the release [X]. *)
Definition partialResult (TM : DIMemoryObjectInfo) (Addr : SILValue)
    (LM : option SILValue) (Elt : nat) (Loc : SILLocation)
    (Bs1 : list (nat * list SILInstruction)) (BB : nat)
    (pre : list SILInstruction) (X : SILInstruction)
    (post : list SILInstruction) (Bs2 : list (nat * list SILInstruction))
    (FLoc : SILLocation) (Next : nat) : SILFunction :=
  let ld := maskLoad Addr Loc LM Next in
  let N1 := Next + length (fst ld) in
  let ci := conditionInsts Loc (DIMemoryObjectInfo.getNumMemoryElements TM)
              Elt (snd ld) N1 in
  let N2 := N1 + length (fst ci) in
  focusBlock
    (Bs1 ++ [(BB, pre ++ fst ld ++ fst ci ++
                  [mkSILInstruction (N2 + 3)
                     (CondBranchInst (snd ci) (S N2) N2) Loc]);
             (S N2, destroyInsts TM Elt Loc (N2 + 4) ++
                    [mkSILInstruction (N2 + 2) (BranchInst N2) Loc])])
    N2 ([] ++ X :: post) Bs2 FLoc (N2 + 6).

(** The liveness of element [i] is known to be [K]. *)
Definition kindIs (K : DIKind) (Liveness : AvailabilitySet) (i : nat) : bool :=
  match AvSet.get Liveness i with
  | Ok K' => DIKind_eqb K' K
  | _ => false
  end.

(** Every element of the window is [K]. *)
Definition windowAll (K : DIKind) (Liveness : AvailabilitySet)
    (Window : list nat) : bool :=
  forallb (kindIs K Liveness) Window.

(** The first [let] element of the window that is not [No]. *)
Definition firstInitializedLet (TM : DIMemoryObjectInfo)
    (Liveness : AvailabilitySet) (Window : list nat) : option nat :=
  find (fun i => negb (kindIs No Liveness i)
                 && DIMemoryObjectInfo.isElementLetProperty TM i) Window.

(** What [updateInstructionForInitState] records for one instruction the
    lowering inserted. *)
Definition recordUse (Kind : DIUseKind) (FirstElement NumElements : nat)
    (C : LifetimeChecker) (X : SILInstruction) : LifetimeChecker :=
  match InstKindOf X with
  | StoreInst _ _ =>
      set_Uses (Uses C ++
                [DIMemoryUse.mk (Some (InstPtr X)) Kind FirstElement NumElements])
        (set_NonLoadUses
           (<[InstPtr X := N.of_nat (length (Uses C))]> (NonLoadUses C)) C)
  | LoadInst _ =>
      set_Uses (Uses C ++
                [DIMemoryUse.mk (Some (InstPtr X)) Load FirstElement NumElements])
        C
  | _ => C
  end.

(** The checker after the use [UseID], an assign [X] in focus, got the
    kind [K] and was lowered. *)
Definition loweredUse (UseID : nat) (K : DIUseKind) (U : DIMemoryUse)
    (X : SILInstruction) (Src Dest : SILValue)
    (Bs1 : list (nat * list SILInstruction)) (BB : nat)
    (pre post : list SILInstruction) (Bs2 : list (nat * list SILInstruction))
    (FLoc : SILLocation) (Next : nat) (C : LifetimeChecker) : LifetimeChecker :=
  let isInitialization := bool_decide (K = Initialization) in
  let lowered := loweredAssign Src Dest (InstLoc X) isInitialization Next in
  fold_left
    (recordUse K (DIMemoryUse.FirstElement U) (DIMemoryUse.NumElements U))
    lowered
    (set_Fn (focusBlock Bs1 BB (pre ++ lowered ++ post) Bs2 FLoc
               (Next + length lowered))
       (set_NonLoadUses (delete (InstPtr X) (NonLoadUses C))
          (set_Uses (<[UseID := setUseInst (setUseKind U K) None]> (Uses C)) C))).

(** A second example: the variable is assigned twice on one path. *)
Definition exStraightFunction : SILFunction :=
  mkSILFunction
    [ (0, [mkSILInstruction 10 (MarkUninitializedInst exBox) (exLoc 100);
           mkSILInstruction 20 (AssignInst exArg exMemory) (exLoc 102);
           mkSILInstruction 40 (AssignInst exArg exMemory) (exLoc 105);
           mkSILInstruction 41 (DestroyAddrInst exMemory) (exLoc 106);
           mkSILInstruction 42 (ReturnInst exArg) (exLoc 107)]) ]
    (exLoc 99) 1000.

(** The checker of the second example when the variable is a [let]. *)
Definition exLetChecker : LifetimeChecker :=
  checkerOf exStraightFunction (exMemoryInfo true) exUses exReleases.

(** The liveness at the first assign of the first example, and the
    checker once it is computed. *)
Definition exLiveness : AvailabilitySet * LifetimeChecker :=
  match getLivenessAtInst 20 0 1 exChecker with
  | Ok r => r
  | _ => (AvSet.new 1, exChecker)
  end.

(** The errors the checker emits only after [shouldEmitError] said yes;
    the others are notes, or errors emitted without asking. *)
Definition isGatedError (ID : DiagID) : bool :=
  match ID with
  | immutable_property_already_initialized
  | immutable_property_passed_inout
  | initial_value_provided_in_let_decl
  | stored_property_not_initialized
  | object_not_fully_initialized_before_failure
  | variable_defined_here => false
  | _ => true
  end.

(** The diagnostic [d] answers the remembered location [L]: it is at [L],
    unless [L] is no valid location. *)
Definition answersLoc (d : Diagnostic) (L : nat) : Prop :=
  DiagLoc d = L \/ SourceLoc_isInvalid L = true.

(** The errors emitted after [shouldEmitError] said yes. *)
Definition gatedErrors (C : LifetimeChecker) : list Diagnostic :=
  filter (fun d => isGatedError (DiagKind d)) (Diags C).

(** The remembered locations are distinct, and they are, in order, those
    of the errors emitted after [shouldEmitError] said yes. *)
Definition Aligned (C : LifetimeChecker) : Prop :=
  NoDup (EmittedErrorLocs C) /\
  Forall2 answersLoc (gatedErrors C) (EmittedErrorLocs C).


(** A third example: the variable is read twice before it is set. *)
Definition exLoadFunction : SILFunction :=
  mkSILFunction
    [ (0, [mkSILInstruction 10 (MarkUninitializedInst exBox) (exLoc 100);
           mkSILInstruction 20 (LoadInst exMemory) (exLoc 102);
           mkSILInstruction 40 (LoadInst exMemory) (exLoc 105);
           mkSILInstruction 42 (ReturnInst exArg) (exLoc 107)]) ]
    (exLoc 99) 1000.

Definition exLoadUses : list DIMemoryUse :=
  [DIMemoryUse.mk (Some 20) Load 0 1;
   DIMemoryUse.mk (Some 40) Load 0 1].

Definition exLoadChecker : LifetimeChecker :=
  checkerOf exLoadFunction (exMemoryInfo false) exLoadUses [].

(** A fourth example: a [let] is assigned twice on one path of a branch
    and destroyed where the paths join. *)
Definition exBranchFunction : SILFunction :=
  mkSILFunction
    [ (0, [mkSILInstruction 10 (MarkUninitializedInst exBox) (exLoc 100);
           mkSILInstruction 11 (CondBranchInst exCond 1 2) (exLoc 101)]);
      (1, [mkSILInstruction 20 (AssignInst exArg exMemory) (exLoc 102);
           mkSILInstruction 22 (AssignInst exArg exMemory) (exLoc 108);
           mkSILInstruction 21 (BranchInst 3) (exLoc 103)]);
      (2, [mkSILInstruction 30 (BranchInst 3) (exLoc 104)]);
      (3, [mkSILInstruction 41 (DestroyAddrInst exMemory) (exLoc 106);
           mkSILInstruction 42 (ReturnInst exArg) (exLoc 107)]) ]
    (exLoc 99) 1000.

Definition exBranchUses : list DIMemoryUse :=
  [DIMemoryUse.mk (Some 20) InitOrAssign 0 1;
   DIMemoryUse.mk (Some 22) InitOrAssign 0 1].

Definition exBranchLetChecker : LifetimeChecker :=
  checkerOf exBranchFunction (exMemoryInfo true) exBranchUses exReleases.

(** The loop of [doIt] that classifies the uses. *)
Definition doItClassify : Checker unit :=
  C <- gets id ;; doItLoop (3 * length (Uses C) + 1) 0.

(** Partial-correctness triples: if [m] returns from a state satisfying
    [P], the result and the final state satisfy [Q]. *)
Definition hoare {S A} (P : S -> Prop) (m : M S A) (Q : A -> S -> Prop) : Prop :=
  forall s a s', m s = Ok (a, s') -> P s -> Q a s'.

(** What one logged query from inside [blocks] does, for a map satisfying
    [Inv] and a depth bound above the number of blocks not being computed:
    it returns, appends only allowed transitions to the log, and at most
    as many as the bound allows. *)
Definition queryOk {A} (blocks : gset SILBasicBlock) (d : nat)
    (Inv : PerBlockInfoMap -> Prop)
    (c : SILBasicBlock -> M (PerBlockInfoMap * list LOTransition) A)
    (fuel : nat) : Prop :=
  forall BB PBI tr,
    BB ∈ blocks -> size (notInProgress blocks PBI) < fuel -> Inv PBI ->
    exists R PBI' tr',
      c BB (PBI, tr) = Ok (R, (PBI', tr ++ tr')) /\
      evolves PBI PBI' /\ Inv PBI' /\
      forallb allowedTransition tr' = true /\
      length tr' <= transitionBound d (size (notInProgress blocks PBI)).

(** The shape of the cache in the one-element case. *)
Definition Inv1 (PBI : PerBlockInfoMap) : Prop :=
  SizesAre 1 PBI /\ KnownIsDefined PBI /\ LocalYesIsKnown PBI.

(** The logged computation [mt] computes what [m] does. *)
Definition erases {A} (mt : M (PerBlockInfoMap * list LOTransition) A)
    (m : M PerBlockInfoMap A) : Prop :=
  forall PBI tr, eraseLog (mt (PBI, tr)) = m PBI.

(** The invariant of the constructor's loop: the fixed fields, the shape
    of the map, and every entry of [NonLoadUses] indexing [Uses]. *)
Definition collectInv (F : SILFunction) (TM : DIMemoryObjectInfo)
    (Us : list DIMemoryUse) (C : LifetimeChecker) : Prop :=
  Fn C = F /\ TheMemory C = TM /\ Uses C = Us /\
  SizesAre (DIMemoryObjectInfo.NumElements TM) (PerBlockInfo C) /\
  KnownIsDefined (PerBlockInfo C) /\
  (DIMemoryObjectInfo.NumElements TM = 1 -> LocalYesIsKnown (PerBlockInfo C)) /\
  (forall I Idx, NonLoadUses C !! I = Some Idx -> N.to_nat Idx < length Us).

(** [Succ] is a successor of [BB]. *)
Definition succRel (F : SILFunction) (BB Succ : SILBasicBlock) : Prop :=
  Succ ∈ getSuccsOf F BB.

(** The step of the successor loop of [isBlockIsReachableFromEntry]. *)
Definition reachStep (acc : list SILBasicBlock * gset SILBasicBlock)
    (Succ : SILBasicBlock) : list SILBasicBlock * gset SILBasicBlock :=
  if decide (Succ ∈ snd acc) then acc
  else (fst acc ++ [Succ], {[Succ]} ∪ snd acc).

(** What the worklist loop of [isBlockIsReachableFromEntry] keeps: the
    worklist holds reached blocks only, every reached block can be reached
    from [Entry], and the successors of a reached block that left the
    worklist are reached. *)
Definition reachInv (F : SILFunction) (Entry : SILBasicBlock)
    (U : gset SILBasicBlock) (W : list SILBasicBlock)
    (R : gset SILBasicBlock) : Prop :=
  NoDup W /\ (forall w, w ∈ W -> w ∈ R) /\ Entry ∈ R /\ R ⊆ U /\
  (forall r, r ∈ R -> rtc (succRel F) Entry r) /\
  (forall r s, r ∈ R -> r ∉ W -> s ∈ getSuccsOf F r -> s ∈ R).

(** A function with a block nothing branches to. *)
Definition exDeadFunction : SILFunction :=
  mkSILFunction
    [ (0, [mkSILInstruction 10 (MarkUninitializedInst exBox) (exLoc 100);
           mkSILInstruction 11 (CondBranchInst exCond 1 2) (exLoc 101)]);
      (1, [mkSILInstruction 21 (BranchInst 0) (exLoc 103)]);
      (2, [mkSILInstruction 42 (ReturnInst exArg) (exLoc 107)]);
      (3, [mkSILInstruction 50 (LoadInst exMemory) (exLoc 108);
           mkSILInstruction 51 (BranchInst 2) (exLoc 109)]) ]
    (exLoc 99) 1000.

Definition exDeadChecker : LifetimeChecker :=
  checkerOf exDeadFunction (exMemoryInfo false)
    [DIMemoryUse.mk (Some 50) Load 0 1] [].

(** The diagnostics [D0] and the remembered error locations [E0] are still
    there, in front of whatever was added since. *)
Definition keepsDiagnostics (D0 : list Diagnostic) (E0 : list nat)
    (C : LifetimeChecker) : Prop :=
  D0 `prefix_of` Diags C /\ E0 `prefix_of` EmittedErrorLocs C.

(** [C] holds the program of [C0]: the function, the uses, the releases,
    the memory object and the bookkeeping of the rewrites are the same;
    the diagnostics, the remembered error locations and the two caches
    may differ. *)
Definition sameProgram (C0 C : LifetimeChecker) : Prop :=
  Fn C = Fn C0 /\ Uses C = Uses C0 /\ Releases C = Releases C0 /\
  TheMemory C = TheMemory C0 /\ NonLoadUses C = NonLoadUses C0 /\
  ConditionalDestroys C = ConditionalDestroys C0 /\
  HasConditionalInitAssignOrDestroys C = HasConditionalInitAssignOrDestroys C0.

(** ** Lowering the raw instructions after the check *)

(** The instruction [K] with every operand sent through [f]. *)
Definition mapOperands (f : SILValue -> SILValue) (K : InstKind) : InstKind :=
  match K with
  | AssignInst Src Dest => AssignInst (f Src) (f Dest)
  | StoreInst Src Dest => StoreInst (f Src) (f Dest)
  | LoadInst V => LoadInst (f V)
  | CopyAddrInst Src Dest b => CopyAddrInst (f Src) (f Dest) b
  | StoreWeakInst Src Dest b => StoreWeakInst (f Src) (f Dest) b
  | ReleaseValueInst V => ReleaseValueInst (f V)
  | ReturnInst V => ReturnInst (f V)
  | ApplyInst Callee Args => ApplyInst (f Callee) (map f Args)
  | UpcastInst V => UpcastInst (f V)
  | RefElementAddrInst V Field => RefElementAddrInst (f V) Field
  | ClassMethodInst V Member => ClassMethodInst (f V) Member
  | FunctionRefInst D => FunctionRefInst D
  | MarkFunctionEscapeInst Vs => MarkFunctionEscapeInst (map f Vs)
  | AddressToPointerInst V => AddressToPointerInst (f V)
  | MarkUninitializedInst V => MarkUninitializedInst (f V)
  | AllocBoxInst Ty => AllocBoxInst Ty
  | AllocStackInst Ty => AllocStackInst Ty
  | DeallocStackInst V => DeallocStackInst (f V)
  | DeallocBoxInst Ty V => DeallocBoxInst Ty (f V)
  | DeallocRefInst V => DeallocRefInst (f V)
  | StrongReleaseInst V => StrongReleaseInst (f V)
  | DestroyAddrInst V => DestroyAddrInst (f V)
  | BranchInst Dest => BranchInst Dest
  | CondBranchInst Cond TrueBB FalseBB => CondBranchInst (f Cond) TrueBB FalseBB
  | IntegerLiteralInst Ty Value => IntegerLiteralInst Ty Value
  | BuiltinInst Name Ty Args => BuiltinInst Name Ty (map f Args)
  | ElementAddrInst Elt => ElementAddrInst Elt
  | OtherInst Operands => OtherInst (map f Operands)
  end.

(** The operand [V] once the uses of result [n] of [I] are replaced by
    [New]; a value is the instruction that defines it and a result
    number. *)
Definition replaceUse (I : SILInstructionPtr) (n : nat) (New V : SILValue)
  : SILValue :=
  if decide (ValDef V = DefInst I /\ ValResultNumber V = n) then New else V.

Definition replaceUsesIn (I : SILInstructionPtr) (n : nat) (New : SILValue)
    (Insts : list SILInstruction) : list SILInstruction :=
  map (fun X => mkSILInstruction (InstPtr X)
                  (mapOperands (replaceUse I n New) (InstKindOf X))
                  (InstLoc X)) Insts.

(** [SILValue(I, n).replaceAllUsesWith(New)]. *)
Definition replaceAllUsesWith (I : SILInstructionPtr) (n : nat)
    (New : SILValue) (F : SILFunction) : SILFunction :=
  mkSILFunction
    (map (fun b => (fst b, replaceUsesIn I n New (snd b))) (Blocks F))
    (FnLocation F) (NextPtr F).

Definition isMarkUninitializedInst (K : InstKind) : bool :=
  match K with MarkUninitializedInst _ => true | _ => false end.

(** The raw instructions only this pass uses. *)
Definition isRawInst (X : SILInstruction) : bool :=
  isAssignInst (InstKindOf X) || isMarkUninitializedInst (InstKindOf X)
  || isMarkFunctionEscapeInst (InstKindOf X).

(** The loop of [lowerRawSILOperations] over the instructions of [BB].
    The iterator is advanced before an instruction is looked at, so the
    instructions inserted in front of it are not visited and the walk goes
    through the instructions the block had on entry, [Ps]; each is read
    when it is reached, after the replacements made before.  The walk
    leaves the block when a lowering moved the builder to another
    block. *)
Fixpoint lowerRawInsts (BB : SILBasicBlock) (Ps : list SILInstructionPtr)
    (Changed : bool) (F : SILFunction) : Outcome (bool * SILFunction) :=
  match Ps with
  | [] => Ok (Changed, F)
  | P :: Ps =>
      match getInst F P with
      | None => AssertFail
      | Some Inst =>
          match InstKindOf Inst with
          | AssignInst _ _ =>
              match builderAt F P with
              | None => AssertFail
              | Some B =>
                  match LowerAssignInstruction Inst false (F, B) with
                  | Ok (_, (F', B')) =>
                      if InsertBB B' =? BB then lowerRawInsts BB Ps true F'
                      else Ok (true, F')
                  | AssertFail => AssertFail
                  | OutOfFuel => OutOfFuel
                  end
              end
          | MarkUninitializedInst Op =>
              lowerRawInsts BB Ps true
                (eraseFromParent P (replaceAllUsesWith P 0 Op F))
          | MarkFunctionEscapeInst _ =>
              lowerRawInsts BB Ps true (eraseFromParent P F)
          | _ => lowerRawInsts BB Ps Changed F
          end
      end
  end.

(** The loop over the blocks: the block at position [k] of the function
    as it is when the loop gets there. *)
Fixpoint lowerRawBlocks (fuel k : nat) (Changed : bool) (F : SILFunction)
  : Outcome (bool * SILFunction) :=
  match Blocks F !! k with
  | None => Ok (Changed, F)
  | Some b =>
      match fuel with
      | O => OutOfFuel
      | S fuel =>
          match lowerRawInsts (fst b) (map InstPtr (snd b)) Changed F with
          | Ok (Changed, F') => lowerRawBlocks fuel (S k) Changed F'
          | AssertFail => AssertFail
          | OutOfFuel => OutOfFuel
          end
      end
  end.

(** [lowerRawSILOperations]: it returns whether it changed the function. *)
Definition lowerRawSILOperations (F : SILFunction)
  : Outcome (bool * SILFunction) :=
  lowerRawBlocks (length (Blocks F)) 0 false F.

(** Blocks and instructions have addresses of their own, below the next
    unused one. *)
Definition WfFunction (F : SILFunction) : Prop :=
  NoDup (map fst (Blocks F)) /\
  NoDup (map InstPtr (allInsts F)) /\
  Forall (fun X => InstPtr X < NextPtr F) (allInsts F).

(** The addresses of the instructions of the blocks and which of them are
    raw: what a replacement of operands keeps. *)
Definition shapeOf (Insts : list SILInstruction) : list (nat * bool) :=
  map (fun X => (InstPtr X, isRawInst X)) Insts.

Definition shapeOfBlocks (Bs : list (nat * list SILInstruction))
  : list (nat * list (nat * bool)) :=
  map (fun b => (fst b, shapeOf (snd b))) Bs.

(** A function where block 1 assigns through the marked address. *)
Definition exRawFunction : SILFunction :=
  mkSILFunction
    [ (0, [mkSILInstruction 10 (MarkUninitializedInst exBox) (exLoc 100);
           mkSILInstruction 11 (CondBranchInst exCond 1 2) (exLoc 101)]);
      (1, [mkSILInstruction 20
             (AssignInst exArg (mkSILValue (DefInst 10) 0 exAddressTy))
             (exLoc 102);
           mkSILInstruction 21 (BranchInst 2) (exLoc 103)]);
      (2, [mkSILInstruction 30
             (MarkFunctionEscapeInst [mkSILValue (DefInst 10) 0 exAddressTy])
             (exLoc 104);
           mkSILInstruction 42 (ReturnInst exArg) (exLoc 107)]) ]
    (exLoc 99) 1000.

(** What the loop of the constructor has recorded once the uses at the
    indices [done] are collected: every entry of [NonLoadUses] names a
    use that is neither a load nor an escape, with its instruction as the
    key; the block of every key is flagged; and every collected use has
    an instruction, which is a key unless the use is a load or an
    escape. *)
Definition trackInv (F : SILFunction) (TM : DIMemoryObjectInfo)
    (Us : list DIMemoryUse) (done : list nat) (C : LifetimeChecker) : Prop :=
  Fn C = F /\ TheMemory C = TM /\ Uses C = Us /\
  (forall I Idx, NonLoadUses C !! I = Some Idx ->
     exists U, Us !! N.to_nat Idx = Some U /\ DIMemoryUse.Inst U = Some I /\
       DIMemoryUse.Kind U <> Load /\ DIMemoryUse.Kind U <> Escape) /\
  (forall I, is_Some (NonLoadUses C !! I) ->
     exists BB s, getParent F I = Some BB /\ PerBlockInfo C !! BB = Some s /\
       HasNonLoadUse s = true) /\
  (forall ui U, ui ∈ done -> Us !! ui = Some U ->
     exists I, DIMemoryUse.Inst U = Some I /\
       (DIMemoryUse.Kind U <> Load -> DIMemoryUse.Kind U <> Escape ->
        is_Some (NonLoadUses C !! I))).

(** What a query for [P] answers without computing anything: the cached
    set of a known block, and [AvailabilitySet(N)], all Unknown, for a
    block that is being computed or has no entry. *)
Definition knownLiveOut (N : nat) (PBI : PerBlockInfoMap)
    (P : SILBasicBlock) : AvailabilitySet :=
  match PBI !! P with
  | Some s =>
      match LOState s with
      | IsKnown => Availability s
      | _ => AvSet.new N
      end
  | None => AvSet.new N
  end.

(** The lattice merge of a list of elements, from Unknown. *)
Definition mergeAll (l : list (option DIKind)) : option DIKind :=
  fold_left mergeKinds l None.

(** * The statements of lib/AST/Stmt.cpp and their printer *)

Module StmtPrinter.

(** * Statements

    Expressions and declarations, their printers and the start location
    of an expression are declared outside this file: they are taken as
    given. *)
Section Stmt.

Variable Expr : Type.
Variable Decl : Type.

(** What [E->print(OS, Indent)] and [D->print(OS, Indent)] write. *)
Variable printExpr : Expr -> N -> string.
Variable printDecl : Decl -> N -> string.
Variable getStartLoc : Expr -> nat.

(** A statement; [None] is a null pointer.  An element of a brace
    statement is the [PointerUnion] of an expression, a statement and a
    declaration. *)
Inductive Stmt : Type :=
  | SemiStmt (Loc : nat)
  | AssignStmt (Dest Src : Expr)
  | BraceStmt (LBLoc : nat) (Elements : list BraceElement)
  | ReturnStmt (ReturnLoc : nat) (Result : Expr)
  | IfStmt (IfLoc : nat) (Cond : Expr) (Then Else : option Stmt)
  | WhileStmt (WhileLoc : nat) (Cond : Expr) (Body : option Stmt)
with BraceElement : Type :=
  | ElemExpr (E : Expr)
  | ElemStmt (St : Stmt)
  | ElemDecl (D : Decl).

(** [Stmt::getLocStart]. *)
Definition getLocStart (St : Stmt) : nat :=
  match St with
  | SemiStmt Loc => Loc
  | AssignStmt Dest _ => getStartLoc Dest
  | BraceStmt LBLoc _ => LBLoc
  | ReturnStmt ReturnLoc _ => ReturnLoc
  | IfStmt IfLoc _ _ _ => IfLoc
  | WhileStmt WhileLoc _ _ => WhileLoc
  end.

(** The visitor [PrintStmt]: the stream and the [unsigned] indentation. *)
Record PrintStmt : Type := mkPrintStmt {
  OS : string;
  Indent : N
}.

Definition unsignedAdd (a b : N) : N := ((a + b) mod 2 ^ 32)%N.
Definition unsignedSub (a b : N) : N := ((a + 2 ^ 32 - b) mod 2 ^ 32)%N.

(** [OS << s]. *)
Definition out (s : string) (P : PrintStmt) : PrintStmt :=
  mkPrintStmt (OS P +:+ s) (Indent P).

Fixpoint spaces (n : nat) : string :=
  match n with
  | O => EmptyString
  | S n => String " "%char (spaces n)
  end.

(** [OS.indent(NumSpaces)]. *)
Definition indent (NumSpaces : N) (P : PrintStmt) : PrintStmt :=
  out (spaces (N.to_nat NumSpaces)) P.

Definition newline : string := String (ascii_of_nat 10) EmptyString.

Definition setIndent (I : N) (P : PrintStmt) : PrintStmt :=
  mkPrintStmt (OS P) I.

(** [printRec] on an expression and on a declaration. *)
Definition printRecExpr (E : Expr) (P : PrintStmt) : PrintStmt :=
  out (printExpr E (unsignedAdd (Indent P) 2)) P.

Definition printRecDecl (D : Decl) (P : PrintStmt) : PrintStmt :=
  out (printDecl D (unsignedAdd (Indent P) 2)) P.

(** The text printed for a null statement: the parentheses and what is
    between them. *)
Definition nullStatement : string := "(" +:+ "**NULL STATEMENT**" +:+ ")".

(** [printRec] on a statement, given [visit]. *)
Definition printRec (visit : Stmt -> PrintStmt -> PrintStmt)
    (Sub : option Stmt) (P : PrintStmt) : PrintStmt :=
  let P := setIndent (unsignedAdd (Indent P) 2) P in
  let P :=
    match Sub with
    | Some Sub => visit Sub P
    | None => out nullStatement (indent (Indent P) P)
    end in
  setIndent (unsignedSub (Indent P) 2) P.

(** The loop of [visitBraceStmt] over the elements; the statement of an
    element is not null. *)
Fixpoint visitElements (visit : Stmt -> PrintStmt -> PrintStmt)
    (Elements : list BraceElement) (P : PrintStmt) : PrintStmt :=
  match Elements with
  | [] => P
  | Elt :: Elements =>
      let P := out newline P in
      let P :=
        match Elt with
        | ElemExpr SubExpr => printRecExpr SubExpr P
        | ElemStmt SubStmt => printRec visit (Some SubStmt) P
        | ElemDecl D => printRecDecl D P
        end in
      visitElements visit Elements P
  end.

(** [visit]: the dispatch on the kind of the statement, and the
    [visit...Stmt] methods. *)
Fixpoint visit (St : Stmt) (P : PrintStmt) {struct St} : PrintStmt :=
  match St with
  | SemiStmt _ => out "(semi_stmt)" (indent (Indent P) P)
  | AssignStmt Dest Src =>
      let P := out newline (out "(assign_stmt" (indent (Indent P) P)) in
      let P := printRecExpr Dest P in
      let P := out newline P in
      let P := printRecExpr Src P in
      out ")" P
  | BraceStmt _ Elements =>
      let P := out "(brace_stmt" (indent (Indent P) P) in
      let P := visitElements visit Elements P in
      out ")" P
  | ReturnStmt _ Result =>
      let P := out newline (out "(return_stmt" (indent (Indent P) P)) in
      let P := printRecExpr Result P in
      out ")" P
  | IfStmt _ Cond Then Else =>
      let P := out newline (out "(if_stmt" (indent (Indent P) P)) in
      let P := printRecExpr Cond P in
      let P := out newline P in
      let P := printRec visit Then P in
      let P :=
        match Else with
        | Some _ => printRec visit Else (out newline P)
        | None => P
        end in
      out ")" P
  | WhileStmt _ Cond Body =>
      let P := out newline (out "(while_stmt" (indent (Indent P) P)) in
      let P := printRecExpr Cond P in
      let P := out newline P in
      let P := printRec visit Body P in
      out ")" P
  end.

(** What the printer writes, as a text: a statement below indentation
    [I], the elements of a brace statement, and a statement at [I]. *)
Definition renderRec (render : Stmt -> N -> string) (Sub : option Stmt)
    (I : N) : string :=
  match Sub with
  | Some Sub => render Sub (unsignedAdd I 2)
  | None => spaces (N.to_nat (unsignedAdd I 2)) +:+ nullStatement
  end.

Fixpoint renderElements (render : Stmt -> N -> string)
    (Elements : list BraceElement) (I : N) : string :=
  match Elements with
  | [] => EmptyString
  | Elt :: Elements =>
      newline +:+
      match Elt with
      | ElemExpr SubExpr => printExpr SubExpr (unsignedAdd I 2)
      | ElemStmt SubStmt => renderRec render (Some SubStmt) I
      | ElemDecl D => printDecl D (unsignedAdd I 2)
      end +:+ renderElements render Elements I
  end.

Fixpoint render (St : Stmt) (I : N) {struct St} : string :=
  spaces (N.to_nat I) +:+
  match St with
  | SemiStmt _ => "(semi_stmt)"
  | AssignStmt Dest Src =>
      "(assign_stmt" +:+ newline +:+ printExpr Dest (unsignedAdd I 2) +:+
      newline +:+ printExpr Src (unsignedAdd I 2) +:+ ")"
  | BraceStmt _ Elements =>
      "(brace_stmt" +:+ renderElements render Elements I +:+ ")"
  | ReturnStmt _ Result =>
      "(return_stmt" +:+ newline +:+ printExpr Result (unsignedAdd I 2) +:+ ")"
  | IfStmt _ Cond Then Else =>
      "(if_stmt" +:+ newline +:+ printExpr Cond (unsignedAdd I 2) +:+
      newline +:+ renderRec render Then I +:+
      match Else with
      | Some _ => newline +:+ renderRec render Else I
      | None => EmptyString
      end +:+ ")"
  | WhileStmt _ Cond Body =>
      "(while_stmt" +:+ newline +:+ printExpr Cond (unsignedAdd I 2) +:+
      newline +:+ renderRec render Body I +:+ ")"
  end.

(** [visit] on [St] writes [render] and leaves the indentation, for an
    indentation that an [unsigned] holds. *)
Definition writes (St : Stmt) : Prop :=
  forall I os, (I < 2 ^ 32)%N ->
    visit St (mkPrintStmt os I) = mkPrintStmt (os +:+ render St I) I.

(** [Stmt::print]. *)
Definition print (St : Stmt) (os : string) (indent : N) : string :=
  OS (visit St (mkPrintStmt os indent)).

(** [Stmt::dump], on the text already on the error stream. *)
Definition dump (St : Stmt) (errs : string) : string :=
  print St errs 0 +:+ newline.

End Stmt.

Arguments SemiStmt {Expr Decl} Loc.
Arguments AssignStmt {Expr Decl} Dest Src.
Arguments BraceStmt {Expr Decl} LBLoc Elements.
Arguments ReturnStmt {Expr Decl} ReturnLoc Result.
Arguments IfStmt {Expr Decl} IfLoc Cond Then Else.
Arguments WhileStmt {Expr Decl} WhileLoc Cond Body.
Arguments ElemExpr {Expr Decl} E.
Arguments ElemStmt {Expr Decl} St.
Arguments ElemDecl {Expr Decl} D.
Arguments getLocStart {Expr Decl} getStartLoc St.
Arguments printRecExpr {Expr} printExpr E P.
Arguments printRecDecl {Decl} printDecl D P.
Arguments printRec {Expr Decl} visit Sub P.
Arguments visitElements {Expr Decl} printExpr printDecl visit Elements P.
Arguments visit {Expr Decl} printExpr printDecl St P.
Arguments renderRec {Expr Decl} render Sub I.
Arguments renderElements {Expr Decl} printExpr printDecl render Elements I.
Arguments render {Expr Decl} printExpr printDecl St I.
Arguments writes {Expr Decl} printExpr printDecl St.
Arguments print {Expr Decl} printExpr printDecl St os indent.
Arguments dump {Expr Decl} printExpr printDecl St errs.

(** The nesting of parentheses after [s], from depth [d]; [None] when a
    parenthesis closes below depth zero. *)
Fixpoint parenDepth (s : string) (d : nat) : option nat :=
  match s with
  | EmptyString => Some d
  | String c s =>
      if Ascii.eqb c "("%char then parenDepth s (S d)
      else if Ascii.eqb c ")"%char then
        match d with
        | O => None
        | S d => parenDepth s d
        end
      else parenDepth s d
  end.

Definition balanced (s : string) : Prop := parenDepth s 0 = Some 0.

(** A text that leaves every depth as it finds it. *)
Definition neutral (s : string) : Prop := forall d, parenDepth s d = Some d.

(** An example: expressions are truth values and declarations are
    numbered, printed in parentheses at their indentation. *)
Definition exPrintExpr (E : bool) (I : N) : string :=
  spaces (N.to_nat I) +:+ (if E then "(true)" else "(false)").

Definition exPrintDecl (D : unit) (I : N) : string :=
  spaces (N.to_nat I) +:+ "(decl)".

Definition exStmt : Stmt bool unit :=
  IfStmt 1 true
    (Some (BraceStmt 2 [ElemExpr false; ElemDecl tt;
                        ElemStmt (WhileStmt 3 true None)]))
    (Some (AssignStmt true false)).

End StmtPrinter.

(** ** What the element loop of a release leaves behind

    The code emitted so far at a release: the blocks before the block of
    the release, the name of that block and its instructions above the
    release, the next unused address, the bitmap if it was loaded, and
    the destroys to record as releases. *)
Record DestroyLayout : Type := mkDestroyLayout {
  LBefore : list (nat * list SILInstruction);
  LBlock : nat;
  LAbove : list SILInstruction;
  LNext : nat;
  LMask : option SILValue;
  LDestroys : list SILInstructionPtr
}.

(** What element [Elt] adds, by its availability at the release.  No:
    nothing.  Yes: its address and a destroy of it, above the release.
    Partial: above the release the load of the bitmap, unless it is
    loaded, the test of bit [Elt] and a conditional branch; a new block
    that destroys the element and branches to the continuation; the
    continuation is the new block of the release. *)
Definition destroyStep (TM : DIMemoryObjectInfo) (Addr : SILValue)
    (Loc : SILLocation) (Availability : AvailabilitySet)
    (L : DestroyLayout) (Elt : nat) : DestroyLayout :=
  match AvSet.get Availability Elt with
  | Ok Yes =>
      mkDestroyLayout (LBefore L) (LBlock L)
        (LAbove L ++ destroyInsts TM Elt Loc (LNext L))
        (S (S (LNext L))) (LMask L) (LDestroys L ++ [S (LNext L)])
  | Ok Partial =>
      let ld := maskLoad Addr Loc (LMask L) (LNext L) in
      let N1 := LNext L + length (fst ld) in
      let ci := conditionInsts Loc (DIMemoryObjectInfo.getNumMemoryElements TM)
                  Elt (snd ld) N1 in
      let N2 := N1 + length (fst ci) in
      mkDestroyLayout
        (LBefore L ++
         [(LBlock L, LAbove L ++ fst ld ++ fst ci ++
                     [mkSILInstruction (N2 + 3)
                        (CondBranchInst (snd ci) (S N2) N2) Loc]);
          (S N2, destroyInsts TM Elt Loc (N2 + 4) ++
                 [mkSILInstruction (N2 + 2) (BranchInst N2) Loc])])
        N2 [] (N2 + 6) (Some (snd ld)) (LDestroys L ++ [N2 + 5])
  | _ => L
  end.

(** The function with the layout [L] at the release [X]. *)
Definition layoutFunction (L : DestroyLayout) (X : SILInstruction)
    (post : list SILInstruction) (Bs2 : list (nat * list SILInstruction))
    (FLoc : SILLocation) : SILFunction :=
  focusBlock (LBefore L) (LBlock L) (LAbove L ++ X :: post) Bs2 FLoc (LNext L).

(** The instructions that take the address of element [Elt]. *)
Definition elementAddrsOf (Elt : nat) (F : SILFunction)
  : list SILInstruction :=
  filter (fun X => InstKindOf X = ElementAddrInst Elt) (allInsts F).

(** The instructions of a list that satisfy [P], counted; and what one
    element adds to that count. *)
Section Counting.

Variable P : SILInstruction -> Prop.
Context `{!forall Y, Decision (P Y)}.

Definition countIn (l : list SILInstruction) : nat := length (filter P l).

Definition addedBy (TM : DIMemoryObjectInfo) (Addr : SILValue)
    (Loc : SILLocation) (Av : AvailabilitySet) (L : DestroyLayout) (e : nat)
  : nat :=
  match AvSet.get Av e with
  | Ok Yes => countIn (destroyInsts TM e Loc (LNext L))
  | Ok Partial =>
      let ld := maskLoad Addr Loc (LMask L) (LNext L) in
      let N1 := LNext L + length (fst ld) in
      let ci := conditionInsts Loc (DIMemoryObjectInfo.getNumMemoryElements TM)
                  e (snd ld) N1 in
      let N2 := N1 + length (fst ci) in
      countIn (fst ld) + countIn (fst ci)
      + countIn [mkSILInstruction (N2 + 3)
                   (CondBranchInst (snd ci) (S N2) N2) Loc]
      + countIn (destroyInsts TM e Loc (N2 + 4))
      + countIn [mkSILInstruction (N2 + 2) (BranchInst N2) Loc]
  | _ => 0
  end.

End Counting.

(** An example: a memory object of three elements, destroyed at the
    release of the first example where the first element is not
    initialized, the second is, and the third is on some paths. *)
Definition exTupleMemoryInfo : DIMemoryObjectInfo :=
  DIMemoryObjectInfo.mk 10 3 3 false (exLoc 100)
    false false false false false false
    (fun _ => false)
    (fun _ => ("x"%string, Some (mkValueDecl false 100 false)))
    (fun _ => false).

Definition exTupleAvailability : AvailabilitySet :=
  AvSet.set (AvSet.set (AvSet.set (AvSet.new 3) 0 No) 1 Yes) 2 Partial.

Definition exTupleChecker : LifetimeChecker :=
  mkLifetimeChecker exFunction [] exTupleMemoryInfo exUses exReleases
    [(0, exTupleAvailability)] ∅ ∅ true [] ∅.

(* ===================================================================== *)
(** * Properties *)
(* ===================================================================== *)

(** ** The lattice *)

Lemma DIKind_eqb_eq a b : DIKind_eqb a b = true <-> a = b.
Proof. destruct a, b; simpl; split; congruence. Qed.

Lemma DIKind_eqb_refl a : DIKind_eqb a a = true.
Proof. by destruct a. Qed.

Lemma mergeKinds_comm a b : mergeKinds a b = mergeKinds b a.
Proof. by destruct a as [[]|], b as [[]|]. Qed.

Lemma mergeKinds_assoc a b c :
  mergeKinds a (mergeKinds b c) = mergeKinds (mergeKinds a b) c.
Proof. by destruct a as [[]|], b as [[]|], c as [[]|]. Qed.

Lemma mergeKinds_idemp a : mergeKinds a a = a.
Proof. by destruct a as [[]|]. Qed.

Lemma mergeKinds_None_r a : mergeKinds a None = a.
Proof. by destruct a as [[]|]. Qed.

Lemma mergeKinds_Some_l k b : hasValue (mergeKinds (Some k) b) = true.
Proof. by destruct k, b as [[]|]. Qed.

Lemma mergeKinds_Some_r a k : hasValue (mergeKinds a (Some k)) = true.
Proof. by destruct k, a as [[]|]. Qed.

(** C1: the lattice merge on optional DIKinds is commutative, associative
    and idempotent, has Unknown ([None]) as its unit, sends Yes and No to
    Partial, and is absorbed by Partial on every defined argument. *)
Theorem mergeKinds_lattice_laws :
  (forall a b, mergeKinds a b = mergeKinds b a) /\
  (forall a b c, mergeKinds a (mergeKinds b c) = mergeKinds (mergeKinds a b) c) /\
  (forall a, mergeKinds a a = a) /\
  (forall x, mergeKinds None x = x) /\
  mergeKinds (Some Yes) (Some No) = Some Partial /\
  mergeKinds (Some No) (Some Yes) = Some Partial /\
  (forall x, mergeKinds (Some Partial) (Some x) = Some Partial).
Proof.
  repeat split; auto using mergeKinds_comm, mergeKinds_assoc, mergeKinds_idemp.
Qed.

(** ** The availability bit vector *)

Module AvSetFacts.
Import AvSet.

Lemma bit_setbit_eq d i b : i < length d -> bit (setbit d i b) i = b.
Proof.
  intros H. unfold bit, setbit. by rewrite list_lookup_insert_eq.
Qed.

Lemma bit_setbit_ne d i j b : i <> j -> bit (setbit d i b) j = bit d j.
Proof.
  intros H. unfold bit, setbit. by rewrite list_lookup_insert_ne.
Qed.

Lemma length_setbit d i b : length (setbit d i b) = length d.
Proof. apply length_insert. Qed.

Lemma size_lt_bits a i : i < size a -> i * 2 + 1 < length (Data a).
Proof.
  unfold size. intros H.
  pose proof (Nat.div_mod_eq (length (Data a)) 2).
  pose proof (Nat.mod_upper_bound (length (Data a)) 2). lia.
Qed.

Lemma size_set a i K : size (set a i K) = size a.
Proof. destruct K; unfold size; simpl; by rewrite !length_setbit. Qed.

Lemma size_set_optional a i K : size (set_optional a i K) = size a.
Proof.
  destruct K as [K|]; [apply size_set|].
  unfold size; simpl; by rewrite !length_setbit.
Qed.

Lemma size_new N : size (new N) = N.
Proof.
  unfold size, new. cbn [Data]. rewrite length_replicate. by apply Nat.div_mul.
Qed.

Lemma getConditional_new N i : i < N -> getConditional (new N) i = None.
Proof.
  intros H. unfold getConditional, new, bit; simpl.
  rewrite !lookup_replicate_2 by lia. done.
Qed.

Lemma getConditional_set_optional_eq a i K :
  i < size a -> getConditional (set_optional a i K) i = K.
Proof.
  intros H%size_lt_bits.
  destruct K as [[]|]; unfold getConditional; simpl;
    rewrite bit_setbit_ne by lia;
    rewrite bit_setbit_eq by lia;
    rewrite bit_setbit_eq by (rewrite length_setbit; lia); done.
Qed.

Lemma getConditional_set_optional_ne a i j K :
  j <> i -> getConditional (set_optional a i K) j = getConditional a j.
Proof.
  intros H.
  destruct K as [[]|]; unfold getConditional; simpl;
    rewrite !bit_setbit_ne by lia; done.
Qed.

Lemma getConditional_set_eq a i K :
  i < size a -> getConditional (set a i K) i = Some K.
Proof. apply (getConditional_set_optional_eq a i (Some K)). Qed.

Lemma getConditional_set_ne a i j K :
  j <> i -> getConditional (set a i K) j = getConditional a j.
Proof. apply (getConditional_set_optional_ne a i j (Some K)). Qed.

Lemma containsUnknownElements_true a :
  containsUnknownElements a = true <->
  exists j, j < size a /\ getConditional a j = None.
Proof.
  unfold containsUnknownElements. rewrite existsb_exists. split.
  - intros (j & Hin & Hj). apply in_seq in Hin. exists j. split; [lia|].
    by destruct (getConditional a j).
  - intros (j & Hlt & Hj). exists j. split; [apply in_seq; lia|].
    by rewrite Hj.
Qed.

Lemma containsUnknownElements_false a :
  containsUnknownElements a = false <->
  forall j, j < size a -> hasValue (getConditional a j) = true.
Proof.
  split.
  - intros H j Hj. destruct (getConditional a j) eqn:E; [done|].
    assert (containsUnknownElements a = true) as Ht; [|congruence].
    apply containsUnknownElements_true; eauto.
  - intros H. destruct (containsUnknownElements a) eqn:E; [|done].
    apply containsUnknownElements_true in E as (j & Hj & Hn).
    specialize (H j Hj). by rewrite Hn in H.
Qed.

Lemma isAll_true a K :
  isAll a K = true <-> forall j, j < size a -> getConditional a j = Some K.
Proof.
  unfold isAll. rewrite forallb_forall. split.
  - intros H j Hj. specialize (H j). rewrite in_seq in H.
    specialize (H ltac:(lia)). destruct (getConditional a j); [|done].
    apply DIKind_eqb_eq in H. by subst.
  - intros H j Hin%in_seq. rewrite H by lia. apply DIKind_eqb_refl.
Qed.

Lemma hasAny_true a K :
  hasAny a K = true <-> exists j, j < size a /\ getConditional a j = Some K.
Proof.
  unfold hasAny. rewrite existsb_exists. split.
  - intros (j & Hin%in_seq & Hj). exists j. split; [lia|].
    destruct (getConditional a j); [|done].
    apply DIKind_eqb_eq in Hj. by subst.
  - intros (j & Hlt & Hj). exists j. split; [apply in_seq; lia|].
    rewrite Hj. apply DIKind_eqb_refl.
Qed.

Lemma get_Ok a i K :
  i < size a -> getConditional a i = Some K -> get a i = Ok K.
Proof.
  intros Hi HK. unfold get. apply Nat.ltb_lt in Hi. by rewrite Hi, HK.
Qed.

Lemma get_Ok_inv a i K :
  get a i = Ok K -> i < size a /\ getConditional a i = Some K.
Proof.
  unfold get. destruct (i <? size a) eqn:E; [|done].
  apply Nat.ltb_lt in E. destruct (getConditional a i); [|done].
  by intros [= ->].
Qed.

Lemma hasValue_set a i j K :
  hasValue (getConditional a j) = true ->
  hasValue (getConditional (set a i K) j) = true.
Proof.
  intros H. destruct (decide (j = i)) as [->|Hne].
  - unfold getConditional in *.
    destruct (decide (i * 2 + 1 < length (Data a))) as [Hlt|Hge].
    + destruct K; simpl; rewrite bit_setbit_ne by lia;
        rewrite bit_setbit_eq by lia;
        rewrite bit_setbit_eq by (rewrite length_setbit; lia); done.
    + (* the second bit is out of range: it reads false before and after *)
      assert (bit (Data a) (i * 2 + 1) = false) as E2.
      { unfold bit. rewrite lookup_ge_None_2 by lia. done. }
      rewrite E2 in H.
      assert (forall d b, length d = length (Data a) ->
                bit (setbit d (i * 2 + 1) b) (i * 2 + 1) = false) as E3.
      { intros d b Hd. unfold bit, setbit.
        rewrite list_insert_ge by lia. rewrite lookup_ge_None_2 by lia. done. }
      destruct K; simpl; rewrite bit_setbit_ne by lia;
        rewrite E3 by apply length_setbit;
        destruct (bit (setbit (Data a) (i * 2) _) (i * 2)); done.
  - by rewrite getConditional_set_ne.
Qed.

Lemma containsUnknownElements_set a i K :
  containsUnknownElements a = false ->
  containsUnknownElements (set a i K) = false.
Proof.
  rewrite !containsUnknownElements_false, size_set.
  intros H j Hj. apply hasValue_set. by apply H.
Qed.

(** A loop that only ever stores defined kinds leaves every element it
    visits defined, and keeps what was defined before. *)
Lemma fold_set_defined (step : AvailabilitySet -> nat -> AvailabilitySet) l :
  (forall R i, size (step R i) = size R) ->
  (forall R i j, hasValue (getConditional R j) = true ->
                 hasValue (getConditional (step R i) j) = true) ->
  (forall R i, i < size R -> hasValue (getConditional (step R i) i) = true) ->
  forall R,
    size (fold_left step l R) = size R /\
    (forall j, hasValue (getConditional R j) = true ->
               hasValue (getConditional (fold_left step l R) j) = true) /\
    (forall i, i ∈ l -> i < size R ->
               hasValue (getConditional (fold_left step l R) i) = true).
Proof.
  intros Hsz Hkeep Hdef. induction l as [|x l IH]; intros R; simpl.
  - split_and!; [done|done|]. intros i Hi. by apply elem_of_nil in Hi.
  - destruct (IH (step R x)) as (IH1 & IH2 & IH3). split_and!.
    + by rewrite IH1, Hsz.
    + intros j Hj. by apply IH2, Hkeep.
    + intros i Hi Hlt. apply elem_of_cons in Hi as [->|Hi].
      * apply IH2, Hdef. done.
      * apply IH3; [done|]. by rewrite Hsz.
Qed.

Lemma changeUnsetElementsTo_spec a K :
  size (changeUnsetElementsTo a K) = size a /\
  containsUnknownElements (changeUnsetElementsTo a K) = false.
Proof.
  unfold changeUnsetElementsTo.
  destruct (fold_set_defined
              (fun acc i => if hasValue (getConditional acc i) then acc
                            else set acc i K) (seq 0 (size a))) with (R := a)
    as (H1 & H2 & H3).
  - intros R i. destruct (hasValue _); [done|apply size_set].
  - intros R i j Hj. destruct (hasValue (getConditional R i)); [done|].
    by apply hasValue_set.
  - intros R i Hi. destruct (hasValue (getConditional R i)) eqn:E; [done|].
    by rewrite getConditional_set_eq.
  - split; [done|]. apply containsUnknownElements_false. rewrite H1.
    intros j Hj. apply H3; [|done]. apply list_elem_of_In, in_seq. lia.
Qed.

Lemma size_fold_left {A} (step : AvailabilitySet -> A -> AvailabilitySet) l :
  (forall R x, size (step R x) = size R) ->
  forall R, size (fold_left step l R) = size R.
Proof.
  intros H. induction l as [|x l IH]; intros R; simpl; [done|].
  by rewrite IH, H.
Qed.

Lemma size_mergeIn a RHS : size (mergeIn a RHS) = size a.
Proof.
  unfold mergeIn. apply size_fold_left. intros R x. apply size_set_optional.
Qed.

Lemma isAll_defined a K :
  isAll a K = true -> containsUnknownElements a = false.
Proof.
  rewrite isAll_true, containsUnknownElements_false.
  intros H j Hj. by rewrite H.
Qed.

End AvSetFacts.

(** C9: the two-bits-per-element encoding round-trips.  In a set of [N]
    elements, writing the optional kind [k] at an index [i < N] and reading
    [i] back gives [k], no other element changes, the size stays [N], and
    [containsUnknownElements] holds exactly when some element below [N] is
    Unknown. *)
Theorem AvailabilitySet_roundtrip (N : nat) (a : AvailabilitySet)
    (i : nat) (k : option DIKind) :
  AvSet.size a = N -> i < N ->
  AvSet.getConditional (AvSet.set_optional a i k) i = k /\
  (forall j, j <> i ->
     AvSet.getConditional (AvSet.set_optional a i k) j = AvSet.getConditional a j) /\
  AvSet.size (AvSet.set_optional a i k) = N /\
  (AvSet.containsUnknownElements a = true <->
     exists j, j < N /\ AvSet.getConditional a j = None).
Proof.
  intros HN Hi. subst N. repeat split.
  - by apply AvSetFacts.getConditional_set_optional_eq.
  - intros j Hj. by apply AvSetFacts.getConditional_set_optional_ne.
  - apply AvSetFacts.size_set_optional.
  - apply AvSetFacts.containsUnknownElements_true.
  - apply AvSetFacts.containsUnknownElements_true.
Qed.

Lemma AvailabilitySet_roundtrip_witness :
  AvSet.getConditional
    (AvSet.set_optional (AvSet.new 3) 1 (Some Partial)) 1 = Some Partial.
Proof.
  apply (AvailabilitySet_roundtrip 3 (AvSet.new 3) 1 (Some Partial));
    [reflexivity | lia].
Defined.


(** ** The monad *)

Lemma bind_Ok {S A B} (m : M S A) (k : A -> M S B) s a s1 :
  m s = Ok (a, s1) -> bind m k s = k a s1.
Proof. intros H. unfold bind. by rewrite H. Qed.

Lemma bind_Ok_inv {S A B} (m : M S A) (k : A -> M S B) s b s2 :
  bind m k s = Ok (b, s2) ->
  exists a s1, m s = Ok (a, s1) /\ k a s1 = Ok (b, s2).
Proof.
  unfold bind. destruct (m s) as [[a s1]| |]; [|done..]. eauto.
Qed.

(** Inversion of a run that returned. *)
Ltac monad_inv1 :=
  match goal with
  | H : bind _ _ _ = Ok _ |- _ =>
      let H1 := fresh "Hrun" in
      apply bind_Ok_inv in H as (? & ? & H1 & H); cbn beta in H
  | H : ret _ _ = Ok _ |- _ => unfold ret in H; simplify_eq
  | H : gets _ _ = Ok _ |- _ => unfold gets in H; simplify_eq
  | H : modify _ _ = Ok _ |- _ => unfold modify in H; simplify_eq
  | H : deref ?o _ = Ok _ |- _ =>
      unfold deref in H; destruct o eqn:?; [|discriminate H]; simplify_eq
  | H : assert ?b _ = Ok _ |- _ =>
      unfold assert in H; destruct b eqn:?; [|discriminate H]; simplify_eq
  | H : liftOutcome ?r _ = Ok _ |- _ =>
      unfold liftOutcome in H; destruct r eqn:?; [|discriminate H..];
      simplify_eq
  | H : liftPBI ?m ?C = Ok _ |- _ =>
      unfold liftPBI in H;
      destruct (m (PerBlockInfo C)) as [[? ?]| |] eqn:?; [|discriminate H..];
      simplify_eq
  end.

Ltac monad_inv := repeat monad_inv1.

(** Rules of the triples. *)

Lemma hoare_bind {S A B} (P : S -> Prop) (Q : A -> S -> Prop)
    (R : B -> S -> Prop) (m : M S A) (k : A -> M S B) :
  hoare P m Q -> (forall a, hoare (Q a) (k a) R) -> hoare P (bind m k) R.
Proof.
  intros Hm Hk s b s2 Hrun HP.
  apply bind_Ok_inv in Hrun as (a & s1 & H1 & H2).
  eapply Hk; [done|]. by eapply Hm.
Qed.

Lemma hoare_bind_inv {S A B} (I : S -> Prop) (m : M S A) (k : A -> M S B) :
  hoare I m (fun _ => I) -> (forall a, hoare I (k a) (fun _ => I)) ->
  hoare I (bind m k) (fun _ => I).
Proof. apply hoare_bind. Qed.

Lemma hoare_ret {S A} (P : S -> Prop) (Q : A -> S -> Prop) (a : A) :
  (forall s, P s -> Q a s) -> hoare P (ret a) Q.
Proof. intros H s a' s' [=] HP; subst. by apply H. Qed.

Lemma hoare_gets {S A} (P : S -> Prop) (Q : A -> S -> Prop) (f : S -> A) :
  (forall s, P s -> Q (f s) s) -> hoare P (gets f) Q.
Proof. intros H s a' s' [=] HP; subst. by apply H. Qed.

Lemma hoare_modify {S} (P : S -> Prop) (Q : unit -> S -> Prop) (f : S -> S) :
  (forall s, P s -> Q tt (f s)) -> hoare P (modify f) Q.
Proof. intros H s a' s' [=] HP; subst. by apply H. Qed.

Lemma hoare_liftOutcome {S A} (P : S -> Prop) (Q : A -> S -> Prop)
    (r : Outcome A) :
  (forall a s, r = Ok a -> P s -> Q a s) -> hoare P (liftOutcome r) Q.
Proof.
  intros H s a s'. unfold liftOutcome. destruct r; [|done..].
  intros [=] HP; subst. by apply H.
Qed.

Lemma hoare_deref {S A} (P : S -> Prop) (Q : A -> S -> Prop) (o : option A) :
  (forall a s, o = Some a -> P s -> Q a s) -> hoare P (deref o) Q.
Proof.
  intros H s a s'. unfold deref. destruct o; [|done].
  intros [=] HP; subst. by apply H.
Qed.

Lemma hoare_assert {S} (P : S -> Prop) (Q : unit -> S -> Prop) (b : bool) :
  (forall s, b = true -> P s -> Q tt s) -> hoare P (assert b) Q.
Proof.
  intros H s a s'. unfold assert. destruct b; [|done].
  intros [=] HP; subst. by apply H.
Qed.

Lemma hoare_weaken {S A} (P P' : S -> Prop) (Q Q' : A -> S -> Prop) (m : M S A) :
  hoare P' m Q' -> (forall s, P s -> P' s) -> (forall a s, Q' a s -> Q a s) ->
  hoare P m Q.
Proof. intros H HP HQ s a s' Hrun Hs. eapply HQ, H; [done|]. by apply HP. Qed.

Lemma hoare_forEach {S A} (I : S -> Prop) (xs : list A) (body : A -> M S unit) :
  (forall x, x ∈ xs -> hoare I (body x) (fun _ => I)) ->
  hoare I (forEach xs body) (fun _ => I).
Proof.
  induction xs as [|x xs IH]; intros H; simpl.
  - by apply hoare_ret.
  - eapply hoare_bind; [apply H; left|]. intros ?. apply IH.
    intros y Hy. apply H. by right.
Qed.

(** ** The live-out dataflow *)

Lemma getBlockInfo_spec NumElements BB (PBI : PerBlockInfoMap) :
  exists s PBI1,
    getBlockInfo NumElements BB PBI = Ok (s, PBI1) /\
    PBI1 !! BB = Some s /\
    (forall b, b <> BB -> PBI1 !! b = PBI !! b) /\
    LOState s = loState PBI BB /\
    (forall s0, PBI !! BB = Some s0 -> s = s0 /\ PBI1 = PBI) /\
    (PBI !! BB = None ->
       s = LiveOutBlockState_new NumElements /\ PBI1 = <[BB := s]> PBI).
Proof.
  unfold getBlockInfo, loState. destruct (PBI !! BB) as [s|] eqn:E.
  - exists s, PBI. split_and!; try done. by intros s0 [= ->].
  - eexists _, _. split; [done|]. rewrite lookup_insert_eq.
    split_and!; try done.
    intros b Hb. by rewrite lookup_insert_ne.
Qed.

Lemma getBlockInfo_loState NumElements BB (PBI PBI1 : PerBlockInfoMap) s b :
  getBlockInfo NumElements BB PBI = Ok (s, PBI1) ->
  loState PBI1 b = loState PBI b.
Proof.
  unfold getBlockInfo, loState. destruct (PBI !! BB) as [s0|] eqn:E.
  - by intros [= _ ->].
  - intros [= <- <-]. destruct (decide (BB = b)) as [->|Hne].
    + by rewrite lookup_insert_eq, E.
    + by rewrite lookup_insert_ne.
Qed.

Lemma evolves_refl PBI : evolves PBI PBI.
Proof.
  intros BB. by destruct (loState PBI BB) eqn:E.
Qed.

Lemma evolves_inProgress PBI PBI' BB :
  evolves PBI PBI' ->
  (loState PBI' BB = IsComputingLiveOut <-> loState PBI BB = IsComputingLiveOut).
Proof.
  intros H. specialize (H BB). unfold loState in *.
  destruct (PBI !! BB) as [s|] eqn:E; [destruct (LOState s) eqn:E2|].
  - split; [done|congruence].
  - rewrite H, E2. done.
  - rewrite H, E2. split; congruence.
  - split; [done|congruence].
Qed.

Lemma evolves_trans PBI1 PBI2 PBI3 :
  evolves PBI1 PBI2 -> evolves PBI2 PBI3 -> evolves PBI1 PBI3.
Proof.
  intros H12 H23 BB.
  pose proof (H12 BB) as H1. pose proof (H23 BB) as H2.
  pose proof (evolves_inProgress _ _ BB H23) as Hip.
  destruct (loState PBI1 BB) eqn:E1.
  - intros Hc. apply H1. by apply Hip.
  - assert (loState PBI2 BB = IsComputingLiveOut) as E2.
    { unfold loState in *. rewrite H1.
      destruct (PBI1 !! BB); [done|congruence]. }
    rewrite E2 in H2. congruence.
  - assert (loState PBI2 BB = IsKnown) as E2.
    { unfold loState in *. rewrite H1.
      destruct (PBI1 !! BB); [done|congruence]. }
    rewrite E2 in H2. congruence.
Qed.

Lemma notInProgress_evolves blocks PBI PBI' :
  evolves PBI PBI' -> notInProgress blocks PBI' = notInProgress blocks PBI.
Proof.
  intros H. unfold notInProgress. apply set_eq. intros b.
  rewrite !elem_of_filter. pose proof (evolves_inProgress _ _ b H). tauto.
Qed.

Lemma notInProgress_enter blocks (PBI PBI2 : PerBlockInfoMap) BB :
  BB ∈ blocks ->
  loState PBI BB <> IsComputingLiveOut ->
  loState PBI2 BB = IsComputingLiveOut ->
  (forall b, b <> BB -> loState PBI2 b = loState PBI b) ->
  size (notInProgress blocks PBI2) < size (notInProgress blocks PBI).
Proof.
  intros Hin Hne Hip Hoth. apply subset_size. unfold notInProgress.
  apply strict_spec_alt. split.
  - intros b. rewrite !elem_of_filter. intros [Hb Hbin]. split; [|done].
    destruct (decide (b = BB)) as [->|Hd]; [done|]. by rewrite <- Hoth.
  - intros Heq. assert (BB ∈ filter (fun BB => loState PBI BB <> IsComputingLiveOut) blocks) as Hx.
    { apply elem_of_filter. done. }
    rewrite <- Heq in Hx. apply elem_of_filter in Hx as [Hx _]. done.
Qed.

Lemma transitionBound_step d k :
  transitionBound d k <= transitionBound d (S k).
Proof.
  induction k as [|k IH]; [simpl; lia|].
  change (2 + d * transitionBound d k <= 2 + d * transitionBound d (S k)).
  apply Nat.add_le_mono_l, Nat.mul_le_mono_l, IH.
Qed.

Lemma transitionBound_mono d k k' :
  k <= k' -> transitionBound d k <= transitionBound d k'.
Proof.
  induction 1; [done|]. etrans; [done|]. apply transitionBound_step.
Qed.

Lemma getBlockInfo_evolves NumElements BB (PBI PBI1 : PerBlockInfoMap) s :
  getBlockInfo NumElements BB PBI = Ok (s, PBI1) -> evolves PBI PBI1.
Proof.
  intros H b. pose proof (getBlockInfo_loState _ _ _ _ _ b H) as Hlo.
  destruct (loState PBI b) eqn:E.
  - congruence.
  - unfold getBlockInfo in H. destruct (PBI !! BB) as [s0|] eqn:E0.
    + by injection H as _ <-.
    + injection H as _ <-. rewrite lookup_insert_ne; [done|].
      intros ->. unfold loState in E. by rewrite E0 in E.
  - unfold getBlockInfo in H. destruct (PBI !! BB) as [s0|] eqn:E0.
    + by injection H as _ <-.
    + injection H as _ <-. rewrite lookup_insert_ne; [done|].
      intros ->. unfold loState in E. by rewrite E0 in E.
Qed.

Lemma onMap_Ok {A} (m : M PerBlockInfoMap A) PBI tr a PBI1 :
  m PBI = Ok (a, PBI1) -> onMap m (PBI, tr) = Ok (a, (PBI1, tr)).
Proof. intros H. unfold onMap. simpl. by rewrite H. Qed.

Lemma loState_insert (PBI : PerBlockInfoMap) BB s b :
  loState (<[BB := s]> PBI) b =
  if decide (BB = b) then LOState s else loState PBI b.
Proof.
  unfold loState. rewrite lookup_insert. by destruct (decide (BB = b)).
Qed.

Section DataflowFacts.

Variable NumElements : nat.
Variable getPreds : SILBasicBlock -> list SILBasicBlock.
Variable blocks : gset SILBasicBlock.
Variable d : nat.
Hypothesis blocks_closed : closedUnderPreds getPreds blocks.
Hypothesis preds_bound : forall BB, BB ∈ blocks -> length (getPreds BB) <= d.

Lemma getPredsLiveOutN_loop_ok Inv c fuel :
  queryOk blocks d Inv c fuel ->
  forall Preds Result PBI tr,
    (forall P, P ∈ Preds -> P ∈ blocks) ->
    size (notInProgress blocks PBI) < fuel -> Inv PBI ->
    exists R PBI' tr',
      getPredsLiveOutN_loop c Preds Result (PBI, tr)
        = Ok (R, (PBI', tr ++ tr')) /\
      evolves PBI PBI' /\ Inv PBI' /\
      forallb allowedTransition tr' = true /\
      length tr'
        <= length Preds * transitionBound d (size (notInProgress blocks PBI)).
Proof.
  intros Hc Preds. induction Preds as [|P Preds IH]; intros Result PBI tr Hin Hm HI.
  - exists Result, PBI, []. simpl. rewrite app_nil_r.
    split_and!; try done. apply evolves_refl.
  - destruct (Hc P PBI tr) as (R1 & PBI1 & tr1 & E1 & Hev1 & HI1 & Hal1 & Hlen1);
      [apply Hin; left|done|done|].
    pose proof (notInProgress_evolves blocks _ _ Hev1) as Hm1.
    destruct (IH (AvSet.mergeIn Result R1) PBI1 (tr ++ tr1))
      as (R2 & PBI2 & tr2 & E2 & Hev2 & HI2 & Hal2 & Hlen2).
    { intros Q HQ. apply Hin. by right. }
    { by rewrite Hm1. }
    { done. }
    exists R2, PBI2, (tr1 ++ tr2). simpl.
    rewrite (bind_Ok _ _ _ _ _ E1). rewrite E2, app_assoc.
    split_and!; try done.
    + by eapply evolves_trans.
    + rewrite forallb_app. by rewrite Hal1, Hal2.
    + rewrite length_app. rewrite Hm1 in Hlen2. lia.
Qed.

Lemma getPredsLiveOut1_loop_ok Inv c fuel :
  queryOk blocks d Inv c fuel ->
  forall Preds Result PBI tr,
    (forall P, P ∈ Preds -> P ∈ blocks) ->
    size (notInProgress blocks PBI) < fuel -> Inv PBI ->
    exists R PBI' tr',
      getPredsLiveOut1_loop c Preds Result (PBI, tr)
        = Ok (R, (PBI', tr ++ tr')) /\
      evolves PBI PBI' /\ Inv PBI' /\
      forallb allowedTransition tr' = true /\
      length tr'
        <= length Preds * transitionBound d (size (notInProgress blocks PBI)).
Proof.
  intros Hc Preds. induction Preds as [|P Preds IH]; intros Result PBI tr Hin Hm HI.
  - exists Result, PBI, []. simpl. rewrite app_nil_r.
    split_and!; try done. apply evolves_refl.
  - destruct (Hc P PBI tr) as (R1 & PBI1 & tr1 & E1 & Hev1 & HI1 & Hal1 & Hlen1);
      [apply Hin; left|done|done|].
    pose proof (notInProgress_evolves blocks _ _ Hev1) as Hm1.
    destruct (IH (mergeKinds Result R1) PBI1 (tr ++ tr1))
      as (R2 & PBI2 & tr2 & E2 & Hev2 & HI2 & Hal2 & Hlen2).
    { intros Q HQ. apply Hin. by right. }
    { by rewrite Hm1. }
    { done. }
    exists R2, PBI2, (tr1 ++ tr2). simpl.
    rewrite (bind_Ok _ _ _ _ _ E1). rewrite E2, app_assoc.
    split_and!; try done.
    + by eapply evolves_trans.
    + rewrite forallb_app. by rewrite Hal1, Hal2.
    + rewrite length_app. rewrite Hm1 in Hlen2. lia.
Qed.

Lemma enter_measure (PBI PBI1 : PerBlockInfoMap) BB s fuel :
  BB ∈ blocks ->
  getBlockInfo NumElements BB PBI = Ok (s, PBI1) ->
  LOState s = IsUnknown ->
  size (notInProgress blocks PBI) < S fuel ->
  size (notInProgress blocks
          (<[BB := setLOState s IsComputingLiveOut]> PBI1)) < fuel /\
  S (size (notInProgress blocks
             (<[BB := setLOState s IsComputingLiveOut]> PBI1)))
    <= size (notInProgress blocks PBI).
Proof.
  intros Hin Hg Hs Hm.
  destruct (getBlockInfo_spec NumElements BB PBI)
    as (s' & PBI1' & Hg' & _ & _ & Hlo & _).
  rewrite Hg in Hg'. injection Hg' as <- <-.
  assert (size (notInProgress blocks
                  (<[BB := setLOState s IsComputingLiveOut]> PBI1))
          < size (notInProgress blocks PBI)); [|lia].
  apply notInProgress_enter with BB; [done|congruence| |].
  - rewrite loState_insert. by rewrite decide_True.
  - intros b Hb. rewrite loState_insert, decide_False by done.
    by eapply getBlockInfo_loState.
Qed.

Lemma leave_evolves (PBI PBI1 PBI3 : PerBlockInfoMap) BB s s' :
  getBlockInfo NumElements BB PBI = Ok (s, PBI1) ->
  LOState s = IsUnknown ->
  evolves (<[BB := setLOState s IsComputingLiveOut]> PBI1) PBI3 ->
  LOState s' <> IsComputingLiveOut ->
  evolves PBI (<[BB := s']> PBI3).
Proof.
  intros Hg Hs Hev Hs' b.
  destruct (getBlockInfo_spec NumElements BB PBI)
    as (s0 & PBI0 & Hg' & _ & Hoth & Hlo & _).
  rewrite Hg in Hg'. injection Hg' as <- <-.
  destruct (decide (BB = b)) as [<-|Hne].
  - rewrite <- Hlo, Hs. rewrite loState_insert. by rewrite decide_True.
  - specialize (Hev b). rewrite loState_insert, decide_False in Hev by done.
    assert (loState PBI1 b = loState PBI b) as E
      by (unfold loState; by rewrite Hoth).
    rewrite E in Hev.
    destruct (loState PBI b) eqn:E2.
    + by rewrite loState_insert, decide_False.
    + rewrite lookup_insert_ne by done.
      rewrite Hev, lookup_insert_ne by done. by apply Hoth.
    + rewrite lookup_insert_ne by done.
      rewrite Hev, lookup_insert_ne by done. by apply Hoth.
Qed.

Lemma reenter_lookup (PBI2 PBI3 : PerBlockInfoMap) BB s :
  PBI2 !! BB = Some s -> LOState s = IsComputingLiveOut ->
  evolves PBI2 PBI3 ->
  getBlockInfo NumElements BB PBI3 = Ok (s, PBI3).
Proof.
  intros H2 Hs Hev. specialize (Hev BB). unfold loState in Hev.
  rewrite H2, Hs in Hev. unfold getBlockInfo. by rewrite Hev.
Qed.

Lemma bound_step (PBI PBI2 : PerBlockInfoMap) (n len : nat) :
  S (size (notInProgress blocks PBI2)) <= size (notInProgress blocks PBI) ->
  n <= d ->
  len <= n * transitionBound d (size (notInProgress blocks PBI2)) ->
  S (len + 1) <= transitionBound d (size (notInProgress blocks PBI)).
Proof.
  intros Hm Hn Hlen.
  destruct (size (notInProgress blocks PBI)) as [|m] eqn:E; [lia|].
  assert (transitionBound d (size (notInProgress blocks PBI2))
          <= transitionBound d m) by (apply transitionBound_mono; lia).
  change (transitionBound d (S m)) with (2 + d * transitionBound d m).
  nia.
Qed.

Lemma getLiveOutN_traced_ok fuel :
  queryOk blocks d (fun _ => True) (getLiveOutN_traced NumElements getPreds fuel) fuel.
Proof.
  induction fuel as [|fuel IH]; intros BB PBI tr Hin Hm _; [lia|].
  destruct (getBlockInfo_spec NumElements BB PBI)
    as (s & PBI1 & Hg & Hl1 & Hoth & Hlo & _).
  cbn [getLiveOutN_traced].
  rewrite (bind_Ok _ _ _ _ _ (onMap_Ok _ _ tr _ _ Hg)).
  destruct (LOState s) eqn:Hs.
  - (* IsUnknown *)
    destruct (enter_measure _ _ _ _ _ Hin Hg Hs Hm) as [Hm2 Hm2'].
    set (PBI2 := <[BB := setLOState s IsComputingLiveOut]> PBI1) in *.
    destruct (getPredsLiveOutN_loop_ok _ _ _ IH (getPreds BB)
                (AvSet.new NumElements) PBI2 (tr ++ [(BB, IsUnknown, IsComputingLiveOut)]))
      as (R & PBI3 & tr3 & E3 & Hev3 & _ & Hal3 & Hlen3);
      [by intros P HP; eapply blocks_closed|done|done|].
    assert (getBlockInfo NumElements BB PBI3
            = Ok (setLOState s IsComputingLiveOut, PBI3)) as Hg3.
    { eapply reenter_lookup; [|done|done]. subst PBI2. apply lookup_insert_eq. }
    unfold bind at 1. unfold onMap at 1, modify at 1. cbn [fst snd].
    unfold bind at 1. unfold logTransition at 1, modify at 1. cbn [fst snd].
    fold PBI2. rewrite (bind_Ok _ _ _ _ _ E3).
    rewrite (bind_Ok _ _ _ _ _ (onMap_Ok _ _ _ _ _ Hg3)).
    cbn [Availability setLOState LOState].
    destruct (AvSet.containsUnknownElements
                (applyLocalYes NumElements (Availability s) R)) eqn:Hcu;
      cbn [negb].
    + eexists _, _, ([(BB, IsUnknown, IsComputingLiveOut)] ++ tr3
                     ++ [(BB, IsComputingLiveOut, IsUnknown)]).
      split; [|split_and!].
      * unfold bind, onMap, logTransition, modify, ret. cbn [fst snd].
        by rewrite !app_assoc.
      * eapply leave_evolves; [done|done|done|done].
      * done.
      * cbn [app forallb allowedTransition andb]. rewrite forallb_app, Hal3. done.
      * cbn [app length]. rewrite length_app. cbn [length].
        eapply bound_step; [done|by apply preds_bound|done].
    + eexists _, _, ([(BB, IsUnknown, IsComputingLiveOut)] ++ tr3
                     ++ [(BB, IsComputingLiveOut, IsKnown)]).
      split; [|split_and!].
      * unfold bind, liftOutcome, setBlockAvailability, onMap, logTransition,
          modify, ret. cbn [fst snd LOState].
        rewrite decide_False by done. rewrite Hcu. cbn [fst snd].
        by rewrite !app_assoc.
      * eapply leave_evolves; [done|done|done|done].
      * done.
      * cbn [app forallb allowedTransition andb]. rewrite forallb_app, Hal3. done.
      * cbn [app length]. rewrite length_app. cbn [length].
        eapply bound_step; [done|by apply preds_bound|done].
  - exists (AvSet.new NumElements), PBI1, []. rewrite app_nil_r.
    split_and!; try done; [by eapply getBlockInfo_evolves|simpl; lia].
  - exists (Availability s), PBI1, []. rewrite app_nil_r.
    split_and!; try done; [by eapply getBlockInfo_evolves|simpl; lia].
Qed.

(** The facts the single-element path relies on. *)

Lemma Inv1_insert (PBI : PerBlockInfoMap) BB s :
  Inv1 PBI ->
  AvSet.size (Availability s) = 1 ->
  (LOState s = IsKnown ->
     AvSet.containsUnknownElements (Availability s) = false) ->
  (AvSet.getConditional (Availability s) 0 = Some Yes -> LOState s = IsKnown) ->
  Inv1 (<[BB := s]> PBI).
Proof.
  intros (H1 & H2 & H3) Hs Hk Hy. split_and!; intros b s0; rewrite lookup_insert;
    destruct (decide (BB = b)); try (intros [= <-]; done).
  - apply H1.
  - apply H2.
  - apply H3.
Qed.

Lemma getBlockInfo_Inv1 BB (PBI PBI1 : PerBlockInfoMap) s :
  NumElements = 1 ->
  getBlockInfo NumElements BB PBI = Ok (s, PBI1) ->
  Inv1 PBI -> Inv1 PBI1.
Proof.
  intros HN Hg HI. unfold getBlockInfo in Hg.
  destruct (PBI !! BB) as [s0|]; injection Hg as <- <-; [done|].
  apply Inv1_insert; [done| | |]; rewrite HN; done.
Qed.

Lemma set0_defined a K :
  AvSet.size a = 1 -> AvSet.containsUnknownElements (AvSet.set a 0 K) = false.
Proof.
  intros H. apply AvSetFacts.containsUnknownElements_false.
  rewrite AvSetFacts.size_set, H. intros j Hj. assert (j = 0) as -> by lia.
  rewrite AvSetFacts.getConditional_set_eq by lia. done.
Qed.

Lemma getLiveOut1_traced_ok fuel :
  NumElements = 1 ->
  queryOk blocks d Inv1 (getLiveOut1_traced NumElements getPreds fuel) fuel.
Proof.
  intros HN.
  induction fuel as [|fuel IH]; intros BB PBI tr Hin Hm HI; [lia|].
  destruct (getBlockInfo_spec NumElements BB PBI)
    as (s & PBI1 & Hg & Hl1 & Hoth & Hlo & _).
  pose proof (getBlockInfo_Inv1 _ _ _ _ HN Hg HI) as HI1.
  pose proof HI1 as (Hsz1 & Hkd1 & Hly1).
  cbn [getLiveOut1_traced].
  rewrite (bind_Ok _ _ _ _ _ (onMap_Ok _ _ tr _ _ Hg)).
  destruct (LOState s) eqn:Hs.
  - (* IsUnknown *)
    rewrite decide_False.
    2:{ intros Hy. apply (Hly1 _ _ Hl1) in Hy. congruence. }
    destruct (enter_measure _ _ _ _ _ Hin Hg Hs Hm) as [Hm2 Hm2'].
    set (PBI2 := <[BB := setLOState s IsComputingLiveOut]> PBI1) in *.
    assert (Inv1 PBI2) as HI2.
    { apply Inv1_insert; cbn [Availability LOState setLOState];
        [done|by eapply Hsz1|done|].
      intros Hy. apply (Hly1 _ _ Hl1) in Hy. congruence. }
    destruct (getPredsLiveOut1_loop_ok _ _ _ IH (getPreds BB)
                (getAvailabilityConditional s 0) PBI2
                (tr ++ [(BB, IsUnknown, IsComputingLiveOut)]))
      as (R & PBI3 & tr3 & E3 & Hev3 & HI3 & Hal3 & Hlen3);
      [by intros P HP; eapply blocks_closed|done|done|].
    assert (getBlockInfo NumElements BB PBI3
            = Ok (setLOState s IsComputingLiveOut, PBI3)) as Hg3.
    { eapply reenter_lookup; [|done|done]. subst PBI2. apply lookup_insert_eq. }
    unfold bind at 1. unfold onMap at 1, modify at 1. cbn [fst snd].
    unfold bind at 1. unfold logTransition at 1, modify at 1. cbn [fst snd].
    fold PBI2. rewrite (bind_Ok _ _ _ _ _ E3).
    rewrite (bind_Ok _ _ _ _ _ (onMap_Ok _ _ _ _ _ Hg3)).
    cbn [Availability setLOState LOState].
    destruct R as [K|].
    + eexists _, _, ([(BB, IsUnknown, IsComputingLiveOut)] ++ tr3
                     ++ [(BB, IsComputingLiveOut, IsKnown)]).
      split; [|split_and!].
      * unfold bind, liftOutcome, setBlockAvailability1, onMap, logTransition,
          modify, ret, setLOState. cbn [fst snd LOState Availability HasNonLoadUse].
        rewrite decide_False by done. rewrite (Hsz1 _ _ Hl1).
        cbn [Nat.eqb negb fst snd]. by rewrite !app_assoc.
      * eapply leave_evolves; [done|done|done|done].
      * apply Inv1_insert; [done| | |];
          cbn [Availability LOState setLOState]; try done.
        -- rewrite AvSetFacts.size_set. by eapply Hsz1.
        -- intros _. apply set0_defined. by eapply Hsz1.
      * cbn [app forallb allowedTransition andb]. rewrite forallb_app, Hal3. done.
      * cbn [app length]. rewrite length_app. cbn [length].
        eapply bound_step; [done|by apply preds_bound|done].
    + eexists _, _, ([(BB, IsUnknown, IsComputingLiveOut)] ++ tr3
                     ++ [(BB, IsComputingLiveOut, IsUnknown)]).
      split; [|split_and!].
      * unfold bind, onMap, logTransition, modify, ret. cbn [fst snd].
        by rewrite !app_assoc.
      * eapply leave_evolves; [done|done|done|done].
      * apply Inv1_insert; [done| | |];
          cbn [Availability LOState setLOState]; try done.
        -- by eapply Hsz1.
        -- intros Hy. apply (Hly1 _ _ Hl1) in Hy. congruence.
      * cbn [app forallb allowedTransition andb]. rewrite forallb_app, Hal3. done.
      * cbn [app length]. rewrite length_app. cbn [length].
        eapply bound_step; [done|by apply preds_bound|done].
  - exists None, PBI1, []. rewrite app_nil_r.
    split_and!; try done; [by eapply getBlockInfo_evolves|simpl; lia].
  - assert (exists K, AvSet.getConditional (Availability s) 0 = Some K) as [K HK].
    { pose proof (Hkd1 _ _ Hl1 Hs) as Hd.
      apply AvSetFacts.containsUnknownElements_false with (j := 0) in Hd.
      - destruct (AvSet.getConditional (Availability s) 0); [eauto|done].
      - rewrite (Hsz1 _ _ Hl1). lia. }
    exists (Some K), PBI1, []. rewrite app_nil_r.
    split_and!; try done; [|by eapply getBlockInfo_evolves|simpl; lia].
    unfold bind, liftOutcome, getAvailability, ret.
    rewrite (AvSetFacts.get_Ok _ _ K); [done| |done]. rewrite (Hsz1 _ _ Hl1). lia.
Qed.

(** *** The logged copies compute what the originals compute *)

Lemma erases_bind {A B} mt m (kt : A -> M _ B) k :
  erases mt m -> (forall a, erases (kt a) (k a)) ->
  erases (bind mt kt) (bind m k).
Proof.
  intros Hm Hk PBI tr. specialize (Hm PBI tr). unfold bind.
  destruct (mt (PBI, tr)) as [[a [PBI1 tr1]]| |]; simpl in Hm; rewrite <- Hm;
    [|done..].
  apply Hk.
Qed.

Lemma erases_ret {A} (a : A) : erases (ret a) (ret a).
Proof. done. Qed.

Lemma erases_onMap {A} (m : M PerBlockInfoMap A) : erases (onMap m) m.
Proof.
  intros PBI tr. unfold onMap. simpl. by destruct (m PBI) as [[a PBI1]| |].
Qed.

Lemma erases_liftOutcome {A} (r : Outcome A) :
  erases (liftOutcome r) (liftOutcome r).
Proof. intros PBI tr. by destruct r. Qed.

Lemma erases_log {A} BB From To (kt : M _ A) k :
  erases kt k -> erases (bind (logTransition BB From To) (fun _ => kt)) k.
Proof. intros Hk PBI tr. unfold bind, logTransition, modify. apply Hk. Qed.

Lemma erases_loopN ct c :
  (forall BB, erases (ct BB) (c BB)) ->
  forall Preds Result,
    erases (getPredsLiveOutN_loop ct Preds Result)
           (getPredsLiveOutN_loop c Preds Result).
Proof.
  intros Hc Preds. induction Preds as [|P Preds IH]; intros Result; simpl.
  - apply erases_ret.
  - apply erases_bind; [apply Hc|]. intros R. apply IH.
Qed.

Lemma erases_loop1 ct c :
  (forall BB, erases (ct BB) (c BB)) ->
  forall Preds Result,
    erases (getPredsLiveOut1_loop ct Preds Result)
           (getPredsLiveOut1_loop c Preds Result).
Proof.
  intros Hc Preds. induction Preds as [|P Preds IH]; intros Result; simpl.
  - apply erases_ret.
  - apply erases_bind; [apply Hc|]. intros R. apply IH.
Qed.

Ltac erase_step :=
  first [ apply erases_ret
        | apply erases_log
        | apply erases_bind; [first [apply erases_onMap | apply erases_liftOutcome]|intros ?] ].

Lemma getLiveOutN_traced_erase fuel BB :
  erases (getLiveOutN_traced NumElements getPreds fuel BB)
         (getLiveOutN NumElements getPreds fuel BB).
Proof.
  revert BB. induction fuel as [|fuel IH]; intros BB; [done|].
  cbn [getLiveOutN_traced getLiveOutN].
  apply erases_bind; [apply erases_onMap|]. intros s.
  destruct (LOState s); [|apply erases_ret..].
  erase_step. erase_step.
  apply erases_bind; [by apply erases_loopN|]. intros R.
  erase_step.
  destruct (negb _); repeat erase_step.
Qed.

Lemma getLiveOut1_traced_erase fuel BB :
  erases (getLiveOut1_traced NumElements getPreds fuel BB)
         (getLiveOut1 NumElements getPreds fuel BB).
Proof.
  revert BB. induction fuel as [|fuel IH]; intros BB; [done|].
  cbn [getLiveOut1_traced getLiveOut1].
  apply erases_bind; [apply erases_onMap|]. intros s.
  destruct (LOState s); [|apply erases_ret|repeat erase_step].
  destruct (decide _); [repeat erase_step|].
  erase_step. erase_step.
  apply erases_bind; [by apply erases_loop1|]. intros R.
  erase_step.
  destruct R; repeat erase_step.
Qed.

End DataflowFacts.

Lemma maxPreds_bound getPreds (blocks : gset SILBasicBlock) BB :
  BB ∈ blocks -> length (getPreds BB) <= maxPreds getPreds blocks.
Proof.
  intros H. unfold maxPreds. apply max_list_elem_of_le.
  apply list_elem_of_fmap. exists BB. split; [done|]. by apply elem_of_elements.
Qed.

Lemma notInProgress_size blocks PBI :
  size (notInProgress blocks PBI) <= size blocks.
Proof.
  apply subseteq_size. unfold notInProgress. intros b.
  rewrite elem_of_filter. tauto.
Qed.

Lemma traced_to_plain {A} (mt : M (PerBlockInfoMap * list LOTransition) A) m
    PBI R PBI' tr :
  erases mt m -> mt (PBI, []) = Ok (R, (PBI', tr)) -> m PBI = Ok (R, PBI').
Proof. intros He Ht. rewrite <- (He PBI []). by rewrite Ht. Qed.

(** C4: on a finite CFG (a finite set of blocks closed under predecessors)
    every live-out query returns, with a recursion depth of at most the
    number of blocks: [getLiveOutN] always, [getLiveOut1] on the maps the
    single-element checker builds.  The writes of [LOState] it makes are
    only Unknown to InProgress, InProgress to Known and InProgress back to
    Unknown; a block that was Known or InProgress before the query has the
    same entry after it; and the number of writes in one query is bounded
    by a function of the CFG alone. *)
Theorem liveOut_terminates (NumElements : nat)
    (getPreds : SILBasicBlock -> list SILBasicBlock)
    (blocks : gset SILBasicBlock) (fuel : nat) (BB : SILBasicBlock)
    (PBI : PerBlockInfoMap) :
  closedUnderPreds getPreds blocks ->
  BB ∈ blocks ->
  size blocks < fuel ->
  (exists R PBI' tr,
     getLiveOutN NumElements getPreds fuel BB PBI = Ok (R, PBI') /\
     getLiveOutN_traced NumElements getPreds fuel BB (PBI, [])
       = Ok (R, (PBI', tr)) /\
     evolves PBI PBI' /\
     forallb allowedTransition tr = true /\
     length tr <= transitionBound (maxPreds getPreds blocks) (size blocks)) /\
  (NumElements = 1 -> SizesAre 1 PBI -> KnownIsDefined PBI ->
   LocalYesIsKnown PBI ->
   exists R PBI' tr,
     getLiveOut1 NumElements getPreds fuel BB PBI = Ok (R, PBI') /\
     getLiveOut1_traced NumElements getPreds fuel BB (PBI, [])
       = Ok (R, (PBI', tr)) /\
     evolves PBI PBI' /\
     forallb allowedTransition tr = true /\
     length tr <= transitionBound (maxPreds getPreds blocks) (size blocks)).
Proof.
  intros Hclosed Hin Hfuel.
  pose proof (notInProgress_size blocks PBI) as Hsz.
  split.
  - destruct (getLiveOutN_traced_ok NumElements getPreds blocks
                (maxPreds getPreds blocks) Hclosed
                (fun b => maxPreds_bound getPreds blocks b) fuel BB PBI [])
      as (R & PBI' & tr & E & Hev & _ & Hal & Hlen); [done|lia|done|].
    exists R, PBI', tr. split_and!; try done.
    + eapply traced_to_plain; [apply getLiveOutN_traced_erase|done].
    + etrans; [done|]. by apply transitionBound_mono.
  - intros HN H1 H2 H3.
    destruct (getLiveOut1_traced_ok NumElements getPreds blocks
                (maxPreds getPreds blocks) Hclosed
                (fun b => maxPreds_bound getPreds blocks b) fuel HN BB PBI [])
      as (R & PBI' & tr & E & Hev & _ & Hal & Hlen); [done|lia|done|].
    exists R, PBI', tr. split_and!; try done.
    + eapply traced_to_plain; [apply getLiveOut1_traced_erase|done].
    + etrans; [done|]. by apply transitionBound_mono.
Qed.

Lemma loopBlocks_closed : closedUnderPreds loopPreds loopBlocks.
Proof.
  intros BB P HBB HP. unfold loopBlocks in *.
  destruct BB as [|[|[|BB]]]; simpl in HP; set_solver.
Qed.

Lemma liveOut_terminates_witness :
  (exists R PBI' tr,
     getLiveOutN 1 loopPreds 4 2 ∅ = Ok (R, PBI') /\
     getLiveOutN_traced 1 loopPreds 4 2 (∅, []) = Ok (R, (PBI', tr)) /\
     evolves ∅ PBI' /\
     forallb allowedTransition tr = true /\
     length tr
       <= transitionBound (maxPreds loopPreds loopBlocks) (size loopBlocks)) /\
  (exists R PBI' tr,
     getLiveOut1 1 loopPreds 4 2 ∅ = Ok (R, PBI') /\
     getLiveOut1_traced 1 loopPreds 4 2 (∅, []) = Ok (R, (PBI', tr)) /\
     evolves ∅ PBI' /\
     forallb allowedTransition tr = true /\
     length tr
       <= transitionBound (maxPreds loopPreds loopBlocks) (size loopBlocks)).
Proof.
  assert (2 ∈ loopBlocks) as Hin by (unfold loopBlocks; set_solver).
  assert (size loopBlocks < 4) as Hlt by (vm_compute; lia).
  destruct (liveOut_terminates 1 loopPreds loopBlocks 4 2 ∅
              loopBlocks_closed Hin Hlt) as [HN H1].
  split; [exact HN|].
  apply H1; [reflexivity| | |]; intros BB s H; by rewrite lookup_empty in H.
Defined.

(** ** The cache invariant: a known block holds no Unknown element *)

Lemma KnownIsDefined_insert (PBI : PerBlockInfoMap) BB s :
  KnownIsDefined PBI ->
  (LOState s = IsKnown ->
     AvSet.containsUnknownElements (Availability s) = false) ->
  KnownIsDefined (<[BB := s]> PBI).
Proof.
  intros H Hs b s0. rewrite lookup_insert.
  destruct (decide (BB = b)); [by intros [= <-]|apply H].
Qed.

Lemma getBlockInfo_KnownIsDefined N BB :
  hoare KnownIsDefined (getBlockInfo N BB) (fun _ => KnownIsDefined).
Proof.
  intros PBI s PBI1 Hg HI. unfold getBlockInfo in Hg.
  destruct (PBI !! BB); injection Hg as <- <-; [done|].
  by apply KnownIsDefined_insert.
Qed.

Lemma setBlockAvailability_Ok s AV s' :
  setBlockAvailability s AV = Ok s' ->
  LOState s <> IsKnown /\ LOState s' = IsKnown /\ Availability s' = AV /\
  AvSet.containsUnknownElements AV = false.
Proof.
  unfold setBlockAvailability. destruct (decide _); [done|].
  destruct (AvSet.containsUnknownElements AV) eqn:E; [done|].
  by intros [= <-].
Qed.

Lemma setBlockAvailability1_Ok s K s' :
  setBlockAvailability1 s K = Ok s' ->
  LOState s <> IsKnown /\ LOState s' = IsKnown /\
  AvSet.size (Availability s) = 1 /\
  Availability s' = AvSet.set (Availability s) 0 K /\
  AvSet.containsUnknownElements (Availability s') = false.
Proof.
  unfold setBlockAvailability1. destruct (decide _); [done|].
  destruct (AvSet.size (Availability s) =? 1) eqn:E; [|done].
  apply Nat.eqb_eq in E. intros [= <-]. cbn [Availability LOState].
  split_and!; try done. by apply set0_defined.
Qed.

Section CacheInvariant.

Variable NumElements : nat.
Variable getPreds : SILBasicBlock -> list SILBasicBlock.

Lemma getPredsLiveOutN_loop_KnownIsDefined
    (c : SILBasicBlock -> M PerBlockInfoMap AvailabilitySet) Preds :
  (forall BB, hoare KnownIsDefined (c BB) (fun _ => KnownIsDefined)) ->
  forall Result,
    hoare KnownIsDefined (getPredsLiveOutN_loop c Preds Result)
          (fun _ => KnownIsDefined).
Proof.
  intros Hc. induction Preds as [|P Preds IH]; intros Result; simpl.
  - by apply hoare_ret.
  - eapply hoare_bind; [apply Hc|]. intros R. apply IH.
Qed.

Lemma getPredsLiveOut1_loop_KnownIsDefined
    (c : SILBasicBlock -> M PerBlockInfoMap (option DIKind)) Preds :
  (forall BB, hoare KnownIsDefined (c BB) (fun _ => KnownIsDefined)) ->
  forall Result,
    hoare KnownIsDefined (getPredsLiveOut1_loop c Preds Result)
          (fun _ => KnownIsDefined).
Proof.
  intros Hc. induction Preds as [|P Preds IH]; intros Result; simpl.
  - by apply hoare_ret.
  - eapply hoare_bind; [apply Hc|]. intros R. apply IH.
Qed.

Lemma getLiveOutN_KnownIsDefined fuel BB :
  hoare KnownIsDefined (getLiveOutN NumElements getPreds fuel BB)
        (fun _ => KnownIsDefined).
Proof.
  revert BB. induction fuel as [|fuel IH]; intros BB; [done|].
  cbn [getLiveOutN].
  apply hoare_bind_inv; [apply getBlockInfo_KnownIsDefined|]. intros s.
  destruct (LOState s); [|by apply hoare_ret..].
  apply hoare_bind_inv.
  { apply hoare_modify. intros PBI HI. by apply KnownIsDefined_insert. }
  intros ?. apply hoare_bind_inv.
  { by apply getPredsLiveOutN_loop_KnownIsDefined. }
  intros R. apply hoare_bind_inv; [apply getBlockInfo_KnownIsDefined|]. intros s2.
  destruct (negb _).
  - eapply hoare_bind with (Q := fun a PBI => KnownIsDefined PBI /\ _ = Ok a).
    { apply hoare_liftOutcome. intros a' PBI Ha HI. split; [done|exact Ha]. }
    intros s3.
    eapply hoare_bind with (Q := fun _ => KnownIsDefined);
      [|intros; by apply hoare_ret].
    apply hoare_modify. intros PBI [HI Hs3]. apply KnownIsDefined_insert; [done|].
    apply setBlockAvailability_Ok in Hs3 as (_ & _ & -> & H). done.
  - apply hoare_bind_inv; [|intros; by apply hoare_ret].
    apply hoare_modify. intros PBI HI. by apply KnownIsDefined_insert.
Qed.

Lemma getLiveOut1_KnownIsDefined fuel BB :
  hoare KnownIsDefined (getLiveOut1 NumElements getPreds fuel BB)
        (fun _ => KnownIsDefined).
Proof.
  revert BB. induction fuel as [|fuel IH]; intros BB; [done|].
  cbn [getLiveOut1].
  apply hoare_bind_inv; [apply getBlockInfo_KnownIsDefined|]. intros s.
  assert (forall K (X : option DIKind) s0,
            hoare KnownIsDefined
              (bind (liftOutcome (setBlockAvailability1 s0 K))
                 (fun s' => bind (modify (insert BB s')) (fun _ => ret X)))
              (fun _ => KnownIsDefined)) as Hset.
  { intros K X s0.
    eapply hoare_bind with (Q := fun a PBI => KnownIsDefined PBI /\ _ = Ok a).
    { apply hoare_liftOutcome. intros a' PBI Ha HI. split; [done|exact Ha]. }
    intros s3.
    eapply hoare_bind with (Q := fun _ => KnownIsDefined);
      [|intros; by apply hoare_ret].
    apply hoare_modify. intros PBI [HI Hs3]. apply KnownIsDefined_insert; [done|].
    by apply setBlockAvailability1_Ok in Hs3 as (_ & _ & _ & _ & H). }
  destruct (LOState s).
  - destruct (decide _); [apply Hset|].
    apply hoare_bind_inv.
    { apply hoare_modify. intros PBI HI. by apply KnownIsDefined_insert. }
    intros ?. apply hoare_bind_inv.
    { by apply getPredsLiveOut1_loop_KnownIsDefined. }
    intros R. apply hoare_bind_inv; [apply getBlockInfo_KnownIsDefined|].
    intros s2. destruct R; [apply Hset|].
    apply hoare_bind_inv; [|intros; by apply hoare_ret].
    apply hoare_modify. intros PBI HI. by apply KnownIsDefined_insert.
  - by apply hoare_ret.
  - apply hoare_bind_inv; [|intros; by apply hoare_ret].
    by apply hoare_liftOutcome.
Qed.

End CacheInvariant.

(** ** [getLivenessAtInst] touches the per-block map only *)

Lemma framePBI_refl C : framePBI C C.
Proof. by destruct C. Qed.

Lemma framePBI_set C0 C PBI :
  framePBI C0 C -> framePBI C0 (set_PerBlockInfo PBI C).
Proof. unfold framePBI. intros ->. by destruct C0. Qed.

Lemma framePBI_fields C0 C :
  framePBI C0 C ->
  Fn C = Fn C0 /\ Diags C = Diags C0 /\ TheMemory C = TheMemory C0 /\
  Uses C = Uses C0 /\ Releases C = Releases C0 /\
  ConditionalDestroys C = ConditionalDestroys C0 /\
  NonLoadUses C = NonLoadUses C0 /\
  HasConditionalInitAssignOrDestroys C = HasConditionalInitAssignOrDestroys C0 /\
  EmittedErrorLocs C = EmittedErrorLocs C0 /\
  BlocksReachableFromEntry C = BlocksReachableFromEntry C0.
Proof. unfold framePBI. intros ->. by destruct C0. Qed.

Lemma hoare_liftPBI {A} C0 (P : PerBlockInfoMap -> Prop)
    (m : M PerBlockInfoMap A) :
  hoare P m (fun _ => P) ->
  hoare (fun C => framePBI C0 C /\ P (PerBlockInfo C)) (liftPBI m)
        (fun _ C => framePBI C0 C /\ P (PerBlockInfo C)).
Proof.
  intros Hm C a C' Hrun [HF HP]. unfold liftPBI in Hrun.
  destruct (m (PerBlockInfo C)) as [[a' PBI']| |] eqn:E; [|done..].
  injection Hrun as <- <-. split.
  - by apply framePBI_set.
  - destruct C. cbn. by eapply Hm.
Qed.

Lemma getPredsLiveOutN_hoare (P : PerBlockInfoMap -> Prop) N getPreds fuel BB R :
  (forall f b, hoare P (getLiveOutN N getPreds f b) (fun _ => P)) ->
  hoare P (getPredsLiveOutN N getPreds fuel BB R) (fun _ => P).
Proof.
  intros H. unfold getPredsLiveOutN. generalize (getPreds BB). intros l.
  revert R. induction l as [|p l IH]; intros R; simpl.
  - by apply hoare_ret.
  - apply hoare_bind_inv; [apply H|]. intros ?. apply IH.
Qed.

Lemma getPredsLiveOut1_hoare (P : PerBlockInfoMap -> Prop) N getPreds fuel BB R :
  (forall f b, hoare P (getLiveOut1 N getPreds f b) (fun _ => P)) ->
  hoare P (getPredsLiveOut1 N getPreds fuel BB R) (fun _ => P).
Proof.
  intros H. unfold getPredsLiveOut1. generalize (getPreds BB). intros l.
  revert R. induction l as [|p l IH]; intros R; simpl.
  - by apply hoare_ret.
  - apply hoare_bind_inv; [apply H|]. intros ?. apply IH.
Qed.

(** Whatever the dataflow preserves on the map, [getLivenessAtInst]
    preserves, and it leaves the rest of the checker alone. *)
Lemma getLivenessAtInst_hoare (P : PerBlockInfoMap -> Prop) C0 Inst FirstElt NumElts :
  (forall N BB, hoare P (getBlockInfo N BB) (fun _ => P)) ->
  (forall N getPreds f b, hoare P (getLiveOutN N getPreds f b) (fun _ => P)) ->
  (forall N getPreds f b, hoare P (getLiveOut1 N getPreds f b) (fun _ => P)) ->
  hoare (fun C => framePBI C0 C /\ P (PerBlockInfo C))
        (getLivenessAtInst Inst FirstElt NumElts)
        (fun _ C => framePBI C0 C /\ P (PerBlockInfo C)).
Proof.
  intros Hg HN H1. unfold getLivenessAtInst.
  apply hoare_bind_inv; [by apply hoare_gets|]. intros C.
  destruct (NumElts =? 0); [by apply hoare_ret|].
  apply hoare_bind_inv; [by apply hoare_deref|]. intros InstBB.
  apply hoare_bind_inv; [by apply hoare_liftPBI|]. intros BBInfo.
  destruct (_ =? 1).
  - destruct (scanLocal1 _ _); [by apply hoare_ret|].
    apply hoare_bind_inv; [|intros; by apply hoare_ret].
    apply hoare_liftPBI. by apply getPredsLiveOut1_hoare.
  - apply hoare_bind_inv; [by apply hoare_liftOutcome|]. intros [R|Needed].
    + by apply hoare_ret.
    + apply hoare_bind_inv; [|intros; by apply hoare_ret].
      apply hoare_liftPBI. by apply getPredsLiveOutN_hoare.
Qed.

Lemma getLivenessAtInst_frame Inst FirstElt NumElts C R C' :
  getLivenessAtInst Inst FirstElt NumElts C = Ok (R, C') -> framePBI C C'.
Proof.
  intros H.
  refine (proj1 (getLivenessAtInst_hoare (fun _ => True) C Inst FirstElt NumElts
            _ _ _ C R C' H (conj (framePBI_refl C) I))); by intros.
Qed.

Lemma getLivenessAtInst_KnownIsDefined Inst FirstElt NumElts C R C' :
  getLivenessAtInst Inst FirstElt NumElts C = Ok (R, C') ->
  KnownIsDefined (PerBlockInfo C) -> KnownIsDefined (PerBlockInfo C').
Proof.
  intros H HK.
  refine (proj2 (getLivenessAtInst_hoare KnownIsDefined C Inst FirstElt NumElts
            _ _ _ C R C' H (conj (framePBI_refl C) HK))).
  - apply getBlockInfo_KnownIsDefined.
  - apply getLiveOutN_KnownIsDefined.
  - apply getLiveOut1_KnownIsDefined.
Qed.

(** ** The constructor establishes the shape of the checker *)

Lemma markAvailable_Ok s U s' :
  markAvailable s U = Ok s' ->
  LOState s' = LOState s /\
  AvSet.size (Availability s') = AvSet.size (Availability s) /\
  (AvSet.containsUnknownElements (Availability s) = false ->
   AvSet.containsUnknownElements (Availability s') = false).
Proof.
  unfold markAvailable. destruct (AvSet.empty _); [by intros [= <-]|].
  destruct (_ =? 0); [done|]. intros [= <-]. cbn [LOState Availability setAvailability].
  split; [done|].
  generalize (seq 1 (DIMemoryUse.NumElements U - 1)). intros l.
  assert (forall a,
            AvSet.size (fold_left (fun A i => AvSet.set A (DIMemoryUse.FirstElement U + i) Yes) l a)
              = AvSet.size a /\
            (AvSet.containsUnknownElements a = false ->
             AvSet.containsUnknownElements
               (fold_left (fun A i => AvSet.set A (DIMemoryUse.FirstElement U + i) Yes) l a)
               = false)) as Hfold.
  { induction l as [|x l IH]; intros a; simpl; [done|].
    destruct (IH (AvSet.set a (DIMemoryUse.FirstElement U + x) Yes)) as [IH1 IH2].
    split.
    - by rewrite IH1, AvSetFacts.size_set.
    - intros Ha. by apply IH2, AvSetFacts.containsUnknownElements_set. }
  destruct (Hfold (AvSet.set (Availability s) (DIMemoryUse.FirstElement U) Yes))
    as [H1 H2].
  split.
  - by rewrite H1, AvSetFacts.size_set.
  - intros Ha. by apply H2, AvSetFacts.containsUnknownElements_set.
Qed.

Lemma SizesAre_insert N (PBI : PerBlockInfoMap) BB s :
  SizesAre N PBI -> AvSet.size (Availability s) = N ->
  SizesAre N (<[BB := s]> PBI).
Proof.
  intros H Hs b s0. rewrite lookup_insert.
  destruct (decide (BB = b)); [by intros [= <-]|apply H].
Qed.

Lemma LocalYesIsKnown_insert (PBI : PerBlockInfoMap) BB s :
  LocalYesIsKnown PBI ->
  (AvSet.getConditional (Availability s) 0 = Some Yes -> LOState s = IsKnown) ->
  LocalYesIsKnown (<[BB := s]> PBI).
Proof.
  intros H Hs b s0. rewrite lookup_insert.
  destruct (decide (BB = b)); [by intros [= <-]|apply H].
Qed.

Lemma getBlockInfo_wf N BB (PBI PBI1 : PerBlockInfoMap) s :
  getBlockInfo N BB PBI = Ok (s, PBI1) ->
  SizesAre N PBI -> KnownIsDefined PBI -> (N = 1 -> LocalYesIsKnown PBI) ->
  PBI1 !! BB = Some s /\
  SizesAre N PBI1 /\ KnownIsDefined PBI1 /\ (N = 1 -> LocalYesIsKnown PBI1).
Proof.
  intros Hg H1 H2 H3. unfold getBlockInfo in Hg.
  destruct (PBI !! BB) as [s0|] eqn:E; injection Hg as <- <-; [done|].
  rewrite lookup_insert_eq. split_and!; [done| | |].
  - apply SizesAre_insert; [done|]. apply AvSetFacts.size_new.
  - by apply KnownIsDefined_insert.
  - intros HN. apply LocalYesIsKnown_insert; [by apply H3|].
    subst N. done.
Qed.

Lemma isAllYes_false_1 a :
  AvSet.size a = 1 -> AvSet.isAllYes a = false ->
  AvSet.getConditional a 0 <> Some Yes.
Proof.
  intros Hs Hf Hy. assert (AvSet.isAllYes a = true); [|congruence].
  apply AvSetFacts.isAll_true. rewrite Hs. intros j Hj.
  by assert (j = 0) as -> by lia.
Qed.

Lemma LifetimeChecker_collect_inv F TM Us ui :
  ui < length Us ->
  hoare (collectInv F TM Us) (LifetimeChecker_collect ui)
        (fun _ => collectInv F TM Us).
Proof.
  intros Hui C [] C' Hrun (HF & HTM & HU & Hsz & Hkd & Hly & Hnlu).
  subst F TM Us.
  unfold LifetimeChecker_collect in Hrun.
  monad_inv. destruct (decide _) as [|Hk]; monad_inv.
  { done. }
  match goal with H : getBlockInfo _ _ _ = _ |- _ => rename H into Hg end.
  cbn in Hg.
  apply getBlockInfo_wf in Hg as (Hl & Hsz1 & Hkd1 & Hly1); [|done..].
  match goal with H : markAvailable _ _ = _ |- _ =>
    apply markAvailable_Ok in H as (Hm1 & Hm2 & Hm3) end.
  cbn [LOState Availability setHasNonLoadUse] in Hm1, Hm2, Hm3.
  unfold collectInv. cbn. split_and!; try done.
  - apply SizesAre_insert; [done|].
    destruct (AvSet.isAllYes _); cbn; rewrite Hm2; by eapply Hsz1.
  - apply KnownIsDefined_insert; [done|].
    destruct (AvSet.isAllYes _) eqn:Hall; cbn.
    + intros _. by eapply AvSetFacts.isAll_defined.
    + intros Hkn. apply Hm3. eapply Hkd1; [done|congruence].
  - intros HN. apply LocalYesIsKnown_insert; [by apply Hly1|].
    destruct (AvSet.isAllYes _) eqn:Hall; cbn; [done|].
    intros Hy. exfalso. eapply isAllYes_false_1; [|done|done].
    rewrite Hm2, <- HN. by eapply Hsz1.
  - intros I Idx. rewrite lookup_insert. destruct (decide _).
    + intros [= <-]. by rewrite Nat2N.id.
    + apply Hnlu.
Qed.

Lemma LifetimeChecker_new_wf F TM Us Rs C :
  LifetimeChecker_new F TM Us Rs = Ok C ->
  CheckerWf C /\ Fn C = F /\ TheMemory C = TM /\ Uses C = Us /\
  Releases C = Rs /\ Diags C = [] /\ EmittedErrorLocs C = [] /\
  HasConditionalInitAssignOrDestroys C = false /\ ConditionalDestroys C = [].
Proof.
  unfold LifetimeChecker_new.
  set (C0 := mkLifetimeChecker F [] TM Us Rs [] ∅ ∅ false [] ∅).
  set (Frame := fun C : LifetimeChecker =>
         Releases C = Rs /\ Diags C = [] /\ EmittedErrorLocs C = [] /\
         HasConditionalInitAssignOrDestroys C = false /\
         ConditionalDestroys C = []).
  destruct (bind _ _ C0) as [[[] C1]| |] eqn:Hrun; [|done..]. intros [= <-].
  apply bind_Ok_inv in Hrun as ([] & Ca & Hloop & Hrun). cbn beta in Hrun.
  assert (collectInv F TM Us Ca) as (HF & HTM & HU & Hsz & Hkd & Hly & Hnlu).
  { eapply (hoare_forEach (collectInv F TM Us)); [|exact Hloop|].
    - intros ui Hui. apply LifetimeChecker_collect_inv.
      apply list_elem_of_In, in_seq in Hui. lia.
    - unfold collectInv, C0. cbn. split_and!; done. }
  assert (Frame Ca) as HFa.
  { assert (hoare Frame (forEach (seq 0 (length Us)) LifetimeChecker_collect)
              (fun _ => Frame)) as Hfr.
    { apply hoare_forEach. intros ui _ X [] X' HX HFX.
      unfold LifetimeChecker_collect in HX. monad_inv.
      destruct (decide _); monad_inv; [done|]. exact HFX. }
    eapply Hfr; [exact Hloop|]. unfold Frame, C0. cbn. done. }
  monad_inv.
  match goal with H : getBlockInfo _ _ _ = _ |- _ => rename H into Hg end.
  cbn in Hg.
  apply getBlockInfo_wf in Hg as (Hl & Hsz1 & Hkd1 & Hly1); [|done..].
  match goal with Hl : _ !! _ = Some ?s |- _ =>
    destruct (AvSetFacts.changeUnsetElementsTo_spec (Availability s) No)
      as [Hc1 Hc2] end.
  unfold CheckerWf, NonLoadUsesValid. cbn.
  split_and!; try done; try apply HFa.
  - apply SizesAre_insert; [done|]. cbn. rewrite Hc1. by eapply Hsz1.
  - by apply KnownIsDefined_insert.
  - intros HN. apply LocalYesIsKnown_insert; [by apply Hly1|]. done.
  - intros I Idx. rewrite lookup_insert. destruct (decide _); [congruence|].
    intros H _. by eapply Hnlu.
Qed.

(** ** [getLivenessAtInst] returns, with every element of the window defined *)

Lemma size_applyLocalYes N LocalAV R :
  AvSet.size (applyLocalYes N LocalAV R) = AvSet.size R.
Proof.
  unfold applyLocalYes. apply AvSetFacts.size_fold_left. intros R' x.
  destruct (AvSet.getConditional LocalAV x) as [[]|]; try done.
  apply AvSetFacts.size_set.
Qed.

Lemma getPredsLiveOutN_loop_size {S} N
    (c : SILBasicBlock -> M S AvailabilitySet) (P : S -> Prop) Preds :
  (forall BB, hoare P (c BB) (fun R s => P s /\ AvSet.size R = N)) ->
  forall Result, AvSet.size Result = N ->
    hoare P (getPredsLiveOutN_loop c Preds Result)
          (fun R s => P s /\ AvSet.size R = N).
Proof.
  intros Hc. induction Preds as [|p Preds IH]; intros Result HR; simpl.
  - by apply hoare_ret.
  - eapply hoare_bind; [apply Hc|]. intros R.
    intros s a s' Hrun [HP HRs]. eapply IH; [|exact Hrun|done].
    by rewrite AvSetFacts.size_mergeIn.
Qed.

Lemma getLiveOutN_SizesAre N getPreds fuel BB :
  hoare (SizesAre N) (getLiveOutN N getPreds fuel BB)
        (fun R PBI => SizesAre N PBI /\ AvSet.size R = N).
Proof.
  revert BB. induction fuel as [|fuel IH]; intros BB; [done|].
  intros PBI R PBI' Hrun Hsz. cbn [getLiveOutN] in Hrun.
  apply bind_Ok_inv in Hrun as (s & PBI1 & Hg & Hrun).
  assert (PBI1 !! BB = Some s /\ SizesAre N PBI1) as [Hl Hsz1].
  { unfold getBlockInfo in Hg. destruct (PBI !! BB) eqn:E; simplify_eq; [done|].
    rewrite lookup_insert_eq. split; [done|].
    apply SizesAre_insert; [done|]. apply AvSetFacts.size_new. }
  destruct (LOState s); monad_inv.
  - match goal with H : getPredsLiveOutN_loop _ _ _ _ = Ok (?R1, ?P3) |- _ =>
      rename H into Hloop; rename R1 into Rl; rename P3 into PBI3 end.
    destruct (getPredsLiveOutN_loop_size N (getLiveOutN N getPreds fuel)
                (SizesAre N) (getPreds BB) IH (AvSet.new N)
                (AvSetFacts.size_new N) _ _ _ Hloop) as [Hsz3 HRl].
    { apply SizesAre_insert; [done|]. cbn. by eapply Hsz1. }
    match goal with H : getBlockInfo _ _ _ = Ok (?s2, ?P4) |- _ =>
      rename H into Hg2; rename s2 into sb; rename P4 into PBI4 end.
    assert (PBI4 !! BB = Some sb /\ SizesAre N PBI4) as [Hl4 Hsz4].
    { unfold getBlockInfo in Hg2. destruct (PBI3 !! BB) eqn:E; simplify_eq; [done|].
      rewrite lookup_insert_eq. split; [done|].
      apply SizesAre_insert; [done|]. apply AvSetFacts.size_new. }
    destruct (negb _); monad_inv.
    + match goal with H : setBlockAvailability _ _ = Ok _ |- _ =>
        apply setBlockAvailability_Ok in H as (_ & _ & Hav & _) end.
      split; [|by rewrite size_applyLocalYes].
      apply SizesAre_insert; [done|]. by rewrite Hav, size_applyLocalYes.
    + split; [|by rewrite size_applyLocalYes].
      apply SizesAre_insert; [done|]. cbn. by eapply Hsz4.
  - split; [done|]. apply AvSetFacts.size_new.
  - split; [done|]. by eapply Hsz1.
Qed.

Lemma size_list_to_set (l : list SILBasicBlock) :
  size (list_to_set l : gset SILBasicBlock) <= length l.
Proof.
  induction l as [|x l IH].
  - rewrite list_to_set_nil, size_empty. done.
  - rewrite list_to_set_cons, size_union_alt, size_singleton.
    assert (size (list_to_set l ∖ {[x]} : gset SILBasicBlock)
            <= size (list_to_set l : gset SILBasicBlock)); [|simpl; lia].
    apply subseteq_size. set_solver.
Qed.

(** The blocks of a function, as the finite CFG of the dataflow. *)
Lemma getPredsOf_in F BB P :
  P ∈ getPredsOf F BB -> P ∈ (list_to_set (map fst (Blocks F)) : gset SILBasicBlock).
Proof.
  unfold getPredsOf. intros H. apply elem_of_list_to_set.
  apply list_elem_of_In in H. apply in_flat_map in H as (b & Hb & HP).
  destruct (last b.2) as [T|]; [|done].
  apply in_map_iff in HP as (x & <- & _).
  apply list_elem_of_In, in_map. done.
Qed.

Lemma getPredsOf_closed F :
  closedUnderPreds (getPredsOf F) (list_to_set (map fst (Blocks F))).
Proof. intros BB P _ HP. by eapply getPredsOf_in. Qed.

Lemma liveOutFuel_enough F :
  size (list_to_set (map fst (Blocks F)) : gset SILBasicBlock) < liveOutFuel F.
Proof.
  unfold liveOutFuel. pose proof (size_list_to_set (map fst (Blocks F))) as H.
  rewrite length_map in H. lia.
Qed.

Lemma getPredsLiveOutN_total N F BB R PBI :
  exists R' PBI',
    getPredsLiveOutN N (getPredsOf F) (liveOutFuel F) BB R PBI = Ok (R', PBI') /\
    evolves PBI PBI'.
Proof.
  set (blocks := list_to_set (map fst (Blocks F)) : gset SILBasicBlock).
  destruct (getPredsLiveOutN_loop_ok blocks
              (maxPreds (getPredsOf F) blocks) (fun _ => True)
              (getLiveOutN_traced N (getPredsOf F) (liveOutFuel F))
              (liveOutFuel F)
              (getLiveOutN_traced_ok N (getPredsOf F) blocks _
                 (getPredsOf_closed F)
                 (fun b => maxPreds_bound (getPredsOf F) blocks b) _)
              (getPredsOf F BB) R PBI [])
    as (R' & PBI' & tr & E & Hev & _).
  - intros P HP. by eapply getPredsOf_in.
  - pose proof (notInProgress_size blocks PBI).
    pose proof (liveOutFuel_enough F). subst blocks. lia.
  - done.
  - exists R', PBI'. split; [|done]. unfold getPredsLiveOutN.
    eapply traced_to_plain; [|exact E].
    apply erases_loopN. intros b. apply getLiveOutN_traced_erase.
Qed.

Lemma getPredsLiveOut1_total F BB R PBI :
  Inv1 PBI ->
  exists R' PBI',
    getPredsLiveOut1 1 (getPredsOf F) (liveOutFuel F) BB R PBI = Ok (R', PBI') /\
    evolves PBI PBI' /\ Inv1 PBI'.
Proof.
  intros HI.
  set (blocks := list_to_set (map fst (Blocks F)) : gset SILBasicBlock).
  destruct (getPredsLiveOut1_loop_ok blocks
              (maxPreds (getPredsOf F) blocks) Inv1
              (getLiveOut1_traced 1 (getPredsOf F) (liveOutFuel F))
              (liveOutFuel F)
              (getLiveOut1_traced_ok 1 (getPredsOf F) blocks _
                 (getPredsOf_closed F)
                 (fun b => maxPreds_bound (getPredsOf F) blocks b) _ eq_refl)
              (getPredsOf F BB) R PBI [])
    as (R' & PBI' & tr & E & Hev & HI' & _).
  - intros P HP. by eapply getPredsOf_in.
  - pose proof (notInProgress_size blocks PBI).
    pose proof (liveOutFuel_enough F). subst blocks. lia.
  - done.
  - exists R', PBI'. split_and!; [|done..]. unfold getPredsLiveOut1.
    eapply traced_to_plain; [|exact E].
    apply erases_loop1. intros b. apply getLiveOut1_traced_erase.
Qed.

(** Storing a defined kind at every element of a window defines it. *)
Lemma fold_set_window (f : AvailabilitySet -> nat -> DIKind) FirstElt NumElts R :
  let R' := fold_left (fun R i => AvSet.set R i (f R i)) (seq FirstElt NumElts) R in
  AvSet.size R' = AvSet.size R /\
  forall i, FirstElt <= i < FirstElt + NumElts -> i < AvSet.size R ->
    hasValue (AvSet.getConditional R' i) = true.
Proof.
  destruct (AvSetFacts.fold_set_defined
              (fun R i => AvSet.set R i (f R i)) (seq FirstElt NumElts))
    with (R := R) as (H1 & _ & H3).
  - intros. apply AvSetFacts.size_set.
  - intros. by apply AvSetFacts.hasValue_set.
  - intros R0 i Hi. by rewrite AvSetFacts.getConditional_set_eq.
  - split; [done|]. intros i Hi Hlt. apply H3; [|done].
    apply list_elem_of_In, in_seq. lia.
Qed.

Lemma scanLocalN_Ok NLU Us MemoryInst FirstElt NumElts Above Result Needed :
  (forall I Idx, NLU !! I = Some Idx -> I <> MemoryInst ->
                 N.to_nat Idx < length Us) ->
  exists r,
    scanLocalN NLU Us MemoryInst FirstElt NumElts Above Result Needed = Ok r /\
    match r with
    | inl R' =>
        AvSet.size R' = AvSet.size Result /\
        forall i, FirstElt <= i < FirstElt + NumElts -> i < AvSet.size Result ->
          hasValue (AvSet.getConditional R' i) = true
    | inr _ => True
    end.
Proof.
  intros Hnlu. revert Needed.
  induction Above as [|TheInst Above IH]; intros Needed; simpl.
  - by eexists.
  - destruct (NLU !! InstPtr TheInst) as [Idx|] eqn:E; [|apply IH].
    destruct (decide _) as [Hm|Hm].
    + eexists. split; [done|].
      apply (fold_set_window
               (fun _ i => if AvSet.bit Needed i then No else Yes)).
    + destruct (Us !! N.to_nat Idx) as [U|] eqn:EU.
      2:{ apply lookup_ge_None in EU. specialize (Hnlu _ _ E Hm). lia. }
      destruct (noneSet _); [|apply IH].
      eexists. split; [done|].
      destruct (AvSetFacts.changeUnsetElementsTo_spec Result Yes) as [H1 H2].
      split; [done|]. intros i _ Hi.
      rewrite AvSetFacts.containsUnknownElements_false in H2.
      apply H2. by rewrite H1.
Qed.

Lemma liftPBI_Ok {A} (m : M PerBlockInfoMap A) C a PBI' :
  m (PerBlockInfo C) = Ok (a, PBI') ->
  liftPBI m C = Ok (a, set_PerBlockInfo PBI' C).
Proof. intros H. unfold liftPBI. by rewrite H. Qed.

Lemma CheckerWf_set_PerBlockInfo C PBI :
  SizesAre (DIMemoryObjectInfo.NumElements (TheMemory C)) PBI ->
  KnownIsDefined PBI ->
  (DIMemoryObjectInfo.NumElements (TheMemory C) = 1 -> LocalYesIsKnown PBI) ->
  NonLoadUsesValid C ->
  CheckerWf (set_PerBlockInfo PBI C).
Proof. intros. by destruct C. Qed.

Lemma CheckerWf_set_PerBlockInfo2 C PBI1 PBI2 :
  SizesAre (DIMemoryObjectInfo.NumElements (TheMemory C)) PBI2 ->
  KnownIsDefined PBI2 ->
  (DIMemoryObjectInfo.NumElements (TheMemory C) = 1 -> LocalYesIsKnown PBI2) ->
  NonLoadUsesValid C ->
  CheckerWf (set_PerBlockInfo PBI2 (set_PerBlockInfo PBI1 C)).
Proof. intros. by destruct C. Qed.

Lemma getLivenessAtInst_total C Inst FirstElt NumElts InstBB :
  CheckerWf C ->
  getParent (Fn C) Inst = Some InstBB ->
  0 < NumElts ->
  FirstElt + NumElts <= DIMemoryObjectInfo.NumElements (TheMemory C) ->
  exists R C',
    getLivenessAtInst Inst FirstElt NumElts C = Ok (R, C') /\
    framePBI C C' /\ CheckerWf C' /\
    evolves (PerBlockInfo C) (PerBlockInfo C') /\
    AvSet.size R = DIMemoryObjectInfo.NumElements (TheMemory C) /\
    forall i, FirstElt <= i < FirstElt + NumElts ->
      hasValue (AvSet.getConditional R i) = true.
Proof.
  intros (Hsz & Hkd & Hly & Hnlu) Hparent Hpos Hwin.
  set (N := DIMemoryObjectInfo.NumElements (TheMemory C)) in *.
  unfold getLivenessAtInst.
  rewrite (bind_Ok _ _ C C C) by done. fold N.
  destruct (NumElts =? 0) eqn:E0; [apply Nat.eqb_eq in E0; lia|].
  rewrite Hparent.
  rewrite (bind_Ok _ _ C InstBB C) by done.
  destruct (getBlockInfo_spec N InstBB (PerBlockInfo C))
    as (s & PBI1 & Hg & Hl1 & _).
  pose proof (getBlockInfo_evolves _ _ _ _ _ Hg) as Hev1.
  destruct (getBlockInfo_wf _ _ _ _ _ Hg Hsz Hkd Hly) as (_ & Hsz1 & Hkd1 & Hly1).
  rewrite (bind_Ok _ _ _ _ _ (liftPBI_Ok _ _ _ _ Hg)).
  set (C1 := set_PerBlockInfo PBI1 C).
  assert (framePBI C C1) as HF1 by (by destruct C).
  destruct (N =? 1) eqn:EN.
  - (* the single-element path *)
    apply Nat.eqb_eq in EN.
    assert (forall i, FirstElt <= i < FirstElt + NumElts -> i = 0) as Hi0
      by (intros; lia).
    destruct (scanLocal1 _ _) as [TheInst|].
    + eexists _, C1. split; [reflexivity|]. split; [done|].
      split; [by apply CheckerWf_set_PerBlockInfo|].
      split; [by destruct C|]. split.
      * by rewrite AvSetFacts.size_set, AvSetFacts.size_new.
      * intros i Hi. rewrite (Hi0 i Hi).
        rewrite AvSetFacts.getConditional_set_eq; [done|].
        rewrite AvSetFacts.size_new. lia.
    + destruct (getPredsLiveOut1_total (Fn C) InstBB None PBI1)
        as (RV & PBI2 & E2 & Hev2 & (Hsz2 & Hkd2 & Hly2)).
      { rewrite EN in *. split_and!; auto. }
      assert (liftPBI (getPredsLiveOut1 N (getPredsOf (Fn C))
                         (liveOutFuel (Fn C)) InstBB None) C1
              = Ok (RV, set_PerBlockInfo PBI2 C1)) as E2'.
      { apply liftPBI_Ok. subst C1. destruct C. cbn. by rewrite EN. }
      rewrite (bind_Ok _ _ _ _ _ E2').
      eexists _, _. split; [reflexivity|].
      split; [subst C1; by destruct C|].
      split; [apply CheckerWf_set_PerBlockInfo2; fold N; rewrite ?EN; done|].
      split; [subst C1; destruct C; cbn; by eapply evolves_trans|]. split.
      * by rewrite AvSetFacts.size_set_optional, AvSetFacts.size_new.
      * intros i Hi. rewrite (Hi0 i Hi).
        rewrite AvSetFacts.getConditional_set_optional_eq;
          [by destruct RV|].
        rewrite AvSetFacts.size_new. lia.
  - (* the general path *)
    apply Nat.eqb_neq in EN.
    match goal with |- context [scanLocalN ?a ?b ?c ?d ?e ?f ?g ?h] =>
      destruct (scanLocalN_Ok a b c d e f g h) as (r & Escan & Hr) end.
    { exact Hnlu. }
    rewrite Escan. cbn [liftOutcome].
    rewrite (bind_Ok _ _ C1 r C1) by done.
    destruct r as [R|Needed].
    + rewrite AvSetFacts.size_new in Hr. destruct Hr as [Hr1 Hr2].
      eexists _, C1. split; [reflexivity|]. split; [done|].
      split; [by apply CheckerWf_set_PerBlockInfo|].
      split; [by destruct C|]. split; [done|].
      intros i Hi. apply Hr2; [done|]. fold N. lia.
    + destruct (getPredsLiveOutN_total N (Fn C) InstBB (AvSet.new N) PBI1)
        as (R2 & PBI2 & E2 & Hev2).
      assert (SizesAre N PBI2 /\ AvSet.size R2 = N) as [Hsz2 HR2].
      { eapply (getPredsLiveOutN_loop_size N _ (SizesAre N));
          [|apply AvSetFacts.size_new|exact E2|done].
        intros b. apply getLiveOutN_SizesAre. }
      assert (KnownIsDefined PBI2) as Hkd2.
      { eapply getPredsLiveOutN_hoare; [|exact E2|done].
        intros. apply getLiveOutN_KnownIsDefined. }
      assert (liftPBI (getPredsLiveOutN N (getPredsOf (Fn C))
                         (liveOutFuel (Fn C)) InstBB (AvSet.new N)) C1
              = Ok (R2, set_PerBlockInfo PBI2 C1)) as E2'.
      { apply liftPBI_Ok. subst C1. by destruct C. }
      rewrite (bind_Ok _ _ _ _ _ E2').
      match goal with |- context [fold_left ?f ?l R2] =>
        destruct (AvSetFacts.fold_set_defined f l) with (R := R2)
          as (Hf1 & _ & Hf3) end.
      { intros R i. destruct (_ || _); [apply AvSetFacts.size_set|done]. }
      { intros R i j Hj. destruct (_ || _); [by apply AvSetFacts.hasValue_set|done]. }
      { intros R i Hi.
        destruct (negb (AvSet.bit Needed i)); cbn [orb].
        - by rewrite AvSetFacts.getConditional_set_eq.
        - destruct (hasValue (AvSet.getConditional R i)) eqn:Eh; cbn [negb]; [done|].
          by rewrite AvSetFacts.getConditional_set_eq. }
      eexists _, _. split; [reflexivity|].
      split; [subst C1; by destruct C|].
      split; [apply CheckerWf_set_PerBlockInfo2; fold N; [done|done|lia|done]|].
      split; [subst C1; destruct C; cbn; by eapply evolves_trans|]. split.
      * by rewrite Hf1.
      * intros i Hi. apply Hf3; [apply list_elem_of_In, in_seq; lia|].
        rewrite HR2. lia.
Qed.

Lemma exChecker_new :
  LifetimeChecker_new exFunction (exMemoryInfo false) exUses exReleases
  = Ok exChecker.
Proof. vm_compute. reflexivity. Qed.

Lemma exChecker_wf : CheckerWf exChecker.
Proof. exact (proj1 (LifetimeChecker_new_wf _ _ _ _ _ exChecker_new)). Qed.

(** ** Assign lowering *)

Lemma takeWhile_absent P pre X post :
  absentFrom P pre -> InstPtr X = P ->
  takeWhile (fun Y => negb (InstPtr Y =? P)) (pre ++ X :: post) = pre.
Proof.
  intros Hpre HX. induction pre as [|Y pre IH]; simpl.
  - rewrite HX, Nat.eqb_refl. done.
  - apply Forall_cons in Hpre as [HY Hpre].
    apply Nat.eqb_neq in HY. rewrite HY. simpl. by rewrite IH.
Qed.

Lemma dropWhile_absent P pre X post :
  absentFrom P pre -> InstPtr X = P ->
  dropWhile (fun Y => negb (InstPtr Y =? P)) (pre ++ X :: post) = X :: post.
Proof.
  intros Hpre HX. induction pre as [|Y pre IH]; simpl.
  - rewrite HX, Nat.eqb_refl. done.
  - apply Forall_cons in Hpre as [HY Hpre].
    apply Nat.eqb_neq in HY. rewrite HY. simpl. by rewrite IH.
Qed.

Lemma insertAt_before P New pre X post :
  absentFrom P pre -> InstPtr X = P ->
  insertAt (Some P) New (pre ++ X :: post) = (pre ++ [New]) ++ X :: post.
Proof.
  intros Hpre HX. unfold insertAt.
  rewrite takeWhile_absent, dropWhile_absent by done. by rewrite <- app_assoc.
Qed.

Lemma updateBlock_focus Bs1 BB Insts Bs2 FLoc Next f :
  BB ∉ map fst Bs1 -> BB ∉ map fst Bs2 ->
  updateBlock (focusBlock Bs1 BB Insts Bs2 FLoc Next) BB f
  = focusBlock Bs1 BB (f Insts) Bs2 FLoc Next.
Proof.
  intros H1 H2. unfold updateBlock, focusBlock. cbn [Blocks FnLocation NextPtr].
  f_equal. rewrite map_app. cbn [map fst snd]. rewrite Nat.eqb_refl.
  assert (forall Bs, BB ∉ map fst Bs ->
            map (fun b => if b.1 =? BB then (b.1, f b.2) else b) Bs = Bs) as Hid.
  { intros Bs HBs. induction Bs as [|b Bs IH]; [done|]. cbn [map] in *.
    apply not_elem_of_cons in HBs as [Hb HBs].
    assert ((b.1 =? BB) = false) as -> by (apply Nat.eqb_neq; congruence).
    by rewrite IH. }
  by rewrite !Hid.
Qed.

Lemma insertInst_focus Bs1 BB pre X post Bs2 FLoc Next K Loc Ins :
  BB ∉ map fst Bs1 -> BB ∉ map fst Bs2 ->
  absentFrom (InstPtr X) pre ->
  insertInst K Loc
    (focusBlock Bs1 BB (pre ++ X :: post) Bs2 FLoc Next,
     mkSILBuilder BB (Some (InstPtr X)) Ins)
  = Ok (Next,
        (focusBlock Bs1 BB ((pre ++ [mkSILInstruction Next K Loc]) ++ X :: post)
           Bs2 FLoc (S Next),
         mkSILBuilder BB (Some (InstPtr X)) (Ins ++ [Next]))).
Proof.
  intros H1 H2 Hpre. unfold insertInst. cbn [fst snd InsertBB InsertPt InsertedInsts].
  rewrite updateBlock_focus by done.
  rewrite insertAt_before by done. reflexivity.
Qed.

Lemma absentFrom_snoc P pre X :
  absentFrom P pre -> InstPtr X <> P -> absentFrom P (pre ++ [X]).
Proof. intros H HX. apply Forall_app. split; [done|]. by apply Forall_singleton. Qed.

Lemma getParent_focus Bs1 BB pre X post Bs2 FLoc Next :
  absentFrom (InstPtr X) (flat_map snd Bs1) ->
  getParent (focusBlock Bs1 BB (pre ++ X :: post) Bs2 FLoc Next) (InstPtr X)
  = Some BB.
Proof.
  intros H. unfold getParent, focusBlock. cbn [Blocks].
  induction Bs1 as [|b Bs1 IH]; cbn [app find flat_map] in *.
  - assert (containsInst (InstPtr X) (pre ++ X :: post) = true) as E.
    { unfold containsInst. apply existsb_exists. exists X.
      split; [apply in_or_app; right; by left|apply Nat.eqb_refl]. }
    cbn [snd]. by rewrite E.
  - apply Forall_app in H as [Hb H].
    assert (containsInst (InstPtr X) b.2 = false) as E.
    { unfold containsInst. apply not_true_is_false. intros Hex.
      apply existsb_exists in Hex as (Y & HY & HYp).
      apply Nat.eqb_eq in HYp. rewrite Forall_forall in Hb.
      apply (Hb Y); [by apply list_elem_of_In|done]. }
    rewrite E. by apply IH.
Qed.

Lemma filter_absent P (l : list SILInstruction) :
  absentFrom P l -> filter (fun X => InstPtr X <> P) l = l.
Proof.
  intros H. induction l as [|Y l IH]; [done|].
  apply Forall_cons in H as [HY H]. rewrite filter_cons_True by done.
  by rewrite IH.
Qed.

Lemma eraseFromParent_focus Bs1 BB pre X post Bs2 FLoc Next :
  BB ∉ map fst Bs1 -> BB ∉ map fst Bs2 ->
  absentFrom (InstPtr X) (flat_map snd Bs1) ->
  absentFrom (InstPtr X) pre -> absentFrom (InstPtr X) post ->
  eraseFromParent (InstPtr X)
    (focusBlock Bs1 BB (pre ++ X :: post) Bs2 FLoc Next)
  = focusBlock Bs1 BB (pre ++ post) Bs2 FLoc Next.
Proof.
  intros H1 H2 H3 Hpre Hpost. unfold eraseFromParent.
  rewrite getParent_focus by done. rewrite updateBlock_focus by done.
  f_equal. rewrite filter_app, filter_cons_False by (intros H; by apply H).
  by rewrite !filter_absent.
Qed.

Lemma LowerAssignInstruction_focus
    (Bs1 Bs2 : list (nat * list SILInstruction)) (BB P Next : nat)
    (pre post : list SILInstruction) (Src Dest : SILValue)
    (Loc FLoc : SILLocation) (isInitialization : bool) (Ins : list nat) :
  let Inst := mkSILInstruction P (AssignInst Src Dest) Loc in
  BB ∉ map fst Bs1 -> BB ∉ map fst Bs2 ->
  absentFrom P (flat_map snd Bs1) -> absentFrom P pre -> absentFrom P post ->
  P < Next ->
  LowerAssignInstruction Inst isInitialization
    (focusBlock Bs1 BB (pre ++ Inst :: post) Bs2 FLoc Next,
     mkSILBuilder BB (Some P) Ins)
  = Ok (tt,
        (focusBlock Bs1 BB
           (pre ++ loweredAssign Src Dest Loc isInitialization Next ++ post)
           Bs2 FLoc
           (Next + length (loweredAssign Src Dest Loc isInitialization Next)),
         mkSILBuilder BB (Some P)
           (Ins ++ map InstPtr
                     (loweredAssign Src Dest Loc isInitialization Next)))).
Proof.
  intros Inst H1 H2 H3 Hpre Hpost Hlt.
  unfold LowerAssignInstruction, loweredAssign. cbn [InstKindOf Inst InstLoc].
  change P with (InstPtr Inst) in H3, Hpre, Hpost |- *.
  destruct (isInitialization || TyIsTrivial (ValType Dest)).
  - unfold createStore.
    erewrite bind_Ok; [|erewrite bind_Ok; [|by apply insertInst_focus]; reflexivity].
    unfold modify. cbn [fst snd].
    rewrite eraseFromParent_focus; try done.
    + cbn [length map app]. rewrite <- app_assoc. repeat f_equal; lia.
    + apply absentFrom_snoc; [done|]. cbn. lia.
  - unfold createLoad, createStore, emitReleaseValueOperation.
    erewrite bind_Ok.
    2:{ erewrite bind_Ok; [|erewrite bind_Ok; [|by apply insertInst_focus]; reflexivity].
        erewrite bind_Ok.
        2:{ apply insertInst_focus; [done|done|].
            apply absentFrom_snoc; [done|]. cbn. lia. }
        erewrite bind_Ok; [reflexivity|].
        apply insertInst_focus; [done|done|].
        repeat (apply absentFrom_snoc; [|cbn; lia]). done. }
    unfold modify. cbn [fst snd].
    rewrite eraseFromParent_focus; try done.
    + cbn [length map app InstPtr]. rewrite <- !app_assoc.
      repeat f_equal; lia.
    + repeat (apply absentFrom_snoc; [|cbn; lia]). done.
Qed.

(** C5: lowering an assign deletes it and puts in its place, in its block
    and at its position, one store of the source to the destination when
    it is an initialization or the destination type is trivial, and
    otherwise a load of the old value, the store, and a release of the
    loaded value, in that order; nothing else in the function changes. *)
Theorem LowerAssignInstruction_replaces
    (Bs1 Bs2 : list (nat * list SILInstruction)) (BB P Next : nat)
    (pre post : list SILInstruction) (Src Dest : SILValue)
    (Loc FLoc : SILLocation) (isInitialization : bool) (Ins : list nat) :
  let Inst := mkSILInstruction P (AssignInst Src Dest) Loc in
  BB ∉ map fst Bs1 -> BB ∉ map fst Bs2 ->
  absentFrom P (flat_map snd Bs1) -> absentFrom P pre -> absentFrom P post ->
  P < Next ->
  let before :=
    (focusBlock Bs1 BB (pre ++ Inst :: post) Bs2 FLoc Next,
     mkSILBuilder BB (Some P) Ins) in
  let Load := mkSILInstruction Next (LoadInst Dest) Loc in
  let Store p := mkSILInstruction p (StoreInst Src Dest) Loc in
  let Release :=
    mkSILInstruction (S (S Next))
      (ReleaseValueInst (resultOf Next 0 (getObjectType (ValType Dest)))) Loc in
  (isInitialization || TyIsTrivial (ValType Dest) = true ->
   LowerAssignInstruction Inst isInitialization before
   = Ok (tt,
         (focusBlock Bs1 BB (pre ++ [Store Next] ++ post) Bs2 FLoc (S Next),
          mkSILBuilder BB (Some P) (Ins ++ [Next])))) /\
  (isInitialization || TyIsTrivial (ValType Dest) = false ->
   LowerAssignInstruction Inst isInitialization before
   = Ok (tt,
         (focusBlock Bs1 BB
            (pre ++ [Load; Store (S Next); Release] ++ post) Bs2 FLoc
            (S (S (S Next))),
          mkSILBuilder BB (Some P) (Ins ++ [Next; S Next; S (S Next)])))).
Proof.
  intros Inst H1 H2 H3 Hpre Hpost Hlt before Load Store Release.
  pose proof (LowerAssignInstruction_focus Bs1 Bs2 BB P Next pre post Src Dest
                Loc FLoc isInitialization Ins H1 H2 H3 Hpre Hpost Hlt) as HL.
  fold Inst before in HL. unfold loweredAssign in HL.
  split; intros HC; rewrite HC in HL; rewrite HL; cbn [length map InstPtr];
    repeat f_equal; lia.
Qed.

Lemma LowerAssignInstruction_replaces_witness :
  LowerAssignInstruction
    (mkSILInstruction 40 (AssignInst exArg exMemory) (exLoc 105)) false
    (focusBlock [] 3
       ([] ++ mkSILInstruction 40 (AssignInst exArg exMemory) (exLoc 105)
           :: [mkSILInstruction 41 (DestroyAddrInst exMemory) (exLoc 106);
               mkSILInstruction 42 (ReturnInst exArg) (exLoc 107)])
       [] (exLoc 99) 1000,
     mkSILBuilder 3 (Some 40) [])
  = Ok (tt,
        (focusBlock [] 3
           ([] ++ [mkSILInstruction 1000 (LoadInst exMemory) (exLoc 105);
                   mkSILInstruction 1001 (StoreInst exArg exMemory) (exLoc 105);
                   mkSILInstruction 1002
                     (ReleaseValueInst
                        (resultOf 1000 0 (getObjectType (ValType exMemory))))
                     (exLoc 105)]
               ++ [mkSILInstruction 41 (DestroyAddrInst exMemory) (exLoc 106);
                   mkSILInstruction 42 (ReturnInst exArg) (exLoc 107)])
           [] (exLoc 99) 1003,
         mkSILBuilder 3 (Some 40) ([] ++ [1000; 1001; 1002]))).
Proof.
  apply (LowerAssignInstruction_replaces [] [] 3 40 1000 []).
  - apply not_elem_of_nil.
  - apply not_elem_of_nil.
  - apply Forall_nil_2.
  - apply Forall_nil_2.
  - repeat constructor; cbn; lia.
  - lia.
  - reflexivity.
Defined.

(** ** Conditional destroys *)

Lemma FocusOK_notin Bs1 BB P pre post Bs2 Next :
  FocusOK Bs1 BB P pre post Bs2 Next ->
  (BB ∉ map fst Bs1) /\ (BB ∉ map fst Bs2).
Proof.
  intros (_ & _ & _ & _ & _ & H1 & H2).
  split; intros Hin; apply list_elem_of_In, in_map_iff in Hin as (b & Hb & Hin);
    apply list_elem_of_In in Hin.
  - rewrite Forall_forall in H1. destruct (H1 b Hin). congruence.
  - rewrite Forall_forall in H2. destruct (H2 b Hin). congruence.
Qed.

Lemma setInsertionPointInst_focus Bs1 BB pre X post Bs2 FLoc Next B :
  absentFrom (InstPtr X) (flat_map snd Bs1) ->
  setInsertionPointInst (InstPtr X)
    (focusBlock Bs1 BB (pre ++ X :: post) Bs2 FLoc Next, B)
  = Ok (tt, (focusBlock Bs1 BB (pre ++ X :: post) Bs2 FLoc Next,
             mkSILBuilder BB (Some (InstPtr X)) (InsertedInsts B))).
Proof.
  intros H. unfold setInsertionPointInst, bind, gets, deref, setBuilderPoint, modify.
  cbn [fst snd]. by rewrite getParent_focus.
Qed.

Lemma destroyYes_building TM Elt Loc Bs1 BB pre X post Bs2 FLoc Next B :
  FocusOK Bs1 BB (InstPtr X) pre post Bs2 Next ->
  (setInsertionPointInst (InstPtr X) ;;;
   EltPtr <- emitElementAddress TM Elt Loc ;;
   emitDestroyAddr Loc EltPtr)
    (focusBlock Bs1 BB (pre ++ X :: post) Bs2 FLoc Next, B)
  = Ok (Some (S Next),
        (focusBlock Bs1 BB ((pre ++ destroyInsts TM Elt Loc Next) ++ X :: post)
           Bs2 FLoc (S (S Next)),
         mkSILBuilder BB (Some (InstPtr X)) (InsertedInsts B ++ [Next; S Next]))).
Proof.
  intros HF. destruct (FocusOK_notin _ _ _ _ _ _ _ HF) as [Hn1 Hn2].
  destruct HF as (Ha1 & Hpre & Hpost & HP & HBB & _ & _).
  rewrite (bind_Ok _ _ _ _ _ (setInsertionPointInst_focus _ _ _ _ _ _ _ _ _ Ha1)).
  unfold emitElementAddress, emitDestroyAddr.
  erewrite bind_Ok.
  2:{ erewrite bind_Ok; [reflexivity|]. by apply insertInst_focus. }
  erewrite bind_Ok.
  2:{ apply insertInst_focus; [done..|]. apply absentFrom_snoc; [done|cbn; lia]. }
  unfold ret, destroyInsts. rewrite <- !app_assoc. cbn [app]. reflexivity.
Qed.

Lemma FocusOK_fresh Bs1 BB P pre post Bs2 Next T :
  FocusOK Bs1 BB P pre post Bs2 Next -> (T = BB \/ Next <= T) ->
  (T ∉ map fst Bs1) /\ (T ∉ map fst Bs2).
Proof.
  intros (_ & _ & _ & _ & _ & H1 & H2) HT.
  split; intros Hin; apply list_elem_of_In, in_map_iff in Hin as (b & Hb & Hin);
    apply list_elem_of_In in Hin.
  - rewrite Forall_forall in H1. destruct (H1 b Hin). lia.
  - rewrite Forall_forall in H2. destruct (H2 b Hin). lia.
Qed.

Lemma flat_map_fresh T (g : nat * list SILInstruction -> list (nat * list SILInstruction)) Bs :
  T ∉ map fst Bs ->
  flat_map (fun b => if fst b =? T then g b else [b]) Bs = Bs.
Proof.
  induction Bs as [|b Bs IH]; [done|]. cbn [map flat_map].
  intros [Hb HBs]%not_elem_of_cons.
  assert ((b.1 =? T) = false) as -> by (apply Nat.eqb_neq; congruence).
  by rewrite IH.
Qed.

Lemma find_fresh T Bs (l : list (nat * list SILInstruction)) :
  T ∉ map fst Bs ->
  find (fun b => fst b =? T) (Bs ++ l) = find (fun b => fst b =? T) l.
Proof.
  induction Bs as [|b Bs IH]; [done|]. cbn [map app find].
  intros [Hb HBs]%not_elem_of_cons.
  assert ((b.1 =? T) = false) as -> by (apply Nat.eqb_neq; congruence).
  by apply IH.
Qed.

Lemma focusBlock_shift Bs1 T1 l1 T2 l2 Bs2 FLoc Next :
  focusBlock (Bs1 ++ [(T1, l1)]) T2 l2 Bs2 FLoc Next
  = focusBlock Bs1 T1 l1 ((T2, l2) :: Bs2) FLoc Next.
Proof. unfold focusBlock. by rewrite <- app_assoc. Qed.

Lemma focusBlock_shift2 Bs1 a T1 l1 T2 l2 Bs2 FLoc Next :
  focusBlock (Bs1 ++ [a; (T1, l1)]) T2 l2 Bs2 FLoc Next
  = focusBlock (Bs1 ++ [a]) T1 l1 ((T2, l2) :: Bs2) FLoc Next.
Proof. unfold focusBlock. by rewrite <- !app_assoc. Qed.

Lemma splitBasicBlock_focus Bs1 BB pre X post Bs2 FLoc Next :
  (BB ∉ map fst Bs1) -> (BB ∉ map fst Bs2) ->
  absentFrom (InstPtr X) pre ->
  splitBasicBlock BB (Some (InstPtr X))
    (focusBlock Bs1 BB (pre ++ X :: post) Bs2 FLoc Next)
  = (Next, focusBlock (Bs1 ++ [(BB, pre)]) Next (X :: post) Bs2 FLoc (S Next)).
Proof.
  intros H1 H2 Hpre. unfold splitBasicBlock, focusBlock.
  cbn [Blocks FnLocation NextPtr]. f_equal. f_equal.
  rewrite flat_map_app. cbn [flat_map fst snd].
  rewrite !flat_map_fresh by done. rewrite Nat.eqb_refl.
  rewrite takeWhile_absent, dropWhile_absent by done.
  rewrite <- app_assoc. reflexivity.
Qed.

Lemma createBlockBefore_focus Bs1 T Insts Bs2 FLoc Next :
  (T ∉ map fst Bs1) -> (T ∉ map fst Bs2) ->
  createBlockBefore T (focusBlock Bs1 T Insts Bs2 FLoc Next)
  = (Next, focusBlock (Bs1 ++ [(Next, [])]) T Insts Bs2 FLoc (S Next)).
Proof.
  intros H1 H2. unfold createBlockBefore, focusBlock.
  cbn [Blocks FnLocation NextPtr]. f_equal. f_equal.
  rewrite flat_map_app. cbn [flat_map fst snd].
  rewrite !flat_map_fresh by done. rewrite Nat.eqb_refl.
  rewrite <- app_assoc. reflexivity.
Qed.

Lemma insertInst_end Bs1 T Insts Bs2 FLoc Next K Loc Ins :
  (T ∉ map fst Bs1) -> (T ∉ map fst Bs2) ->
  insertInst K Loc
    (focusBlock Bs1 T Insts Bs2 FLoc Next, mkSILBuilder T None Ins)
  = Ok (Next,
        (focusBlock Bs1 T (Insts ++ [mkSILInstruction Next K Loc]) Bs2 FLoc (S Next),
         mkSILBuilder T None (Ins ++ [Next]))).
Proof.
  intros H1 H2. unfold insertInst. cbn [fst snd InsertBB InsertPt InsertedInsts].
  rewrite updateBlock_focus by done. reflexivity.
Qed.

Lemma getBlockInsts_focus Bs1 T Insts Bs2 FLoc Next :
  (T ∉ map fst Bs1) ->
  getBlockInsts (focusBlock Bs1 T Insts Bs2 FLoc Next) T = Insts.
Proof.
  intros H1. unfold getBlockInsts, focusBlock. cbn [Blocks].
  rewrite find_fresh by done. cbn [find fst]. by rewrite Nat.eqb_refl.
Qed.

Lemma notin_snoc T (Bs : list (nat * list SILInstruction)) b :
  (T ∉ map fst Bs) -> T <> fst b -> T ∉ map fst (Bs ++ [b]).
Proof.
  intros H1 H2. rewrite map_app. cbn [map]. apply not_elem_of_app. split; [done|].
  apply not_elem_of_cons. split; [done|apply not_elem_of_nil].
Qed.

Lemma notin_cons T (Bs : list (nat * list SILInstruction)) b :
  (T ∉ map fst Bs) -> T <> fst b -> T ∉ map fst (b :: Bs).
Proof. intros H1 H2. cbn [map]. apply not_elem_of_cons. done. Qed.

Lemma InsertCFGDiamond_focus Cond Loc Bs1 BB pre X post Bs2 FLoc Next Ins :
  FocusOK Bs1 BB (InstPtr X) pre post Bs2 Next ->
  InsertCFGDiamond Cond Loc false
    (focusBlock Bs1 BB (pre ++ X :: post) Bs2 FLoc Next,
     mkSILBuilder BB (Some (InstPtr X)) Ins)
  = Ok ((S Next, None, Next),
        (focusBlock
           (Bs1 ++ [(BB, pre ++ [mkSILInstruction (S (S (S Next)))
                                   (CondBranchInst Cond (S Next) Next) Loc]);
                    (S Next, [mkSILInstruction (S (S Next)) (BranchInst Next) Loc])])
           Next ([] ++ X :: post) Bs2 FLoc (S (S (S (S Next)))),
         mkSILBuilder Next (Some (InstPtr X))
           (Ins ++ [S (S Next); S (S (S Next))]))).
Proof.
  intros HF.
  destruct (FocusOK_fresh _ _ _ _ _ _ _ BB HF) as [A1 A2]; [by left|].
  destruct (FocusOK_fresh _ _ _ _ _ _ _ Next HF) as [B1 B2]; [right; lia|].
  destruct (FocusOK_fresh _ _ _ _ _ _ _ (S Next) HF) as [C1 C2]; [right; lia|].
  destruct HF as (Ha1 & Hpre & Hpost & HP & HBB & _ & _).
  unfold InsertCFGDiamond.
  unfold bind at 1, getInsertionBB, gets. cbn [fst snd InsertBB].
  unfold bind at 1, getInsertionPoint, gets. cbn [fst snd InsertPt].
  unfold bind at 1. cbn [fst snd]. rewrite splitBasicBlock_focus by done.
  cbn [fst snd].
  unfold bind at 1. cbn [fst snd]. rewrite createBlockBefore_focus.
  2:{ apply notin_snoc; [done|cbn; lia]. }
  2:{ done. }
  cbn [fst snd].
  unfold bind at 1, setInsertionPointEnd, setBuilderPoint, modify.
  cbn [fst snd InsertedInsts].
  (* the branch of the true block *)
  rewrite (focusBlock_shift (Bs1 ++ [(BB, pre)]) (S Next) [] Next).
  erewrite bind_Ok.
  2:{ apply insertInst_end.
      - apply notin_snoc; [done|cbn; lia].
      - apply notin_cons; [done|cbn; lia]. }
  unfold bind at 1, ret.
  unfold bind at 1, setBuilderPoint, modify. cbn [fst snd InsertedInsts app].
  (* the conditional branch of the start block *)
  rewrite (focusBlock_shift Bs1 BB pre (S Next)).
  unfold createCondBranch.
  erewrite bind_Ok.
  2:{ apply insertInst_end; [done|].
      apply notin_cons; [apply notin_cons; [done|cbn; lia]|cbn; lia]. }
  rewrite <- !focusBlock_shift.
  unfold setInsertionPointBegin, bind, gets, setBuilderPoint, modify, ret.
  cbn [fst snd InsertedInsts].
  rewrite getBlockInsts_focus.
  2:{ apply notin_snoc; [apply notin_snoc; [done|cbn; lia]|cbn; lia]. }
  cbn [head fmap option_fmap option_map app].
  rewrite <- !app_assoc. cbn [app]. reflexivity.
Qed.

Lemma FocusOK_grow Bs1 BB P pre post Bs2 Next new Next' :
  FocusOK Bs1 BB P pre post Bs2 Next ->
  Next <= Next' -> absentFrom P new ->
  FocusOK Bs1 BB P (pre ++ new) post Bs2 Next'.
Proof.
  intros (Ha1 & Hpre & Hpost & HP & HBB & H1 & H2) Hle Hnew.
  split_and!; try done; try lia.
  - by apply Forall_app.
  - eapply Forall_impl; [exact H1|]. cbn. intros b [? ?]. split; [lia|done].
  - eapply Forall_impl; [exact H2|]. cbn. intros b [? ?]. split; [lia|done].
Qed.

Lemma maskLoad_building CV Addr Loc LM Bs1 BB pre X post Bs2 FLoc Next Ins :
  FocusOK Bs1 BB (InstPtr X) pre post Bs2 Next ->
  (LM = None -> CV = Some Addr) ->
  let ld := maskLoad Addr Loc LM Next in
  (match LM with
   | Some Mask => ret Mask
   | None => Addr <- deref CV ;; createLoad Loc Addr
   end)
    (focusBlock Bs1 BB (pre ++ X :: post) Bs2 FLoc Next,
     mkSILBuilder BB (Some (InstPtr X)) Ins)
  = Ok (snd ld,
        (focusBlock Bs1 BB ((pre ++ fst ld) ++ X :: post) Bs2 FLoc
           (Next + length (fst ld)),
         mkSILBuilder BB (Some (InstPtr X)) (Ins ++ map InstPtr (fst ld)))).
Proof.
  intros HF HCV ld. subst ld.
  destruct (FocusOK_fresh _ _ _ _ _ _ _ BB HF) as [A1 A2]; [by left|].
  destruct HF as (Ha1 & Hpre & Hpost & HP & HBB & _ & _).
  destruct LM as [Mask|]; cbn [maskLoad fst snd length map].
  - unfold ret. rewrite !app_nil_r, Nat.add_0_r. reflexivity.
  - rewrite HCV by done.
    unfold bind at 1, deref. unfold createLoad.
    erewrite bind_Ok; [|by apply insertInst_focus].
    unfold ret. repeat f_equal. lia.
Qed.

Lemma emitElementCondition_building Loc N Elt Mask Bs1 BB pre X post Bs2 FLoc Next Ins :
  FocusOK Bs1 BB (InstPtr X) pre post Bs2 Next ->
  let ci := conditionInsts Loc N Elt Mask Next in
  emitElementCondition Loc N Elt Mask
    (focusBlock Bs1 BB (pre ++ X :: post) Bs2 FLoc Next,
     mkSILBuilder BB (Some (InstPtr X)) Ins)
  = Ok (snd ci,
        (focusBlock Bs1 BB ((pre ++ fst ci) ++ X :: post) Bs2 FLoc
           (Next + length (fst ci)),
         mkSILBuilder BB (Some (InstPtr X)) (Ins ++ map InstPtr (fst ci)))).
Proof.
  intros HF ci. subst ci.
  destruct (FocusOK_fresh _ _ _ _ _ _ _ BB HF) as [A1 A2]; [by left|].
  destruct HF as (Ha1 & Hpre & Hpost & HP & HBB & _ & _).
  unfold emitElementCondition, conditionInsts.
  destruct (N =? 1); cbn [negb].
  { unfold ret. cbn [fst snd length map]. rewrite !app_nil_r, Nat.add_0_r.
    reflexivity. }
  destruct (Elt =? 0); cbn [negb fst snd length map].
  - unfold bind at 1, ret. unfold createBuiltin.
    erewrite bind_Ok; [|by apply insertInst_focus].
    unfold ret. repeat f_equal. lia.
  - unfold createIntegerLiteral, createBuiltin.
    erewrite bind_Ok.
    2:{ erewrite bind_Ok.
        2:{ erewrite bind_Ok; [|by apply insertInst_focus]. reflexivity. }
        unfold ret at 1.
        erewrite bind_Ok; [reflexivity|].
        apply insertInst_focus; [done..|].
        apply absentFrom_snoc; [done|cbn; lia]. }
    erewrite bind_Ok.
    2:{ apply insertInst_focus; [done..|].
        repeat (apply absentFrom_snoc; [|cbn; lia]). done. }
    unfold ret. rewrite <- !app_assoc. cbn [app].
    repeat f_equal. lia.
Qed.


Lemma destroyPartial_building TM CV Addr LM Elt Bs1 BB pre X post Bs2 FLoc Next B :
  FocusOK Bs1 BB (InstPtr X) pre post Bs2 Next ->
  (LM = None -> CV = Some Addr) ->
  let Loc := InstLoc X in
  let ld := maskLoad Addr Loc LM Next in
  let N1 := Next + length (fst ld) in
  let ci := conditionInsts Loc (DIMemoryObjectInfo.getNumMemoryElements TM)
              Elt (snd ld) N1 in
  let N2 := N1 + length (fst ci) in
  (setInsertionPointInst (InstPtr X) ;;;
   Mask <-
     (match LM with
      | Some Mask => ret Mask
      | None => Addr <- deref CV ;; createLoad Loc Addr
      end) ;;
   CondVal <- emitElementCondition Loc
                (DIMemoryObjectInfo.getNumMemoryElements TM) Elt Mask ;;
   BBs <- InsertCFGDiamond CondVal Loc false ;;
   setInsertionPointBegin (fst (fst BBs)) ;;;
   EltPtr <- emitElementAddress TM Elt Loc ;;
   DA <- emitDestroyAddr Loc EltPtr ;;
   ret (Mask, DA))
    (focusBlock Bs1 BB (pre ++ X :: post) Bs2 FLoc Next, B)
  = Ok ((snd ld, Some (N2 + 5)),
        (partialResult TM Addr LM Elt Loc Bs1 BB pre X post Bs2 FLoc Next,
         mkSILBuilder (S N2) (Some (N2 + 2))
           (InsertedInsts B ++ map InstPtr (fst ld) ++ map InstPtr (fst ci)
            ++ [N2 + 2; N2 + 3; N2 + 4; N2 + 5]))).
Proof.
  intros HF HCV Loc ld N1 ci N2.
  pose proof HF as (Ha1 & _).
  rewrite (bind_Ok _ _ _ _ _ (setInsertionPointInst_focus _ _ _ _ _ _ _ _ _ Ha1)).
  rewrite (bind_Ok _ _ _ _ _
             (maskLoad_building CV Addr Loc LM _ _ _ _ _ _ _ _ _ HF HCV)).
  fold ld N1.
  assert (absentFrom (InstPtr X) (fst ld)) as Hld.
  { destruct HF as (_ & _ & _ & HP & _). subst ld. destruct LM; cbn.
    - constructor.
    - repeat constructor. cbn. lia. }
  assert (FocusOK Bs1 BB (InstPtr X) (pre ++ fst ld) post Bs2 N1) as HF1.
  { apply FocusOK_grow with Next; [done|subst N1; lia|done]. }
  rewrite (bind_Ok _ _ _ _ _
             (emitElementCondition_building Loc _ Elt (snd ld)
                _ _ _ _ _ _ _ _ _ HF1)).
  fold ci N2.
  assert (absentFrom (InstPtr X) (fst ci)) as Hci.
  { destruct HF1 as (_ & _ & _ & HP & _). subst ci. unfold conditionInsts.
    destruct (_ =? 1); [constructor|].
    destruct (_ =? 0); cbn; repeat constructor; cbn; lia. }
  assert (FocusOK Bs1 BB (InstPtr X) ((pre ++ fst ld) ++ fst ci) post Bs2 N2) as HF2.
  { apply FocusOK_grow with N1; [done|subst N2; lia|done]. }
  rewrite (bind_Ok _ _ _ _ _ (InsertCFGDiamond_focus (snd ci) Loc _ _ _ _ _ _ _ _ _ HF2)).
  cbn [fst snd].
  destruct (FocusOK_fresh _ _ _ _ _ _ _ BB HF2) as [A1 A2]; [by left|].
  destruct (FocusOK_fresh _ _ _ _ _ _ _ N2 HF2) as [B1 B2]; [right; lia|].
  destruct (FocusOK_fresh _ _ _ _ _ _ _ (S N2) HF2) as [C1 C2]; [right; lia|].
  destruct HF2 as (_ & _ & _ & HP & HBB & _ & _).
  (* move the focus to the true block *)
  cbn [app].
  rewrite focusBlock_shift2.
  set (Br := mkSILInstruction (S (S N2)) (BranchInst N2) Loc).
  change [Br] with ([] ++ Br :: []).
  assert (S N2 ∉ map fst (Bs1 ++ [(BB, ((pre ++ fst ld) ++ fst ci) ++
            [mkSILInstruction (S (S (S N2)))
               (CondBranchInst (snd ci) (S N2) N2) Loc])])) as D1.
  { apply notin_snoc; [done|cbn; lia]. }
  assert (S N2 ∉ map fst ((N2, X :: post) :: Bs2)) as D2.
  { apply notin_cons; [done|cbn; lia]. }
  unfold setInsertionPointBegin.
  unfold bind at 1. unfold bind at 1, gets. cbn [fst snd].
  rewrite getBlockInsts_focus by done.
  unfold setBuilderPoint, modify. cbn [fst snd head fmap option_fmap option_map app InsertedInsts].
  change (S (S N2)) with (InstPtr Br) at 2.
  unfold emitElementAddress, emitDestroyAddr.
  change [Br] with ([] ++ Br :: []).
  erewrite bind_Ok.
  2:{ erewrite bind_Ok; [reflexivity|].
      apply insertInst_focus; [done|done|constructor]. }
  erewrite bind_Ok.
  2:{ erewrite bind_Ok; [reflexivity|].
      apply insertInst_focus; [done|done|].
      apply absentFrom_snoc; [constructor|cbn; lia]. }
  unfold ret, partialResult. fold ld N1 ci N2.
  rewrite focusBlock_shift2.
  unfold destroyInsts. cbn [app].
  subst Br. cbn [InstPtr].
  replace (N2 + 2) with (S (S N2)) by lia.
  replace (N2 + 3) with (S (S (S N2))) by lia.
  replace (N2 + 4) with (S (S (S (S N2)))) by lia.
  replace (N2 + 5) with (S (S (S (S (S N2))))) by lia.
  replace (N2 + 6) with (S (S (S (S (S (S N2)))))) by lia.
  rewrite <- !app_assoc. reflexivity.
Qed.

Lemma FocusOK_partial TM Addr LM Elt Loc Bs1 BB P pre post Bs2 Next :
  FocusOK Bs1 BB P pre post Bs2 Next ->
  let ld := maskLoad Addr Loc LM Next in
  let N1 := Next + length (fst ld) in
  let ci := conditionInsts Loc (DIMemoryObjectInfo.getNumMemoryElements TM)
              Elt (snd ld) N1 in
  let N2 := N1 + length (fst ci) in
  FocusOK
    (Bs1 ++ [(BB, pre ++ fst ld ++ fst ci ++
                  [mkSILInstruction (N2 + 3)
                     (CondBranchInst (snd ci) (S N2) N2) Loc]);
             (S N2, destroyInsts TM Elt Loc (N2 + 4) ++
                    [mkSILInstruction (N2 + 2) (BranchInst N2) Loc])])
    N2 P [] post Bs2 (N2 + 6).
Proof.
  intros (Ha1 & Hpre & Hpost & HP & HBB & H1 & H2) ld N1 ci N2.
  assert (Next <= N1) as HN1 by (subst N1; lia).
  assert (N1 <= N2) as HN2 by (subst N2; lia).
  assert (absentFrom P (fst ld)) as Hld.
  { subst ld. destruct LM; cbn; [constructor|].
    repeat constructor. cbn. lia. }
  assert (absentFrom P (fst ci)) as Hci.
  { subst ci. unfold conditionInsts.
    destruct (_ =? 1); [constructor|].
    destruct (_ =? 0); cbn; repeat constructor; cbn; lia. }
  split_and!; try done; try lia.
  - rewrite flat_map_app. apply Forall_app. split; [done|].
    cbn [flat_map snd]. rewrite app_nil_r.
    repeat (apply Forall_app; split); try done;
      unfold destroyInsts; repeat constructor; cbn; lia.
  - constructor.
  - apply Forall_app. split.
    + eapply Forall_impl; [exact H1|]. cbn. intros b [? ?]. lia.
    + repeat constructor; cbn; lia.
  - eapply Forall_impl; [exact H2|]. cbn. intros b [? ?]. lia.
Qed.

(** ** The element loop on the checker *)

Lemma building_Ok {A} (m : Building A) B C a F' B' :
  m (Fn C, B) = Ok (a, (F', B')) ->
  building B m C = Ok ((a, B'), set_Fn F' C).
Proof. intros H. unfold building. by rewrite H. Qed.

Lemma destroyElement_No CV X Av LM Elt C :
  AvSet.get Av Elt = Ok No ->
  destroyElement CV X Av LM Elt C = Ok (LM, C).
Proof.
  intros HK. unfold destroyElement, bind at 1, gets. cbn [fst snd id].
  unfold bind at 1, liftOutcome. by rewrite HK.
Qed.

Lemma destroyElement_Yes CV X Av LM Elt C Bs1 BB pre post Bs2 FLoc Next :
  Fn C = focusBlock Bs1 BB (pre ++ X :: post) Bs2 FLoc Next ->
  FocusOK Bs1 BB (InstPtr X) pre post Bs2 Next ->
  AvSet.get Av Elt = Ok Yes ->
  destroyElement CV X Av LM Elt C
  = Ok (LM,
        set_Releases (Releases C ++ [Some (S Next)])
          (set_Fn (focusBlock Bs1 BB
                     ((pre ++ destroyInsts (TheMemory C) Elt (InstLoc X) Next)
                      ++ X :: post) Bs2 FLoc (S (S Next))) C)).
Proof.
  intros HFn HF HK. unfold destroyElement, bind at 1, gets. cbn [fst snd id].
  unfold bind at 1, liftOutcome. rewrite HK. cbn [fst snd].
  erewrite bind_Ok.
  2:{ apply building_Ok. rewrite HFn. by apply destroyYes_building. }
  reflexivity.
Qed.

Lemma destroyElement_Partial CV Addr X Av LM Elt C Bs1 BB pre post Bs2 FLoc Next :
  Fn C = focusBlock Bs1 BB (pre ++ X :: post) Bs2 FLoc Next ->
  FocusOK Bs1 BB (InstPtr X) pre post Bs2 Next ->
  AvSet.get Av Elt = Ok Partial ->
  (LM = None -> CV = Some Addr) ->
  let ld := maskLoad Addr (InstLoc X) LM Next in
  let ci := conditionInsts (InstLoc X)
              (DIMemoryObjectInfo.getNumMemoryElements (TheMemory C))
              Elt (snd ld) (Next + length (fst ld)) in
  destroyElement CV X Av LM Elt C
  = Ok (Some (snd ld),
        set_Releases
          (Releases C ++ [Some (Next + length (fst ld) + length (fst ci) + 5)])
          (set_Fn (partialResult (TheMemory C) Addr LM Elt (InstLoc X)
                     Bs1 BB pre X post Bs2 FLoc Next) C)).
Proof.
  intros HFn HF HK HCV ld ci.
  unfold destroyElement, bind at 1, gets. cbn [fst snd id].
  unfold bind at 1, liftOutcome. rewrite HK. cbn [fst snd].
  erewrite bind_Ok.
  2:{ apply building_Ok. rewrite HFn. by apply destroyPartial_building. }
  reflexivity.
Qed.

(** ** What the condition computes *)

Lemma shiftr_mod2 (m : N) (Elt : nat) :
  (N.shiftr m (N.of_nat Elt) mod 2 = N.b2n (N.testbit m (N.of_nat Elt)))%N.
Proof.
  rewrite <- N.bit0_mod, N.shiftr_spec by apply N.le_0_l.
  by rewrite N.add_0_l.
Qed.

Lemma conditionInsts_computes Loc NumMemoryElements Elt Mask Next env P m :
  ValDef Mask = DefInst P -> P < Next -> env !! P = Some m ->
  let ci := conditionInsts Loc NumMemoryElements Elt Mask Next in
  valueIn (execInsts env (fst ci)) (snd ci)
  = Some (if NumMemoryElements =? 1 then m
          else N.b2n (N.testbit m (N.of_nat Elt))).
Proof.
  intros HD HP Hm ci. subst ci. unfold conditionInsts.
  assert (valueIn env Mask = Some m) as HM by (unfold valueIn; by rewrite HD).
  destruct (NumMemoryElements =? 1); [done|].
  destruct (Elt =? 0) eqn:HE.
  - apply Nat.eqb_eq in HE. subst Elt.
    cbn [fst snd execInsts fold_left]. unfold execInst.
    cbn [InstKindOf InstPtr mapM]. rewrite HM. cbn.
    rewrite String.eqb_refl. unfold valueIn. cbn.
    rewrite lookup_insert_eq. by rewrite <- N.bit0_mod.
  - cbn [fst snd execInsts fold_left]. unfold execInst at 3.
    cbn [InstKindOf InstPtr]. unfold execInst at 2.
    cbn [InstKindOf InstPtr mapM].
    assert (valueIn (<[Next:=N.of_nat Elt]> env) Mask = Some m) as ->.
    { unfold valueIn. rewrite HD, lookup_insert_ne by lia. done. }
    assert (forall (e : gmap nat N) Q v Ty,
               valueIn (<[Q:=v]> e) (resultOf Q 0 Ty) = Some v) as HV.
    { intros. unfold valueIn. cbn. by rewrite lookup_insert_eq. }
    rewrite HV.
    cbn [fmap option_fmap option_map mbind option_bind mret option_ret evalBuiltin
         resultOf ValType].
    rewrite String.eqb_refl.
    unfold execInst. cbn [InstKindOf InstPtr mapM].
    rewrite HV.
    cbn [fmap option_fmap option_map mbind option_bind mret option_ret evalBuiltin
         resultOf ValType].
    rewrite String.eqb_refl. fold (resultOf (S (S Next)) 0 (getBuiltinIntegerType 1)).
    rewrite HV. by rewrite shiftr_mod2.
Qed.

(** ** The bit of one element *)

Lemma bit_of_small_mask (n e : nat) (m : N) :
  e < n -> (m < 2 ^ N.of_nat n)%N ->
  (if n =? 1 then m else N.b2n (N.testbit m (N.of_nat e)))
  = N.b2n (N.testbit m (N.of_nat e)).
Proof.
  intros He Hm. destruct (n =? 1) eqn:HN; [|done].
  apply Nat.eqb_eq in HN. subst n. assert (e = 0) as -> by lia.
  change (N.of_nat 0) with 0%N. rewrite N.bit0_mod.
  symmetry. apply N.mod_small. exact Hm.
Qed.

(** ** Stores that initialize or assign *)

Lemma windowFlags_Ok Liveness W :
  Forall (fun i => exists K, AvSet.get Liveness i = Ok K) W ->
  forall a b C,
    windowFlags Liveness W a b C
    = Ok ((a && windowAll Yes Liveness W, b && windowAll No Liveness W), C).
Proof.
  induction 1 as [|i W [K HK] _ IH]; intros a b C; cbn [windowFlags].
  - unfold ret, windowAll. cbn. by rewrite !andb_true_r.
  - unfold bind at 1, liftOutcome. rewrite HK. cbn [fst snd].
    assert (forall K', kindIs K' Liveness i = DIKind_eqb K K') as Hk
      by (intros; unfold kindIs; by rewrite HK).
    rewrite IH. unfold windowAll. cbn [forallb]. rewrite !Hk.
    destruct K, a, b; reflexivity.
Qed.

Lemma findInitializedLet_Ok TM Liveness W :
  Forall (fun i => exists K, AvSet.get Liveness i = Ok K) W ->
  forall C,
    findInitializedLet TM Liveness W C
    = Ok (firstInitializedLet TM Liveness W, C).
Proof.
  induction 1 as [|i W [K HK] _ IH]; intros C; cbn [findInitializedLet].
  - reflexivity.
  - unfold bind at 1, liftOutcome. rewrite HK. cbn [fst snd].
    assert (forall K', kindIs K' Liveness i = DIKind_eqb K K') as Hk
      by (intros; unfold kindIs; by rewrite HK).
    unfold firstInitializedLet. cbn [find]. rewrite Hk.
    destruct (DIKind_eqb K No), (DIMemoryObjectInfo.isElementLetProperty TM i);
      cbn; try apply IH; reflexivity.
Qed.

Lemma find_absent P l1 Y l2 :
  absentFrom P l1 -> InstPtr Y = P ->
  find (fun X => InstPtr X =? P) (l1 ++ Y :: l2) = Some Y.
Proof.
  intros H HY. induction H as [|Z l1 HZ _ IH]; cbn [app find].
  - by rewrite HY, Nat.eqb_refl.
  - apply Nat.eqb_neq in HZ. by rewrite HZ.
Qed.

Lemma getInst_focus Bs1 BB pre X post Bs2 FLoc Next :
  absentFrom (InstPtr X) (flat_map snd Bs1) -> absentFrom (InstPtr X) pre ->
  getInst (focusBlock Bs1 BB (pre ++ X :: post) Bs2 FLoc Next) (InstPtr X)
  = Some X.
Proof.
  intros H1 H2. unfold getInst, allInsts, focusBlock. cbn [Blocks].
  rewrite flat_map_app. cbn [flat_map snd].
  rewrite <- !app_assoc, app_assoc. cbn [app].
  apply find_absent; [by apply Forall_app|done].
Qed.

Lemma getInst_focus_new Bs1 BB pre m1 Y m2 post Bs2 FLoc Next N' :
  Forall (fun Z => InstPtr Z < Next) (flat_map snd Bs1 ++ pre) ->
  absentFrom (InstPtr Y) m1 -> Next <= InstPtr Y ->
  getInst (focusBlock Bs1 BB (pre ++ (m1 ++ Y :: m2) ++ post) Bs2 FLoc N')
    (InstPtr Y) = Some Y.
Proof.
  intros HB Hm HY.
  replace (pre ++ (m1 ++ Y :: m2) ++ post) with ((pre ++ m1) ++ Y :: (m2 ++ post))
    by (by rewrite <- !app_assoc).
  apply Forall_app in HB as [HB1 HB2].
  apply getInst_focus.
  - eapply Forall_impl; [exact HB1|]. cbn. intros; lia.
  - apply Forall_app. split; [|done].
    eapply Forall_impl; [exact HB2|]. cbn. intros; lia.
Qed.

Lemma recordInserted_Ok K First Num C Y :
  getInst (Fn C) (InstPtr Y) = Some Y ->
  recordInserted K First Num (InstPtr Y) C = Ok (tt, recordUse K First Num C Y).
Proof.
  intros HY. unfold recordInserted, bind at 1, gets. cbn [fst snd].
  unfold bind at 1, deref. rewrite HY. cbn [fst snd].
  unfold recordUse. destruct (InstKindOf Y); try reflexivity.
Qed.

Lemma Fn_recordUse K First Num C Y : Fn (recordUse K First Num C Y) = Fn C.
Proof. unfold recordUse. by destruct (InstKindOf Y). Qed.

Lemma forEach_recordInserted K First Num Xs :
  forall C,
    Forall (fun Y => getInst (Fn C) (InstPtr Y) = Some Y) Xs ->
    forEach (map InstPtr Xs) (recordInserted K First Num) C
    = Ok (tt, fold_left (recordUse K First Num) Xs C).
Proof.
  induction Xs as [|Y Xs IH]; intros C H; cbn [map forEach fold_left].
  - reflexivity.
  - apply Forall_cons in H as [HY H].
    rewrite (bind_Ok _ _ _ _ _ (recordInserted_Ok K First Num C Y HY)).
    apply IH. by rewrite Fn_recordUse.
Qed.

Lemma loweredAssign_getInst Bs1 BB pre post Bs2 FLoc Next N' Src Dest Loc b :
  Forall (fun Z => InstPtr Z < Next) (flat_map snd Bs1 ++ pre) ->
  Forall (fun Y =>
            getInst (focusBlock Bs1 BB
                       (pre ++ loweredAssign Src Dest Loc b Next ++ post)
                       Bs2 FLoc N') (InstPtr Y) = Some Y)
    (loweredAssign Src Dest Loc b Next).
Proof.
  intros HB. unfold loweredAssign.
  destruct (b || TyIsTrivial (ValType Dest)).
  - constructor; [|constructor].
    apply (getInst_focus_new _ _ _ [] _ [] _ _ _ Next); [done|constructor|cbn; lia].
  - repeat constructor.
    + apply (getInst_focus_new _ _ _ [] _ [_; _] _ _ _ Next); [done|constructor|cbn; lia].
    + apply (getInst_focus_new _ _ _ [_] _ [_] _ _ _ Next); [done| |cbn; lia].
      repeat constructor; cbn; lia.
    + apply (getInst_focus_new _ _ _ [_; _] _ [] _ _ _ Next); [done| |cbn; lia].
      repeat constructor; cbn; lia.
Qed.

Lemma builderAt_focus Bs1 BB pre X post Bs2 FLoc Next :
  absentFrom (InstPtr X) (flat_map snd Bs1) ->
  builderAt (focusBlock Bs1 BB (pre ++ X :: post) Bs2 FLoc Next) (InstPtr X)
  = Some (mkSILBuilder BB (Some (InstPtr X)) []).
Proof. intros H. unfold builderAt. by rewrite getParent_focus. Qed.

Lemma lowerUse_Ok UseID K U X Src Dest Bs1 BB pre post Bs2 FLoc Next C :
  K = Initialization \/ K = Assign ->
  UseID < length (Uses C) ->
  DIMemoryUse.Inst U = Some (InstPtr X) ->
  InstKindOf X = AssignInst Src Dest ->
  Fn C = focusBlock Bs1 BB (pre ++ X :: post) Bs2 FLoc Next ->
  FocusOK Bs1 BB (InstPtr X) pre post Bs2 Next ->
  Forall (fun Z => InstPtr Z < Next) (flat_map snd Bs1 ++ pre) ->
  (setUse UseID (setUseKind U K) ;;; updateInstructionForInitState UseID) C
  = Ok (tt, loweredUse UseID K U X Src Dest Bs1 BB pre post Bs2 FLoc Next C).
Proof.
  intros HK HID HI HA HFn HOK HB.
  destruct (FocusOK_notin _ _ _ _ _ _ _ HOK) as [Hn1 Hn2].
  pose proof HOK as (Ha1 & Hpre & Hpost & HP & _).
  unfold setUse at 1, bind at 1, modify. cbn [fst snd].
  unfold updateInstructionForInitState, bind at 1, gets. cbn [fst snd id Uses set_Uses].
  unfold bind at 1, deref. rewrite list_lookup_insert_eq by done. cbn [fst snd].
  unfold bind at 1. cbn [setUseKind DIMemoryUse.Inst]. rewrite HI. cbn [fst snd].
  unfold bind at 1. cbn [Fn set_Uses]. rewrite HFn.
  rewrite getInst_focus by done. cbn [fst snd].
  cbn [DIMemoryUse.Kind].
  assert ((if decide (K = Initialization \/ K = SelfInit) then ret true
           else assert (bool_decide (K = Assign)) ;;; ret false)
            (set_Uses (<[UseID:=setUseKind U K]> (Uses C)) C)
          = Ok (bool_decide (K = Initialization),
                set_Uses (<[UseID:=setUseKind U K]> (Uses C)) C)) as HIK.
  { destruct HK as [-> | ->]; reflexivity. }
  rewrite (bind_Ok _ _ _ _ _ HIK). rewrite HA.
  unfold setUse, bind at 1, modify. cbn [fst snd].
  unfold bind at 1. cbn [fst snd].
  unfold bind at 1. rewrite builderAt_focus by done. cbn [fst snd].
  destruct X as [P KX Loc]. cbn [InstPtr InstKindOf InstLoc] in *. subst KX.
  erewrite bind_Ok.
  2:{ apply building_Ok. cbn [Fn set_Uses set_NonLoadUses]. rewrite HFn.
      by apply LowerAssignInstruction_focus. }
  cbn [snd InsertedInsts app].
  rewrite forEach_recordInserted.
  2:{ cbn [Fn set_Fn]. apply loweredAssign_getInst. exact HB. }
  unfold loweredUse. cbn [InstPtr InstLoc].
  cbn [Uses set_Uses NonLoadUses setUseKind DIMemoryUse.Kind
       DIMemoryUse.FirstElement DIMemoryUse.NumElements].
  rewrite list_insert_insert_eq. reflexivity.
Qed.

Lemma framePBI_Fn C C' : framePBI C C' -> Fn C' = Fn C.
Proof. intros ->. reflexivity. Qed.

Lemma framePBI_Uses C C' : framePBI C C' -> Uses C' = Uses C.
Proof. intros ->. reflexivity. Qed.

(** C2, as the code has it.  For a use of kind [InitOrAssign], [doIt]
    skips it when its instruction is a plain store and hands it to
    [handleStoreUse] otherwise, which computes the liveness of the window.
    If every element is [No], the use becomes an [Initialization] and is
    lowered as one.  Otherwise, if some element of the window that is not
    [No] is a [let] property, the error
    [immutable_property_already_initialized] is emitted at the instruction
    and nothing else changes: the use stays [InitOrAssign].  Otherwise, if
    every element is [Yes], the use becomes an [Assign] and is lowered as
    one; and if the window is mixed, nothing is rewritten and
    [HasConditionalInitAssignOrDestroys] is set when some element of the
    window has a non-trivial type.  Lowering an assign instruction in
    focus gives the checker [loweredUse]. *)
Theorem handleStoreUse_classifies
    (UseID : nat) (C C1 : LifetimeChecker) (U : DIMemoryUse)
    (X : SILInstruction) (Liveness : AvailabilitySet) :
  Uses C !! UseID = Some U ->
  DIMemoryUse.Inst U = Some (InstPtr X) ->
  DIMemoryUse.Kind U = InitOrAssign ->
  getInst (Fn C) (InstPtr X) = Some X ->
  getLivenessAtInst (InstPtr X) (DIMemoryUse.FirstElement U)
    (DIMemoryUse.NumElements U) C = Ok (Liveness, C1) ->
  (forall i,
     DIMemoryUse.FirstElement U <= i
       < DIMemoryUse.FirstElement U + DIMemoryUse.NumElements U ->
     exists K, AvSet.get Liveness i = Ok K) ->
  let TM := TheMemory C in
  let Window := seq (DIMemoryUse.FirstElement U) (DIMemoryUse.NumElements U) in
  let lowerAs K :=
    (setUse UseID (setUseKind U K) ;;; updateInstructionForInitState UseID) C1 in
  (doItUse UseID C
   = if isStoreInst (InstKindOf X) then Ok (tt, C) else handleStoreUse UseID C) /\
  (windowAll No Liveness Window = true ->
   handleStoreUse UseID C = lowerAs Initialization) /\
  (windowAll No Liveness Window = false ->
   windowAll Yes Liveness Window = true ->
   firstInitializedLet TM Liveness Window = None ->
   handleStoreUse UseID C = lowerAs Assign) /\
  (windowAll No Liveness Window = false ->
   windowAll Yes Liveness Window = false ->
   firstInitializedLet TM Liveness Window = None ->
   handleStoreUse UseID C
   = Ok (tt, if onlyTouchesTrivialElements U TM then C1
             else set_HasConditionalInitAssignOrDestroys true C1)) /\
  (forall i Name D,
     windowAll No Liveness Window = false ->
     firstInitializedLet TM Liveness Window = Some i ->
     DIMemoryObjectInfo.getPathStringToElement TM i = (Name, Some D) ->
     handleStoreUse UseID C
     = Ok (tt,
           set_Diags
             (Diags C1
              ++ mkDiagnostic (getSourceLoc (InstLoc X))
                   immutable_property_already_initialized [ArgString Name]
                 :: (if DeclIsVarWithInitPattern D
                     then [mkDiagnostic (DeclLoc D)
                             initial_value_provided_in_let_decl []]
                     else [])) C1)) /\
  (forall K Src Dest Bs1 BB pre post Bs2 FLoc Next,
     K = Initialization \/ K = Assign ->
     InstKindOf X = AssignInst Src Dest ->
     Fn C = focusBlock Bs1 BB (pre ++ X :: post) Bs2 FLoc Next ->
     FocusOK Bs1 BB (InstPtr X) pre post Bs2 Next ->
     Forall (fun Z => InstPtr Z < Next) (flat_map snd Bs1 ++ pre) ->
     lowerAs K
     = Ok (tt, loweredUse UseID K U X Src Dest Bs1 BB pre post Bs2 FLoc Next C1)).
Proof.
  intros HU HI HK HX HL HD TM Window lowerAs.
  pose proof (getLivenessAtInst_frame _ _ _ _ _ _ HL) as HFr.
  assert (Forall (fun i => exists K, AvSet.get Liveness i = Ok K) Window) as HW.
  { apply Forall_forall. intros i Hi. apply HD.
    apply elem_of_seq in Hi. lia. }
  assert (handleStoreUse UseID C
          = match (if windowAll No Liveness Window then None
                   else firstInitializedLet TM Liveness Window) with
            | Some i =>
                (let (PropertyName, VD) :=
                   DIMemoryObjectInfo.getPathStringToElement TM i in
                 InstLoc <- getLocOf (InstPtr X) ;;
                 diagnose InstLoc immutable_property_already_initialized
                   [ArgString PropertyName] ;;;
                 match VD with
                 | Some D =>
                     if DeclIsVarWithInitPattern D then
                       diagnose (SILLocation_ofDecl D)
                         initial_value_provided_in_let_decl []
                     else ret tt
                 | None => fun _ => AssertFail
                 end) C1
            | None =>
                if windowAll No Liveness Window then lowerAs Initialization
                else if windowAll Yes Liveness Window then lowerAs Assign
                else Ok (tt, if onlyTouchesTrivialElements U TM then C1
                             else set_HasConditionalInitAssignOrDestroys true C1)
            end) as Hmain.
  { unfold handleStoreUse, bind at 1, gets. cbn [fst snd id].
    unfold bind at 1, deref. rewrite HU. cbn [fst snd].
    unfold bind at 1. rewrite HI. cbn [fst snd].
    unfold bind at 1. rewrite HL. cbn [fst snd].
    unfold bind at 1. fold Window TM.
    rewrite (windowFlags_Ok _ _ HW true true C1). cbn [andb fst snd].
    rewrite HK. rewrite bool_decide_eq_false_2 by discriminate. cbn [andb orb].
    fold TM Window.
    destruct (windowAll No Liveness Window) eqn:HNo; cbn [negb].
    - unfold bind at 1, ret at 1. cbn [fst snd]. reflexivity.
    - unfold bind at 1.
      rewrite (findInitializedLet_Ok TM _ _ HW C1). cbn [fst snd].
      destruct (firstInitializedLet TM Liveness Window); [reflexivity|].
      destruct (windowAll Yes Liveness Window); [reflexivity|].
      rewrite bool_decide_eq_true_2 by done.
      destruct (onlyTouchesTrivialElements U TM); reflexivity. }
  split_and!.
  - unfold doItUse, bind at 1, gets. cbn [fst snd id].
    unfold bind at 1, deref. rewrite HU. cbn [fst snd]. rewrite HI.
    unfold bind at 1. rewrite HX. cbn [fst snd]. rewrite HK.
    by destruct (isStoreInst (InstKindOf X)).
  - intros HNo. by rewrite Hmain, HNo.
  - intros HNo HYes HLet. by rewrite Hmain, HNo, HLet, HYes.
  - intros HNo HYes HLet. by rewrite Hmain, HNo, HLet, HYes.
  - intros i Name D HNo HLet HP. rewrite Hmain, HNo, HLet, HP.
    unfold bind at 1, getLocOf. unfold bind at 1, gets. cbn [fst snd].
    unfold bind at 1, deref.
    rewrite (framePBI_Fn _ _ HFr), HX. cbn [fst snd]. unfold ret at 1.
    cbn [fst snd]. unfold bind at 1, diagnose at 1, modify. cbn [fst snd].
    destruct (DeclIsVarWithInitPattern D).
    + unfold diagnose, modify. cbn [Diags set_Diags SILLocation_ofDecl getSourceLoc].
      rewrite <- app_assoc. reflexivity.
    + reflexivity.
  - intros K Src Dest Bs1 BB pre post Bs2 FLoc Next HK' HA HFn HOK HB.
    subst lowerAs. cbn beta.
    apply lowerUse_Ok; try done.
    + rewrite (framePBI_Uses _ _ HFr). by eapply lookup_lt_Some.
    + by rewrite (framePBI_Fn _ _ HFr).
Qed.

Lemma handleStoreUse_classifies_witness :
  handleStoreUse 0 exChecker
  = Ok (tt,
        loweredUse 0 Initialization
          (DIMemoryUse.mk (Some 20) InitOrAssign 0 1)
          (mkSILInstruction 20 (AssignInst exArg exMemory) (exLoc 102))
          exArg exMemory
          [(0, [mkSILInstruction 10 (MarkUninitializedInst exBox) (exLoc 100);
                mkSILInstruction 11 (CondBranchInst exCond 1 2) (exLoc 101)])]
          1 [] [mkSILInstruction 21 (BranchInst 3) (exLoc 103)]
          [(2, [mkSILInstruction 30 (BranchInst 3) (exLoc 104)]);
           (3, [mkSILInstruction 40 (AssignInst exArg exMemory) (exLoc 105);
                mkSILInstruction 41 (DestroyAddrInst exMemory) (exLoc 106);
                mkSILInstruction 42 (ReturnInst exArg) (exLoc 107)])]
          (exLoc 99) 1000 (snd exLiveness)).
Proof.
  destruct (handleStoreUse_classifies 0 exChecker (snd exLiveness)
              (DIMemoryUse.mk (Some 20) InitOrAssign 0 1)
              (mkSILInstruction 20 (AssignInst exArg exMemory) (exLoc 102))
              (fst exLiveness))
    as (_ & HNo & _ & _ & _ & HLower).
  - vm_compute. reflexivity.
  - reflexivity.
  - reflexivity.
  - vm_compute. reflexivity.
  - vm_compute. reflexivity.
  - intros i Hi. cbn in Hi. assert (i = 0) as -> by lia.
    exists No. vm_compute. reflexivity.
  - rewrite HNo by (vm_compute; reflexivity).
    apply HLower.
    + by left.
    + reflexivity.
    + vm_compute. reflexivity.
    + unfold FocusOK, absentFrom. repeat split; repeat constructor; cbn; lia.
    + repeat constructor; cbn; lia.
Defined.

(** C2 does not hold as stated: in the second example the window of the
    second assign is all [Yes], yet the variable is a [let], so the use is
    neither reclassified nor lowered; an error is emitted instead. *)
Lemma handleStoreUse_let_stays_InitOrAssign :
  exists Liveness C1 C',
    Uses exLetChecker !! 1 = Some (DIMemoryUse.mk (Some 40) InitOrAssign 0 1) /\
    getLivenessAtInst 40 0 1 exLetChecker = Ok (Liveness, C1) /\
    windowAll Yes Liveness (seq 0 1) = true /\
    doItUse 1 exLetChecker = Ok (tt, C') /\
    handleStoreUse 1 exLetChecker = Ok (tt, C') /\
    Uses C' = Uses exLetChecker /\
    Fn C' = Fn exLetChecker /\
    HasConditionalInitAssignOrDestroys C' = false /\
    Diags C' = [mkDiagnostic 105 immutable_property_already_initialized
                  [ArgString "x"]].
Proof.
  do 3 eexists. split_and!; vm_compute; reflexivity.
Qed.

(** ** Invariants kept by the whole of [doIt] *)

Lemma hoare_fail {S A} (P : S -> Prop) (Q : A -> S -> Prop) :
  hoare P (fun _ : S => @AssertFail (A * S)) Q.
Proof. intros ? ? ? [=]. Qed.

Lemma hoare_building_frame {A} (P : LifetimeChecker -> Prop) B (m : Building A) :
  (forall C F, P C -> P (set_Fn F C)) ->
  hoare P (building B m) (fun _ => P).
Proof.
  intros HP C a C' Hrun HC. unfold building in Hrun.
  destruct (m (Fn C, B)) as [[a' [F' B']]| |]; [|done..].
  injection Hrun as <- <-. by apply HP.
Qed.

(** One step of a proof that a computation of the checker keeps an
    invariant; [frame] says which fields the invariant reads. *)
Ltac keep_step frame :=
  match goal with
  | |- hoare _ (bind _ _) _ => apply hoare_bind_inv; [|intros ?]
  | |- hoare _ (ret _) _ => by apply hoare_ret
  | |- hoare _ (gets _) _ => by apply hoare_gets
  | |- hoare _ (deref _) _ => by apply hoare_deref
  | |- hoare _ (assert _) _ => by apply hoare_assert
  | |- hoare _ (liftOutcome _) _ => by apply hoare_liftOutcome
  | |- hoare _ (modify _) _ =>
      let s := fresh "s" in let Hs := fresh "Hs" in
      apply hoare_modify; intros s Hs; apply (frame s); [reflexivity..|exact Hs]
  | |- hoare _ (building _ _) _ =>
      let s := fresh "s" in let Hs := fresh "Hs" in
      apply hoare_building_frame; intros s ? Hs;
      apply (frame s); [reflexivity..|exact Hs]
  | |- hoare _ (setUse _ _) _ => unfold setUse
  | |- hoare _ (pushRelease _) _ => unfold pushRelease
  | |- hoare _ (getLocOf _) _ => unfold getLocOf
  | |- hoare _ (forEach _ _) _ => apply hoare_forEach; intros ? _
  | |- hoare _ (fun _ => AssertFail) _ => apply hoare_fail
  | |- hoare _ (if ?b then _ else _) _ => destruct b
  | |- hoare _ (match ?x with _ => _ end) _ => destruct x
  | |- hoare _ (let (_, _) := ?x in _) _ => destruct x
  | H : context [hoare _ _ _] |- hoare _ _ _ => simple apply H
  | |- isGatedError _ = _ => reflexivity
  end.

Section Traversal.

Variable P : LifetimeChecker -> Prop.

Hypothesis P_frame :
  forall C C',
    PerBlockInfo C' = PerBlockInfo C -> Diags C' = Diags C ->
    EmittedErrorLocs C' = EmittedErrorLocs C -> P C -> P C'.
Hypothesis P_live :
  forall Inst FirstElt NumElts,
    hoare P (getLivenessAtInst Inst FirstElt NumElts) (fun _ => P).
Hypothesis P_note :
  forall loc ID Args,
    isGatedError ID = false -> hoare P (diagnose loc ID Args) (fun _ => P).
Hypothesis P_emitAt :
  forall Inst ID Args rest,
    isGatedError ID = true ->
    hoare P rest (fun _ => P) ->
    hoare P (emitAt Inst ID Args rest) (fun _ => P).
Hypothesis P_diagnoseInitError :
  forall U ID,
    isGatedError ID = true -> hoare P (diagnoseInitError U ID) (fun _ => P).

Ltac keeps := repeat (keep_step P_frame).

Lemma recordInserted_inv K F N I :
  hoare P (recordInserted K F N I) (fun _ => P).
Proof. unfold recordInserted. keeps. Qed.

Lemma updateInstructionForInitState_inv UseID :
  hoare P (updateInstructionForInitState UseID) (fun _ => P).
Proof. unfold updateInstructionForInitState. keeps; apply recordInserted_inv. Qed.

Lemma windowFlags_inv L W : forall a b,
  hoare P (windowFlags L W a b) (fun _ => P).
Proof. induction W; intros; cbn [windowFlags]; keeps. Qed.

Lemma findInitializedLet_inv TM L W :
  hoare P (findInitializedLet TM L W) (fun _ => P).
Proof. induction W; cbn [findInitializedLet]; keeps. Qed.

Lemma handleStoreUse_inv UseID :
  hoare P (handleStoreUse UseID) (fun _ => P).
Proof.
  unfold handleStoreUse.
  keeps; try apply windowFlags_inv; try apply findInitializedLet_inv;
    try apply updateInstructionForInitState_inv.
Qed.

Lemma isInitializedAtUse_inv U W :
  hoare P (isInitializedAtUse U W) (fun _ => P).
Proof.
  unfold isInitializedAtUse. keeps.
  all: match goal with |- hoare _ (_ ?l) _ => generalize l end.
  all: intros l; induction l; keeps.
Qed.

Lemma noteUninitializedMembers_inv U :
  hoare P (noteUninitializedMembers U) (fun _ => P).
Proof. unfold noteUninitializedMembers. keeps. Qed.

Lemma handleLoadUseFailure_inv U b :
  hoare P (handleLoadUseFailure U b) (fun _ => P).
Proof.
  unfold handleLoadUseFailure. keeps; apply noteUninitializedMembers_inv.
Qed.

Lemma handleInOutUse_inv U : hoare P (handleInOutUse U) (fun _ => P).
Proof. unfold handleInOutUse. keeps. apply isInitializedAtUse_inv. Qed.

Lemma handleSuperInitUse_inv U : hoare P (handleSuperInitUse U) (fun _ => P).
Proof.
  unfold handleSuperInitUse. keeps.
  match goal with |- hoare _ (_ ?l) _ => generalize l end.
  intros l; induction l; keeps. by destruct (SourceLoc_isInvalid _).
Qed.

Lemma handleSelfInitUse_inv UseID : hoare P (handleSelfInitUse UseID) (fun _ => P).
Proof.
  unfold handleSelfInitUse. keeps; apply updateInstructionForInitState_inv.
Qed.

Lemma doItUse_inv i : hoare P (doItUse i) (fun _ => P).
Proof.
  unfold doItUse.
  keeps; first [apply handleStoreUse_inv | apply isInitializedAtUse_inv
               | apply handleLoadUseFailure_inv | apply handleInOutUse_inv
               | apply handleSuperInitUse_inv | apply handleSelfInitUse_inv].
Qed.

Lemma doItLoop_inv fuel : forall i, hoare P (doItLoop fuel i) (fun _ => P).
Proof.
  induction fuel; intros i; cbn [doItLoop].
  - intros ? ? ? [=].
  - keeps. apply doItUse_inv.
Qed.

Section RewritesKeep.

Variable del : nat -> SILFunction -> SILFunction.

Lemma deleteDeadAddress_inv Addr :
  hoare P (deleteDeadAddress del Addr) (fun _ => P).
Proof. unfold deleteDeadAddress. keeps. Qed.

Lemma processNonTrivialRelease_inv i :
  hoare P (processNonTrivialRelease del i) (fun _ => P).
Proof. unfold processNonTrivialRelease. keeps; apply deleteDeadAddress_inv. Qed.

Lemma destroyIfLive_inv Inst Loc Bitmask Elt :
  hoare P (destroyIfLive Inst Loc Bitmask Elt) (fun _ => P).
Proof. unfold destroyIfLive. keeps. Qed.

Lemma conditionalInitAssignLoop_inv fuel Loc IVType AllocAddr :
  forall i,
    hoare P (conditionalInitAssignLoop fuel i Loc IVType AllocAddr) (fun _ => P).
Proof.
  induction fuel; intros i; cbn [conditionalInitAssignLoop].
  - intros ? ? ? [=].
  - keeps; first [apply destroyIfLive_inv | apply updateInstructionForInitState_inv].
Qed.

Lemma handleConditionalInitAssign_inv :
  hoare P handleConditionalInitAssign (fun _ => P).
Proof.
  unfold handleConditionalInitAssign. keeps. apply conditionalInitAssignLoop_inv.
Qed.

Lemma destroyElement_inv CV X Av LM Elt :
  hoare P (destroyElement CV X Av LM Elt) (fun _ => P).
Proof. unfold destroyElement. keeps. Qed.

Lemma destroyElements_inv CV X Av Elts :
  forall LM, hoare P (destroyElements CV X Av LM Elts) (fun _ => P).
Proof.
  induction Elts; intros LM; cbn [destroyElements]; keeps.
  apply destroyElement_inv.
Qed.

Lemma handleConditionalDestroy_inv CV CDElt :
  hoare P (handleConditionalDestroy del CV CDElt) (fun _ => P).
Proof.
  unfold handleConditionalDestroy.
  keeps; first [apply destroyElements_inv | apply deleteDeadAddress_inv].
Qed.

Lemma handleConditionalDestroys_inv CV :
  hoare P (handleConditionalDestroys del CV) (fun _ => P).
Proof.
  unfold handleConditionalDestroys. keeps. apply handleConditionalDestroy_inv.
Qed.

Lemma doItRewrites_inv : hoare P (doItRewrites del) (fun _ => P).
Proof.
  unfold doItRewrites.
  keeps; first [apply processNonTrivialRelease_inv
               | apply handleConditionalInitAssign_inv
               | apply handleConditionalDestroys_inv].
Qed.

Lemma doIt_inv : hoare P (doIt del) (fun _ => P).
Proof.
  unfold doIt. keeps; first [apply doItLoop_inv | apply doItRewrites_inv].
Qed.

End RewritesKeep.

End Traversal.

(** ** Invariants of the per-block cache *)

Section CacheKept.

Variable Q : PerBlockInfoMap -> Prop.
Variable del : nat -> SILFunction -> SILFunction.

Let P (C : LifetimeChecker) : Prop := Q (PerBlockInfo C).

Hypothesis Q_live :
  forall Inst FirstElt NumElts,
    hoare P (getLivenessAtInst Inst FirstElt NumElts) (fun _ => P).

Lemma cache_frame C C' : PerBlockInfo C' = PerBlockInfo C -> P C -> P C'.
Proof. unfold P. by intros ->. Qed.

Lemma isBlockIsReachableFromEntry_cache BB :
  hoare P (isBlockIsReachableFromEntry BB) (fun _ => P).
Proof. unfold isBlockIsReachableFromEntry. repeat keep_step cache_frame. Qed.

Lemma shouldEmitError_cache Inst :
  hoare P (shouldEmitError Inst) (fun _ => P).
Proof.
  unfold shouldEmitError. repeat keep_step cache_frame.
  apply isBlockIsReachableFromEntry_cache.
Qed.

Lemma diagnose_cache loc ID Args :
  hoare P (diagnose loc ID Args) (fun _ => P).
Proof. unfold diagnose. repeat keep_step cache_frame. Qed.

Lemma emitAt_cache Inst ID Args rest :
  hoare P rest (fun _ => P) ->
  hoare P (emitAt Inst ID Args rest) (fun _ => P).
Proof.
  intros Hrest. unfold emitAt. repeat keep_step cache_frame.
  - apply shouldEmitError_cache.
  - apply diagnose_cache.
Qed.

Lemma getUninitElementName_cache U :
  hoare P (getUninitElementName U) (fun _ => P).
Proof. unfold getUninitElementName. repeat keep_step cache_frame. Qed.

Lemma diagnoseInitError_cache U ID :
  hoare P (diagnoseInitError U ID) (fun _ => P).
Proof.
  unfold diagnoseInitError. repeat keep_step cache_frame;
    first [apply shouldEmitError_cache | apply getUninitElementName_cache
          | apply diagnose_cache].
Qed.

Lemma doIt_cache : hoare P (doIt del) (fun _ => P).
Proof.
  apply doIt_inv.
  - intros C C' H _ _. by apply cache_frame.
  - exact Q_live.
  - intros. apply diagnose_cache.
  - intros. by apply emitAt_cache.
  - intros. apply diagnoseInitError_cache.
Qed.

End CacheKept.

Lemma doIt_KnownIsDefined del C C' :
  doIt del C = Ok (tt, C') ->
  KnownIsDefined (PerBlockInfo C) -> KnownIsDefined (PerBlockInfo C').
Proof.
  intros Hrun HK.
  refine (doIt_cache KnownIsDefined del _ C tt C' Hrun HK).
  intros Inst F N C1 R C2 H HK1. by eapply getLivenessAtInst_KnownIsDefined.
Qed.

(** ** What the dataflow writes in the cache *)

Lemma getLiveOutN_caches N getPreds fuel BB PBI R PBI' :
  getLiveOutN N getPreds fuel BB PBI = Ok (R, PBI') ->
  loState PBI BB = IsUnknown ->
  exists s', PBI' !! BB = Some s' /\
    if AvSet.containsUnknownElements R then LOState s' = IsUnknown
    else LOState s' = IsKnown /\ Availability s' = R.
Proof.
  destruct fuel as [|fuel]; [done|]. cbn [getLiveOutN]. intros Hrun HU.
  apply bind_Ok_inv in Hrun as (s & PBI1 & Hg & Hrun).
  destruct (getBlockInfo_spec N BB PBI) as (s0 & PBI0 & Hg0 & _ & _ & HL & _).
  rewrite Hg0 in Hg. injection Hg as <- <-. rewrite HL, HU in Hrun.
  monad_inv.
  match goal with H : getBlockInfo _ _ _ = Ok (?s2, ?P2) |- _ =>
    rename H into Hg2 end.
  destruct (AvSet.containsUnknownElements (applyLocalYes _ _ _)) eqn:HC;
    cbn [negb] in Hrun; monad_inv.
  - eexists. rewrite lookup_insert_eq. split; [reflexivity|]. by rewrite HC.
  - match goal with H : setBlockAvailability _ _ = Ok _ |- _ =>
      apply setBlockAvailability_Ok in H as (_ & HK & HA & _) end.
    eexists. rewrite lookup_insert_eq. split; [reflexivity|]. by rewrite HC.
Qed.

Lemma getLiveOut1_caches N getPreds fuel BB PBI R PBI' :
  getLiveOut1 N getPreds fuel BB PBI = Ok (R, PBI') ->
  loState PBI BB = IsUnknown ->
  exists s', PBI' !! BB = Some s' /\
    match R with
    | None => LOState s' = IsUnknown
    | Some K =>
        LOState s' = IsKnown /\
        AvSet.getConditional (Availability s') 0 = Some K /\
        AvSet.containsUnknownElements (Availability s') = false
    end.
Proof.
  destruct fuel as [|fuel]; [done|]. cbn [getLiveOut1]. intros Hrun HU.
  apply bind_Ok_inv in Hrun as (s & PBI1 & Hg & Hrun).
  destruct (getBlockInfo_spec N BB PBI) as (s0 & PBI0 & Hg0 & _ & _ & HL & _).
  rewrite Hg0 in Hg. injection Hg as <- <-. rewrite HL, HU in Hrun.
  destruct (decide _) as [HY|HY] in Hrun; monad_inv.
  - match goal with H : setBlockAvailability1 _ _ = Ok _ |- _ =>
      apply setBlockAvailability1_Ok in H as (_ & HK & HS & HA & HD) end.
    eexists. rewrite lookup_insert_eq. split; [reflexivity|].
    rewrite HY. split_and!; try done.
    rewrite HA. apply AvSetFacts.getConditional_set_eq. lia.
  - match goal with H : context [match ?R with Some _ => _ | None => _ end] |- _ =>
      destruct R as [K|] end; monad_inv.
    + match goal with H : setBlockAvailability1 _ _ = Ok _ |- _ =>
        apply setBlockAvailability1_Ok in H as (_ & HK & HS & HA & HD) end.
      eexists. rewrite lookup_insert_eq. split; [reflexivity|].
      split_and!; try done.
      rewrite HA. apply AvSetFacts.getConditional_set_eq. lia.
    + eexists. rewrite lookup_insert_eq. split; [reflexivity|]. done.
Qed.

(** C10.  A block whose state is [IsKnown] caches an availability set
    with no Unknown element.  The constructor establishes this; the
    setters that make a block [IsKnown] fail on a set with an Unknown
    element (or, in the one-element case, store a defined element); a
    query of the dataflow on a block that was [IsUnknown] leaves it
    [IsKnown] with the result when the result has no Unknown element and
    [IsUnknown] otherwise; and the dataflow, [getLivenessAtInst] and the
    whole of [doIt] keep the invariant. *)
Theorem Known_blocks_have_no_Unknown :
  (forall F TM Us Rs C,
     LifetimeChecker_new F TM Us Rs = Ok C ->
     KnownIsDefined (PerBlockInfo C)) /\
  (forall s AV,
     setBlockAvailability s AV
     = if decide (LOState s = IsKnown) then AssertFail
       else if AvSet.containsUnknownElements AV then AssertFail
       else Ok (mkLiveOutBlockState (HasNonLoadUse s) AV IsKnown)) /\
  (forall s K s',
     setBlockAvailability1 s K = Ok s' ->
     LOState s' = IsKnown /\
     AvSet.containsUnknownElements (Availability s') = false) /\
  (forall N getPreds fuel BB PBI R PBI',
     getLiveOutN N getPreds fuel BB PBI = Ok (R, PBI') ->
     KnownIsDefined PBI ->
     KnownIsDefined PBI' /\
     (loState PBI BB = IsUnknown ->
      exists s', PBI' !! BB = Some s' /\
        if AvSet.containsUnknownElements R then LOState s' = IsUnknown
        else LOState s' = IsKnown /\ Availability s' = R)) /\
  (forall N getPreds fuel BB PBI R PBI',
     getLiveOut1 N getPreds fuel BB PBI = Ok (R, PBI') ->
     KnownIsDefined PBI ->
     KnownIsDefined PBI' /\
     (loState PBI BB = IsUnknown ->
      exists s', PBI' !! BB = Some s' /\
        match R with
        | None => LOState s' = IsUnknown
        | Some K =>
            LOState s' = IsKnown /\
            AvSet.getConditional (Availability s') 0 = Some K /\
            AvSet.containsUnknownElements (Availability s') = false
        end)) /\
  (forall Inst FirstElt NumElts C R C',
     getLivenessAtInst Inst FirstElt NumElts C = Ok (R, C') ->
     KnownIsDefined (PerBlockInfo C) -> KnownIsDefined (PerBlockInfo C')) /\
  (forall del C C',
     doIt del C = Ok (tt, C') ->
     KnownIsDefined (PerBlockInfo C) -> KnownIsDefined (PerBlockInfo C')).
Proof.
  split_and!.
  - intros F TM Us Rs C H.
    by destruct (LifetimeChecker_new_wf _ _ _ _ _ H) as ((_ & HK & _) & _).
  - reflexivity.
  - intros s K s' H.
    by apply setBlockAvailability1_Ok in H as (_ & ? & _ & _ & ?).
  - intros N getPreds fuel BB PBI R PBI' H HK. split.
    + by eapply getLiveOutN_KnownIsDefined.
    + by eapply getLiveOutN_caches.
  - intros N getPreds fuel BB PBI R PBI' H HK. split.
    + by eapply getLiveOut1_KnownIsDefined.
    + by eapply getLiveOut1_caches.
  - intros. by eapply getLivenessAtInst_KnownIsDefined.
  - intros. by eapply doIt_KnownIsDefined.
Qed.

Lemma Known_blocks_have_no_Unknown_witness :
  exists C',
    doIt (fun _ F => F) exChecker = Ok (tt, C') /\
    KnownIsDefined (PerBlockInfo exChecker) /\
    KnownIsDefined (PerBlockInfo C').
Proof.
  destruct Known_blocks_have_no_Unknown as (Hnew & _ & _ & _ & _ & _ & HdoIt).
  pose proof (Hnew _ _ _ _ _ exChecker_new) as HK.
  destruct (doIt (fun _ F => F) exChecker) as [[[] C']| |] eqn:Hrun;
    [|by vm_compute in Hrun..].
  exists C'. split; [reflexivity|]. split; [exact HK|].
  by apply (HdoIt _ _ _ Hrun).
Defined.

(** ** Diagnostics *)

Lemma Aligned_frame C C' :
  Diags C' = Diags C ->
  EmittedErrorLocs C' = EmittedErrorLocs C -> Aligned C -> Aligned C'.
Proof.
  intros HD HE. unfold Aligned, gatedErrors. by rewrite HD, HE.
Qed.

Lemma Aligned_live Inst FirstElt NumElts :
  hoare Aligned (getLivenessAtInst Inst FirstElt NumElts) (fun _ => Aligned).
Proof.
  intros C R C' H HA. apply getLivenessAtInst_frame in H.
  apply (Aligned_frame C); [by rewrite H..|done].
Qed.

Lemma Aligned_note loc ID Args :
  isGatedError ID = false ->
  hoare Aligned (diagnose loc ID Args) (fun _ => Aligned).
Proof.
  intros HID C [] C' [= <-] [HN HF]. split; [done|].
  unfold gatedErrors. cbn [Diags set_Diags EmittedErrorLocs].
  rewrite filter_app, filter_cons_False, filter_nil, app_nil_r; [done|].
  cbn [DiagKind]. rewrite HID. exact (fun x => x).
Qed.

Lemma Aligned_error loc ID Args C L :
  isGatedError ID = true ->
  answersLoc (mkDiagnostic (getSourceLoc loc) ID Args) L ->
  L ∉ EmittedErrorLocs C ->
  Aligned C ->
  Aligned (set_Diags (Diags C ++ [mkDiagnostic (getSourceLoc loc) ID Args])
             (set_EmittedErrorLocs (EmittedErrorLocs C ++ [L]) C)).
Proof.
  intros HID HL Hnew [HN HF]. split; cbn [EmittedErrorLocs set_Diags set_EmittedErrorLocs].
  - apply NoDup_app. split_and!; [done| |apply NoDup_singleton].
    intros x Hx ->%list_elem_of_singleton. done.
  - unfold gatedErrors. cbn [Diags set_Diags set_EmittedErrorLocs].
    rewrite filter_app, filter_cons_True, filter_nil by (cbn [DiagKind]; rewrite HID; exact I).
    apply Forall2_app; [done|]. by constructor.
Qed.

Lemma isBlockIsReachableFromEntry_frame BB C b C' :
  isBlockIsReachableFromEntry BB C = Ok (b, C') ->
  C' = set_BlocksReachableFromEntry (BlocksReachableFromEntry C') C.
Proof.
  unfold isBlockIsReachableFromEntry. intros H.
  apply bind_Ok_inv in H as (C0 & C0' & [= <- <-] & H). cbn beta in H.
  destruct (decide _); monad_inv; [reflexivity|].
  match goal with |- ?X = _ => by destruct X end.
Qed.

Lemma shouldEmitError_spec Inst C b C' :
  shouldEmitError Inst C = Ok (b, C') ->
  exists X R,
    getInst (Fn C) Inst = Some X /\
    let L := getSourceLoc (InstLoc X) in
    let E := EmittedErrorLocs C in
    if b then
      (L ∉ E) /\
      C' = set_EmittedErrorLocs (E ++ [L]) (set_BlocksReachableFromEntry R C)
    else C' = set_BlocksReachableFromEntry R C.
Proof.
  unfold shouldEmitError. intros H.
  apply bind_Ok_inv in H as (F & C0 & [= <- <-] & H). cbn beta in H.
  apply bind_Ok_inv in H as (X & C0 & HI & H).
  unfold deref in HI. destruct (getInst (Fn C) Inst) as [I0|] eqn:EI; [|done].
  injection HI as <- <-.
  apply bind_Ok_inv in H as (BB & C0 & HBB & H).
  unfold deref in HBB. destruct (getParent (Fn C) Inst); [|done].
  injection HBB as <- <-.
  apply bind_Ok_inv in H as (Re & C1 & HR & H).
  apply isBlockIsReachableFromEntry_frame in HR.
  exists I0, (BlocksReachableFromEntry C1). split; [done|]. cbn zeta.
  destruct Re; cbn [negb] in H.
  - apply bind_Ok_inv in H as (C2 & C2' & [= <- <-] & H). cbn beta in H.
    destruct (existsb _ _) eqn:Ex.
    + injection H as <- <-. exact HR.
    + monad_inv. rewrite HR. cbn [EmittedErrorLocs set_BlocksReachableFromEntry].
      split; [|reflexivity].
      assert (EmittedErrorLocs C1 = EmittedErrorLocs C) as HE
        by (by rewrite HR).
      intros Hin. apply not_true_iff_false in Ex. apply Ex.
      apply existsb_exists. eexists. rewrite HE.
      split; [by apply list_elem_of_In|]. apply Nat.eqb_refl.
  - injection H as <- <-. exact HR.
Qed.

Lemma Aligned_emitAt Inst ID Args rest :
  isGatedError ID = true ->
  hoare Aligned rest (fun _ => Aligned) ->
  hoare Aligned (emitAt Inst ID Args rest) (fun _ => Aligned).
Proof.
  intros HID Hrest C [] C' Hrun HA. unfold emitAt in Hrun.
  apply bind_Ok_inv in Hrun as (b & C1 & Hs & Hrun).
  apply shouldEmitError_spec in Hs as (X & R & HX & Hs). cbn zeta in Hs.
  destruct b; cbn [negb] in Hrun.
  - destruct Hs as [Hnew ->].
    apply bind_Ok_inv in Hrun as (Loc & C2 & HLoc & Hrun).
    unfold getLocOf in HLoc. apply bind_Ok_inv in HLoc as (F & C3 & [= <- <-] & HLoc).
    cbn [Fn set_EmittedErrorLocs set_BlocksReachableFromEntry] in HLoc.
    rewrite HX in HLoc. injection HLoc as <- <-.
    apply bind_Ok_inv in Hrun as ([] & C3 & [= <-] & Hrun).
    apply (Hrest _ _ _ Hrun).
    apply (Aligned_frame
             (set_Diags (Diags C ++ [mkDiagnostic (getSourceLoc (InstLoc X)) ID Args])
                (set_EmittedErrorLocs
                   (EmittedErrorLocs C ++ [getSourceLoc (InstLoc X)]) C)));
      [reflexivity..|].
    apply Aligned_error; try done. by left.
  - injection Hrun as <-. subst C1. by apply (Aligned_frame C).
Qed.

Lemma getUninitElementName_frame U C Name C' :
  getUninitElementName U C = Ok (Name, C') -> framePBI C C'.
Proof.
  unfold getUninitElementName. intros H.
  apply bind_Ok_inv in H as (C0 & C0' & [= <- <-] & H). cbn beta in H.
  apply bind_Ok_inv in H as (Inst & C0 & HI & H).
  unfold deref in HI. destruct (DIMemoryUse.Inst U); [|done].
  injection HI as <- <-.
  apply bind_Ok_inv in H as (L & C1 & HL & H).
  apply getLivenessAtInst_frame in HL.
  monad_inv. exact HL.
Qed.

Lemma Aligned_diagnoseInitError U ID :
  isGatedError ID = true ->
  hoare Aligned (diagnoseInitError U ID) (fun _ => Aligned).
Proof.
  intros HID C [] C' Hrun HA. unfold diagnoseInitError in Hrun.
  apply bind_Ok_inv in Hrun as (Inst & C0 & HI & Hrun).
  unfold deref in HI. destruct (DIMemoryUse.Inst U); [|done].
  injection HI as <- <-.
  apply bind_Ok_inv in Hrun as (b & C1 & Hs & Hrun).
  apply shouldEmitError_spec in Hs as (X & R & HX & Hs). cbn zeta in Hs.
  destruct b; cbn [negb] in Hrun.
  - destruct Hs as [Hnew ->].
    apply bind_Ok_inv in Hrun as (Name & C2 & HName & Hrun).
    apply getUninitElementName_frame in HName.
    apply bind_Ok_inv in Hrun as (C3 & C3' & [= <- <-] & Hrun). cbn beta in Hrun.
    apply bind_Ok_inv in Hrun as (Loc & C4 & HLoc & Hrun).
    unfold getLocOf in HLoc. apply bind_Ok_inv in HLoc as (F & C5 & [= <- <-] & HLoc).
    rewrite HName in HLoc.
    cbn [Fn set_PerBlockInfo set_EmittedErrorLocs set_BlocksReachableFromEntry] in HLoc.
    rewrite HX in HLoc. injection HLoc as <- <-.
    apply bind_Ok_inv in Hrun as ([] & C5 & Hd & Hrun).
    match type of Hd with diagnose ?l _ _ _ = _ => set (DiagLoc := l) in * end.
    injection Hd as <-.
    match type of Hrun with _ ?st = _ => assert (Aligned st) as HA2 end.
    { apply (Aligned_frame
               (set_Diags (Diags C ++ [mkDiagnostic (getSourceLoc DiagLoc) ID
                                         [ArgString Name]])
                  (set_EmittedErrorLocs
                     (EmittedErrorLocs C ++ [getSourceLoc (InstLoc X)]) C)));
        [by rewrite HName..|].
      apply Aligned_error; try done.
      subst DiagLoc. unfold answersLoc.
      destruct (LocIsNull (InstLoc X)) eqn:HNull; cbn [orb].
      - right. unfold getSourceLoc. by rewrite HNull.
      - destruct (SourceLoc_isInvalid _) eqn:HInv; [by right|by left]. }
    destruct (negb _).
    + eapply Aligned_note; [|exact Hrun|exact HA2]. reflexivity.
    + injection Hrun as <-. exact HA2.
  - injection Hrun as <-. subst C1. by apply (Aligned_frame C).
Qed.

Lemma doIt_Aligned del C C' :
  doIt del C = Ok (tt, C') -> Aligned C -> Aligned C'.
Proof.
  apply (doIt_inv Aligned).
  - intros C1 C2 _. apply Aligned_frame.
  - apply Aligned_live.
  - apply Aligned_note.
  - apply Aligned_emitAt.
  - apply Aligned_diagnoseInitError.
Qed.

(** C7, as the code has it.  [shouldEmitError] says yes at most once per
    source location: it says no when the location of the instruction is
    already remembered, and when it says yes the location was not
    remembered and is added.  The constructor starts with no error and no
    location, and [doIt] keeps the remembered locations distinct and, in
    order, those of the errors emitted after [shouldEmitError] said yes;
    so two such errors answer distinct locations, and lie at distinct
    locations when both locations are valid.  Notes, and the errors
    emitted without asking, are not counted. *)
Theorem errors_once_per_location :
  (forall Inst C b C',
     shouldEmitError Inst C = Ok (b, C') ->
     exists X,
       getInst (Fn C) Inst = Some X /\
       let L := getSourceLoc (InstLoc X) in
       (L ∈ EmittedErrorLocs C -> b = false) /\
       (if b then (L ∉ EmittedErrorLocs C) /\
                  EmittedErrorLocs C' = EmittedErrorLocs C ++ [L]
        else EmittedErrorLocs C' = EmittedErrorLocs C) /\
       Diags C' = Diags C) /\
  (forall F TM Us Rs C, LifetimeChecker_new F TM Us Rs = Ok C -> Aligned C) /\
  (forall del C C', doIt del C = Ok (tt, C') -> Aligned C -> Aligned C') /\
  (forall C i j d1 d2,
     Aligned C -> i <> j ->
     gatedErrors C !! i = Some d1 -> gatedErrors C !! j = Some d2 ->
     exists L1 L2,
       EmittedErrorLocs C !! i = Some L1 /\ EmittedErrorLocs C !! j = Some L2 /\
       L1 <> L2 /\ answersLoc d1 L1 /\ answersLoc d2 L2 /\
       (SourceLoc_isInvalid L1 = false -> SourceLoc_isInvalid L2 = false ->
        DiagLoc d1 <> DiagLoc d2)).
Proof.
  split_and!.
  - intros Inst C b C' H.
    apply shouldEmitError_spec in H as (X & R & HX & H). cbn zeta in H.
    exists X. split; [done|]. cbn zeta. destruct b.
    + destruct H as [Hnew ->]. split_and!; try done.
    + subst C'. split_and!; try done.
  - intros F TM Us Rs C H.
    destruct (LifetimeChecker_new_wf _ _ _ _ _ H)
      as (_ & _ & _ & _ & _ & HD & HE & _).
    unfold Aligned, gatedErrors. rewrite HD, HE. split; constructor.
  - apply doIt_Aligned.
  - intros C i j d1 d2 [HN HF] Hij H1 H2.
    destruct (Forall2_lookup_l _ _ _ _ _ HF H1) as (L1 & HL1 & HA1).
    destruct (Forall2_lookup_l _ _ _ _ _ HF H2) as (L2 & HL2 & HA2).
    exists L1, L2. split_and!; try done.
    + intros ->. apply Hij. by eapply NoDup_lookup.
    + intros HV1 HV2 Heq.
      destruct HA1 as [<-|HA1]; [|congruence].
      destruct HA2 as [<-|HA2]; [|congruence].
      apply Hij. eapply NoDup_lookup; [exact HN|exact HL1|]. by rewrite Heq.
Qed.

Lemma errors_once_per_location_witness :
  exists C',
    doIt (fun _ F => F) exLoadChecker = Ok (tt, C') /\
    gatedErrors C'
    = [mkDiagnostic 102 variable_used_before_initialized [ArgString "x"];
       mkDiagnostic 105 variable_used_before_initialized [ArgString "x"]] /\
    Aligned exLoadChecker /\ Aligned C'.
Proof.
  destruct errors_once_per_location as (_ & Hnew & HdoIt & _).
  assert (LifetimeChecker_new exLoadFunction (exMemoryInfo false) exLoadUses []
          = Ok exLoadChecker) as HC by (vm_compute; reflexivity).
  pose proof (Hnew _ _ _ _ _ HC) as HA.
  destruct (doIt (fun _ F => F) exLoadChecker) as [[[] C']| |] eqn:Hrun;
    [|by vm_compute in Hrun..].
  exists C'. split; [reflexivity|]. split.
  - vm_compute in Hrun. injection Hrun as <-. vm_compute. reflexivity.
  - split; [exact HA|]. by apply (HdoIt _ _ _ Hrun).
Defined.

(** C7 does not hold as stated: in the third example each of the two
    errors is followed by the note [variable_defined_here] at the location
    of the variable, so two diagnostics of one run lie at one location. *)
Lemma doIt_repeats_a_location :
  exists C' d1 d2,
    doIt (fun _ F => F) exLoadChecker = Ok (tt, C') /\
    Diags C' !! 1 = Some d1 /\ Diags C' !! 3 = Some d2 /\
    DiagLoc d1 = DiagLoc d2.
Proof.
  do 3 eexists. split_and!; vm_compute; reflexivity.
Qed.

(** C8 fails on the fourth example.  Classifying the uses emits the error
    [immutable_property_already_initialized] at the second assign, but
    that error is emitted without asking [shouldEmitError], so no location
    is remembered and [doIt] goes on to the rewrites: with an error
    emitted, the function is given the liveness bitmap and the diamonds of
    the conditional destroys. *)
Theorem doIt_rewrites_after_error :
  exists C1 C',
    doItClassify exBranchLetChecker = Ok (tt, C1) /\
    Diags C1 = [mkDiagnostic 108 immutable_property_already_initialized
                  [ArgString "x"]] /\
    EmittedErrorLocs C1 = [] /\
    map fst (Blocks (Fn C1)) = [0; 1; 2; 3] /\
    (forall del, doIt del exBranchLetChecker = doItRewrites del C1) /\
    doIt (fun _ F => F) exBranchLetChecker = Ok (tt, C') /\
    Diags C' = Diags C1 /\
    map fst (Blocks (Fn C')) = [0; 1; 1007; 1006; 2; 3; 1019; 1018] /\
    length (allInsts (Fn C1)) = 8 /\ length (allInsts (Fn C')) = 25.
Proof.
  eexists. eexists. split; [vm_compute; reflexivity|].
  split_and!; vm_compute; reflexivity.
Qed.

(** ** The availability set, element by element *)

Module AvSetLoops.
Import AvSet.

(** A loop over distinct elements whose step rewrites only the element it
    visits, by a function of what that element holds. *)
Lemma fold_elementwise (g : nat -> option DIKind -> option DIKind)
    (step : AvailabilitySet -> nat -> AvailabilitySet) :
  (forall R i, size (step R i) = size R) ->
  (forall R i, i < size R ->
     getConditional (step R i) i = g i (getConditional R i)) ->
  (forall R i j, j <> i -> getConditional (step R i) j = getConditional R j) ->
  forall l R,
    NoDup l -> Forall (fun i => i < size R) l ->
    size (fold_left step l R) = size R /\
    forall j,
      getConditional (fold_left step l R) j
      = if decide (j ∈ l) then g j (getConditional R j) else getConditional R j.
Proof.
  intros Hsz Heq Hne l. induction l as [|i l IH]; intros R HND HF; cbn [fold_left].
  - split; [done|]. intros j. by rewrite decide_False by apply not_elem_of_nil.
  - apply NoDup_cons in HND as [Hi HND]. apply Forall_cons in HF as [HiR HF].
    destruct (IH (step R i) HND) as [IH1 IH2].
    { eapply Forall_impl; [exact HF|]. cbn. intros. by rewrite Hsz. }
    split; [by rewrite IH1, Hsz|]. intros j. rewrite IH2.
    destruct (decide (j = i)) as [->|Hji].
    + rewrite decide_False by done. rewrite decide_True by left. by apply Heq.
    + destruct (decide (j ∈ l)) as [Hjl|Hjl].
      * rewrite decide_True by (by right). by rewrite Hne.
      * rewrite decide_False by (intros [?|?]%elem_of_cons; done). by apply Hne.
Qed.

Lemma seq_in_range n R : n <= size R -> Forall (fun i => i < size R) (seq 0 n).
Proof. intros H. apply Forall_forall. intros i Hi%elem_of_seq. lia. Qed.

Lemma mergeIn_elements a RHS :
  size (mergeIn a RHS) = size a /\
  forall i, i < size a ->
    getConditional (mergeIn a RHS) i
    = mergeKinds (getConditional a i) (getConditional RHS i).
Proof.
  unfold mergeIn.
  destruct (fold_elementwise
              (fun i o => mergeKinds o (getConditional RHS i))
              (fun acc i => set_optional acc i
                 (mergeKinds (getConditional acc i) (getConditional RHS i))))
    with (l := seq 0 (size a)) (R := a) as [H1 H2].
  - intros. apply AvSetFacts.size_set_optional.
  - intros. by apply AvSetFacts.getConditional_set_optional_eq.
  - intros. by apply AvSetFacts.getConditional_set_optional_ne.
  - apply NoDup_seq.
  - by apply seq_in_range.
  - split; [done|]. intros i Hi. rewrite H2.
    rewrite decide_True; [done|]. apply elem_of_seq. lia.
Qed.

Lemma changeUnsetElementsTo_elements a K :
  size (changeUnsetElementsTo a K) = size a /\
  forall i, i < size a ->
    getConditional (changeUnsetElementsTo a K) i
    = match getConditional a i with Some E => Some E | None => Some K end.
Proof.
  unfold changeUnsetElementsTo.
  destruct (fold_elementwise
              (fun _ o => match o with Some E => Some E | None => Some K end)
              (fun acc i => if hasValue (getConditional acc i) then acc
                            else set acc i K))
    with (l := seq 0 (size a)) (R := a) as [H1 H2].
  - intros R i. destruct (hasValue _); [done|apply AvSetFacts.size_set].
  - intros R i Hi. destruct (getConditional R i) as [E|] eqn:HE; cbn [hasValue].
    + done.
    + by apply AvSetFacts.getConditional_set_eq.
  - intros R i j Hji. destruct (hasValue _); [done|].
    by apply AvSetFacts.getConditional_set_ne.
  - apply NoDup_seq.
  - by apply seq_in_range.
  - split; [done|]. intros i Hi. rewrite H2.
    rewrite decide_True; [done|]. apply elem_of_seq. lia.
Qed.

End AvSetLoops.

Lemma mergeKinds_None_inv a b : mergeKinds a b = None -> a = None /\ b = None.
Proof. destruct a as [[]|], b as [[]|]; done. Qed.

(** X1.  [mergeIn] is the lattice merge element by element: on sets of
    one size, element [i] of the result is [mergeKinds] of the two
    elements, the size is kept, merging into a fresh all-Unknown set
    copies the elements of the other set, and the result has an Unknown
    element exactly where both sets have one. *)
Theorem mergeIn_is_elementwise (a RHS : AvailabilitySet) :
  AvSet.size RHS = AvSet.size a ->
  AvSet.size (AvSet.mergeIn a RHS) = AvSet.size a /\
  (forall i, i < AvSet.size a ->
     AvSet.getConditional (AvSet.mergeIn a RHS) i
     = mergeKinds (AvSet.getConditional a i) (AvSet.getConditional RHS i)) /\
  (forall i, i < AvSet.size a ->
     AvSet.getConditional (AvSet.mergeIn (AvSet.new (AvSet.size a)) RHS) i
     = AvSet.getConditional RHS i) /\
  (AvSet.containsUnknownElements (AvSet.mergeIn a RHS) = true <->
   exists i, i < AvSet.size a /\
     AvSet.getConditional a i = None /\ AvSet.getConditional RHS i = None).
Proof.
  intros HS. destruct (AvSetLoops.mergeIn_elements a RHS) as [H1 H2].
  split_and!; try done.
  - intros i Hi.
    destruct (AvSetLoops.mergeIn_elements (AvSet.new (AvSet.size a)) RHS) as [_ H3].
    rewrite H3 by (by rewrite AvSetFacts.size_new).
    by rewrite AvSetFacts.getConditional_new.
  - rewrite AvSetFacts.containsUnknownElements_true, H1. split.
    + intros (i & Hi & HN). exists i. split; [done|].
      rewrite H2 in HN by done. by apply mergeKinds_None_inv.
    + intros (i & Hi & Ha & Hb). exists i. split; [done|].
      by rewrite H2, Ha, Hb.
Qed.

Lemma mergeIn_is_elementwise_witness :
  let a := AvSet.set (AvSet.new 2) 0 Yes in
  let RHS := AvSet.set (AvSet.new 2) 0 No in
  AvSet.getConditional (AvSet.mergeIn a RHS) 0 = Some Partial /\
  AvSet.getConditional (AvSet.mergeIn a RHS) 1 = None.
Proof.
  intros a RHS.
  destruct (mergeIn_is_elementwise a RHS) as (_ & H & _); [reflexivity|].
  split; rewrite H by (vm_compute; lia); reflexivity.
Defined.

(** X2.  [changeUnsetElementsTo K] writes [K] in every Unknown element and
    leaves the defined ones alone: the size is kept, no Unknown element is
    left, and a fresh set becomes all [K]. *)
Theorem changeUnsetElementsTo_fills_unknown :
  (forall a K,
     AvSet.size (AvSet.changeUnsetElementsTo a K) = AvSet.size a /\
     AvSet.containsUnknownElements (AvSet.changeUnsetElementsTo a K) = false /\
     forall i, i < AvSet.size a ->
       AvSet.getConditional (AvSet.changeUnsetElementsTo a K) i
       = match AvSet.getConditional a i with
         | Some E => Some E
         | None => Some K
         end) /\
  (forall N K, AvSet.isAll (AvSet.changeUnsetElementsTo (AvSet.new N) K) K = true).
Proof.
  split.
  - intros a K. destruct (AvSetLoops.changeUnsetElementsTo_elements a K) as [H1 H2].
    split_and!; try done.
    apply AvSetFacts.containsUnknownElements_false. rewrite H1.
    intros j Hj. rewrite H2 by done. by destruct (AvSet.getConditional a j).
  - intros N K.
    destruct (AvSetLoops.changeUnsetElementsTo_elements (AvSet.new N) K) as [H1 H2].
    apply AvSetFacts.isAll_true. rewrite H1. intros j Hj. rewrite H2 by done.
    rewrite AvSetFacts.size_new in Hj. by rewrite AvSetFacts.getConditional_new.
Qed.

(** X3.  [isAll K] holds exactly when every element is [K], [hasAny K]
    exactly when some element is.  So a set that is all [K] has no
    Unknown element and no element of another kind; a set with an element
    that is all [K] has some [K]; and the empty set, and only it, is both
    all Yes and all No. *)
Theorem isAll_hasAny_read_the_elements :
  (forall a K,
     AvSet.isAll a K = true <->
     forall j, j < AvSet.size a -> AvSet.getConditional a j = Some K) /\
  (forall a K,
     AvSet.hasAny a K = true <->
     exists j, j < AvSet.size a /\ AvSet.getConditional a j = Some K) /\
  (forall a K K',
     AvSet.isAll a K = true ->
     AvSet.containsUnknownElements a = false /\
     (K' <> K -> AvSet.hasAny a K' = false) /\
     (0 < AvSet.size a -> AvSet.hasAny a K = true)) /\
  (forall a,
     AvSet.isAllYes a = true /\ AvSet.isAllNo a = true <-> AvSet.size a = 0).
Proof.
  split_and!.
  - apply AvSetFacts.isAll_true.
  - apply AvSetFacts.hasAny_true.
  - intros a K K' HA. split_and!.
    + by eapply AvSetFacts.isAll_defined.
    + intros HK. apply not_true_iff_false. intros HH.
      apply AvSetFacts.hasAny_true in HH as (j & Hj & HjK).
      rewrite (proj1 (AvSetFacts.isAll_true a K) HA j Hj) in HjK. congruence.
    + intros Hpos. apply AvSetFacts.hasAny_true. exists 0. split; [done|].
      by apply (proj1 (AvSetFacts.isAll_true a K) HA).
  - intros a. unfold AvSet.isAllYes, AvSet.isAllNo. split.
    + intros [HY HN]. destruct (AvSet.size a) as [|n] eqn:Hs; [done|].
      pose proof (proj1 (AvSetFacts.isAll_true a Yes) HY 0) as HY0.
      pose proof (proj1 (AvSetFacts.isAll_true a No) HN 0) as HN0.
      rewrite HY0 in HN0 by lia. discriminate HN0. lia.
    + intros Hs. split; apply AvSetFacts.isAll_true; intros j Hj; lia.
Qed.

Lemma fold_left_shift (step : AvailabilitySet -> nat -> AvailabilitySet)
    (h : nat -> nat) l :
  forall A, fold_left (fun A i => step A (h i)) l A = fold_left step (map h l) A.
Proof. induction l as [|x l IH]; intros A; cbn; [done|apply IH]. Qed.

(** X4.  [markAvailable] leaves an empty availability set alone; on a
    non-empty one, for a use of at least one element whose window lies in
    the set, it returns, writes Yes in every element of the window and
    changes nothing else: the other elements, the size, the live-out
    state and the non-load flag are kept. *)
Theorem markAvailable_marks_the_window (s : LiveOutBlockState) (U : DIMemoryUse) :
  let First := DIMemoryUse.FirstElement U in
  let Num := DIMemoryUse.NumElements U in
  (AvSet.empty (Availability s) = true -> markAvailable s U = Ok s) /\
  (0 < Num -> First + Num <= AvSet.size (Availability s) ->
   exists s',
     markAvailable s U = Ok s' /\
     LOState s' = LOState s /\ HasNonLoadUse s' = HasNonLoadUse s /\
     AvSet.size (Availability s') = AvSet.size (Availability s) /\
     forall i,
       AvSet.getConditional (Availability s') i
       = if decide (First <= i < First + Num) then Some Yes
         else AvSet.getConditional (Availability s) i).
Proof.
  intros First Num. split.
  - intros HE. unfold markAvailable. by rewrite HE.
  - intros HN HW. unfold markAvailable.
    assert (AvSet.empty (Availability s) = false) as ->.
    { unfold AvSet.empty, AvSet.size in *. destruct (AvSet.Data (Availability s)); [|done].
      cbn in HW. lia. }
    fold First Num. destruct (Num =? 0) eqn:HZ; [apply Nat.eqb_eq in HZ; lia|].
    eexists. split; [reflexivity|]. cbn [LOState HasNonLoadUse Availability setAvailability].
    split; [done|]. split; [done|].
    rewrite (fold_left_shift (fun A j => AvSet.set A j Yes) (fun i => First + i)).
    set (A0 := AvSet.set (Availability s) First Yes).
    destruct (AvSetLoops.fold_elementwise
                (fun _ _ => Some Yes) (fun A j => AvSet.set A j Yes))
      with (l := map (fun i => First + i) (seq 1 (Num - 1))) (R := A0) as [H1 H2].
    + intros. apply AvSetFacts.size_set.
    + intros. by apply AvSetFacts.getConditional_set_eq.
    + intros. by apply AvSetFacts.getConditional_set_ne.
    + apply NoDup_fmap_2; [|apply NoDup_seq]. intros x y. lia.
    + apply Forall_forall. intros j Hj%list_elem_of_fmap.
      destruct Hj as (i & -> & Hi%elem_of_seq). subst A0.
      rewrite AvSetFacts.size_set. lia.
    + split; [by rewrite H1; subst A0; rewrite AvSetFacts.size_set|].
      intros i. rewrite H2. subst A0.
      destruct (decide (i ∈ map (fun i0 => First + i0) (seq 1 (Num - 1)))) as [Hi|Hi].
      * apply list_elem_of_fmap in Hi as (k & -> & Hk%elem_of_seq).
        rewrite decide_True by lia. done.
      * destruct (decide (i = First)) as [->|Hne].
        -- rewrite decide_True by lia.
           apply AvSetFacts.getConditional_set_eq. lia.
        -- rewrite AvSetFacts.getConditional_set_ne by done.
           rewrite decide_False; [done|]. intros Hr. apply Hi.
           apply list_elem_of_fmap. exists (i - First). split; [lia|].
           apply elem_of_seq. lia.
Qed.

Lemma markAvailable_marks_the_window_witness :
  exists s',
    markAvailable (LiveOutBlockState_new 3) (DIMemoryUse.mk (Some 20) Initialization 1 2)
    = Ok s' /\
    AvSet.getConditional (Availability s') 0 = None /\
    AvSet.getConditional (Availability s') 1 = Some Yes /\
    AvSet.getConditional (Availability s') 2 = Some Yes.
Proof.
  destruct (markAvailable_marks_the_window (LiveOutBlockState_new 3)
              (DIMemoryUse.mk (Some 20) Initialization 1 2))
    as [_ H].
  destruct H as (s' & Hrun & _ & _ & _ & HE); [cbn; lia|vm_compute; lia|].
  exists s'. split; [exact Hrun|]. rewrite !HE. vm_compute. done.
Defined.

(** ** The control-flow diamond *)

Lemma InsertCFGDiamond_focus_both Cond Loc Bs1 BB pre X post Bs2 FLoc Next Ins :
  FocusOK Bs1 BB (InstPtr X) pre post Bs2 Next ->
  InsertCFGDiamond Cond Loc true
    (focusBlock Bs1 BB (pre ++ X :: post) Bs2 FLoc Next,
     mkSILBuilder BB (Some (InstPtr X)) Ins)
  = Ok ((S Next, Some (Next + 3), Next),
        (focusBlock
           (Bs1 ++ [(BB, pre ++ [mkSILInstruction (Next + 5)
                                   (CondBranchInst Cond (S Next) (Next + 3)) Loc]);
                    (S Next, [mkSILInstruction (Next + 2) (BranchInst Next) Loc]);
                    (Next + 3, [mkSILInstruction (Next + 4) (BranchInst Next) Loc])])
           Next (X :: post) Bs2 FLoc (Next + 6),
         mkSILBuilder Next (Some (InstPtr X))
           (Ins ++ [Next + 2; Next + 4; Next + 5]))).
Proof.
  intros HF.
  replace (Next + 2) with (S (S Next)) by lia.
  replace (Next + 3) with (S (S (S Next))) by lia.
  replace (Next + 4) with (S (S (S (S Next)))) by lia.
  replace (Next + 5) with (S (S (S (S (S Next))))) by lia.
  replace (Next + 6) with (S (S (S (S (S (S Next)))))) by lia.
  destruct (FocusOK_fresh _ _ _ _ _ _ _ BB HF) as [A1 A2]; [by left|].
  destruct (FocusOK_fresh _ _ _ _ _ _ _ Next HF) as [B1 B2]; [right; lia|].
  destruct (FocusOK_fresh _ _ _ _ _ _ _ (S Next) HF) as [C1 C2]; [right; lia|].
  destruct (FocusOK_fresh _ _ _ _ _ _ _ (S (S (S Next))) HF) as [D1 D2]; [right; lia|].
  destruct HF as (Ha1 & Hpre & Hpost & HP & HBB & _ & _).
  unfold InsertCFGDiamond.
  unfold bind at 1, getInsertionBB, gets. cbn [fst snd InsertBB].
  unfold bind at 1, getInsertionPoint, gets. cbn [fst snd InsertPt].
  unfold bind at 1. cbn [fst snd]. rewrite splitBasicBlock_focus by done.
  cbn [fst snd].
  unfold bind at 1. cbn [fst snd]. rewrite createBlockBefore_focus.
  2:{ apply notin_snoc; [done|cbn; lia]. }
  2:{ done. }
  cbn [fst snd].
  unfold bind at 1, setInsertionPointEnd, setBuilderPoint, modify.
  cbn [fst snd InsertedInsts].
  (* the branch of the true block *)
  rewrite (focusBlock_shift (Bs1 ++ [(BB, pre)]) (S Next) [] Next).
  erewrite bind_Ok.
  2:{ apply insertInst_end.
      - apply notin_snoc; [done|cbn; lia].
      - apply notin_cons; [done|cbn; lia]. }
  (* the false block and its branch *)
  rewrite <- (focusBlock_shift (Bs1 ++ [(BB, pre)]) (S Next) _ Next).
  unfold bind at 1. unfold bind at 1. cbn [fst snd].
  rewrite createBlockBefore_focus.
  2:{ apply notin_snoc; [apply notin_snoc; [done|cbn; lia]|cbn; lia]. }
  2:{ done. }
  cbn [fst snd].
  unfold bind at 1, setBuilderPoint, modify. cbn [fst snd InsertedInsts app].
  rewrite (focusBlock_shift _ (S (S (S Next))) [] Next).
  erewrite bind_Ok.
  2:{ apply insertInst_end.
      - apply notin_snoc; [apply notin_snoc; [done|cbn; lia]|cbn; lia].
      - apply notin_cons; [done|cbn; lia]. }
  unfold ret at 1. cbn [fst snd].
  unfold bind at 1, setBuilderPoint, modify. cbn [fst snd InsertedInsts app].
  (* the conditional branch of the start block *)
  rewrite (focusBlock_shift _ (S Next) _ (S (S (S Next)))).
  rewrite (focusBlock_shift Bs1 BB pre (S Next)).
  unfold createCondBranch.
  erewrite bind_Ok.
  2:{ apply insertInst_end; [done|].
      repeat (apply notin_cons; [|cbn; lia]). done. }
  rewrite <- !focusBlock_shift.
  unfold setInsertionPointBegin, bind, gets, setBuilderPoint, modify, ret.
  cbn [fst snd InsertedInsts].
  rewrite getBlockInsts_focus.
  2:{ repeat (apply notin_snoc; [|cbn; lia]). done. }
  cbn [head fmap option_fmap option_map app].
  rewrite <- !app_assoc. cbn [app]. reflexivity.
Qed.

Lemma getBlockInsts_app Bs1 mid Bs2 FLoc Next T :
  T ∉ map fst mid ->
  getBlockInsts (mkSILFunction (Bs1 ++ mid ++ Bs2) FLoc Next) T
  = getBlockInsts (mkSILFunction (Bs1 ++ Bs2) FLoc Next) T.
Proof.
  intros HT. unfold getBlockInsts. cbn [Blocks].
  induction Bs1 as [|b Bs1 IH]; cbn [app find].
  - induction mid as [|m mid IHm]; cbn [app find map] in *; [done|].
    apply not_elem_of_cons in HT as [Hm HT].
    destruct (fst m =? T) eqn:E; [apply Nat.eqb_eq in E; congruence|].
    by apply IHm.
  - destruct (fst b =? T); [done|apply IH].
Qed.

Lemma getBlockInsts_mid Bs1 mid Bs2 FLoc Next T :
  T ∉ map fst Bs1 ->
  getBlockInsts (mkSILFunction (Bs1 ++ mid ++ Bs2) FLoc Next) T
  = match find (fun b => fst b =? T) mid with
    | Some b => snd b
    | None => getBlockInsts (mkSILFunction Bs2 FLoc Next) T
    end.
Proof.
  intros HT. unfold getBlockInsts. cbn [Blocks].
  induction Bs1 as [|b Bs1 IH]; cbn [app find map] in *.
  - induction mid as [|m mid IHm]; cbn [app find]; [done|].
    destruct (fst m =? T); [done|apply IHm].
  - apply not_elem_of_cons in HT as [Hb HT].
    destruct (fst b =? T) eqn:E; [apply Nat.eqb_eq in E; congruence|].
    by apply IH.
Qed.

Ltac eqb_decide :=
  repeat first
    [ rewrite Nat.eqb_refl
    | match goal with
      | |- context [?a =? ?b] =>
          rewrite (proj2 (Nat.eqb_neq a b)) by (cbn; lia)
      end ].

(** X5.  [InsertCFGDiamond] at an insertion point before [X] splits the
    block there: the start block keeps what was above and ends in a
    conditional branch on [Cond] to the new true block and to the false
    block, or the continuation when no false block is wanted; the true and
    false blocks only branch to the continuation; the continuation holds
    [X] and what followed; the new blocks lie between the start block and
    the rest; every other block is as before; and the builder is left
    before [X] in the continuation. *)
Theorem InsertCFGDiamond_splits_the_block
    (Cond : SILValue) (Loc : SILLocation) (WantFalseBB : bool)
    (Bs1 : list (nat * list SILInstruction)) (BB : nat)
    (pre : list SILInstruction) (X : SILInstruction)
    (post : list SILInstruction) (Bs2 : list (nat * list SILInstruction))
    (FLoc : SILLocation) (Next : nat) (Ins : list nat) :
  FocusOK Bs1 BB (InstPtr X) pre post Bs2 Next ->
  let F := focusBlock Bs1 BB (pre ++ X :: post) Bs2 FLoc Next in
  exists TrueBB FalseBB ContBB F' B' T,
    InsertCFGDiamond Cond Loc WantFalseBB (F, mkSILBuilder BB (Some (InstPtr X)) Ins)
    = Ok ((TrueBB, FalseBB, ContBB), (F', B')) /\
    let FalseDest := default ContBB FalseBB in
    (FalseBB = None <-> WantFalseBB = false) /\
    Next <= TrueBB /\ Next <= ContBB /\ Next <= FalseDest /\
    TrueBB <> ContBB /\ TrueBB <> FalseDest /\
    map fst (Blocks F')
    = map fst Bs1 ++ [BB; TrueBB] ++ option_list FalseBB ++ [ContBB] ++ map fst Bs2 /\
    getBlockInsts F' BB = pre ++ [T] /\
    InstKindOf T = CondBranchInst Cond TrueBB FalseDest /\
    getSuccsOf F' BB = [TrueBB; FalseDest] /\
    getSuccsOf F' TrueBB = [ContBB] /\
    (forall FB, FalseBB = Some FB -> getSuccsOf F' FB = [ContBB]) /\
    getBlockInsts F' ContBB = X :: post /\
    (forall Other, Other <> BB -> Other < Next ->
       getBlockInsts F' Other = getBlockInsts F Other) /\
    InsertBB B' = ContBB /\ InsertPt B' = Some (InstPtr X).
Proof.
  intros HF F.
  destruct (FocusOK_fresh _ _ _ _ _ _ _ BB HF) as [A1 A2]; [by left|].
  pose proof HF as (_ & _ & _ & _ & HBB & _ & _).
  assert (forall Other l Bs FL N,
            Other <> BB ->
            getBlockInsts (mkSILFunction ((BB, l) :: Bs) FL N) Other
            = getBlockInsts (mkSILFunction Bs FL N) Other) as Hskip.
  { intros Other l Bs FL N HO. unfold getBlockInsts. cbn [Blocks find fst].
    by rewrite (proj2 (Nat.eqb_neq BB Other)) by done. }
  assert (forall Other FL N N',
            getBlockInsts (mkSILFunction Bs2 FL N) Other
            = getBlockInsts (mkSILFunction Bs2 FL N') Other) as HN by done.
  destruct WantFalseBB.
  - eexists _, _, _, _, _, _. split; [by apply InsertCFGDiamond_focus_both|].
    unfold default. cbn [from_option id InsertBB InsertPt]. unfold focusBlock, getSuccsOf.
    rewrite <- !app_assoc. cbn [app].
    match goal with |- context [mkSILFunction (Bs1 ++ ?a :: ?b :: ?c :: ?d :: Bs2)] =>
      change (Bs1 ++ a :: b :: c :: d :: Bs2) with (Bs1 ++ [a; b; c; d] ++ Bs2) end.
    split_and!; try done; try lia.
    + cbn [Blocks]. rewrite !map_app. reflexivity.
    + rewrite getBlockInsts_mid by done. cbn [find fst snd]. by eqb_decide.
    + reflexivity.
    + rewrite getBlockInsts_mid by done. cbn [find fst snd]. eqb_decide.
      cbn [snd]. by rewrite last_snoc.
    + rewrite getBlockInsts_mid by (apply (FocusOK_fresh _ _ _ _ _ _ _ _ HF); right; lia).
      cbn [find fst snd]. by eqb_decide.
    + intros FB [= <-].
      rewrite getBlockInsts_mid by (apply (FocusOK_fresh _ _ _ _ _ _ _ _ HF); right; lia).
      cbn [find fst snd]. by eqb_decide.
    + rewrite getBlockInsts_mid by (apply (FocusOK_fresh _ _ _ _ _ _ _ _ HF); right; lia).
      cbn [find fst snd]. by eqb_decide.
    + intros Other HO HLt. subst F. unfold focusBlock.
      destruct (decide (Other ∈ map fst Bs1)) as [Hin|Hnot].
      * unfold getBlockInsts. cbn [Blocks]. clear -Hin.
        induction Bs1 as [|b Bs1 IH]; [by apply elem_of_nil in Hin|].
        cbn [app find map] in *. destruct (fst b =? Other) eqn:E; [done|].
        apply IH. apply elem_of_cons in Hin as [->|Hin]; [|done].
        by rewrite Nat.eqb_refl in E.
      * rewrite getBlockInsts_mid by done. cbn [find fst snd]. eqb_decide.
        change (Bs1 ++ ?a :: Bs2) with (Bs1 ++ [a] ++ Bs2).
        rewrite getBlockInsts_mid by done. cbn [find fst snd]. by eqb_decide.
  - eexists _, _, _, _, _, _. split; [by apply InsertCFGDiamond_focus|].
    unfold default. cbn [from_option id InsertBB InsertPt]. unfold focusBlock, getSuccsOf.
    rewrite <- !app_assoc. cbn [app].
    match goal with |- context [mkSILFunction (Bs1 ++ ?a :: ?b :: ?d :: Bs2)] =>
      change (Bs1 ++ a :: b :: d :: Bs2) with (Bs1 ++ [a; b; d] ++ Bs2) end.
    split_and!; try done; try lia.
    + cbn [Blocks]. rewrite !map_app. reflexivity.
    + rewrite getBlockInsts_mid by done. cbn [find fst snd]. by eqb_decide.
    + reflexivity.
    + rewrite getBlockInsts_mid by done. cbn [find fst snd]. eqb_decide.
      cbn [snd]. by rewrite last_snoc.
    + rewrite getBlockInsts_mid by (apply (FocusOK_fresh _ _ _ _ _ _ _ _ HF); right; lia).
      cbn [find fst snd]. by eqb_decide.
    + rewrite getBlockInsts_mid by (apply (FocusOK_fresh _ _ _ _ _ _ _ _ HF); right; lia).
      cbn [find fst snd]. by eqb_decide.
    + intros Other HO HLt. subst F. unfold focusBlock.
      destruct (decide (Other ∈ map fst Bs1)) as [Hin|Hnot].
      * unfold getBlockInsts. cbn [Blocks]. clear -Hin.
        induction Bs1 as [|b Bs1 IH]; [by apply elem_of_nil in Hin|].
        cbn [app find map] in *. destruct (fst b =? Other) eqn:E; [done|].
        apply IH. apply elem_of_cons in Hin as [->|Hin]; [|done].
        by rewrite Nat.eqb_refl in E.
      * rewrite getBlockInsts_mid by done. cbn [find fst snd]. eqb_decide.
        change (Bs1 ++ ?a :: Bs2) with (Bs1 ++ [a] ++ Bs2).
        rewrite getBlockInsts_mid by done. cbn [find fst snd]. by eqb_decide.
Qed.

Lemma InsertCFGDiamond_splits_the_block_witness :
  exists TrueBB FalseBB ContBB F' B',
    InsertCFGDiamond exCond (exLoc 106) true
      (exFunction, mkSILBuilder 3 (Some 41) [])
    = Ok ((TrueBB, FalseBB, ContBB), (F', B')) /\
    getSuccsOf F' 3 = [TrueBB; default ContBB FalseBB] /\
    getSuccsOf F' TrueBB = [ContBB] /\
    getBlockInsts F' ContBB
    = [exRelease; mkSILInstruction 42 (ReturnInst exArg) (exLoc 107)].
Proof.
  destruct (InsertCFGDiamond_splits_the_block exCond (exLoc 106) true
              exBlocksAbove 3
              [mkSILInstruction 40 (AssignInst exArg exMemory) (exLoc 105)]
              exRelease
              [mkSILInstruction 42 (ReturnInst exArg) (exLoc 107)]
              [] (exLoc 99) 1000 [])
    as (TrueBB & FalseBB & ContBB & F' & B' & T & Hrun & H).
  - unfold FocusOK, absentFrom. repeat split; repeat constructor; cbn; lia.
  - cbn zeta in H.
    destruct H as (_ & _ & _ & _ & _ & _ & _ & _ & _ & HS & HT & _ & HC & _).
    exists TrueBB, FalseBB, ContBB, F', B'. split; [exact Hrun|].
    split; [exact HS|]. split; [exact HT|exact HC].
Defined.

(** ** Reachability from the entry *)

Lemma reachStep_fold succs : forall W (R : gset SILBasicBlock),
  exists new,
    fold_left reachStep succs (W, R) = (W ++ new, list_to_set new ∪ R) /\
    NoDup new /\
    (forall s, s ∈ new -> s ∉ R /\ s ∈ succs) /\
    (forall s, s ∈ succs -> s ∈ (list_to_set new ∪ R : gset _)).
Proof.
  induction succs as [|s succs IH]; intros W R; cbn [fold_left].
  - exists []. rewrite app_nil_r. split_and!.
    + f_equal. set_solver.
    + constructor.
    + intros s Hs. by apply elem_of_nil in Hs.
    + intros s Hs. by apply elem_of_nil in Hs.
  - unfold reachStep at 2. cbn [fst snd]. destruct (decide (s ∈ R)) as [Hin|Hnot].
    + destruct (IH W R) as (new & Hf & HND & Hnew & Hall).
      exists new. split_and!; try done.
      * intros x Hx. destruct (Hnew x Hx). split; [done|by right].
      * intros x [->|Hx]%elem_of_cons; [set_solver|by apply Hall].
    + destruct (IH (W ++ [s]) ({[s]} ∪ R)) as (new & Hf & HND & Hnew & Hall).
      exists (s :: new). split_and!.
      * rewrite Hf. rewrite <- app_assoc. cbn [app list_to_set]. f_equal. set_solver.
      * constructor; [|done]. intros Hs. destruct (Hnew s Hs). set_solver.
      * intros x [->|Hx]%elem_of_cons.
        -- split; [done|by left].
        -- destruct (Hnew x Hx). split; [set_solver|by right].
      * intros x Hx. cbn [list_to_set].
        apply elem_of_cons in Hx as [->|Hx]; [set_solver|].
        specialize (Hall x Hx). set_solver.
Qed.

Lemma size_difference_new (U R : gset SILBasicBlock) new :
  NoDup new -> (forall s, s ∈ new -> s ∉ R /\ s ∈ U) ->
  size (U ∖ (list_to_set new ∪ R)) + length new = size (U ∖ R).
Proof.
  revert R. induction new as [|s new IH]; intros R HND Hnew; cbn [list_to_set length].
  - rewrite Nat.add_0_r. f_equal. set_solver.
  - apply NoDup_cons in HND as [Hs HND].
    destruct (Hnew s) as [HsR HsU]; [by left|].
    replace (U ∖ ({[s]} ∪ list_to_set new ∪ R))
      with (U ∖ (list_to_set new ∪ ({[s]} ∪ R))) by (f_equal; set_solver).
    specialize (IH ({[s]} ∪ R) HND).
    assert (size (U ∖ ({[s]} ∪ R)) + 1 = size (U ∖ R)) as H1.
    { assert (U ∖ R = {[s]} ∪ U ∖ ({[s]} ∪ R)) as ->.
      { apply set_eq. intros x. destruct (decide (x = s)); set_solver. }
      pose proof (size_union ({[s]} : gset nat) (U ∖ ({[s]} ∪ R))) as HU.
      rewrite HU by set_solver. rewrite size_singleton. lia. }
    rewrite <- H1, <- IH; [lia|].
    intros x Hx. destruct (Hnew x) as [? ?]; [by right|].
    split; [|done]. intros [->%elem_of_singleton|?]%elem_of_union; done.
Qed.

Section Reachability.

Variable F : SILFunction.
Variable Entry : SILBasicBlock.
Variable U : gset SILBasicBlock.
Hypothesis succs_closed : forall b s, b ∈ U -> s ∈ getSuccsOf F b -> s ∈ U.

Lemma reachableLoop_ok fuel : forall W R,
  reachInv F Entry U W R -> length W + size (U ∖ R) < fuel ->
  exists R',
    reachableLoop fuel F W R = Ok R' /\
    forall BB, BB ∈ R' <-> rtc (succRel F) Entry BB.
Proof.
  induction fuel as [|fuel IH]; intros W R HI Hm; [lia|].
  destruct HI as (HND & HWR & HE & HRU & Hsound & Hclosed).
  cbn [reachableLoop].
  destruct (rev W) as [|BB Rest] eqn:HW.
  - apply (f_equal (@rev _)) in HW. rewrite rev_involutive in HW. cbn in HW. subst W.
    exists R. split; [done|]. intros BB. split; [apply Hsound|].
    revert BB. apply rtc_ind_r; [done|]. intros y z _ Hyz IHy.
    apply (Hclosed y z); [done|apply not_elem_of_nil|done].
  - apply (f_equal (@rev _)) in HW. rewrite rev_involutive in HW. cbn [rev] in HW.
    subst W. fold reachStep.
    destruct (reachStep_fold (getSuccsOf F BB) (rev Rest) R)
      as (new & Hf & HNDn & Hnew & Hall).
    rewrite Hf. cbn [fst snd].
    apply NoDup_app in HND as (HNDr & Hdisj & _).
    assert (BB ∈ R) as HBR by (apply HWR; set_solver).
    assert (BB ∉ rev Rest) as HBnot.
    { intros Hin. apply (Hdisj BB Hin). by left. }
    assert (forall s, s ∈ new -> s ∉ R /\ s ∈ U) as HnewU.
    { intros s Hs. destruct (Hnew s Hs) as [? Hsucc]. split; [done|].
      eapply succs_closed; [|exact Hsucc]. by apply HRU. }
    apply IH.
    + split_and!.
      * apply NoDup_app. split_and!; [done| |done].
        intros x Hx Hxn. destruct (Hnew x Hxn) as [HxR _]. apply HxR, HWR.
        set_solver.
      * intros w [Hw|Hw]%elem_of_app.
        -- apply elem_of_union_r, HWR. set_solver.
        -- apply elem_of_union_l. by apply elem_of_list_to_set.
      * by apply elem_of_union_r.
      * intros x [Hx%elem_of_list_to_set|Hx]%elem_of_union;
          [by apply HnewU|by apply HRU].
      * intros r [Hr%elem_of_list_to_set|Hr]%elem_of_union; [|by apply Hsound].
        destruct (Hnew r Hr) as [_ Hsucc].
        eapply rtc_r; [by apply Hsound|exact Hsucc].
      * intros r s Hr HrW Hs.
        apply not_elem_of_app in HrW as [HrRest Hrnew].
        destruct (decide (r = BB)) as [->|Hne]; [by apply Hall|].
        apply elem_of_union in Hr as [Hr%elem_of_list_to_set|Hr]; [done|].
        apply elem_of_union_r. apply (Hclosed r s); [done| |done].
        intros [?|Hs1]%elem_of_app; [done|].
        apply list_elem_of_singleton in Hs1. done.
    + rewrite length_app in *. cbn [length] in Hm.
      pose proof (size_difference_new U R new HNDn HnewU). lia.
Qed.

End Reachability.

Lemma size_list_to_set_le (l : list nat) :
  size (list_to_set l : gset nat) <= length l.
Proof.
  induction l as [|x l IH]; cbn [list_to_set length].
  - rewrite size_empty. lia.
  - rewrite size_union_alt, size_singleton.
    assert (list_to_set l ∖ {[x]} ⊆ (list_to_set l : gset nat)) as Hsub
      by set_solver.
    apply subseteq_size in Hsub. lia.
Qed.

(** X6.  [isBlockIsReachableFromEntry], asked with an empty cache on a
    function whose branches stay inside it, returns and answers whether
    the block can be reached from the first block along successor edges;
    the reached set is stored, and every later query is answered from it
    without changing the state again. *)
Theorem isBlockIsReachableFromEntry_is_reachability
    (C : LifetimeChecker) (Entry BB : SILBasicBlock) :
  let F := Fn C in
  let ids := map fst (Blocks F) in
  BlocksReachableFromEntry C = ∅ ->
  fst <$> head (Blocks F) = Some Entry ->
  Forall (fun b => Forall (fun s => s ∈ ids) (getSuccsOf F b)) ids ->
  exists R,
    (forall b, b ∈ R <-> rtc (succRel F) Entry b) /\
    let C' := set_BlocksReachableFromEntry R C in
    isBlockIsReachableFromEntry BB C = Ok (bool_decide (BB ∈ R), C') /\
    forall BB2,
      isBlockIsReachableFromEntry BB2 C' = Ok (bool_decide (BB2 ∈ R), C').
Proof.
  intros F ids HE HEntry Hclosed.
  set (U := list_to_set ids : gset nat).
  assert (Entry ∈ U) as HEU.
  { apply elem_of_list_to_set. subst ids. destruct (Blocks F) as [|[b i] bs]; [done|].
    injection HEntry as <-. by left. }
  destruct (reachableLoop_ok F Entry U) with
    (fuel := 2 + 2 * length (Blocks F)) (W := [Entry]) (R := ({[Entry]} : gset nat))
    as (R & Hrun & HR).
  - intros b s Hb Hs. apply elem_of_list_to_set in Hb. apply elem_of_list_to_set.
    rewrite Forall_forall in Hclosed. specialize (Hclosed b Hb).
    rewrite Forall_forall in Hclosed. by apply Hclosed.
  - split_and!.
    + apply NoDup_singleton.
    + intros w ->%list_elem_of_singleton. set_solver.
    + set_solver.
    + set_solver.
    + intros r ->%elem_of_singleton. done.
    + intros r s ->%elem_of_singleton Hr. exfalso. apply Hr. by left.
  - cbn [length].
    pose proof (size_list_to_set_le ids) as Hle.
    assert (U ∖ {[Entry]} ⊆ U) as Hsub by set_solver.
    apply subseteq_size in Hsub.
    subst ids. rewrite length_map in Hle. fold U in Hle. lia.
  - exists R. split; [exact HR|]. cbn zeta.
    assert (R <> ∅) as HRne.
    { intros ->. specialize (HR Entry). set_solver. }
    split.
    + unfold isBlockIsReachableFromEntry, bind, gets, id, deref, liftOutcome,
        modify, ret. cbn beta.
      rewrite decide_True by exact HE. fold F. rewrite HEntry. cbn beta iota.
      rewrite Hrun. reflexivity.
    + intros BB2. unfold isBlockIsReachableFromEntry, bind, gets, id, ret.
      cbn beta. rewrite decide_False; [reflexivity|].
      destruct C; exact HRne.
Qed.

Lemma isBlockIsReachableFromEntry_is_reachability_witness :
  exists C',
    isBlockIsReachableFromEntry 3 exDeadChecker = Ok (false, C') /\
    isBlockIsReachableFromEntry 2 C' = Ok (true, C').
Proof.
  destruct (isBlockIsReachableFromEntry_is_reachability exDeadChecker 0 3)
    as (R & HR & H3 & Hlater).
  - reflexivity.
  - reflexivity.
  - apply (bool_decide_unpack _). vm_compute. exact I.
  - cbn zeta in H3.
    assert (isBlockIsReachableFromEntry 3 exDeadChecker
            = Ok (false, set_BlocksReachableFromEntry {[0; 1; 2]} exDeadChecker))
      as Hc by (vm_compute; reflexivity).
    rewrite Hc in H3. injection H3 as Hb HC. subst R.
    exists (set_BlocksReachableFromEntry {[0; 1; 2]} exDeadChecker).
    split; [exact Hc|]. rewrite (Hlater 2). reflexivity.
Defined.

(** ** Liveness decided inside the block *)

Lemma fold_setbit_spec b l : forall d,
  length (fold_left (fun d i => AvSet.setbit d i b) l d) = length d /\
  forall i,
    AvSet.bit (fold_left (fun d i => AvSet.setbit d i b) l d) i
    = if decide (i ∈ l /\ i < length d) then b else AvSet.bit d i.
Proof.
  induction l as [|x l IH]; intros d; cbn [fold_left].
  - split; [done|]. intros i. rewrite decide_False; [done|].
    intros [H _]. by apply elem_of_nil in H.
  - destruct (IH (AvSet.setbit d x b)) as [IH1 IH2].
    rewrite AvSetFacts.length_setbit in IH1. split; [done|].
    intros i. rewrite IH2, AvSetFacts.length_setbit.
    destruct (decide (i ∈ l /\ i < length d)) as [[Hin Hlt]|Hn].
    + rewrite decide_True; [done|]. split; [by right|done].
    + destruct (decide (i = x)) as [->|Hne].
      * destruct (decide (x < length d)) as [Hlt|Hge].
        -- rewrite AvSetFacts.bit_setbit_eq by done.
           rewrite decide_True; [done|]. split; [by left|done].
        -- rewrite decide_False by (intros [_ ?]; done).
           unfold AvSet.setbit. rewrite list_insert_ge by lia. done.
      * rewrite AvSetFacts.bit_setbit_ne by done.
        rewrite decide_False; [done|].
        intros [[?|?]%elem_of_cons ?]; [done|]. apply Hn. done.
Qed.

Lemma setRange_spec d lo hi b :
  length (setRange d lo hi b) = length d /\
  forall i,
    AvSet.bit (setRange d lo hi b) i
    = if decide (lo <= i < hi /\ i < length d) then b else AvSet.bit d i.
Proof.
  unfold setRange. destruct (fold_setbit_spec b (seq lo (hi - lo)) d) as [H1 H2].
  split; [done|]. intros i. rewrite H2.
  destruct (decide (lo <= i < hi /\ i < length d)) as [[Hi Hl]|Hn].
  - rewrite decide_True; [done|]. split; [|done]. apply elem_of_seq. lia.
  - rewrite decide_False; [done|]. intros [Hi%elem_of_seq Hl]. apply Hn. lia.
Qed.

Lemma noneSet_true d : (forall i, AvSet.bit d i = false) -> noneSet d = true.
Proof.
  intros H. unfold noneSet. apply forallb_forall. intros x Hx.
  apply list_elem_of_In, list_elem_of_lookup in Hx as [i Hi].
  specialize (H i). unfold AvSet.bit in H. rewrite Hi in H. by subst x.
Qed.

Lemma bit_replicate n b i :
  AvSet.bit (replicate n b) i = (if decide (i < n) then b else false).
Proof.
  unfold AvSet.bit. destruct (decide (i < n)).
  - by rewrite lookup_replicate_2.
  - assert (replicate n b !! i = None) as ->; [|done].
    apply lookup_replicate_None. lia.
Qed.

(** The backwards scans skip the instructions that are not tracked. *)
Lemma scanLocalN_skip NLU Us MemoryInst FirstElt NumElts mid Above Result Needed :
  Forall (fun Y => NLU !! InstPtr Y = None) mid ->
  scanLocalN NLU Us MemoryInst FirstElt NumElts (mid ++ Above) Result Needed
  = scanLocalN NLU Us MemoryInst FirstElt NumElts Above Result Needed.
Proof.
  induction 1 as [|Y mid HY _ IH]; [done|].
  cbn [app scanLocalN]. by rewrite HY.
Qed.

Lemma scanLocal1_skip (NLU : gmap SILInstructionPtr N) mid D Above Idx :
  Forall (fun Y => NLU !! InstPtr Y = None) mid ->
  NLU !! InstPtr D = Some Idx ->
  scanLocal1 NLU (mid ++ D :: Above) = Some (InstPtr D).
Proof.
  intros Hmid HD. unfold scanLocal1.
  induction Hmid as [|Y mid HY _ IH]; cbn [app find].
  - rewrite bool_decide_eq_true_2; [done|]. by rewrite HD.
  - rewrite bool_decide_eq_false_2; [exact IH|]. rewrite HY. by intros [? ?].
Qed.

Lemma Forall_rev_untracked {A} (P : A -> Prop) (l : list A) :
  Forall P l -> Forall P (rev l).
Proof.
  rewrite !Forall_forall. intros H x Hx. apply H.
  apply list_elem_of_In. apply in_rev. by apply list_elem_of_In.
Qed.

(** X7.  [getLivenessAtInst] is decided inside the block when a tracked
    instruction stands above the queried one: if the nearest instruction
    above [Inst] that is in [NonLoadUses] is the memory instruction, every
    element of the window is No; if it is a use that covers the window (any
    tracked use, when the memory has one element), every element of the
    window is Yes.  The predecessors are not consulted: the checker is
    returned as it was. *)
Theorem getLivenessAtInst_decided_above
    (C : LifetimeChecker) (Inst : SILInstructionPtr) (FirstElt NumElts : nat)
    (InstBB : SILBasicBlock) (s : LiveOutBlockState)
    (pre : list SILInstruction) (D : SILInstruction)
    (mid : list SILInstruction) (X : SILInstruction)
    (post : list SILInstruction) (Idx : N) :
  let Num := DIMemoryObjectInfo.NumElements (TheMemory C) in
  let MemoryInst := DIMemoryObjectInfo.MemoryInst (TheMemory C) in
  0 < NumElts -> FirstElt + NumElts <= Num ->
  getParent (Fn C) Inst = Some InstBB ->
  getBlockInsts (Fn C) InstBB = pre ++ D :: mid ++ X :: post ->
  InstPtr X = Inst -> absentFrom Inst (pre ++ D :: mid) ->
  PerBlockInfo C !! InstBB = Some s -> HasNonLoadUse s = true ->
  NonLoadUses C !! InstPtr D = Some Idx ->
  Forall (fun Y => NonLoadUses C !! InstPtr Y = None) mid ->
  (InstPtr D <> MemoryInst -> Num <> 1 ->
   exists U, Uses C !! N.to_nat Idx = Some U /\
     DIMemoryUse.FirstElement U <= FirstElt /\
     FirstElt + NumElts
     <= DIMemoryUse.FirstElement U + DIMemoryUse.NumElements U) ->
  exists R,
    getLivenessAtInst Inst FirstElt NumElts C = Ok (R, C) /\
    AvSet.size R = Num /\
    forall i, FirstElt <= i < FirstElt + NumElts ->
      AvSet.getConditional R i
      = Some (if decide (InstPtr D = MemoryInst) then No else Yes).
Proof.
  intros Num MemoryInst Hpos Hwin Hparent Hinsts HX Habs Hs HNL HD Hmid Hcover.
  unfold getLivenessAtInst.
  rewrite (bind_Ok _ _ C C C) by done. fold Num MemoryInst.
  destruct (NumElts =? 0) eqn:E0; [apply Nat.eqb_eq in E0; lia|].
  rewrite Hparent. rewrite (bind_Ok _ _ C InstBB C) by done.
  assert (liftPBI (getBlockInfo Num InstBB) C = Ok (s, C)) as Hg.
  { unfold liftPBI, getBlockInfo. rewrite Hs. by destruct C. }
  rewrite (bind_Ok _ _ _ _ _ Hg). rewrite HNL.
  assert (instsAbove (Fn C) InstBB Inst = rev mid ++ D :: rev pre) as ->.
  { unfold instsAbove. rewrite Hinsts.
    replace (pre ++ D :: mid ++ X :: post) with ((pre ++ D :: mid) ++ X :: post)
      by (by rewrite <- app_assoc).
    rewrite takeWhile_absent by done.
    rewrite rev_app_distr. cbn [rev]. by rewrite <- app_assoc. }
  pose proof (Forall_rev_untracked _ _ Hmid) as Hmid'.
  destruct (Num =? 1) eqn:EN.
  - apply Nat.eqb_eq in EN.
    rewrite (scanLocal1_skip _ _ _ _ Idx) by done.
    eexists. split; [reflexivity|]. split.
    + by rewrite AvSetFacts.size_set, AvSetFacts.size_new.
    + intros i Hi. assert (i = 0) as -> by lia.
      rewrite AvSetFacts.getConditional_set_eq by (rewrite AvSetFacts.size_new; lia).
      done.
  - apply Nat.eqb_neq in EN.
    rewrite scanLocalN_skip by done. cbn [scanLocalN]. rewrite HD.
    destruct (decide (InstPtr D = MemoryInst)) as [Hm|Hm].
    + cbn [liftOutcome]. rewrite (bind_Ok _ _ C _ C) by done.
      eexists. split; [reflexivity|].
      destruct (setRange_spec (replicate Num false) FirstElt
                  (FirstElt + NumElts) true) as [_ Hbits].
      destruct (AvSetLoops.fold_elementwise
                  (fun i _ =>
                     Some (if AvSet.bit
                                (setRange (replicate Num false) FirstElt
                                   (FirstElt + NumElts) true) i
                           then No else Yes))
                  (fun R i =>
                     AvSet.set R i
                       (if AvSet.bit
                             (setRange (replicate Num false) FirstElt
                                (FirstElt + NumElts) true) i
                        then No else Yes))) with
        (l := seq FirstElt NumElts) (R := AvSet.new Num) as [H1 H2].
      * intros. apply AvSetFacts.size_set.
      * intros. by apply AvSetFacts.getConditional_set_eq.
      * intros. by apply AvSetFacts.getConditional_set_ne.
      * apply NoDup_seq.
      * apply Forall_forall. intros i Hi%elem_of_seq.
        rewrite AvSetFacts.size_new. lia.
      * split; [by rewrite H1, AvSetFacts.size_new|].
        intros i Hi. rewrite H2. rewrite decide_True by (apply elem_of_seq; lia).
        rewrite Hbits, length_replicate. rewrite decide_True by lia. done.
    + destruct (Hcover Hm EN) as (U & HU & Hlo & Hhi). rewrite HU.
      rewrite noneSet_true.
      2:{ intros i.
          match goal with |- AvSet.bit (setRange ?d ?lo ?hi ?b) _ = _ =>
            destruct (setRange_spec d lo hi b) as [_ Hb] end.
          rewrite Hb. clear Hb.
          destruct (setRange_spec (replicate Num false) FirstElt
                      (FirstElt + NumElts) true) as [Hl Hb].
          rewrite Hl, length_replicate, Hb, length_replicate, bit_replicate.
          repeat destruct (decide _); try done; lia. }
      cbn [liftOutcome]. rewrite (bind_Ok _ _ C _ C) by done.
      eexists. split; [reflexivity|].
      destruct (AvSetLoops.changeUnsetElementsTo_elements (AvSet.new Num) Yes)
        as [H1 H2].
      rewrite AvSetFacts.size_new in *. split; [done|].
      intros i Hi. rewrite H2 by lia.
      rewrite AvSetFacts.getConditional_new by lia. done.
Qed.

Lemma getLivenessAtInst_decided_above_witness :
  exists R,
    getLivenessAtInst 41 0 1 exChecker = Ok (R, exChecker) /\
    AvSet.getConditional R 0 = Some Yes.
Proof.
  destruct (getLivenessAtInst_decided_above exChecker 41 0 1 3
              (setLOState
                 (setAvailability (setHasNonLoadUse (LiveOutBlockState_new 1) true)
                    (AvSet.set (AvSet.new 1) 0 Yes)) IsKnown)
              [] (mkSILInstruction 40 (AssignInst exArg exMemory) (exLoc 105))
              [] exRelease
              [mkSILInstruction 42 (ReturnInst exArg) (exLoc 107)] 1%N)
    as (R & Hrun & _ & HE).
  - lia.
  - vm_compute. lia.
  - reflexivity.
  - reflexivity.
  - reflexivity.
  - unfold absentFrom. repeat constructor. cbn. lia.
  - vm_compute. reflexivity.
  - reflexivity.
  - vm_compute. reflexivity.
  - constructor.
  - intros _ Hne. exfalso. apply Hne. reflexivity.
  - exists R. split; [exact Hrun|]. apply (HE 0). lia.
Defined.

(** ** Asking whether to emit an error *)

Lemma isBlockIsReachableFromEntry_answer BB C b C' :
  isBlockIsReachableFromEntry BB C = Ok (b, C') ->
  b = bool_decide (BB ∈ BlocksReachableFromEntry C') /\
  C' = set_BlocksReachableFromEntry (BlocksReachableFromEntry C') C.
Proof.
  intros H. split; [|by eapply isBlockIsReachableFromEntry_frame].
  unfold isBlockIsReachableFromEntry in H.
  apply bind_Ok_inv in H as (C0 & C0' & [= <- <-] & H). cbn beta in H.
  destruct (decide _); monad_inv; reflexivity.
Qed.

Lemma isBlockIsReachableFromEntry_cached BB C :
  BlocksReachableFromEntry C <> ∅ ->
  isBlockIsReachableFromEntry BB C
  = Ok (bool_decide (BB ∈ BlocksReachableFromEntry C), C).
Proof.
  intros H. unfold isBlockIsReachableFromEntry, bind, gets, id, ret.
  cbn beta. by rewrite decide_False.
Qed.

Lemma existsb_loc_true (L : nat) (E : list nat) :
  existsb (fun L' => L' =? L) E = true <-> L ∈ E.
Proof.
  rewrite existsb_exists. split.
  - intros (x & Hx & ->%Nat.eqb_eq). by apply list_elem_of_In.
  - intros H. exists L. split; [by apply list_elem_of_In|apply Nat.eqb_refl].
Qed.

(** X8.  [shouldEmitError] answers true at most once for a source location.
    An answer of true means the location of the instruction was not yet in
    [EmittedErrorLocs] and is appended to it; an answer of false leaves the
    list as it is; a location already in the list is answered false; the
    list stays free of duplicates; the function and the diagnostics are
    never touched.  After an answer of true, asking again for any
    instruction at that location answers false and changes nothing. *)
Theorem shouldEmitError_answers_once
    (C C1 : LifetimeChecker) (Inst : SILInstructionPtr) (b : bool) :
  shouldEmitError Inst C = Ok (b, C1) ->
  exists X,
    getInst (Fn C) Inst = Some X /\
    let L := getSourceLoc (InstLoc X) in
    EmittedErrorLocs C1 = EmittedErrorLocs C ++ (if b then [L] else []) /\
    (L ∈ EmittedErrorLocs C -> b = false) /\
    (NoDup (EmittedErrorLocs C) -> NoDup (EmittedErrorLocs C1)) /\
    Fn C1 = Fn C /\ Diags C1 = Diags C /\
    (b = true ->
     forall Inst2 X2 BB2,
       getInst (Fn C) Inst2 = Some X2 ->
       getParent (Fn C) Inst2 = Some BB2 ->
       getSourceLoc (InstLoc X2) = L ->
       shouldEmitError Inst2 C1 = Ok (false, C1)).
Proof.
  unfold shouldEmitError. intros H.
  apply bind_Ok_inv in H as (F & C0 & [= <- <-] & H). cbn beta in H.
  apply bind_Ok_inv in H as (X & C0 & HI & H).
  unfold deref in HI. destruct (getInst (Fn C) Inst) as [I0|] eqn:EI; [|done].
  injection HI as <- <-.
  apply bind_Ok_inv in H as (BB & C0 & HBB & H).
  unfold deref in HBB. destruct (getParent (Fn C) Inst) as [BB0|]; [|done].
  injection HBB as <- <-.
  apply bind_Ok_inv in H as (Re & C2 & HR & H).
  apply isBlockIsReachableFromEntry_answer in HR as [HRe HC2].
  exists I0. split; [done|]. cbn zeta.
  set (L := getSourceLoc (InstLoc I0)) in *.
  assert (EmittedErrorLocs C2 = EmittedErrorLocs C /\ Fn C2 = Fn C /\
          Diags C2 = Diags C) as (HE2 & HF2 & HD2) by (by rewrite HC2).
  destruct Re; cbn [negb] in H.
  2:{ injection H as <- <-. rewrite app_nil_r. split_and!; try done.
      by rewrite HE2. }
  apply bind_Ok_inv in H as (C3 & C3' & [= <- <-] & H). cbn beta in H.
  destruct (existsb _ _) eqn:Ex.
  { injection H as <- <-. rewrite app_nil_r. split_and!; try done.
    by rewrite HE2. }
  assert (L ∉ EmittedErrorLocs C) as HnotE.
  { intros Hin. rewrite HE2 in Ex. apply existsb_loc_true in Hin.
    fold L in Ex. by rewrite Hin in Ex. }
  monad_inv. cbn [EmittedErrorLocs Fn Diags set_EmittedErrorLocs].
  rewrite HE2. split_and!; try done.
  - intros HND. apply NoDup_app. split_and!; [done| |apply NoDup_singleton].
    intros x Hx ->%list_elem_of_singleton. done.
  - intros _ Inst2 X2 BB2 HI2 HP2 HL2.
    unfold shouldEmitError.
    rewrite (bind_Ok _ _ _ (Fn C) (set_EmittedErrorLocs (EmittedErrorLocs C ++ [L]) C2))
      by (unfold gets; cbn; by rewrite HF2).
    rewrite HI2. rewrite (bind_Ok _ _ _ X2 _) by done.
    rewrite HP2. rewrite (bind_Ok _ _ _ BB2 _) by done.
    assert (BlocksReachableFromEntry
              (set_EmittedErrorLocs (EmittedErrorLocs C ++ [L]) C2) <> ∅) as Hne.
    { cbn. intros Hempty. rewrite Hempty in HRe.
      by rewrite bool_decide_eq_false_2 in HRe by set_solver. }
    rewrite (bind_Ok _ _ _ _ _ (isBlockIsReachableFromEntry_cached BB2 _ Hne)).
    destruct (bool_decide (BB2 ∈ _)); cbn [negb]; [|done].
    rewrite (bind_Ok _ _ _ _ _ eq_refl). cbn [id EmittedErrorLocs set_EmittedErrorLocs].
    rewrite HL2. fold L.
    rewrite (proj2 (existsb_loc_true L (EmittedErrorLocs C ++ [L]))); [done|].
    apply elem_of_app. right. by left.
Qed.

Lemma shouldEmitError_answers_once_witness :
  exists C1,
    shouldEmitError 20 exLoadChecker = Ok (true, C1) /\
    EmittedErrorLocs C1 = [102] /\
    shouldEmitError 20 C1 = Ok (false, C1).
Proof.
  eexists. split; [vm_compute; reflexivity|].
  match goal with |- _ /\ shouldEmitError _ ?C1 = _ =>
    destruct (shouldEmitError_answers_once exLoadChecker C1 20 true)
      as (X & HX & HE & _ & _ & _ & _ & Hagain) end.
  - vm_compute. reflexivity.
  - split; [vm_compute; reflexivity|].
    injection HX as <-. cbn zeta in Hagain.
    eapply (Hagain eq_refl 20); [reflexivity|reflexivity|reflexivity].
Defined.

(** ** Diagnostics are only appended *)

Section DiagnosticsKept.

Variable D0 : list Diagnostic.
Variable E0 : list nat.

Local Notation K := (keepsDiagnostics D0 E0).

Lemma keepsDiagnostics_frame C C' :
  Diags C' = Diags C -> EmittedErrorLocs C' = EmittedErrorLocs C -> K C -> K C'.
Proof. intros HD HE [H1 H2]. split; by rewrite ?HD, ?HE. Qed.

Lemma keepsDiagnostics_live Inst FirstElt NumElts :
  hoare K (getLivenessAtInst Inst FirstElt NumElts) (fun _ => K).
Proof.
  intros C R C' H HA. apply getLivenessAtInst_frame in H.
  apply (keepsDiagnostics_frame C); [by rewrite H..|done].
Qed.

Lemma keepsDiagnostics_diagnose loc ID Args :
  hoare K (diagnose loc ID Args) (fun _ => K).
Proof.
  intros C [] C' [= <-] [H1 H2]. split; cbn; [|done].
  by apply prefix_app_r.
Qed.

Lemma keepsDiagnostics_shouldEmitError Inst :
  hoare K (shouldEmitError Inst) (fun _ => K).
Proof.
  intros C b C' H [H1 H2].
  apply shouldEmitError_spec in H as (X & R & _ & H). cbn zeta in H.
  destruct b.
  - destruct H as [_ ->]. split; cbn; [done|by apply prefix_app_r].
  - subst C'. split; done.
Qed.

Lemma keepsDiagnostics_getLocOf Inst :
  hoare K (getLocOf Inst) (fun _ => K).
Proof. intros C L C' H HK. unfold getLocOf in H. by monad_inv. Qed.

Lemma keepsDiagnostics_emitAt Inst ID Args rest :
  hoare K rest (fun _ => K) ->
  hoare K (emitAt Inst ID Args rest) (fun _ => K).
Proof.
  intros Hrest. unfold emitAt.
  eapply (hoare_bind K (fun _ => K)); [apply keepsDiagnostics_shouldEmitError|].
  intros b. destruct (negb b); [by apply hoare_ret|].
  eapply (hoare_bind K (fun _ => K)); [apply keepsDiagnostics_getLocOf|]. intros L.
  eapply (hoare_bind K (fun _ => K)); [apply keepsDiagnostics_diagnose|]. intros []. exact Hrest.
Qed.

Lemma keepsDiagnostics_diagnoseInitError U ID :
  hoare K (diagnoseInitError U ID) (fun _ => K).
Proof.
  unfold diagnoseInitError.
  eapply (hoare_bind K (fun _ => K)); [by apply hoare_deref|]. intros Inst.
  eapply (hoare_bind K (fun _ => K)); [apply keepsDiagnostics_shouldEmitError|].
  intros b. destruct (negb b); [by apply hoare_ret|].
  eapply (hoare_bind K (fun _ => K)).
  { intros C Name C' H HK. apply getUninitElementName_frame in H.
    apply (keepsDiagnostics_frame C); [by rewrite H..|done]. }
  intros Name. eapply (hoare_bind K (fun _ => K)); [by apply hoare_gets|]. intros C.
  eapply (hoare_bind K (fun _ => K)); [apply keepsDiagnostics_getLocOf|]. intros L.
  eapply (hoare_bind K (fun _ => K)); [apply keepsDiagnostics_diagnose|]. intros [].
  destruct (negb _); [apply keepsDiagnostics_diagnose|by apply hoare_ret].
Qed.

End DiagnosticsKept.

(** X9.  [doIt] only appends: the diagnostics and the remembered error
    locations the checker held before the run are still there afterwards,
    in the same order, in front of those the run added. *)
Theorem doIt_only_appends_diagnostics
    (del : SILInstructionPtr -> SILFunction -> SILFunction)
    (C C' : LifetimeChecker) :
  doIt del C = Ok (tt, C') ->
  Diags C `prefix_of` Diags C' /\
  EmittedErrorLocs C `prefix_of` EmittedErrorLocs C'.
Proof.
  intros Hrun.
  apply (doIt_inv (keepsDiagnostics (Diags C) (EmittedErrorLocs C)))
    with (del := del) (s := C) (a := tt); [| | | | |exact Hrun|by split].
  - intros C1 C2 _. apply keepsDiagnostics_frame.
  - apply keepsDiagnostics_live.
  - intros loc ID Args _. apply keepsDiagnostics_diagnose.
  - intros Inst ID Args rest _. apply keepsDiagnostics_emitAt.
  - intros U ID _. apply keepsDiagnostics_diagnoseInitError.
Qed.

Lemma doIt_only_appends_diagnostics_witness :
  exists C1 C2,
    doIt (fun _ F => F) exLoadChecker = Ok (tt, C1) /\
    doIt (fun _ F => F) C1 = Ok (tt, C2) /\
    Diags C1 <> [] /\
    Diags C1 `prefix_of` Diags C2 /\
    EmittedErrorLocs C1 `prefix_of` EmittedErrorLocs C2.
Proof.
  destruct (doIt (fun _ F => F) exLoadChecker) as [[[] C1]| |] eqn:Hrun1;
    [|by vm_compute in Hrun1..].
  destruct (doIt (fun _ F => F) C1) as [[[] C2]| |] eqn:Hrun2.
  - exists C1, C2. split; [reflexivity|]. split; [exact Hrun2|]. split.
    + vm_compute in Hrun1. injection Hrun1 as <-. discriminate.
    + exact (doIt_only_appends_diagnostics _ _ _ Hrun2).
  - vm_compute in Hrun1. injection Hrun1 as <-. by vm_compute in Hrun2.
  - vm_compute in Hrun1. injection Hrun1 as <-. by vm_compute in Hrun2.
Defined.

(** ** Handlers that only diagnose *)

Section ProgramKept.

Variable C0 : LifetimeChecker.

Local Abbreviation K := (sameProgram C0).

Lemma sameProgram_frame C C' :
  Fn C' = Fn C -> Uses C' = Uses C -> Releases C' = Releases C ->
  TheMemory C' = TheMemory C -> NonLoadUses C' = NonLoadUses C ->
  ConditionalDestroys C' = ConditionalDestroys C ->
  HasConditionalInitAssignOrDestroys C' = HasConditionalInitAssignOrDestroys C ->
  K C -> K C'.
Proof.
  intros H1 H2 H3 H4 H5 H6 H7 (G1 & G2 & G3 & G4 & G5 & G6 & G7).
  unfold sameProgram. by rewrite H1, H2, H3, H4, H5, H6, H7.
Qed.

Ltac kept := repeat (keep_step sameProgram_frame).

Lemma sameProgram_live Inst FirstElt NumElts :
  hoare K (getLivenessAtInst Inst FirstElt NumElts) (fun _ => K).
Proof.
  intros C R C' H HK. apply getLivenessAtInst_frame in H.
  apply (sameProgram_frame C); [by rewrite H..|done].
Qed.

Lemma sameProgram_shouldEmitError Inst :
  hoare K (shouldEmitError Inst) (fun _ => K).
Proof.
  intros C b C' H HK.
  apply shouldEmitError_spec in H as (X & R & _ & H). cbn zeta in H.
  destruct b; [destruct H as [_ ->]|subst C'];
    by apply (sameProgram_frame C).
Qed.

Lemma sameProgram_diagnose loc ID Args :
  hoare K (diagnose loc ID Args) (fun _ => K).
Proof. unfold diagnose. kept. Qed.

Lemma sameProgram_emitAt Inst ID Args rest :
  hoare K rest (fun _ => K) ->
  hoare K (emitAt Inst ID Args rest) (fun _ => K).
Proof.
  intros Hrest. unfold emitAt.
  pose proof sameProgram_shouldEmitError. pose proof sameProgram_diagnose.
  kept.
Qed.

Lemma sameProgram_getUninitElementName U :
  hoare K (getUninitElementName U) (fun _ => K).
Proof. unfold getUninitElementName. pose proof sameProgram_live. kept. Qed.

Lemma sameProgram_diagnoseInitError U ID :
  hoare K (diagnoseInitError U ID) (fun _ => K).
Proof.
  unfold diagnoseInitError.
  pose proof sameProgram_shouldEmitError. pose proof sameProgram_diagnose.
  pose proof sameProgram_getUninitElementName.
  kept.
Qed.

Lemma sameProgram_isInitializedAtUse U W :
  hoare K (isInitializedAtUse U W) (fun _ => K).
Proof.
  unfold isInitializedAtUse. pose proof sameProgram_live. kept.
  all: match goal with |- hoare _ (_ ?l) _ => generalize l end.
  all: intros l; induction l; kept.
Qed.

Lemma sameProgram_noteUninitializedMembers U :
  hoare K (noteUninitializedMembers U) (fun _ => K).
Proof.
  unfold noteUninitializedMembers.
  pose proof sameProgram_diagnose. pose proof sameProgram_live. kept.
Qed.

Lemma sameProgram_handleLoadUseFailure U b :
  hoare K (handleLoadUseFailure U b) (fun _ => K).
Proof.
  unfold handleLoadUseFailure.
  pose proof sameProgram_emitAt. pose proof sameProgram_diagnoseInitError.
  pose proof sameProgram_noteUninitializedMembers.
  kept.
Qed.

Lemma sameProgram_handleInOutUse U : hoare K (handleInOutUse U) (fun _ => K).
Proof.
  unfold handleInOutUse.
  pose proof sameProgram_isInitializedAtUse.
  pose proof sameProgram_diagnoseInitError. pose proof sameProgram_diagnose.
  kept.
Qed.

Lemma sameProgram_handleSuperInitUse U :
  hoare K (handleSuperInitUse U) (fun _ => K).
Proof.
  unfold handleSuperInitUse.
  pose proof sameProgram_live. pose proof sameProgram_emitAt.
  pose proof sameProgram_diagnoseInitError.
  kept.
  all: match goal with |- hoare _ (_ ?l) _ => generalize l end.
  all: intros l; induction l; kept.
Qed.

End ProgramKept.

(** X10.  The handlers of failed uses only diagnose: a run of
    [handleLoadUseFailure], [handleInOutUse], [handleSuperInitUse] or
    [diagnoseInitError] that returns leaves the function, the uses, the
    releases, the memory object, [NonLoadUses], the conditional destroys
    and the rewrite flag as they were; [isInitializedAtUse] changes the
    per-block cache at most. *)
Theorem failed_use_handlers_only_diagnose :
  (forall U b C r C',
     handleLoadUseFailure U b C = Ok (r, C') -> sameProgram C C') /\
  (forall U C r C', handleInOutUse U C = Ok (r, C') -> sameProgram C C') /\
  (forall U C r C', handleSuperInitUse U C = Ok (r, C') -> sameProgram C C') /\
  (forall U ID C r C',
     diagnoseInitError U ID C = Ok (r, C') -> sameProgram C C') /\
  (forall U W C r C',
     isInitializedAtUse U W C = Ok (r, C') ->
     C' = set_PerBlockInfo (PerBlockInfo C') C).
Proof.
  assert (forall C, sameProgram C C) as Hrefl by (intros C; by repeat split).
  split_and!.
  - intros U b C r C' H.
    exact (sameProgram_handleLoadUseFailure C U b C r C' H (Hrefl C)).
  - intros U C r C' H.
    exact (sameProgram_handleInOutUse C U C r C' H (Hrefl C)).
  - intros U C r C' H.
    exact (sameProgram_handleSuperInitUse C U C r C' H (Hrefl C)).
  - intros U ID C r C' H.
    exact (sameProgram_diagnoseInitError C U ID C r C' H (Hrefl C)).
  - intros U W C r C' H. unfold isInitializedAtUse in H.
    apply bind_Ok_inv in H as (Cx & Cy & [= <- <-] & H). cbn beta in H.
    apply bind_Ok_inv in H as (I & Cy & HI & H).
    unfold deref in HI. destruct (DIMemoryUse.Inst U); [|done].
    injection HI as <- <-.
    apply bind_Ok_inv in H as (L & C1 & HL & H).
    apply getLivenessAtInst_frame in HL. unfold framePBI in HL.
    apply bind_Ok_inv in H as (S & C2 & HS & H).
    assert (C2 = C1) as ->.
    { destruct (_ && _); monad_inv; reflexivity. }
    assert (C' = C1) as ->; [|exact HL].
    revert H. generalize (seq (DIMemoryUse.FirstElement U) (DIMemoryUse.NumElements U)).
    intros l. induction l as [|i l IH]; intros H; monad_inv; [done|].
    destruct (negb _); monad_inv; [done|]. by apply IH.
Qed.

(** ** Lowering the raw instructions *)

(** *** Shapes *)

Lemma isRawInst_mapOperands f P K Loc :
  isRawInst (mkSILInstruction P (mapOperands f K) Loc)
  = isRawInst (mkSILInstruction P K Loc).
Proof. by destruct K. Qed.

Lemma shapeOf_replaceUsesIn I n New l :
  shapeOf (replaceUsesIn I n New l) = shapeOf l.
Proof.
  unfold shapeOf, replaceUsesIn. rewrite map_map. apply map_ext.
  intros [P K Loc]. cbn [InstPtr InstKindOf InstLoc].
  by rewrite isRawInst_mapOperands.
Qed.

Lemma shapeOfBlocks_replace I n New Bs :
  shapeOfBlocks (map (fun b => (fst b, replaceUsesIn I n New (snd b))) Bs)
  = shapeOfBlocks Bs.
Proof.
  unfold shapeOfBlocks. rewrite map_map. apply map_ext. intros [b l].
  cbn [fst snd]. by rewrite shapeOf_replaceUsesIn.
Qed.

Lemma shapeOf_ptrs l : map InstPtr l = map fst (shapeOf l).
Proof. unfold shapeOf. rewrite map_map. by apply map_ext. Qed.

Lemma shapeOf_raw l : existsb isRawInst l = existsb snd (shapeOf l).
Proof. unfold shapeOf. induction l as [|X l IH]; [done|]. cbn. by rewrite IH. Qed.

Lemma shapeOf_rawFree l :
  Forall (fun X => isRawInst X = false) l <-> existsb snd (shapeOf l) = false.
Proof.
  rewrite <- shapeOf_raw. induction l as [|X l IH]; cbn.
  - split; [done|constructor].
  - rewrite Forall_cons, orb_false_iff, IH. done.
Qed.

Lemma shapeOf_app l k : shapeOf (l ++ k) = shapeOf l ++ shapeOf k.
Proof. apply map_app. Qed.

Lemma shapeOfBlocks_insts Bs :
  shapeOf (flat_map snd Bs) = flat_map snd (shapeOfBlocks Bs).
Proof.
  induction Bs as [|[b l] Bs IH]; [done|].
  cbn [flat_map shapeOfBlocks map fst snd]. rewrite shapeOf_app. by rewrite IH.
Qed.

Lemma shapeOfBlocks_ids Bs : map fst (shapeOfBlocks Bs) = map fst Bs.
Proof. unfold shapeOfBlocks. rewrite map_map. by apply map_ext. Qed.

Lemma shapeOfBlocks_length Bs Bs' :
  shapeOfBlocks Bs' = shapeOfBlocks Bs -> length Bs' = length Bs.
Proof.
  intros H. apply (f_equal (@length _)) in H.
  unfold shapeOfBlocks in H. by rewrite !length_map in H.
Qed.

Lemma allInsts_focus Bs1 BB Insts Bs2 FLoc Next :
  allInsts (focusBlock Bs1 BB Insts Bs2 FLoc Next)
  = flat_map snd Bs1 ++ Insts ++ flat_map snd Bs2.
Proof. unfold allInsts, focusBlock. cbn [Blocks]. by rewrite flat_map_app. Qed.

(** The function is well formed exactly when its shape is. *)
Lemma WfFunction_focus Bs1 BB Insts Bs2 FLoc Next :
  WfFunction (focusBlock Bs1 BB Insts Bs2 FLoc Next) <->
  NoDup (map fst Bs1 ++ BB :: map fst Bs2) /\
  NoDup (map fst (flat_map snd (shapeOfBlocks Bs1)) ++
         map fst (shapeOf Insts) ++
         map fst (flat_map snd (shapeOfBlocks Bs2))) /\
  Forall (fun p => p < Next)
    (map fst (flat_map snd (shapeOfBlocks Bs1)) ++
     map fst (shapeOf Insts) ++
     map fst (flat_map snd (shapeOfBlocks Bs2))).
Proof.
  unfold WfFunction. rewrite allInsts_focus.
  unfold focusBlock. cbn [Blocks NextPtr].
  rewrite map_app. cbn [map fst].
  rewrite !map_app, <- !shapeOfBlocks_insts, <- !shapeOf_ptrs.
  rewrite <- !map_app. by rewrite Forall_map.
Qed.

Lemma WfFunction_shape Bs1 Bs1' BB Insts Insts' Bs2 Bs2' FLoc Next :
  shapeOfBlocks Bs1' = shapeOfBlocks Bs1 ->
  shapeOf Insts' = shapeOf Insts ->
  shapeOfBlocks Bs2' = shapeOfBlocks Bs2 ->
  WfFunction (focusBlock Bs1 BB Insts Bs2 FLoc Next) ->
  WfFunction (focusBlock Bs1' BB Insts' Bs2' FLoc Next).
Proof.
  intros H1 H2 H3. rewrite !WfFunction_focus.
  rewrite <- (shapeOfBlocks_ids Bs1), <- (shapeOfBlocks_ids Bs2).
  rewrite <- (shapeOfBlocks_ids Bs1'), <- (shapeOfBlocks_ids Bs2').
  by rewrite H1, H2, H3.
Qed.

(** *** One step keeps the function well formed *)

Lemma ptrs_middle (A pre post B : list nat) P :
  A ++ (pre ++ P :: post) ++ B ≡ₚ P :: (A ++ (pre ++ post) ++ B).
Proof.
  rewrite <- !app_assoc. cbn [app].
  rewrite (app_assoc A pre). rewrite <- Permutation_middle.
  by rewrite <- app_assoc.
Qed.

Lemma ptrs_insert (A pre new post B : list nat) :
  A ++ (pre ++ new ++ post) ++ B ≡ₚ new ++ (A ++ (pre ++ post) ++ B).
Proof.
  rewrite <- !app_assoc.
  rewrite (app_assoc A pre (new ++ _)).
  rewrite Permutation_app_swap_app. by rewrite <- !app_assoc.
Qed.

Lemma absentFrom_ptrs P l : P ∉ map InstPtr l -> absentFrom P l.
Proof.
  intros H. apply Forall_forall. intros X HX Heq. apply H.
  apply list_elem_of_fmap. by exists X.
Qed.

Lemma ids_focus Bs1 BB Insts Bs2 FLoc Next :
  map fst (Blocks (focusBlock Bs1 BB Insts Bs2 FLoc Next))
  = map fst Bs1 ++ BB :: map fst Bs2.
Proof. unfold focusBlock. cbn [Blocks]. by rewrite map_app. Qed.

Lemma WfFunction_at Bs1 BB pre X post Bs2 FLoc Next :
  WfFunction (focusBlock Bs1 BB (pre ++ X :: post) Bs2 FLoc Next) ->
  BB ∉ map fst Bs1 /\ BB ∉ map fst Bs2 /\
  absentFrom (InstPtr X) (flat_map snd Bs1) /\
  absentFrom (InstPtr X) pre /\ absentFrom (InstPtr X) post /\
  InstPtr X < Next.
Proof.
  intros (Hids & Hptrs & Hlt). rewrite allInsts_focus in Hptrs, Hlt.
  unfold focusBlock in Hids. cbn [Blocks NextPtr] in *.
  rewrite map_app in Hids. cbn [map fst] in Hids.
  apply NoDup_app in Hids as (_ & Hd & Hids2).
  apply NoDup_cons in Hids2 as [HB2 _].
  rewrite !map_app in Hptrs. cbn [map] in Hptrs.
  rewrite ptrs_middle in Hptrs. apply NoDup_cons in Hptrs as [HP _].
  rewrite !not_elem_of_app in HP. destruct HP as (H1 & [H2 H3] & _).
  split_and!; try done; try by apply absentFrom_ptrs.
  - intros Hin. apply (Hd BB Hin). by left.
  - rewrite !Forall_app in Hlt. destruct Hlt as (_ & [_ Hx] & _).
    by apply Forall_cons in Hx as [Hx _].
Qed.

Lemma WfFunction_erase Bs1 BB pre X post Bs2 FLoc Next :
  WfFunction (focusBlock Bs1 BB (pre ++ X :: post) Bs2 FLoc Next) ->
  WfFunction (focusBlock Bs1 BB (pre ++ post) Bs2 FLoc Next).
Proof.
  intros (Hids & Hptrs & Hlt). rewrite allInsts_focus in Hptrs, Hlt.
  rewrite ids_focus in Hids.
  split_and!; [by rewrite ids_focus| |]; rewrite allInsts_focus;
    cbn [NextPtr focusBlock] in *.
  - rewrite !map_app in *. cbn [map] in Hptrs.
    rewrite ptrs_middle in Hptrs. by apply NoDup_cons in Hptrs as [_ ?].
  - rewrite !Forall_app in *. destruct Hlt as (? & [? Hx] & ?).
    apply Forall_cons in Hx as [_ ?]. done.
Qed.

Lemma WfFunction_insert Bs1 BB pre new post Bs2 FLoc Next :
  map InstPtr new = seq Next (length new) ->
  WfFunction (focusBlock Bs1 BB (pre ++ post) Bs2 FLoc Next) ->
  WfFunction (focusBlock Bs1 BB (pre ++ new ++ post) Bs2 FLoc
                (Next + length new)).
Proof.
  intros Hnew (Hids & Hptrs & Hlt). rewrite allInsts_focus in Hptrs, Hlt.
  rewrite ids_focus in Hids.
  split_and!; [by rewrite ids_focus| |]; rewrite allInsts_focus;
    cbn [NextPtr focusBlock] in *.
  - rewrite !map_app in *. rewrite ptrs_insert, Hnew.
    apply NoDup_app. split_and!; [apply NoDup_seq| |done].
    intros x Hx%elem_of_seq Hin.
    rewrite <- !map_app in Hin. apply list_elem_of_fmap in Hin as (Y & -> & HY).
    rewrite Forall_forall in Hlt. specialize (Hlt Y HY). cbn in Hlt. lia.
  - assert (Forall (fun X => InstPtr X < Next + length new) new) as Hn.
    { apply Forall_forall. intros Y HY.
      assert (InstPtr Y ∈ map InstPtr new) as Hin
        by (apply list_elem_of_fmap; by exists Y).
      rewrite Hnew in Hin. apply elem_of_seq in Hin. lia. }
    rewrite !Forall_app in *. destruct Hlt as (H1 & [H2 H3] & H4).
    split_and!; try done;
      (eapply Forall_impl; [eassumption|]); cbn; intros; lia.
Qed.

Lemma loweredAssign_ptrs Src Dest Loc b Next :
  map InstPtr (loweredAssign Src Dest Loc b Next)
  = seq Next (length (loweredAssign Src Dest Loc b Next)).
Proof. unfold loweredAssign. by destruct (_ || _). Qed.

Lemma loweredAssign_rawFree Src Dest Loc b Next :
  Forall (fun X => isRawInst X = false) (loweredAssign Src Dest Loc b Next).
Proof. unfold loweredAssign. destruct (_ || _); by repeat constructor. Qed.

(** *** The walk through a block *)

Lemma replaceAllUsesWith_focus I n New Bs1 BB pre X post Bs2 FLoc Next :
  let r := replaceUsesIn I n New in
  let rB := map (fun b : nat * list SILInstruction => (fst b, r (snd b))) in
  replaceAllUsesWith I n New (focusBlock Bs1 BB (pre ++ X :: post) Bs2 FLoc Next)
  = focusBlock (rB Bs1) BB
      (r pre ++ mkSILInstruction (InstPtr X)
                  (mapOperands (replaceUse I n New) (InstKindOf X)) (InstLoc X)
             :: r post)
      (rB Bs2) FLoc Next.
Proof.
  intros r rB. unfold replaceAllUsesWith, focusBlock. cbn [Blocks FnLocation NextPtr].
  f_equal. rewrite map_app. cbn [map fst snd]. subst r.
  unfold replaceUsesIn at 2. rewrite map_app. done.
Qed.

Lemma absentFrom_shape P l l' :
  shapeOf l' = shapeOf l -> absentFrom P l -> absentFrom P l'.
Proof.
  intros Hs H. apply absentFrom_ptrs. rewrite shapeOf_ptrs, Hs, <- shapeOf_ptrs.
  intros (Y & HP & HY)%list_elem_of_fmap.
  unfold absentFrom in H. rewrite Forall_forall in H. by apply (H Y).
Qed.

Lemma lowerRawInsts_skip BB P Ps Changed F X :
  getInst F P = Some X -> isRawInst X = false ->
  lowerRawInsts BB (P :: Ps) Changed F = lowerRawInsts BB Ps Changed F.
Proof.
  intros HX Hraw. cbn [lowerRawInsts]. rewrite HX.
  destruct X as [Q K Loc]. by destruct K.
Qed.

Lemma lowerRawInsts_ok BB FLoc Ps : forall todo Bs1 done Bs2 Next Changed,
  map InstPtr todo = Ps ->
  WfFunction (focusBlock Bs1 BB (done ++ todo) Bs2 FLoc Next) ->
  exists Bs1' done' Bs2' Next',
    lowerRawInsts BB Ps Changed (focusBlock Bs1 BB (done ++ todo) Bs2 FLoc Next)
    = Ok (Changed || existsb isRawInst todo,
          focusBlock Bs1' BB done' Bs2' FLoc Next') /\
    shapeOfBlocks Bs1' = shapeOfBlocks Bs1 /\
    shapeOfBlocks Bs2' = shapeOfBlocks Bs2 /\
    (Forall (fun X => isRawInst X = false) done ->
     Forall (fun X => isRawInst X = false) done') /\
    WfFunction (focusBlock Bs1' BB done' Bs2' FLoc Next') /\
    (existsb isRawInst todo = false ->
     Bs1' = Bs1 /\ done' = done ++ todo /\ Bs2' = Bs2 /\ Next' = Next).
Proof.
  induction Ps as [|P Ps IH]; intros todo Bs1 done Bs2 Next Changed HPs Hwf.
  { destruct todo; [|done]. exists Bs1, done, Bs2, Next.
    rewrite app_nil_r in *. cbn. rewrite orb_false_r. by split_and!. }
  destruct todo as [|X todo]; [done|]. injection HPs as HP HPs.
  destruct (WfFunction_at _ _ _ _ _ _ _ _ Hwf) as (HB1 & HB2 & HA1 & HAd & HAt & Hlt).
  assert (getInst (focusBlock Bs1 BB (done ++ X :: todo) Bs2 FLoc Next) P = Some X)
    as HgetX by (subst P; by apply getInst_focus).
  destruct (isRawInst X) eqn:Hraw.
  2:{ (* an instruction that stays *)
      rewrite (lowerRawInsts_skip _ _ _ _ _ X) by done.
      replace (done ++ X :: todo) with ((done ++ [X]) ++ todo) in *
        by (by rewrite <- app_assoc).
      destruct (IH todo Bs1 (done ++ [X]) Bs2 Next Changed HPs Hwf)
        as (Bs1' & done' & Bs2' & Next' & Hrun & Hs1 & Hs2 & Hfree & Hwf' & Hsame).
      exists Bs1', done', Bs2', Next'. cbn [existsb]. rewrite Hraw. cbn [orb].
      split_and!; try done.
      intros Hd. apply Hfree. apply Forall_app. split; [done|]. by constructor. }
  cbn [existsb]. rewrite Hraw. cbn [orb]. rewrite orb_true_r.
  cbn [lowerRawInsts]. rewrite HgetX.
  destruct X as [Q K Loc]. cbn [InstPtr] in *. subst Q.
  destruct K; try discriminate Hraw; cbn [InstKindOf].
  - (* assign *)
    rewrite (builderAt_focus Bs1 BB done
               (mkSILInstruction P (AssignInst Src Dest) Loc) todo) by done.
    pose proof (LowerAssignInstruction_focus Bs1 Bs2 BB P Next done todo Src
                  Dest Loc FLoc false [] HB1 HB2 HA1 HAd HAt Hlt) as HL.
    cbn zeta in HL. cbn [InstPtr]. rewrite HL. clear HL.
    cbn [InsertBB]. rewrite Nat.eqb_refl.
    set (new := loweredAssign Src Dest Loc false Next).
    apply WfFunction_erase in Hwf.
    apply (WfFunction_insert _ _ _ new) in Hwf; [|apply loweredAssign_ptrs].
    rewrite (app_assoc done new todo) in *.
    destruct (IH todo Bs1 (done ++ new) Bs2 (Next + length new) true HPs Hwf)
      as (Bs1' & done' & Bs2' & Next' & Hrun & Hs1 & Hs2 & Hfree & Hwf' & _).
    exists Bs1', done', Bs2', Next'. split_and!; try done.
    intros Hd. apply Hfree. apply Forall_app. split; [done|].
    apply loweredAssign_rawFree.
  - (* mark_function_escape *)
    rewrite (eraseFromParent_focus Bs1 BB done
               (mkSILInstruction P (MarkFunctionEscapeInst Vs) Loc) todo)
      by done.
    apply WfFunction_erase in Hwf.
    destruct (IH todo Bs1 done Bs2 Next true HPs Hwf)
      as (Bs1' & done' & Bs2' & Next' & Hrun & Hs1 & Hs2 & Hfree & Hwf' & _).
    exists Bs1', done', Bs2', Next'. by split_and!.
  - (* mark_uninitialized *)
    rewrite (replaceAllUsesWith_focus P 0 V Bs1 BB done
               (mkSILInstruction P (MarkUninitializedInst V) Loc) todo).
    cbn zeta. cbn [InstPtr InstKindOf InstLoc].
    set (r := replaceUsesIn P 0 V).
    set (rB := map (fun b : nat * list SILInstruction => (fst b, r (snd b)))).
    set (X' := mkSILInstruction P _ Loc).
    assert (shapeOfBlocks (rB Bs1) = shapeOfBlocks Bs1) as HsB1
      by apply shapeOfBlocks_replace.
    assert (shapeOfBlocks (rB Bs2) = shapeOfBlocks Bs2) as HsB2
      by apply shapeOfBlocks_replace.
    assert (shapeOf (r done) = shapeOf done) as Hsd
      by apply shapeOf_replaceUsesIn.
    assert (shapeOf (r todo) = shapeOf todo) as Hst
      by apply shapeOf_replaceUsesIn.
    rewrite (eraseFromParent_focus (rB Bs1) BB (r done) X' (r todo)).
    2,3: by rewrite <- shapeOfBlocks_ids, ?HsB1, ?HsB2, shapeOfBlocks_ids.
    2:{ apply (absentFrom_shape _ (flat_map snd Bs1)); [|done].
        by rewrite !shapeOfBlocks_insts, HsB1. }
    2,3: by eapply absentFrom_shape.
    apply WfFunction_erase in Hwf.
    apply (WfFunction_shape _ (rB Bs1) _ _ (r done ++ r todo) _ (rB Bs2)) in Hwf;
      [|done|by rewrite !shapeOf_app, Hsd, Hst|done].
    destruct (IH (r todo) (rB Bs1) (r done) (rB Bs2) Next true) with (2 := Hwf)
      as (Bs1' & done' & Bs2' & Next' & Hrun & Hs1 & Hs2 & Hfree & Hwf' & _).
    { by rewrite shapeOf_ptrs, Hst, <- shapeOf_ptrs. }
    exists Bs1', done', Bs2', Next'.
    rewrite shapeOf_raw, Hst, <- shapeOf_raw, orb_true_l in Hrun.
    split_and!; try done; try congruence.
    intros Hd. apply Hfree. apply shapeOf_rawFree. rewrite Hsd.
    by apply shapeOf_rawFree.
Qed.

(** *** The walk through the blocks *)

Lemma rawFree_shape Bs Bs' :
  shapeOfBlocks Bs' = shapeOfBlocks Bs ->
  existsb isRawInst (flat_map snd Bs') = existsb isRawInst (flat_map snd Bs).
Proof.
  intros H. by rewrite !shapeOf_raw, !shapeOfBlocks_insts, H.
Qed.

Lemma rawFree_existsb l :
  Forall (fun X => isRawInst X = false) l <-> existsb isRawInst l = false.
Proof. by rewrite shapeOf_rawFree, shapeOf_raw. Qed.

Lemma lowerRawBlocks_ok FLoc : forall n fuel rest Bs1 Next Changed,
  length rest = n -> n <= fuel ->
  Forall (fun X => isRawInst X = false) (flat_map snd Bs1) ->
  WfFunction (mkSILFunction (Bs1 ++ rest) FLoc Next) ->
  exists Bs' Next',
    lowerRawBlocks fuel (length Bs1) Changed
      (mkSILFunction (Bs1 ++ rest) FLoc Next)
    = Ok (Changed || existsb isRawInst (flat_map snd rest),
          mkSILFunction Bs' FLoc Next') /\
    Forall (fun X => isRawInst X = false) (flat_map snd Bs') /\
    map fst Bs' = map fst (Bs1 ++ rest) /\
    WfFunction (mkSILFunction Bs' FLoc Next') /\
    (existsb isRawInst (flat_map snd rest) = false ->
     Bs' = Bs1 ++ rest /\ Next' = Next).
Proof.
  induction n as [|n IH]; intros fuel rest Bs1 Next Changed Hlen Hfuel Hfree Hwf.
  { destruct rest; [|done]. rewrite app_nil_r in *.
    exists Bs1, Next. cbn [flat_map existsb]. rewrite orb_false_r.
    split_and!; try done.
    destruct fuel; cbn [lowerRawBlocks Blocks];
      by rewrite (proj2 (lookup_ge_None Bs1 (length Bs1))) by lia. }
  destruct rest as [|[BB insts] Bs2]; [done|]. injection Hlen as Hlen.
  destruct fuel as [|fuel]; [lia|].
  cbn [lowerRawBlocks Blocks]. rewrite list_lookup_middle by done.
  cbn [fst snd].
  change (mkSILFunction (Bs1 ++ (BB, insts) :: Bs2) FLoc Next)
    with (focusBlock Bs1 BB ([] ++ insts) Bs2 FLoc Next) in *.
  destruct (lowerRawInsts_ok BB FLoc (map InstPtr insts) insts Bs1 [] Bs2 Next
              Changed eq_refl Hwf)
    as (Bs1' & done' & Bs2' & Next' & Hrun & Hs1 & Hs2 & Hfree1 & Hwf1 & Hsame1).
  rewrite Hrun.
  change (focusBlock Bs1' BB done' Bs2' FLoc Next')
    with (mkSILFunction (Bs1' ++ (BB, done') :: Bs2') FLoc Next') in *.
  replace (Bs1' ++ (BB, done') :: Bs2') with ((Bs1' ++ [(BB, done')]) ++ Bs2') in *
    by (by rewrite <- app_assoc).
  replace (S (length Bs1)) with (length (Bs1' ++ [(BB, done')])).
  2:{ rewrite length_app, (shapeOfBlocks_length _ _ Hs1). cbn. lia. }
  destruct (IH fuel Bs2' (Bs1' ++ [(BB, done')]) Next'
              (Changed || existsb isRawInst insts))
    as (Bs' & Next'' & Hrun2 & Hfree2 & Hids2 & Hwf2 & Hsame2).
  - by rewrite (shapeOfBlocks_length _ _ Hs2).
  - lia.
  - rewrite flat_map_app. cbn [flat_map snd]. rewrite app_nil_r.
    apply Forall_app. split; [|by apply Hfree1].
    apply rawFree_existsb. rewrite (rawFree_shape _ _ Hs1).
    by apply rawFree_existsb.
  - exact Hwf1.
  - exists Bs', Next''. rewrite Hrun2. split_and!; try done.
    + cbn [flat_map snd]. rewrite existsb_app, (rawFree_shape _ _ Hs2).
      by rewrite orb_assoc.
    + rewrite Hids2. rewrite !map_app. cbn [map fst].
      rewrite <- (shapeOfBlocks_ids Bs1'), <- (shapeOfBlocks_ids Bs2'), Hs1, Hs2.
      rewrite !shapeOfBlocks_ids. by rewrite <- app_assoc.
    + cbn [flat_map snd]. rewrite existsb_app.
      intros [Hi H2]%orb_false_iff.
      destruct (Hsame1 Hi) as (-> & -> & -> & ->).
      destruct Hsame2 as [-> ->]; [done|]. by rewrite <- app_assoc.
Qed.

(** X11.  [lowerRawSILOperations] on a well-formed function returns and
    leaves no raw instruction: no [assign], no [mark_uninitialized] and no
    [mark_function_escape] is left.  It reports a change exactly when the
    function had a raw instruction, and then leaves the function as it
    was; the blocks stay the same blocks in the same order; and lowering
    the result again changes nothing. *)
Theorem lowerRawSILOperations_removes_raw (F : SILFunction) :
  WfFunction F ->
  exists Changed F',
    lowerRawSILOperations F = Ok (Changed, F') /\
    Forall (fun X => isRawInst X = false) (allInsts F') /\
    Changed = existsb isRawInst (allInsts F) /\
    map fst (Blocks F') = map fst (Blocks F) /\
    (Changed = false -> F' = F) /\
    WfFunction F' /\
    lowerRawSILOperations F' = Ok (false, F').
Proof.
  destruct F as [Bs FLoc Next]. intros Hwf. unfold lowerRawSILOperations.
  cbn [Blocks].
  destruct (lowerRawBlocks_ok FLoc (length Bs) (length Bs) Bs [] Next false)
    as (Bs' & Next' & Hrun & Hfree & Hids & Hwf' & Hsame);
    [done|done|constructor|exact Hwf|].
  cbn [app length orb] in Hrun, Hids, Hsame.
  exists (existsb isRawInst (flat_map snd Bs)), (mkSILFunction Bs' FLoc Next').
  split_and!; try done.
  - intros H. by destruct (Hsame H) as [-> ->].
  - cbn [Blocks].
    destruct (lowerRawBlocks_ok FLoc (length Bs') (length Bs') Bs' [] Next' false)
      as (Bs2 & Next2 & Hrun2 & _ & _ & _ & Hsame2);
      [done|done|constructor|exact Hwf'|].
    cbn [app length orb] in Hrun2, Hsame2. rewrite Hrun2.
    apply rawFree_existsb in Hfree. rewrite Hfree in *.
    by destruct (Hsame2 eq_refl) as [-> ->].
Qed.

Lemma lowerRawSILOperations_removes_raw_witness :
  exists F',
    lowerRawSILOperations exRawFunction = Ok (true, F') /\
    Forall (fun X => isRawInst X = false) (allInsts F') /\
    lowerRawSILOperations F' = Ok (false, F').
Proof.
  destruct (lowerRawSILOperations_removes_raw exRawFunction)
    as (Changed & F' & Hrun & Hfree & HC & _ & _ & _ & Hagain).
  - split_and!.
    + apply (bool_decide_unpack _). vm_compute. exact I.
    + apply (bool_decide_unpack _). vm_compute. exact I.
    + repeat constructor; cbn; lia.
  - exists F'. vm_compute in HC. subst Changed. by split_and!.
Defined.

(** ** Finished live-out queries are cached *)

Lemma getLiveOut1_caches_size N getPreds fuel BB PBI K PBI' :
  getLiveOut1 N getPreds fuel BB PBI = Ok (Some K, PBI') ->
  loState PBI BB = IsUnknown ->
  exists s', PBI' !! BB = Some s' /\ LOState s' = IsKnown /\
    AvSet.get (Availability s') 0 = Ok K.
Proof.
  destruct fuel as [|fuel]; [done|]. cbn [getLiveOut1]. intros Hrun HU.
  apply bind_Ok_inv in Hrun as (s & PBI1 & Hg & Hrun).
  destruct (getBlockInfo_spec N BB PBI) as (s0 & PBI0 & Hg0 & _ & _ & HL & _).
  rewrite Hg0 in Hg. injection Hg as <- <-. rewrite HL, HU in Hrun.
  assert (forall s1 s2 K1, setBlockAvailability1 s1 K1 = Ok s2 ->
            LOState s2 = IsKnown /\ AvSet.get (Availability s2) 0 = Ok K1) as Hset.
  { intros s1 s2 K1 H.
    apply setBlockAvailability1_Ok in H as (_ & HK & HS & HA & _).
    split; [done|]. rewrite HA. unfold AvSet.get.
    rewrite AvSetFacts.size_set, HS. cbn [Nat.ltb Nat.leb].
    rewrite AvSetFacts.getConditional_set_eq by lia. done. }
  destruct (decide _) as [HY|HY] in Hrun; monad_inv.
  - match goal with H : setBlockAvailability1 _ _ = Ok _ |- _ =>
      apply Hset in H as [H1 H2] end.
    eexists. rewrite lookup_insert_eq. split; [reflexivity|].
    split; [done|]. rewrite H2. congruence.
  - match goal with H : context [match ?R with Some _ => _ | None => _ end] |- _ =>
      destruct R as [K'|] end; monad_inv.
    match goal with H : setBlockAvailability1 _ _ = Ok _ |- _ =>
      apply Hset in H as [H1 H2] end.
    eexists. rewrite lookup_insert_eq. split; [reflexivity|]. done.
Qed.

(** X12.  A finished live-out query is cached.  When [getLiveOutN], asked
    for a block in state Unknown, returns a set with no Unknown element,
    the block is Known afterwards and asking again returns the same set
    and leaves the map as it is; a result with an Unknown element is not
    cached and the block is left Unknown.  The same holds for
    [getLiveOut1] and a defined result. *)
Theorem liveOut_queries_are_cached (N : nat)
    (getPreds : SILBasicBlock -> list SILBasicBlock) :
  (forall fuel BB PBI R PBI',
     getLiveOutN N getPreds fuel BB PBI = Ok (R, PBI') ->
     loState PBI BB = IsUnknown ->
     if AvSet.containsUnknownElements R then loState PBI' BB = IsUnknown
     else loState PBI' BB = IsKnown /\
          forall fuel',
            getLiveOutN N getPreds (S fuel') BB PBI' = Ok (R, PBI')) /\
  (forall fuel BB PBI R PBI',
     getLiveOut1 N getPreds fuel BB PBI = Ok (R, PBI') ->
     loState PBI BB = IsUnknown ->
     match R with
     | None => loState PBI' BB = IsUnknown
     | Some K =>
         loState PBI' BB = IsKnown /\
         forall fuel',
           getLiveOut1 N getPreds (S fuel') BB PBI' = Ok (Some K, PBI')
     end).
Proof.
  split.
  - intros fuel BB PBI R PBI' Hrun HU.
    destruct (getLiveOutN_caches _ _ _ _ _ _ _ Hrun HU) as (s' & Hs' & H).
    unfold loState. rewrite Hs'.
    destruct (AvSet.containsUnknownElements R); [done|].
    destruct H as [HK HA]. split; [done|]. intros fuel'.
    cbn [getLiveOutN]. unfold bind, getBlockInfo. rewrite Hs', HK.
    unfold ret. by rewrite HA.
  - intros fuel BB PBI R PBI' Hrun HU. destruct R as [K|].
    + destruct (getLiveOut1_caches_size _ _ _ _ _ _ _ Hrun HU)
        as (s' & Hs' & HK & HG).
      unfold loState. rewrite Hs'. split; [done|]. intros fuel'.
      cbn [getLiveOut1]. unfold bind, getBlockInfo. rewrite Hs', HK.
      unfold getAvailability, liftOutcome, ret. by rewrite HG.
    + destruct (getLiveOut1_caches _ _ _ _ _ _ _ Hrun HU) as (s' & Hs' & H).
      unfold loState. by rewrite Hs'.
Qed.

(** ** What the constructor records *)

Lemma hoare_forEach_indexed {S A} (I : list A -> S -> Prop)
    (body : A -> M S unit) :
  (forall done x, hoare (I done) (body x) (fun _ => I (done ++ [x]))) ->
  forall xs pre, hoare (I pre) (forEach xs body) (fun _ => I (pre ++ xs)).
Proof.
  intros Hstep xs. induction xs as [|x xs IH]; intros pre; cbn [forEach].
  - rewrite app_nil_r. by apply hoare_ret.
  - eapply hoare_bind; [apply Hstep|]. intros [].
    replace (pre ++ x :: xs) with ((pre ++ [x]) ++ xs) by (by rewrite <- app_assoc).
    apply IH.
Qed.

Lemma markAvailable_HasNonLoadUse s U s' :
  markAvailable s U = Ok s' -> HasNonLoadUse s' = HasNonLoadUse s.
Proof.
  unfold markAvailable. destruct (AvSet.empty _); [by intros [= <-]|].
  destruct (_ =? 0); [done|]. by intros [= <-].
Qed.

(** A flagged block stays flagged when the state of [BB] is replaced by a
    flagged one. *)
Lemma flagged_insert (PBI PBI1 : PerBlockInfoMap) N BB s s1 BB0 s0 :
  getBlockInfo N BB PBI = Ok (s, PBI1) ->
  HasNonLoadUse s1 = true ->
  PBI !! BB0 = Some s0 -> HasNonLoadUse s0 = true ->
  exists s2, <[BB := s1]> PBI1 !! BB0 = Some s2 /\ HasNonLoadUse s2 = true.
Proof.
  intros Hg H1 H0 Hf.
  destruct (decide (BB0 = BB)) as [->|Hne].
  - exists s1. by rewrite lookup_insert_eq.
  - exists s0. rewrite lookup_insert_ne by done. split; [|done].
    destruct (getBlockInfo_spec N BB PBI) as (sx & Px & Hgx & _ & Hother & _).
    rewrite Hgx in Hg. injection Hg as <- <-. by rewrite Hother.
Qed.

Lemma LifetimeChecker_collect_tracks F TM Us done ui :
  hoare (trackInv F TM Us done) (LifetimeChecker_collect ui)
        (fun _ => trackInv F TM Us (done ++ [ui])).
Proof.
  intros C [] C' Hrun (HF & HTM & HU & HA & HB & HC).
  subst F TM Us. unfold LifetimeChecker_collect in Hrun.
  monad_inv.
  match goal with H : Uses ?c !! ui = Some ?u |- _ =>
    rename u into U, H into HUi, c into C0 end.
  match goal with H : DIMemoryUse.Inst U = Some ?i |- _ =>
    rename i into I, H into HI end.
  destruct (decide _) as [Hload|Hk]; monad_inv.
  { (* a load or an escape is not recorded *)
    unfold trackInv. split_and!; try done.
    intros uj Uj [Hj|Hj%list_elem_of_singleton]%elem_of_app HUj;
      [by apply (HC uj)|].
    subst uj. rewrite HUi in HUj. injection HUj as <-.
    exists I. split; [done|]. intros H1 H2. by destruct Hload. }
  match goal with H : getBlockInfo _ _ _ = Ok (?s, ?P1) |- _ =>
    rename H into Hg, s into BBInfo, P1 into PBI1 end.
  match goal with H : getParent _ _ = Some ?b |- _ =>
    rename H into HP, b into BB end.
  match goal with H : markAvailable _ _ = Ok ?s |- _ =>
    rename H into Hm, s into BBInfo1 end.
  cbn [PerBlockInfo set_NonLoadUses] in Hg.
  apply markAvailable_HasNonLoadUse in Hm. cbn [HasNonLoadUse setHasNonLoadUse] in Hm.
  set (BBInfo2 := if AvSet.isAllYes (Availability BBInfo1)
                  then setLOState BBInfo1 IsKnown else BBInfo1) in *.
  assert (HasNonLoadUse BBInfo2 = true) as Hflag
    by (subst BBInfo2; by destruct (AvSet.isAllYes _)).
  unfold trackInv.
  cbn [Fn TheMemory Uses NonLoadUses PerBlockInfo set_PerBlockInfo set_NonLoadUses].
  split_and!; try done.
  - intros I' Idx. rewrite lookup_insert. destruct (decide (I = I')) as [<-|Hne].
    + intros [= <-]. exists U. rewrite Nat2N.id. split_and!; try done.
      all: intros Heq; apply Hk; first [by left | by right].
    + by apply HA.
  - intros I' HS. rewrite lookup_insert in HS.
    destruct (decide (I = I')) as [<-|Hne].
    + exists BB, BBInfo2. by rewrite lookup_insert_eq.
    + destruct (HB I' HS) as (BB0 & s0 & HP0 & Hs0 & Hf0).
      destruct (flagged_insert _ _ _ _ _ BBInfo2 _ _ Hg Hflag Hs0 Hf0)
        as (s2 & Hs2 & Hf2).
      by exists BB0, s2.
  - intros uj Uj [Hj|Hj%list_elem_of_singleton]%elem_of_app HUj.
    + destruct (HC uj Uj Hj HUj) as (Ij & HIj & Hkey). exists Ij.
      split; [done|]. intros H1 H2. rewrite lookup_insert.
      destruct (decide _); [done|]. by apply Hkey.
    + subst uj. rewrite HUi in HUj. injection HUj as <-.
      exists I. split; [done|]. intros _ _. by rewrite lookup_insert_eq.
Qed.

(** X13.  What the constructor records.  When [LifetimeChecker_new]
    returns, every use has an instruction; [NonLoadUses] maps the memory
    instruction to [~0U] and every other key to the index of a use that is
    neither a load nor an escape and whose instruction is the key; the
    instruction of every such use is a key; the block of every key is
    flagged [HasNonLoadUse]; and the block of the memory instruction is
    known, with no Unknown element. *)
Theorem LifetimeChecker_new_tracks_the_uses
    (F : SILFunction) (TM : DIMemoryObjectInfo) (Us : list DIMemoryUse)
    (Rs : list (option SILInstructionPtr)) (C : LifetimeChecker) :
  LifetimeChecker_new F TM Us Rs = Ok C ->
  let MemoryInst := DIMemoryObjectInfo.MemoryInst TM in
  Forall (fun U => is_Some (DIMemoryUse.Inst U)) Us /\
  NonLoadUses C !! MemoryInst = Some AllOnesUnsigned /\
  (forall I Idx, NonLoadUses C !! I = Some Idx -> I <> MemoryInst ->
     exists U, Us !! N.to_nat Idx = Some U /\ DIMemoryUse.Inst U = Some I /\
       DIMemoryUse.Kind U <> Load /\ DIMemoryUse.Kind U <> Escape) /\
  (forall U I, U ∈ Us -> DIMemoryUse.Inst U = Some I ->
     DIMemoryUse.Kind U <> Load -> DIMemoryUse.Kind U <> Escape ->
     is_Some (NonLoadUses C !! I)) /\
  (forall I, is_Some (NonLoadUses C !! I) ->
     exists BB s, getParent F I = Some BB /\ PerBlockInfo C !! BB = Some s /\
       HasNonLoadUse s = true) /\
  (exists BB s, getParent F MemoryInst = Some BB /\
     PerBlockInfo C !! BB = Some s /\ LOState s = IsKnown /\
     AvSet.containsUnknownElements (Availability s) = false).
Proof.
  unfold LifetimeChecker_new.
  set (C0 := mkLifetimeChecker F [] TM Us Rs [] ∅ ∅ false [] ∅).
  destruct (bind _ _ C0) as [[[] C1]| |] eqn:Hrun; [|done..]. intros [= <-].
  set (MemoryInst := DIMemoryObjectInfo.MemoryInst TM) in *.
  apply bind_Ok_inv in Hrun as ([] & Ca & Hloop & Hrun). cbn beta in Hrun.
  assert (trackInv F TM Us (seq 0 (length Us)) Ca)
    as (HF & HTM & HU & HA & HB & HC).
  { eapply (hoare_forEach_indexed (trackInv F TM Us)) with (pre := []);
      [|exact Hloop|].
    - intros done x. apply LifetimeChecker_collect_tracks.
    - unfold trackInv, C0. cbn. split_and!; try done.
      + intros I HS. by apply lookup_empty_is_Some in HS.
      + intros ui U Hui. by apply elem_of_nil in Hui. }
  monad_inv.
  match goal with H : getBlockInfo _ _ _ = Ok (?s, ?P1) |- _ =>
    rename H into Hg, s into MemBBInfo, P1 into PBI1 end.
  match goal with H : getParent _ _ = Some ?b |- _ =>
    rename H into HP, b into BB end.
  cbn [PerBlockInfo set_NonLoadUses] in Hg.
  fold MemoryInst in HP |- *.
  set (s1 := setLOState _ IsKnown).
  assert (HasNonLoadUse s1 = true) as Hflag by done.
  cbn [Fn TheMemory Uses NonLoadUses PerBlockInfo set_PerBlockInfo set_NonLoadUses].
  split_and!.
  - apply Forall_forall. intros U [ui HUi]%list_elem_of_lookup.
    destruct (HC ui U) as (I & HI & _); [|done|by rewrite HI].
    apply elem_of_seq. apply lookup_lt_Some in HUi. lia.
  - by rewrite lookup_insert_eq.
  - intros I Idx HI Hne. rewrite lookup_insert_ne in HI by done. by apply HA.
  - intros U I [ui HUi]%list_elem_of_lookup HI H1 H2.
    destruct (HC ui U) as (I' & HI' & Hkey); [|done|].
    { apply elem_of_seq. apply lookup_lt_Some in HUi. lia. }
    rewrite HI in HI'. injection HI' as <-.
    rewrite lookup_insert. destruct (decide _); [done|]. by apply Hkey.
  - intros I HS. rewrite lookup_insert in HS.
    destruct (decide (MemoryInst = I)) as [<-|Hne].
    + exists BB, s1. by rewrite lookup_insert_eq.
    + destruct (HB I HS) as (BB0 & s0 & HP0 & Hs0 & Hf0).
      destruct (flagged_insert _ _ _ _ _ s1 _ _ Hg Hflag Hs0 Hf0)
        as (s2 & Hs2 & Hf2).
      by exists BB0, s2.
  - exists BB, s1. rewrite lookup_insert_eq. split_and!; try done.
    subst s1. cbn [Availability setLOState setAvailability].
    apply AvSetFacts.changeUnsetElementsTo_spec.
Qed.

Lemma LifetimeChecker_new_tracks_the_uses_witness :
  NonLoadUses exChecker !! 10 = Some AllOnesUnsigned /\
  is_Some (NonLoadUses exChecker !! 20) /\
  is_Some (NonLoadUses exChecker !! 40).
Proof.
  destruct (LifetimeChecker_new_tracks_the_uses exFunction (exMemoryInfo false)
              exUses exReleases exChecker)
    as (_ & Hmem & _ & Hcov & _).
  - vm_compute. reflexivity.
  - split; [exact Hmem|]. split.
    + apply (Hcov (DIMemoryUse.mk (Some 20) InitOrAssign 0 1) 20);
        [by left|done..].
    + apply (Hcov (DIMemoryUse.mk (Some 40) InitOrAssign 0 1) 40);
        [right; by left|done..].
Defined.

(** ** Asking whether a use is initialized *)

Lemma DIKind_eqb_Yes K : DIKind_eqb K Yes = true <-> K = Yes.
Proof. destruct K; cbn; split; congruence. Qed.

(** The loop at the end of [isInitializedAtUse]. *)
Lemma isInitializedAtUse_check (L : AvailabilitySet) (S0 : bool)
    (check : list nat -> Checker (bool * bool)) :
  (forall l, check l =
     match l with
     | [] => ret (true, S0)
     | i :: l =>
         bind (liftOutcome (AvSet.get L i))
           (fun K => if negb (DIKind_eqb K Yes) then ret (false, S0)
                     else check l)
     end) ->
  forall l C b s C',
    check l C = Ok ((b, s), C') ->
    C' = C /\ s = S0 /\
    (b = true <-> forall i, i ∈ l -> AvSet.getConditional L i = Some Yes).
Proof.
  intros Heq l. induction l as [|i l IH]; intros C b s C' H; rewrite Heq in H.
  - injection H as <- <- <-. split_and!; try done.
    split; [|done]. intros _ i Hi. by apply elem_of_nil in Hi.
  - apply bind_Ok_inv in H as (K & C1 & HK & H).
    unfold liftOutcome in HK.
    destruct (AvSet.get L i) as [K'| |] eqn:HG; [|done..].
    injection HK as <- <-.
    apply AvSetFacts.get_Ok_inv in HG as [Hlt HG].
    destruct (DIKind_eqb K' Yes) eqn:HY; cbn [negb] in H.
    + apply DIKind_eqb_Yes in HY. subst K'.
      destruct (IH _ _ _ _ H) as (-> & -> & Hb). split_and!; try done.
      rewrite Hb. split.
      * intros Hall j [->|Hj]%elem_of_cons; [done|by apply Hall].
      * intros Hall j Hj. apply Hall. by right.
    + injection H as <- <- <-. split_and!; try done.
      split; [done|]. intros Hall.
      assert (i ∈ i :: l) as Hi by (by left). specialize (Hall i Hi).
      rewrite Hall in HG. injection HG as <-. done.
Qed.

(** X14.  [isInitializedAtUse] answers from the liveness at the
    instruction of the use: when it returns, [getLivenessAtInst] returned
    for the window of the use, the checker is left as that query left it,
    and the answer is true exactly when every element of the window is
    Yes.  The flag for [super.init] is false only when the caller asked
    for it, the window ends at the last element of a derived class and
    that element is not Yes. *)
Theorem isInitializedAtUse_reads_the_window
    (U : DIMemoryUse) (W : bool) (C C' : LifetimeChecker) (b s : bool) :
  isInitializedAtUse U W C = Ok ((b, s), C') ->
  let First := DIMemoryUse.FirstElement U in
  let Num := DIMemoryUse.NumElements U in
  exists I L,
    DIMemoryUse.Inst U = Some I /\
    getLivenessAtInst I First Num C = Ok (L, C') /\
    (b = true <->
     forall i, First <= i < First + Num ->
       AvSet.getConditional L i = Some Yes) /\
    (s = false <->
     W = true /\
     First + Num = DIMemoryObjectInfo.NumElements (TheMemory C) /\
     DIMemoryObjectInfo.isAnyDerivedClassSelf (TheMemory C) = true /\
     AvSet.getConditional L (AvSet.size L - 1) <> Some Yes).
Proof.
  intros H First Num. unfold isInitializedAtUse in H.
  apply bind_Ok_inv in H as (Cx & Cy & [= <- <-] & H). cbn beta in H.
  apply bind_Ok_inv in H as (I & Cy & HI & H).
  unfold deref in HI. destruct (DIMemoryUse.Inst U) as [I0|]; [|done].
  injection HI as <- <-.
  apply bind_Ok_inv in H as (L & C1 & HL & H). fold First Num in HL, H.
  apply bind_Ok_inv in H as (S0 & C2 & HS & H).
  match type of H with ?f ?l0 _ = _ =>
    assert (forall l, f l =
              match l with
              | [] => ret (true, S0)
              | i :: l =>
                  bind (liftOutcome (AvSet.get L i))
                    (fun K => if negb (DIKind_eqb K Yes) then ret (false, S0)
                              else f l)
              end) as Hf by (intros l; by destruct l);
    destruct (isInitializedAtUse_check L S0 f Hf l0 C2 b s C' H)
      as (-> & -> & Hb); clear Hf
  end.
  exists I0, L. split; [done|].
  assert (C2 = C1 /\
          (S0 = false <->
           W = true /\
           First + Num = DIMemoryObjectInfo.NumElements (TheMemory C) /\
           DIMemoryObjectInfo.isAnyDerivedClassSelf (TheMemory C) = true /\
           AvSet.getConditional L (AvSet.size L - 1) <> Some Yes))
    as [-> HS0].
  { destruct W; cbn [andb] in HS.
    2:{ injection HS as <- <-. split; [done|]. split; [done|]. by intros [? _]. }
    destruct (First + Num =? _) eqn:E1; cbn [andb] in HS.
    2:{ injection HS as <- <-. split; [done|]. split; [done|].
        apply Nat.eqb_neq in E1. by intros (_ & ? & _). }
    apply Nat.eqb_eq in E1.
    destruct (DIMemoryObjectInfo.isAnyDerivedClassSelf _) eqn:E2.
    2:{ injection HS as <- <-. split; [done|]. split; [done|].
        by intros (_ & _ & ? & _). }
    apply bind_Ok_inv in HS as (K & C3 & HK & HS).
    unfold liftOutcome in HK.
    destruct (AvSet.get L _) as [K'| |] eqn:HG; [|done..].
    injection HK as <- <-. injection HS as <- <-.
    apply AvSetFacts.get_Ok_inv in HG as [Hlt HG].
    split; [done|]. rewrite HG. split.
    - intros HY. split_and!; try done. intros [= ->]. done.
    - intros (_ & _ & _ & Hne). destruct K'; try done. }
  split; [done|]. split; [|done].
  rewrite Hb. split.
  - intros Hall i Hi. apply Hall. apply elem_of_seq. lia.
  - intros Hall i Hi%elem_of_seq. apply Hall. lia.
Qed.

Lemma isInitializedAtUse_reads_the_window_witness :
  exists C',
    isInitializedAtUse (DIMemoryUse.mk (Some 40) InitOrAssign 0 1) false exChecker
    = Ok ((false, true), C') /\
    exists L,
      getLivenessAtInst 40 0 1 exChecker = Ok (L, C') /\
      AvSet.getConditional L 0 <> Some Yes.
Proof.
  destruct (isInitializedAtUse (DIMemoryUse.mk (Some 40) InitOrAssign 0 1)
              false exChecker) as [[[b s] C']| |] eqn:Hrun;
    [|by vm_compute in Hrun..].
  destruct (isInitializedAtUse_reads_the_window _ _ _ _ _ _ Hrun)
    as (I & L & HI & HL & Hb & Hs).
  injection HI as <-. cbn in HL.
  assert (b = false /\ s = true) as [-> ->].
  { vm_compute in Hrun. by injection Hrun as <- <- _. }
  exists C'. split; [reflexivity|]. exists L. split; [exact HL|].
  intros HY. assert (false = true); [|done]. apply Hb.
  intros i Hi. cbn in Hi. by assert (i = 0) as -> by lia.
Defined.

(** ** Releases that become conditional destroys *)

Lemma getLivenessAtInst_all_defined C Release Av C1 :
  CheckerWf C ->
  getLivenessAtInst Release 0 (DIMemoryObjectInfo.NumElements (TheMemory C)) C
  = Ok (Av, C1) ->
  AvSet.size Av = DIMemoryObjectInfo.NumElements (TheMemory C) /\
  (AvSet.isAllYes Av = false ->
   AvSet.containsUnknownElements Av = false).
Proof.
  intros Hwf Hrun.
  set (N := DIMemoryObjectInfo.NumElements (TheMemory C)) in *.
  destruct (decide (N = 0)) as [H0|H0].
  { unfold getLivenessAtInst in Hrun.
    rewrite (bind_Ok _ _ C C C) in Hrun by done. fold N in Hrun.
    rewrite H0 in Hrun. cbn [Nat.eqb] in Hrun. injection Hrun as <- <-.
    split; [by rewrite AvSetFacts.size_new|]. intros H. by vm_compute in H. }
  destruct (getParent (Fn C) Release) as [BB|] eqn:HP.
  2:{ unfold getLivenessAtInst in Hrun.
      rewrite (bind_Ok _ _ C C C) in Hrun by done. fold N in Hrun.
      destruct (N =? 0) eqn:E; [apply Nat.eqb_eq in E; lia|].
      rewrite HP in Hrun. done. }
  destruct (getLivenessAtInst_total C Release 0 N BB Hwf HP)
    as (R & C' & Hrun' & _ & _ & _ & Hsz & Hdef); [lia|done|].
  rewrite Hrun' in Hrun. injection Hrun as <- <-.
  split; [done|]. intros _. apply AvSetFacts.containsUnknownElements_false.
  intros j Hj. apply Hdef. fold N in Hsz. lia.
Qed.

(** X15.  [processNonTrivialRelease] records a conditional destroy only for
    a release whose memory is neither all initialized nor all
    uninitialized.  On a checker of the shape the constructor builds, a
    run that returns either leaves [ConditionalDestroys] as it was, or
    appends one entry for this release: its availability has one defined
    element per element of the memory, is not all Yes and not all No; the
    flag for conditional code is set if some element is Partial; and the
    function and the releases are not touched. *)
Theorem processNonTrivialRelease_records_mixed
    (del : SILInstructionPtr -> SILFunction -> SILFunction)
    (ReleaseID : nat) (C C' : LifetimeChecker) :
  CheckerWf C ->
  processNonTrivialRelease del ReleaseID C = Ok (tt, C') ->
  ConditionalDestroys C' = ConditionalDestroys C \/
  exists Av,
    ConditionalDestroys C' = ConditionalDestroys C ++ [(ReleaseID, Av)] /\
    AvSet.size Av = DIMemoryObjectInfo.NumElements (TheMemory C) /\
    AvSet.containsUnknownElements Av = false /\
    AvSet.isAllYes Av = false /\ AvSet.isAllNo Av = false /\
    (AvSet.hasAny Av Partial = true ->
     HasConditionalInitAssignOrDestroys C' = true) /\
    Fn C' = Fn C /\ Releases C' = Releases C.
Proof.
  intros Hwf Hrun. unfold processNonTrivialRelease in Hrun.
  apply bind_Ok_inv in Hrun as (Cx & Cy & [= <- <-] & Hrun). cbn beta in Hrun.
  apply bind_Ok_inv in Hrun as (Slot & Cy & HS & Hrun).
  unfold deref in HS. destruct (Releases C !! ReleaseID) as [Slot0|]; [|done].
  injection HS as <- <-.
  apply bind_Ok_inv in Hrun as (Release & Cy & HR & Hrun).
  unfold deref in HR. destruct Slot0 as [Release0|]; [|done].
  injection HR as <- <-.
  apply bind_Ok_inv in Hrun as (X & Cy & HX & Hrun).
  unfold deref in HX. destruct (getInst (Fn C) Release0) as [X0|]; [|done].
  injection HX as <- <-.
  destruct (InstKindOf X0) eqn:EK; try done;
    try (injection Hrun as <-; by left).
  all: apply bind_Ok_inv in Hrun as (Av & C1 & HL & Hrun).
  all: destruct (getLivenessAtInst_all_defined _ _ _ _ Hwf HL) as [Hsz Hdef].
  all: apply getLivenessAtInst_frame in HL; unfold framePBI in HL.
  all: destruct (AvSet.isAllYes Av) eqn:HY;
    [injection Hrun as <-; left; by rewrite HL|].
  all: specialize (Hdef eq_refl).
  all: apply bind_Ok_inv in Hrun as ([] & C2 & HD & Hrun).
  all: assert (ConditionalDestroys C2 = ConditionalDestroys C /\
               Fn C2 = Fn C /\ Releases C2 = Releases C) as (HCD & HFn & HRel)
         by (destruct (DIMemoryObjectInfo.isClassInitSelf _);
             injection HD as <-; by rewrite HL).
  all: destruct (AvSet.isAllNo Av) eqn:HN.
  all: try (right; exists Av;
            destruct (AvSet.hasAny Av Partial) eqn:HP; monad_inv;
            cbn; rewrite ?HCD, ?HFn, ?HRel; by split_and!).
  all: left; destruct (DIMemoryObjectInfo.isClassInitSelf _).
  all: monad_inv.
  all: try match goal with H : deleteDeadAddress _ ?V _ = Ok _ |- _ =>
         unfold deleteDeadAddress in H; destruct (ValDef V); monad_inv end.
  all: try match goal with H : building _ _ _ = Ok _ |- _ =>
         unfold building in H;
         destruct (emitClassSelfDealloc _ _ _) as [[? [? ?]]| |]; [|done..];
         injection H as <- <- end.
  all: try match goal with H : pushRelease ?o ?c = Ok _ |- _ =>
         unfold pushRelease in H; destruct o; monad_inv end.
  all: try match goal with H : assert true _ = Ok _ |- _ =>
         cbv [assert] in H; simplify_eq end.
  all: cbn [ConditionalDestroys set_Fn set_Releases]; exact HCD.
Qed.

Lemma processNonTrivialRelease_records_mixed_witness :
  exists C',
    processNonTrivialRelease (fun _ F => F) 0 exBranchLetChecker = Ok (tt, C') /\
    ConditionalDestroys C' = [(0, AvSet.set (AvSet.new 1) 0 Partial)] /\
    HasConditionalInitAssignOrDestroys C' = true.
Proof.
  assert (CheckerWf exBranchLetChecker) as Hwf.
  { apply (LifetimeChecker_new_wf exBranchFunction (exMemoryInfo true)
             exBranchUses exReleases).
    vm_compute. reflexivity. }
  destruct (processNonTrivialRelease (fun _ F => F) 0 exBranchLetChecker)
    as [[[] C']| |] eqn:Hrun; [|by vm_compute in Hrun..].
  pose proof (processNonTrivialRelease_records_mixed _ _ _ _ Hwf Hrun) as H.
  vm_compute in Hrun. injection Hrun as <-.
  eexists. split; [reflexivity|].
  destruct H as [H|(Av & H1 & _ & _ & _ & _ & Hflag & _)].
  - vm_compute in H. discriminate H.
  - split; [vm_compute; reflexivity|]. vm_compute. reflexivity.
Defined.

(** ** The live-out of a block from its predecessors *)

Section KnownPredecessors.

Variable N : nat.
Variable getPreds : SILBasicBlock -> list SILBasicBlock.

(** A block is settled when a query for it answers from the map: it is
    known, with [N] elements, or it is being computed. *)
Lemma getLiveOutN_settled fuel P (PBI : PerBlockInfoMap) sP :
  PBI !! P = Some sP ->
  LOState sP = IsKnown \/ LOState sP = IsComputingLiveOut ->
  getLiveOutN N getPreds (S fuel) P PBI = Ok (knownLiveOut N PBI P, PBI).
Proof.
  intros HP HK. cbn [getLiveOutN]. unfold bind, getBlockInfo, knownLiveOut.
  rewrite HP. by destruct HK as [-> | ->].
Qed.

Lemma getPredsLiveOutN_loop_settled fuel (PBI : PerBlockInfoMap) Preds :
  (forall P, P ∈ Preds ->
     exists sP, PBI !! P = Some sP /\
       (LOState sP = IsKnown \/ LOState sP = IsComputingLiveOut)) ->
  forall Result, AvSet.size Result = N ->
  exists R,
    getPredsLiveOutN_loop (getLiveOutN N getPreds (S fuel)) Preds Result PBI
    = Ok (R, PBI) /\
    AvSet.size R = N /\
    forall i, i < N ->
      AvSet.getConditional R i
      = fold_left mergeKinds
          (map (fun P => AvSet.getConditional (knownLiveOut N PBI P) i) Preds)
          (AvSet.getConditional Result i).
Proof.
  induction Preds as [|P Preds IH]; intros HPreds Result Hsz;
    cbn [getPredsLiveOutN_loop map fold_left].
  - exists Result. by split_and!.
  - destruct (HPreds P) as (sP & HP & HK); [by left|].
    rewrite (bind_Ok _ _ _ _ _ (getLiveOutN_settled fuel P PBI sP HP HK)).
    destruct (AvSetLoops.mergeIn_elements Result (knownLiveOut N PBI P))
      as [Hm1 Hm2].
    destruct (IH (fun Q HQ => HPreds Q (list_elem_of_further _ _ _ HQ))
                (AvSet.mergeIn Result (knownLiveOut N PBI P)))
      as (R & Hrun & HR & Hel); [by rewrite Hm1|].
    exists R. split_and!; try done.
    intros i Hi. by rewrite (Hel i Hi), Hm2 by lia.
Qed.

Lemma applyLocalYes_elements LocalAV Result :
  AvSet.size Result = N ->
  AvSet.size (applyLocalYes N LocalAV Result) = N /\
  forall i, i < N ->
    AvSet.getConditional (applyLocalYes N LocalAV Result) i
    = match AvSet.getConditional LocalAV i with
      | Some Yes => Some Yes
      | _ => AvSet.getConditional Result i
      end.
Proof.
  intros Hsz. unfold applyLocalYes.
  destruct (AvSetLoops.fold_elementwise
              (fun i old => match AvSet.getConditional LocalAV i with
                            | Some Yes => Some Yes
                            | _ => old
                            end)
              (fun R i => match AvSet.getConditional LocalAV i with
                          | Some Yes => AvSet.set R i Yes
                          | _ => R
                          end)) with (l := seq 0 N) (R := Result) as [H1 H2].
  - intros R i. destruct (AvSet.getConditional LocalAV i) as [[]|]; try done.
    apply AvSetFacts.size_set.
  - intros R i Hi. destruct (AvSet.getConditional LocalAV i) as [[]|]; try done.
    by apply AvSetFacts.getConditional_set_eq.
  - intros R i j Hne. destruct (AvSet.getConditional LocalAV i) as [[]|]; try done.
    by apply AvSetFacts.getConditional_set_ne.
  - apply NoDup_seq.
  - apply Forall_forall. intros i Hi%elem_of_seq. lia.
  - split; [by rewrite H1|]. intros i Hi. rewrite H2.
    rewrite decide_True by (apply elem_of_seq; lia). done.
Qed.

End KnownPredecessors.

Lemma getLiveOutN_S N getPreds fuel BB :
  getLiveOutN N getPreds (S fuel) BB
  = bind (getBlockInfo N BB)
      (fun BBState =>
         match LOState BBState with
         | IsKnown => ret (Availability BBState)
         | IsComputingLiveOut => ret (AvSet.new N)
         | IsUnknown =>
             bind (modify (insert BB (setLOState BBState IsComputingLiveOut)))
               (fun _ =>
                  bind (getPredsLiveOutN_loop (getLiveOutN N getPreds fuel)
                          (getPreds BB) (AvSet.new N))
                    (fun Result =>
                       bind (getBlockInfo N BB)
                         (fun BBState =>
                            let Result :=
                              applyLocalYes N (Availability BBState) Result in
                            if negb (AvSet.containsUnknownElements Result) then
                              bind (liftOutcome
                                      (setBlockAvailability BBState Result))
                                (fun s => bind (modify (insert BB s))
                                            (fun _ => ret Result))
                            else
                              bind (modify
                                      (insert BB (setLOState BBState IsUnknown)))
                                (fun _ => ret Result))))
         end).
Proof. reflexivity. Qed.

(** X16.  The transfer function of the live-out dataflow.  When
    [getLiveOutN] is asked for a block in state Unknown whose predecessors
    are all settled (known, being computed, or the block itself), it
    returns: element [i] of the result is Yes where the block itself knows
    Yes, and otherwise the lattice merge of element [i] over the
    predecessors, where a predecessor that is being computed (or the block
    itself) contributes nothing.  The result is cached, and the block made
    known, exactly when it has no Unknown element; no other block
    changes. *)
Theorem getLiveOutN_merges_the_predecessors
    (N : nat) (getPreds : SILBasicBlock -> list SILBasicBlock) (fuel : nat)
    (BB : SILBasicBlock) (PBI : PerBlockInfoMap) (s : LiveOutBlockState) :
  PBI !! BB = Some s -> LOState s = IsUnknown ->
  (forall P, P ∈ getPreds BB ->
     P = BB \/
     exists sP, PBI !! P = Some sP /\
       (LOState sP = IsKnown \/ LOState sP = IsComputingLiveOut)) ->
  exists R,
    getLiveOutN N getPreds (S (S fuel)) BB PBI
    = Ok (R, <[BB := if AvSet.containsUnknownElements R then s
                     else mkLiveOutBlockState (HasNonLoadUse s) R IsKnown]> PBI) /\
    AvSet.size R = N /\
    forall i, i < N ->
      AvSet.getConditional R i
      = match AvSet.getConditional (Availability s) i with
        | Some Yes => Some Yes
        | _ => mergeAll (map (fun P => AvSet.getConditional
                                         (knownLiveOut N PBI P) i)
                             (getPreds BB))
        end.
Proof.
  intros Hs HU HPreds.
  set (s1 := setLOState s IsComputingLiveOut).
  set (PBI1 := <[BB := s1]> PBI).
  assert (forall P, P ∈ getPreds BB ->
            exists sP, PBI1 !! P = Some sP /\
              (LOState sP = IsKnown \/ LOState sP = IsComputingLiveOut)) as H1.
  { intros P HP. destruct (decide (P = BB)) as [->|Hne].
    - exists s1. subst PBI1. rewrite lookup_insert_eq. split; [done|by right].
    - destruct (HPreds P HP) as [?|(sP & HsP & HK)]; [done|].
      exists sP. subst PBI1. by rewrite lookup_insert_ne. }
  assert (forall P, P ∈ getPreds BB ->
            knownLiveOut N PBI1 P = knownLiveOut N PBI P) as Hsame.
  { intros P HP. unfold knownLiveOut. subst PBI1.
    destruct (decide (P = BB)) as [->|Hne].
    - rewrite lookup_insert_eq, Hs, HU. done.
    - by rewrite lookup_insert_ne. }
  destruct (getPredsLiveOutN_loop_settled N getPreds fuel PBI1 (getPreds BB) H1
              (AvSet.new N) (AvSetFacts.size_new N)) as (R0 & Hloop & HR0 & Hel0).
  destruct (applyLocalYes_elements N (Availability s) R0 HR0) as [HR Hel].
  set (R := applyLocalYes N (Availability s) R0) in *.
  exists R. split_and!; [|done|].
  - rewrite getLiveOutN_S. unfold bind at 1. unfold getBlockInfo at 1.
    rewrite Hs, HU. unfold bind at 1. unfold modify at 1. fold s1 PBI1.
    unfold bind at 1. rewrite Hloop.
    unfold bind at 1. unfold getBlockInfo at 1. subst PBI1.
    rewrite lookup_insert_eq. cbn zeta. cbn [Availability s1 setLOState]. fold R.
    destruct (AvSet.containsUnknownElements R) eqn:HC; cbn [negb].
    + unfold bind, modify, ret. rewrite insert_insert_eq.
      do 3 f_equal. destruct s. cbn in HU |- *. by rewrite HU.
    + unfold setBlockAvailability. cbn [LOState s1 setLOState].
      rewrite decide_False by done. rewrite HC.
      unfold bind, liftOutcome, modify, ret. by rewrite insert_insert_eq.
  - intros i Hi. rewrite (Hel i Hi), (Hel0 i Hi).
    rewrite AvSetFacts.getConditional_new by done. unfold mergeAll.
    destruct (AvSet.getConditional (Availability s) i) as [[]|]; try done.
    all: f_equal; apply map_ext_in; intros P HP%list_elem_of_In;
      by rewrite Hsame.
Qed.

Lemma getLiveOutN_merges_the_predecessors_witness :
  let known K := mkLiveOutBlockState true (AvSet.set (AvSet.new 1) 0 K) IsKnown in
  let PBI : PerBlockInfoMap :=
    <[1 := known Yes]> (<[2 := known No]> (<[3 := LiveOutBlockState_new 1]> ∅)) in
  exists R PBI',
    getLiveOutN 1 (fun BB => if BB =? 3 then [1; 2] else []) 2 3 PBI
    = Ok (R, PBI') /\
    AvSet.getConditional R 0 = Some Partial.
Proof.
  intros known PBI.
  destruct (getLiveOutN_merges_the_predecessors 1
              (fun BB => if BB =? 3 then [1; 2] else []) 0 3 PBI
              (LiveOutBlockState_new 1))
    as (R & Hrun & _ & Hel).
  - reflexivity.
  - reflexivity.
  - cbn. intros P [->|[->|[]%elem_of_nil]%elem_of_cons]%elem_of_cons; right.
    + exists (known Yes). split; [reflexivity|by left].
    + exists (known No). split; [reflexivity|by left].
  - eexists R, _. split; [exact Hrun|]. rewrite (Hel 0) by lia.
    vm_compute. reflexivity.
Defined.

(** ** What an initialization error emits *)

(** The loop of [getUninitElementName] stops at the first element of the
    window that is not Yes. *)
Lemma firstUndefElement_first Liveness Num : forall First e,
  firstUndefElement Liveness (seq First Num) = Ok e ->
  First <= e < First + Num /\
  AvSet.getConditional Liveness e <> Some Yes /\
  forall j, First <= j < e -> AvSet.getConditional Liveness j = Some Yes.
Proof.
  induction Num as [|Num IH]; intros First e H; cbn [seq firstUndefElement] in H;
    [done|].
  destruct (AvSet.get Liveness First) as [K| |] eqn:HG; [|done..].
  apply AvSetFacts.get_Ok_inv in HG as [_ HG].
  destruct (DIKind_eqb K Yes) eqn:HY.
  - assert (K = Yes) as -> by (by destruct K).
    destruct (IH _ _ H) as (Hr & Hne & Hbefore).
    split; [lia|]. split; [done|].
    intros j Hj. destruct (decide (j = First)) as [->|]; [done|].
    apply Hbefore. lia.
  - injection H as <-. split; [lia|]. split; [|intros; lia].
    rewrite HG. intros [= ->]. done.
Qed.

(** [shouldEmitError] says yes exactly when the block is reachable, as
    [isBlockIsReachableFromEntry] answers, and the location is new. *)
Lemma shouldEmitError_decides Inst C b C' :
  shouldEmitError Inst C = Ok (b, C') ->
  exists X BB R,
    getInst (Fn C) Inst = Some X /\ getParent (Fn C) Inst = Some BB /\
    let L := getSourceLoc (InstLoc X) in
    let E := EmittedErrorLocs C in
    isBlockIsReachableFromEntry BB C
    = Ok (bool_decide (BB ∈ R), set_BlocksReachableFromEntry R C) /\
    b = bool_decide (BB ∈ R) && negb (bool_decide (L ∈ E)) /\
    C' = if b
         then set_EmittedErrorLocs (E ++ [L]) (set_BlocksReachableFromEntry R C)
         else set_BlocksReachableFromEntry R C.
Proof.
  unfold shouldEmitError. intros H.
  apply bind_Ok_inv in H as (F & C0 & [= <- <-] & H). cbn beta in H.
  apply bind_Ok_inv in H as (X & C0 & HI & H).
  unfold deref in HI. destruct (getInst (Fn C) Inst) as [I0|] eqn:EI; [|done].
  injection HI as <- <-.
  apply bind_Ok_inv in H as (BB & C0 & HBB & H).
  unfold deref in HBB. destruct (getParent (Fn C) Inst) as [BB0|]; [|done].
  injection HBB as <- <-.
  apply bind_Ok_inv in H as (Re & C1 & HR & H).
  pose proof (isBlockIsReachableFromEntry_answer _ _ _ _ HR) as [HRe HC1].
  exists I0, BB0, (BlocksReachableFromEntry C1).
  split; [done|]. split; [done|]. cbn zeta.
  split; [by rewrite <- HRe, <- HC1|]. rewrite <- HRe.
  assert (EmittedErrorLocs C1 = EmittedErrorLocs C) as HE by (by rewrite HC1).
  destruct Re; cbn [negb andb] in *.
  - apply bind_Ok_inv in H as (C2 & C2' & [= <- <-] & H). cbn beta in H.
    rewrite HE in H.
    destruct (existsb _ _) eqn:Ex.
    + injection H as <- <-. apply existsb_loc_true in Ex.
      by rewrite bool_decide_eq_true_2.
    + monad_inv. rewrite bool_decide_eq_false_2.
      * split; [done|]. by rewrite HE, HC1.
      * intros Hin. apply existsb_loc_true in Hin. by rewrite Hin in Ex.
  - injection H as <- <-. done.
Qed.

(** X17.  When [diagnoseInitError] emits.  A run that returns is silent
    exactly when [isBlockIsReachableFromEntry] answers that the block of
    the instruction cannot be reached, or the location of the
    instruction was already reported: then only the set of reachable
    blocks is stored.  Otherwise it remembers the location and appends
    the error, named after the first element of the window of the use
    that is not Yes, at the location of the instruction (at the location
    of the function when that of the instruction is null or invalid),
    followed by the note [variable_defined_here] at the memory object
    unless the memory is [self] in an initializer. *)
Theorem diagnoseInitError_emits
    (U : DIMemoryUse) (ID : DiagID) (C C' : LifetimeChecker) :
  diagnoseInitError U ID C = Ok (tt, C') ->
  exists I X BB R,
    DIMemoryUse.Inst U = Some I /\ getInst (Fn C) I = Some X /\
    getParent (Fn C) I = Some BB /\
    isBlockIsReachableFromEntry BB C
    = Ok (bool_decide (BB ∈ R), set_BlocksReachableFromEntry R C) /\
    let L := getSourceLoc (InstLoc X) in
    let TM := TheMemory C in
    let First := DIMemoryUse.FirstElement U in
    let Num := DIMemoryUse.NumElements U in
    ((BB ∉ R \/ L ∈ EmittedErrorLocs C) /\
     C' = set_BlocksReachableFromEntry R C) \/
    (BB ∈ R /\ L ∉ EmittedErrorLocs C /\
     EmittedErrorLocs C' = EmittedErrorLocs C ++ [L] /\
     exists Liveness C2 e,
       getLivenessAtInst I First Num
         (set_EmittedErrorLocs (EmittedErrorLocs C ++ [L])
            (set_BlocksReachableFromEntry R C))
       = Ok (Liveness, C2) /\
       C' = set_Diags (Diags C') C2 /\
       First <= e < First + Num /\
       AvSet.getConditional Liveness e <> Some Yes /\
       (forall j, First <= j < e ->
          AvSet.getConditional Liveness j = Some Yes) /\
       Diags C'
       = Diags C
         ++ [mkDiagnostic
               (if LocIsNull (InstLoc X) || SourceLoc_isInvalid L
                then getSourceLoc (FnLocation (Fn C)) else L)
               ID
               [ArgString
                  (fst (DIMemoryObjectInfo.getPathStringToElement TM e))]]
         ++ (if DIMemoryObjectInfo.isAnyInitSelf TM then []
             else [mkDiagnostic
                     (getSourceLoc (DIMemoryObjectInfo.getLoc TM))
                     variable_defined_here []])).
Proof.
  intros Hrun. unfold diagnoseInitError in Hrun.
  apply bind_Ok_inv in Hrun as (I & C0 & HI & Hrun).
  unfold deref in HI. destruct (DIMemoryUse.Inst U) as [I0|] eqn:HInst; [|done].
  injection HI as <- <-.
  apply bind_Ok_inv in Hrun as (b & C1 & Hs & Hrun).
  apply shouldEmitError_decides in Hs
    as (X & BB & R & HX & HBB & HReach & Hb & HC1). cbn zeta in Hb, HC1.
  exists I0, X, BB, R. split; [done|]. split; [done|]. split; [done|].
  split; [done|]. cbn zeta.
  destruct b; cbn [negb] in Hrun.
  2:{ injection Hrun as <-. left. split; [|done].
      symmetry in Hb. apply andb_false_iff in Hb as [Hb|Hb].
      - left. by apply bool_decide_eq_false_1 in Hb.
      - right. apply negb_false_iff in Hb. by apply bool_decide_eq_true_1 in Hb. }
  symmetry in Hb. apply andb_true_iff in Hb as [HinR Hnew].
  apply bool_decide_eq_true_1 in HinR.
  apply negb_true_iff, bool_decide_eq_false_1 in Hnew. right.
  apply bind_Ok_inv in Hrun as (Name & C2 & HName & Hrun).
  apply bind_Ok_inv in Hrun as (C3 & C3' & [= <- <-] & Hrun). cbn beta in Hrun.
  apply bind_Ok_inv in Hrun as (Loc & C4 & HLoc & Hrun).
  unfold getLocOf in HLoc.
  apply bind_Ok_inv in HLoc as (F & C5 & [= <- <-] & HLoc).
  (* the name *)
  unfold getUninitElementName in HName.
  apply bind_Ok_inv in HName as (Cx & Cy & [= <- <-] & HName). cbn beta in HName.
  rewrite HInst in HName.
  apply bind_Ok_inv in HName as (I1 & Cy & [= <- <-] & HName).
  apply bind_Ok_inv in HName as (Liveness & C6 & HL & HName).
  pose proof (getLivenessAtInst_frame _ _ _ _ _ _ HL) as HF. unfold framePBI in HF.
  apply bind_Ok_inv in HName as (e & C7 & He & HName).
  unfold liftOutcome in He.
  destruct (firstUndefElement _ _) as [e0| |] eqn:Hfirst; [|done..].
  injection He as <- <-.
  apply firstUndefElement_first in Hfirst as (Hr & Hne & Hbefore).
  apply bind_Ok_inv in HName as ([] & C8 & Ha & HName).
  unfold assert in Ha. destruct (_ || _); [|done]. injection Ha as <-.
  injection HName as <- <-.
  assert (Fn C6 = Fn C /\ TheMemory C6 = TheMemory C /\ Diags C6 = Diags C /\
          EmittedErrorLocs C6 = EmittedErrorLocs C ++ [getSourceLoc (InstLoc X)] /\
          TheMemory C1 = TheMemory C)
    as (HFn & HTM & HD & HE & HTM1) by (by rewrite HF, HC1).
  rewrite HFn, HX in HLoc. injection HLoc as <- <-.
  apply bind_Ok_inv in Hrun as ([] & C9 & Hd & Hrun).
  injection Hd as <-.
  split; [done|]. split; [done|].
  assert (EmittedErrorLocs C' = EmittedErrorLocs C ++ [getSourceLoc (InstLoc X)] /\
          Diags C'
          = (Diags C6
             ++ [mkDiagnostic
                   (getSourceLoc
                      (if LocIsNull (InstLoc X)
                          || SourceLoc_isInvalid (getSourceLoc (InstLoc X))
                       then FnLocation (Fn C6) else InstLoc X))
                   ID
                   [ArgString
                      (fst (DIMemoryObjectInfo.getPathStringToElement
                              (TheMemory C1) e0))]])
            ++ (if DIMemoryObjectInfo.isAnyInitSelf (TheMemory C6) then []
                else [mkDiagnostic
                        (getSourceLoc (DIMemoryObjectInfo.getLoc (TheMemory C6)))
                        variable_defined_here []])) as [HE' HD'].
  { destruct (DIMemoryObjectInfo.isAnyInitSelf (TheMemory C6));
      cbn [negb] in Hrun; injection Hrun as <-; cbn; rewrite ?app_nil_r; done. }
  split; [done|].
  exists Liveness, C6, e0. rewrite HTM1 in HD'. rewrite <- HC1.
  split; [done|]. split.
  { destruct (DIMemoryObjectInfo.isAnyInitSelf (TheMemory C6));
      cbn [negb] in Hrun; injection Hrun as <-; by destruct C6. }
  split; [done|]. split; [done|]. split; [done|].
  rewrite HD', HD, HFn, HTM, <- app_assoc. do 3 f_equal.
  by destruct (_ || _).
Qed.

Lemma diagnoseInitError_emits_witness :
  exists C' C'',
    diagnoseInitError (DIMemoryUse.mk (Some 20) Load 0 1)
      variable_used_before_initialized exLoadChecker = Ok (tt, C') /\
    EmittedErrorLocs C' = [102] /\ length (Diags C') = 2 /\
    diagnoseInitError (DIMemoryUse.mk (Some 20) Load 0 1)
      variable_used_before_initialized C' = Ok (tt, C'') /\
    Diags C'' = Diags C'.
Proof.
  destruct (diagnoseInitError (DIMemoryUse.mk (Some 20) Load 0 1)
              variable_used_before_initialized exLoadChecker)
    as [[[] C']| |] eqn:Hrun; [|by vm_compute in Hrun..].
  destruct (diagnoseInitError_emits _ _ _ _ Hrun)
    as (I & X & BB & R & HI & HX & HBB & HR & H).
  injection HI as <-. vm_compute in HX. injection HX as <-. cbn zeta in H.
  vm_compute in Hrun. injection Hrun as <-.
  eexists _, _. split; [reflexivity|].
  destruct H as [[_ HC]|(_ & _ & HE & _)].
  - apply (f_equal Diags) in HC. vm_compute in HC. discriminate HC.
  - split; [exact HE|]. split; [reflexivity|].
    split; vm_compute; reflexivity.
Defined.

(** ** The liveness of a window, and the elements left unknown *)

(** The last loop of [getLivenessAtInst], element by element. *)
Lemma rescue_elements Needed FirstElt NumElts Merged :
  FirstElt + NumElts <= AvSet.size Merged ->
  let R := fold_left
             (fun R i =>
                if negb (AvSet.bit Needed i)
                   || negb (hasValue (AvSet.getConditional R i))
                then AvSet.set R i Yes else R)
             (seq FirstElt NumElts) Merged in
  AvSet.size R = AvSet.size Merged /\
  forall i, FirstElt <= i < FirstElt + NumElts ->
    AvSet.getConditional R i
    = Some (match AvSet.getConditional Merged i with
            | Some K => if AvSet.bit Needed i then K else Yes
            | None => Yes
            end).
Proof.
  intros Hwin R.
  destruct (AvSetLoops.fold_elementwise
              (fun i o => Some (match o with
                                | Some K => if AvSet.bit Needed i then K else Yes
                                | None => Yes
                                end))
              (fun R i =>
                 if negb (AvSet.bit Needed i)
                    || negb (hasValue (AvSet.getConditional R i))
                 then AvSet.set R i Yes else R))
    with (l := seq FirstElt NumElts) (R := Merged) as [H1 H2].
  - intros R0 i. destruct (_ || _); [apply AvSetFacts.size_set|done].
  - intros R0 i Hi. destruct (AvSet.bit Needed i); cbn [negb orb].
    + destruct (AvSet.getConditional R0 i) as [K|] eqn:EK; cbn [hasValue negb].
      * done.
      * by rewrite AvSetFacts.getConditional_set_eq.
    + rewrite AvSetFacts.getConditional_set_eq by done.
      by destruct (AvSet.getConditional R0 i).
  - intros R0 i j Hji. destruct (_ || _); [|done].
    by rewrite AvSetFacts.getConditional_set_ne.
  - apply NoDup_seq.
  - apply Forall_forall. intros i Hi%elem_of_seq. lia.
  - split; [exact H1|]. intros i Hi. subst R. rewrite H2.
    rewrite decide_True; [done|]. apply elem_of_seq. lia.
Qed.

(** What [getLivenessAtInst] returns when the block does not decide the
    answer: the merge over the predecessors, with every element that is
    still Unknown, or that the block satisfied, turned into Yes. *)
Lemma getLivenessAtInst_rescue C Inst FirstElt NumElts R C' InstBB BBInfo PBI1 :
  let N := DIMemoryObjectInfo.NumElements (TheMemory C) in
  let MemoryInst := DIMemoryObjectInfo.MemoryInst (TheMemory C) in
  SizesAre N (PerBlockInfo C) ->
  0 < NumElts -> FirstElt + NumElts <= N ->
  getLivenessAtInst Inst FirstElt NumElts C = Ok (R, C') ->
  getParent (Fn C) Inst = Some InstBB ->
  getBlockInfo N InstBB (PerBlockInfo C) = Ok (BBInfo, PBI1) ->
  let Above :=
    if HasNonLoadUse BBInfo then instsAbove (Fn C) InstBB Inst else [] in
  let Preds := getPredsOf (Fn C) in
  let Fuel := liveOutFuel (Fn C) in
  (N = 1 -> scanLocal1 (NonLoadUses C) Above = None ->
   exists ResultVal PBI2,
     getPredsLiveOut1 N Preds Fuel InstBB None PBI1 = Ok (ResultVal, PBI2) /\
     C' = set_PerBlockInfo PBI2 C /\
     AvSet.get R 0
     = Ok (match ResultVal with Some K => K | None => Yes end)) /\
  (N <> 1 -> forall Needed,
   scanLocalN (NonLoadUses C) (Uses C) MemoryInst FirstElt NumElts Above
     (AvSet.new N)
     (setRange (replicate N false) FirstElt (FirstElt + NumElts) true)
   = Ok (inr Needed) ->
   exists Merged PBI2,
     getPredsLiveOutN N Preds Fuel InstBB (AvSet.new N) PBI1
     = Ok (Merged, PBI2) /\
     C' = set_PerBlockInfo PBI2 C /\
     forall i, FirstElt <= i < FirstElt + NumElts ->
       AvSet.get R i
       = Ok (match AvSet.getConditional Merged i with
             | Some K => if AvSet.bit Needed i then K else Yes
             | None => Yes
             end)).
Proof.
  intros N MemoryInst Hsz Hpos Hwin Hrun Hparent Hg Above Preds Fuel.
  unfold getLivenessAtInst in Hrun.
  apply bind_Ok_inv in Hrun as (C0 & C0' & [= <- <-] & Hrun). cbn beta in Hrun.
  fold N MemoryInst in Hrun.
  destruct (NumElts =? 0) eqn:E0; [apply Nat.eqb_eq in E0; lia|].
  rewrite Hparent in Hrun.
  apply bind_Ok_inv in Hrun as (BB0 & C1 & [= <- <-] & Hrun).
  rewrite (bind_Ok _ _ _ _ _ (liftPBI_Ok _ _ _ _ Hg)) in Hrun.
  fold Above Preds Fuel in Hrun.
  destruct (N =? 1) eqn:EN; split;
    try (intros HN1; apply Nat.eqb_eq in EN; done);
    try (intros HN1; apply Nat.eqb_neq in EN; done).
  - intros HN1 Hscan.
    rewrite Hscan in Hrun.
    apply bind_Ok_inv in Hrun as (RV & C2 & Hl & Hrun).
    unfold liftPBI in Hl. cbn [PerBlockInfo set_PerBlockInfo] in Hl.
    destruct (getPredsLiveOut1 N Preds Fuel InstBB None _) as [[RV' PBI2]| |] eqn:E2;
      [|done..].
    injection Hl as <- <-. injection Hrun as <- <-.
    exists RV', PBI2. split; [done|]. split; [by destruct C|].
    apply Nat.eqb_eq in EN.
    apply AvSetFacts.get_Ok.
    + rewrite AvSetFacts.size_set_optional, AvSetFacts.size_new. lia.
    + rewrite AvSetFacts.getConditional_set_optional_eq;
        [by destruct RV'|].
      rewrite AvSetFacts.size_new. lia.
  - intros HN1 Needed Hscan.
    rewrite Hscan in Hrun. cbn [liftOutcome] in Hrun.
    apply bind_Ok_inv in Hrun as (Sc & C2 & [= <- <-] & Hrun).
    apply bind_Ok_inv in Hrun as (Merged & C3 & Hl & Hrun).
    unfold liftPBI in Hl. cbn [PerBlockInfo set_PerBlockInfo] in Hl.
    destruct (getPredsLiveOutN N Preds Fuel InstBB (AvSet.new N) _)
      as [[M' PBI2]| |] eqn:E2; [|done..].
    injection Hl as <- <-. injection Hrun as <- <-.
    rename M' into Merged.
    exists Merged, PBI2. split; [done|]. split; [by destruct C|].
    assert (AvSet.size Merged = N) as HM.
    { assert (SizesAre N PBI1) as Hsz1.
      { destruct (getBlockInfo_spec N InstBB (PerBlockInfo C))
          as (s & PBIx & Hgx & _).
        rewrite Hg in Hgx. injection Hgx as <- <-.
        unfold getBlockInfo in Hg.
        destruct (PerBlockInfo C !! InstBB) eqn:EL; simplify_eq; [done|].
        apply SizesAre_insert; [done|]. apply AvSetFacts.size_new. }
      eapply (getPredsLiveOutN_loop_size N _ (SizesAre N));
        [|apply AvSetFacts.size_new|exact E2|done].
      intros b. apply getLiveOutN_SizesAre. }
    destruct (rescue_elements Needed FirstElt NumElts Merged) as [HS HE];
      [lia|].
    intros i Hi. apply AvSetFacts.get_Ok; [rewrite HS; lia|]. by apply HE.
Qed.

Lemma exDeadChecker_wf : CheckerWf exDeadChecker.
Proof.
  apply (LifetimeChecker_new_wf exDeadFunction (exMemoryInfo false)
           [DIMemoryUse.mk (Some 50) Load 0 1] []).
  vm_compute. reflexivity.
Qed.

(** C3: on a checker of the shape the constructor builds, for every
    instruction of the function and every non-empty window of elements of
    the memory object, [getLivenessAtInst] returns, and the unguarded
    [get] succeeds on every element of the window: none is left Unknown.
    When the scan of the block does not decide the answer, the result is
    the merge over the predecessors in which every element of the window
    that the merge left Unknown is Yes (and so is every element the block
    itself satisfied); the other elements of the window are as merged. *)
Theorem getLivenessAtInst_window_defined (C : LifetimeChecker)
    (Inst FirstElt NumElts : nat) :
  let N := DIMemoryObjectInfo.NumElements (TheMemory C) in
  let MemoryInst := DIMemoryObjectInfo.MemoryInst (TheMemory C) in
  CheckerWf C ->
  is_Some (getParent (Fn C) Inst) ->
  0 < NumElts ->
  FirstElt + NumElts <= N ->
  exists R C',
    getLivenessAtInst Inst FirstElt NumElts C = Ok (R, C') /\
    CheckerWf C' /\
    (forall i, FirstElt <= i < FirstElt + NumElts ->
       exists K, AvSet.get R i = Ok K) /\
    forall InstBB BBInfo PBI1,
      getParent (Fn C) Inst = Some InstBB ->
      getBlockInfo N InstBB (PerBlockInfo C) = Ok (BBInfo, PBI1) ->
      let Above :=
        if HasNonLoadUse BBInfo then instsAbove (Fn C) InstBB Inst else [] in
      let Preds := getPredsOf (Fn C) in
      let Fuel := liveOutFuel (Fn C) in
      (N = 1 -> scanLocal1 (NonLoadUses C) Above = None ->
       exists ResultVal PBI2,
         getPredsLiveOut1 N Preds Fuel InstBB None PBI1
         = Ok (ResultVal, PBI2) /\
         C' = set_PerBlockInfo PBI2 C /\
         AvSet.get R 0
         = Ok (match ResultVal with Some K => K | None => Yes end)) /\
      (N <> 1 -> forall Needed,
       scanLocalN (NonLoadUses C) (Uses C) MemoryInst FirstElt NumElts Above
         (AvSet.new N)
         (setRange (replicate N false) FirstElt (FirstElt + NumElts) true)
       = Ok (inr Needed) ->
       exists Merged PBI2,
         getPredsLiveOutN N Preds Fuel InstBB (AvSet.new N) PBI1
         = Ok (Merged, PBI2) /\
         C' = set_PerBlockInfo PBI2 C /\
         forall i, FirstElt <= i < FirstElt + NumElts ->
           AvSet.get R i
           = Ok (match AvSet.getConditional Merged i with
                 | Some K => if AvSet.bit Needed i then K else Yes
                 | None => Yes
                 end)).
Proof.
  intros N MemoryInst Hwf [InstBB Hp] Hpos Hwin.
  destruct (getLivenessAtInst_total C Inst FirstElt NumElts InstBB Hwf Hp Hpos Hwin)
    as (R & C' & E & _ & Hwf' & _ & Hsz & Hdef).
  exists R, C'. split_and!; [done..| |].
  - intros i Hi. specialize (Hdef i Hi).
    destruct (AvSet.getConditional R i) as [K|] eqn:EK; [|done].
    exists K. apply AvSetFacts.get_Ok; [|done]. rewrite Hsz. lia.
  - intros BB BBInfo PBI1 HBB Hg.
    apply (getLivenessAtInst_rescue C Inst FirstElt NumElts R C' BB BBInfo PBI1);
      try done.
    apply Hwf.
Qed.

Lemma getLivenessAtInst_window_defined_witness :
  exists R C',
    getLivenessAtInst 50 0 1 exDeadChecker = Ok (R, C') /\
    CheckerWf C' /\
    getPredsLiveOut1 1 (getPredsOf exDeadFunction) (liveOutFuel exDeadFunction)
      3 None (PerBlockInfo C')
    = Ok (None, PerBlockInfo C') /\
    AvSet.get R 0 = Ok Yes.
Proof.
  destruct (getLivenessAtInst_window_defined exDeadChecker 50 0 1)
    as (R & C' & E & Hwf & _ & Hres).
  - exact exDeadChecker_wf.
  - vm_compute. eexists. reflexivity.
  - lia.
  - vm_compute. lia.
  - exists R, C'. split; [exact E|]. split; [exact Hwf|].
    destruct (getBlockInfo 1 3 (PerBlockInfo exDeadChecker))
      as [[BBInfo PBI1]| |] eqn:Hg; [|by vm_compute in Hg..].
    destruct (Hres 3 BBInfo PBI1) as [H1 _].
    + vm_compute. reflexivity.
    + exact Hg.
    + vm_compute in Hg. injection Hg as <- <-.
      destruct H1 as (RV & PBI2 & E2 & HC' & HG).
      * vm_compute. reflexivity.
      * vm_compute. reflexivity.
      * vm_compute in E2. injection E2 as <- <-.
        split; [|exact HG]. rewrite HC'. vm_compute. reflexivity.
Defined.

(** ** The conditional destroys of a release *)

Section ElementLoop.

Variable CV : option SILValue.
Variable Addr : SILValue.
Variable X : SILInstruction.
Variable Av : AvailabilitySet.
Variable post : list SILInstruction.
Variable Bs2 : list (nat * list SILInstruction).
Variable FLoc : SILLocation.

Local Abbreviation layoutOK L :=
  (FocusOK (LBefore L) (LBlock L) (InstPtr X) (LAbove L) post Bs2 (LNext L)).

Lemma destroyStep_OK TM L Elt :
  layoutOK L -> layoutOK (destroyStep TM Addr (InstLoc X) Av L Elt).
Proof.
  intros HOK. unfold destroyStep.
  destruct (AvSet.get Av Elt) as [[| |]| |]; try done; cbn.
  - apply FocusOK_grow with (LNext L); [done|lia|].
    destruct HOK as (_ & _ & _ & HP & _).
    unfold destroyInsts. repeat constructor; cbn; lia.
  - by apply FocusOK_partial.
Qed.

(** The element loop from any point: the state it returns is the one the
    steps describe. *)
Lemma destroyElements_layout Elts :
  Forall (fun e => (exists K, AvSet.get Av e = Ok K) /\
                   (AvSet.get Av e = Ok Partial -> CV = Some Addr)) Elts ->
  forall L C Rel0,
    layoutOK L ->
    Fn C = layoutFunction L X post Bs2 FLoc ->
    Releases C = Rel0 ++ map Some (LDestroys L) ->
    let L' := fold_left (destroyStep (TheMemory C) Addr (InstLoc X) Av) Elts L in
    destroyElements CV X Av (LMask L) Elts C
    = Ok (LMask L',
          set_Releases (Rel0 ++ map Some (LDestroys L'))
            (set_Fn (layoutFunction L' X post Bs2 FLoc) C)).
Proof.
  induction 1 as [|e Elts [[K HK] HCV] _ IH]; intros L C Rel0 HOK HFn HRel;
    cbn [destroyElements fold_left].
  - unfold ret. rewrite <- HFn, <- HRel. by destruct C.
  - destruct K.
    + (* No *)
      rewrite (bind_Ok _ _ _ _ _ (destroyElement_No CV X Av (LMask L) e C HK)).
      assert (destroyStep (TheMemory C) Addr (InstLoc X) Av L e = L) as ->
        by (unfold destroyStep; by rewrite HK).
      by apply IH.
    + (* Yes *)
      rewrite (bind_Ok _ _ _ _ _
                 (destroyElement_Yes CV X Av (LMask L) e C _ _ _ _ _ _ _
                    HFn HOK HK)).
      pose proof (destroyStep_OK (TheMemory C) L e HOK) as HOK1.
      set (L1 := destroyStep (TheMemory C) Addr (InstLoc X) Av L e) in *.
      assert (L1 = mkDestroyLayout (LBefore L) (LBlock L)
                     (LAbove L ++ destroyInsts (TheMemory C) e (InstLoc X) (LNext L))
                     (S (S (LNext L))) (LMask L) (LDestroys L ++ [S (LNext L)]))
        as HL1 by (subst L1; unfold destroyStep; by rewrite HK).
      assert (LMask L1 = LMask L) as HM by (by rewrite HL1).
      match goal with |- destroyElements _ _ _ _ _ ?C1 = _ =>
        specialize (IH L1 C1 Rel0 HOK1) end.
      cbn zeta in IH. cbn [TheMemory Releases Fn set_Releases set_Fn] in IH.
      rewrite HM in IH. rewrite IH.
      * by destruct C.
      * rewrite HL1. reflexivity.
      * rewrite HL1. cbn [LDestroys].
        rewrite HRel, map_app, <- app_assoc. done.
    + (* Partial *)
      rewrite (bind_Ok _ _ _ _ _
                 (destroyElement_Partial CV Addr X Av (LMask L) e C _ _ _ _ _ _ _
                    HFn HOK HK (fun _ => HCV HK))).
      pose proof (destroyStep_OK (TheMemory C) L e HOK) as HOK1.
      set (L1 := destroyStep (TheMemory C) Addr (InstLoc X) Av L e) in *.
      assert (L1 =
              let ld := maskLoad Addr (InstLoc X) (LMask L) (LNext L) in
              let N1 := LNext L + length (fst ld) in
              let ci := conditionInsts (InstLoc X)
                          (DIMemoryObjectInfo.getNumMemoryElements (TheMemory C))
                          e (snd ld) N1 in
              let N2 := N1 + length (fst ci) in
              mkDestroyLayout
                (LBefore L ++
                 [(LBlock L, LAbove L ++ fst ld ++ fst ci ++
                             [mkSILInstruction (N2 + 3)
                                (CondBranchInst (snd ci) (S N2) N2) (InstLoc X)]);
                  (S N2, destroyInsts (TheMemory C) e (InstLoc X) (N2 + 4) ++
                         [mkSILInstruction (N2 + 2) (BranchInst N2) (InstLoc X)])])
                N2 [] (N2 + 6) (Some (snd ld)) (LDestroys L ++ [N2 + 5]))
        as HL1 by (subst L1; unfold destroyStep; by rewrite HK).
      cbn zeta in HL1.
      assert (LMask L1
              = Some (snd (maskLoad Addr (InstLoc X) (LMask L) (LNext L))))
        as HM by (by rewrite HL1).
      match goal with |- destroyElements _ _ _ _ _ ?C1 = _ =>
        specialize (IH L1 C1 Rel0 HOK1) end.
      cbn zeta in IH. cbn [TheMemory Releases Fn set_Releases set_Fn] in IH.
      rewrite HM in IH. rewrite IH.
      * by destruct C.
      * rewrite HL1. reflexivity.
      * rewrite HL1. cbn [LDestroys].
        rewrite HRel, map_app, <- app_assoc. reflexivity.
Qed.

End ElementLoop.

(** ** The end of a round *)

Lemma forEach_app {S A} (xs ys : list A) (body : A -> M S unit) s :
  forEach (xs ++ ys) body s = (forEach xs body ;;; forEach ys body) s.
Proof.
  revert s. induction xs as [|x xs IH]; intros s; cbn [app forEach].
  - reflexivity.
  - unfold bind. destruct (body x s) as [[[] s1]| |] eqn:E; [|done..].
    rewrite IH. reflexivity.
Qed.

(** The dealloc of a class [self] is emitted above the release. *)
Lemma emitClassSelfDealloc_building F0 Op Bs1 BB pre X post Bs2 FLoc Next B :
  FocusOK Bs1 BB (InstPtr X) pre post Bs2 Next ->
  head (getOperands (InstKindOf X)) = Some Op ->
  exists r new B',
    (setInsertionPointInst (InstPtr X) ;;; emitClassSelfDealloc F0 X)
      (focusBlock Bs1 BB (pre ++ X :: post) Bs2 FLoc Next, B)
    = Ok (r, (focusBlock Bs1 BB ((pre ++ new) ++ X :: post) Bs2 FLoc
                (Next + length new), B')) /\
    Forall (fun Y => Next <= InstPtr Y) new.
Proof.
  intros HF HOp. destruct (FocusOK_notin _ _ _ _ _ _ _ HF) as [Hn1 Hn2].
  destruct HF as (Ha1 & Hpre & Hpost & HP & HBB & _ & _).
  rewrite (bind_Ok _ _ _ _ _ (setInsertionPointInst_focus _ _ _ _ _ _ _ _ _ Ha1)).
  unfold emitClassSelfDealloc. rewrite HOp.
  rewrite (bind_Ok _ _ _ Op _) by done.
  set (Box := match InstKindOf <$> getDefInst F0 Op with
              | Some (AllocBoxInst Ty) => Some Ty
              | _ => None
              end).
  set (Ptr := match Box with
              | Some Ty => mkSILValue (ValDef Op) 1 (getAddressType Ty)
              | None => Op
              end).
  assert (forall Ptr' pre' Next' Ins,
            absentFrom (InstPtr X) pre' -> InstPtr X < Next' ->
            exists r new B',
              (Dealloc <- createDeallocRef (InstLoc X) Ptr' ;;
               DB <- match Box with
                     | Some _ =>
                         DB <- createDeallocBox (InstLoc X) (ValType Ptr') Op ;;
                         ret (Some DB)
                     | None => ret None
                     end ;;
               ret (Dealloc, DB))
                (focusBlock Bs1 BB (pre' ++ X :: post) Bs2 FLoc Next',
                 mkSILBuilder BB (Some (InstPtr X)) Ins)
              = Ok (r, (focusBlock Bs1 BB ((pre' ++ new) ++ X :: post) Bs2 FLoc
                          (Next' + length new), B')) /\
              Forall (fun Y => Next' <= InstPtr Y) new) as Hrest.
  { intros Ptr' pre' Next' Ins Hpre' HP'. unfold createDeallocRef, createDeallocBox.
    rewrite (bind_Ok _ _ _ _ _ (insertInst_focus _ _ _ _ _ _ _ _ _ _ _ Hn1 Hn2 Hpre')).
    destruct Box as [Ty|].
    - erewrite bind_Ok.
      2:{ erewrite bind_Ok; [reflexivity|].
          apply insertInst_focus; [done..|].
          apply absentFrom_snoc; [done|cbn; lia]. }
      eexists _, [_; _], _. split.
      + unfold ret. rewrite <- !app_assoc. cbn [app length].
        repeat f_equal; lia.
      + repeat constructor; cbn; lia.
    - rewrite (bind_Ok _ _ _ None _) by done.
      eexists _, [_], _. split.
      + unfold ret. cbn [length]. repeat f_equal; lia.
      + repeat constructor; cbn; lia. }
  fold Ptr. destruct (TyIsAddress (ValType Ptr)) eqn:HAddr.
  - (* a load of the pointer first *)
    unfold createLoad.
    erewrite bind_Ok.
    2:{ erewrite bind_Ok; [reflexivity|]. by apply insertInst_focus. }
    match goal with |- context [createDeallocRef _ ?P'] =>
      destruct (Hrest P' (pre ++ [mkSILInstruction Next (LoadInst Ptr) (InstLoc X)])
                  (S Next) (InsertedInsts B ++ [Next]))
        as (r & new & B' & E & Hnew) end.
    { apply absentFrom_snoc; [done|cbn; lia]. }
    { lia. }
    exists r, (mkSILInstruction Next (LoadInst Ptr) (InstLoc X) :: new), B'.
    split.
    + etransitivity; [exact E|]. cbn [length].
      rewrite <- !app_assoc. cbn [app].
      replace (S Next + length new) with (Next + S (length new)) by lia.
      reflexivity.
    + constructor; [cbn; lia|].
      eapply Forall_impl; [exact Hnew|]. cbn. intros; lia.
  - rewrite (bind_Ok _ _ _ Ptr _) by done.
    destruct (Hrest Ptr pre Next (InsertedInsts B) Hpre HP)
      as (r & new & B' & E & Hnew).
    by exists r, new, B'.
Qed.

Lemma fold_destroyStep_OK TM Addr X Av post Bs2 Elts :
  forall L,
    FocusOK (LBefore L) (LBlock L) (InstPtr X) (LAbove L) post Bs2 (LNext L) ->
    let L' := fold_left (destroyStep TM Addr (InstLoc X) Av) Elts L in
    FocusOK (LBefore L') (LBlock L') (InstPtr X) (LAbove L') post Bs2 (LNext L').
Proof.
  induction Elts as [|e Elts IH]; intros L HOK; cbn [fold_left]; [done|].
  apply IH. by apply destroyStep_OK.
Qed.

(** The end of a round, after the element loop: the dealloc of a class
    [self], the erasure of the release, and the clean-up of its address. *)
Lemma finishRelease_Ok (del : nat -> SILFunction -> SILFunction)
    (X : SILInstruction) (Op : SILValue) (Ce : LifetimeChecker)
    Bs1 BB pre post Bs2 FLoc Next :
  Fn Ce = focusBlock Bs1 BB (pre ++ X :: post) Bs2 FLoc Next ->
  FocusOK Bs1 BB (InstPtr X) pre post Bs2 Next ->
  head (getOperands (InstKindOf X)) = Some Op ->
  exists C1,
    ((if DIMemoryObjectInfo.isClassInitSelf (TheMemory Ce) then
        F <- gets Fn ;;
        r <- building freshBuilder
               (setInsertionPointInst (InstPtr X) ;;;
                emitClassSelfDealloc F X) ;;
        pushRelease (snd (fst r))
      else ret tt) ;;;
     modify (fun C => set_Fn (eraseFromParent (InstPtr X) (Fn C)) C) ;;;
     deleteDeadAddress del Op) Ce = Ok (tt, C1) /\
    (DIMemoryObjectInfo.isClassInitSelf (TheMemory Ce) = false ->
     C1 = set_Fn
            (match ValDef Op with
             | DefInst AddrI =>
                 del AddrI (focusBlock Bs1 BB (pre ++ post) Bs2 FLoc Next)
             | DefArg _ => focusBlock Bs1 BB (pre ++ post) Bs2 FLoc Next
             end) Ce).
Proof.
  intros HFn HOK HOp.
  destruct (DIMemoryObjectInfo.isClassInitSelf (TheMemory Ce)) eqn:HClass.
  - destruct (emitClassSelfDealloc_building (Fn Ce) Op Bs1 BB pre X post Bs2 FLoc
                Next freshBuilder HOK HOp) as (r & new & B' & E & Hnew).
    unfold deleteDeadAddress, pushRelease.
    destruct r as [Dealloc [DB|]]; destruct (ValDef Op) as [AddrI|a] eqn:HDef;
      (eexists; split; [|intros; discriminate]).
    all: rewrite <- HFn in E.
    all: erewrite bind_Ok;
      [|rewrite (bind_Ok _ _ _ (Fn Ce) Ce) by done;
        erewrite bind_Ok; [|apply building_Ok; exact E];
        cbn [fst snd]; reflexivity].
    all: cbn beta.
    all: erewrite bind_Ok; [|reflexivity].
    all: reflexivity.
  - destruct (FocusOK_notin _ _ _ _ _ _ _ HOK) as [Hn1 Hn2].
    destruct HOK as (Ha1 & Hpre & Hpost & _).
    destruct (ValDef Op) as [AddrI|a] eqn:HDef; (eexists; split).
    all: try (rewrite (bind_Ok _ _ _ tt Ce) by done;
              erewrite bind_Ok; [|reflexivity];
              unfold deleteDeadAddress; rewrite HDef; reflexivity).
    all: intros _; cbn [Fn set_Fn]; rewrite HFn;
      rewrite eraseFromParent_focus by done; by destruct Ce.
Qed.

(** ** Counting what the element loop emits *)

Section CountingFacts.

Variable P : SILInstruction -> Prop.
Context `{!forall Y, Decision (P Y)}.

Lemma countIn_app l1 l2 : countIn P (l1 ++ l2) = countIn P l1 + countIn P l2.
Proof. unfold countIn. by rewrite filter_app, length_app. Qed.

Lemma countIn_layout L X post Bs2 FLoc :
  countIn P (allInsts (layoutFunction L X post Bs2 FLoc))
  = countIn P (flat_map snd (LBefore L)) + countIn P (LAbove L)
    + countIn P (X :: post) + countIn P (flat_map snd Bs2).
Proof.
  unfold layoutFunction, focusBlock, allInsts. cbn [Blocks].
  rewrite flat_map_app. cbn [flat_map snd].
  rewrite !countIn_app. lia.
Qed.

Lemma countIn_destroyStep TM Addr Loc Av L e :
  countIn P (flat_map snd (LBefore (destroyStep TM Addr Loc Av L e)))
  + countIn P (LAbove (destroyStep TM Addr Loc Av L e))
  = countIn P (flat_map snd (LBefore L)) + countIn P (LAbove L)
    + addedBy P TM Addr Loc Av L e.
Proof.
  unfold destroyStep, addedBy.
  destruct (AvSet.get Av e) as [[| |]| |]; cbn [LBefore LAbove]; try lia.
  - rewrite countIn_app. lia.
  - rewrite flat_map_app. cbn [flat_map snd]. rewrite app_nil_r.
    rewrite !countIn_app. change (countIn P []) with 0. lia.
Qed.

End CountingFacts.

Lemma countIn_destroyInsts_elementAddr e TM e' Loc Next :
  countIn (fun Y => InstKindOf Y = ElementAddrInst e) (destroyInsts TM e' Loc Next)
  = if decide (e' = e) then 1 else 0.
Proof.
  unfold countIn, destroyInsts.
  destruct (decide (e' = e)) as [->|Hne].
  - rewrite filter_cons_True by done.
    rewrite filter_cons_False by (cbn; congruence). done.
  - rewrite filter_cons_False by (cbn; congruence).
    rewrite filter_cons_False by (cbn; congruence). done.
Qed.

Lemma addedBy_elementAddr e TM Addr Loc Av L e' :
  addedBy (fun Y => InstKindOf Y = ElementAddrInst e) TM Addr Loc Av L e'
  = if decide (e' = e)
    then match AvSet.get Av e' with Ok Yes | Ok Partial => 1 | _ => 0 end
    else 0.
Proof.
  unfold addedBy.
  destruct (AvSet.get Av e') as [[| |]| |]; try (by destruct (decide _)).
  - apply countIn_destroyInsts_elementAddr.
  - cbn zeta. rewrite countIn_destroyInsts_elementAddr.
    assert (countIn (fun Y => InstKindOf Y = ElementAddrInst e)
              (fst (maskLoad Addr Loc (LMask L) (LNext L))) = 0) as ->.
    { unfold countIn, maskLoad. destruct (LMask L); cbn [fst]; [done|].
      by rewrite filter_cons_False by (cbn; congruence). }
    match goal with |- context [conditionInsts ?a ?b ?c ?d ?f] =>
      assert (countIn (fun Y => InstKindOf Y = ElementAddrInst e)
                (fst (conditionInsts a b c d f)) = 0) as -> end.
    { unfold countIn, conditionInsts.
      destruct (_ =? 1); [done|]. destruct (_ =? 0); cbn [fst];
        repeat (rewrite filter_cons_False by (cbn; congruence)); done. }
    unfold countIn.
    rewrite !filter_cons_False by (cbn; congruence). cbn. lia.
Qed.

(** Over a loop that visits each element once, the address of element
    [e] is taken once if [e] is visited and its availability is Yes or
    Partial, and not at all otherwise. *)
Lemma elementAddrs_fold e TM Addr Loc Av Elts :
  NoDup Elts ->
  forall L,
    let P := fun Y => InstKindOf Y = ElementAddrInst e in
    let L' := fold_left (destroyStep TM Addr Loc Av) Elts L in
    countIn P (flat_map snd (LBefore L')) + countIn P (LAbove L')
    = countIn P (flat_map snd (LBefore L)) + countIn P (LAbove L)
      + if decide (e ∈ Elts)
        then match AvSet.get Av e with Ok Yes | Ok Partial => 1 | _ => 0 end
        else 0.
Proof.
  induction 1 as [|e' Elts Hnotin HND IH]; intros L P; cbn [fold_left].
  - rewrite decide_False by apply not_elem_of_nil. lia.
  - cbn zeta in IH. rewrite IH. subst P.
    rewrite countIn_destroyStep, addedBy_elementAddr.
    destruct (decide (e' = e)) as [->|Hne].
    + rewrite decide_False by done. rewrite decide_True by left. lia.
    + destruct (decide (e ∈ Elts)) as [Hin|Hin].
      * rewrite decide_True by (by right). lia.
      * rewrite decide_False by (intros [?|?]%elem_of_cons; done). lia.
Qed.

Lemma addedBy_loads TM Addr Loc Av L e :
  addedBy (fun Y => InstKindOf Y = LoadInst Addr) TM Addr Loc Av L e
  = match AvSet.get Av e, LMask L with
    | Ok Partial, None => 1
    | _, _ => 0
    end.
Proof.
  unfold addedBy.
  destruct (AvSet.get Av e) as [[| |]| |]; try (by destruct (LMask L)).
  cbn zeta.
  match goal with |- context [conditionInsts ?a ?b ?c ?d ?f] =>
    assert (countIn (fun Y => InstKindOf Y = LoadInst Addr)
              (fst (conditionInsts a b c d f)) = 0) as -> end.
  { unfold countIn, conditionInsts.
    destruct (_ =? 1); [done|]. destruct (_ =? 0); cbn [fst];
      repeat (rewrite filter_cons_False by (cbn; congruence)); done. }
  unfold countIn, destroyInsts.
  rewrite !filter_cons_False by (cbn; congruence).
  unfold maskLoad. destruct (LMask L); cbn [fst]; [done|].
  rewrite filter_cons_True by done. done.
Qed.

(** The bitmap is loaded by the first Partial element and by no other. *)
Lemma loads_fold TM Addr Loc Av Elts :
  forall L,
    let P := fun Y => InstKindOf Y = LoadInst Addr in
    let L' := fold_left (destroyStep TM Addr Loc Av) Elts L in
    countIn P (flat_map snd (LBefore L')) + countIn P (LAbove L')
    = countIn P (flat_map snd (LBefore L)) + countIn P (LAbove L)
      + match LMask L, LMask L' with None, Some _ => 1 | _, _ => 0 end /\
    (LMask L <> None -> LMask L' = LMask L).
Proof.
  induction Elts as [|e Elts IH]; intros L P; subst P; cbn [fold_left].
  - split; [|done]. destruct (LMask L); lia.
  - cbn zeta in IH.
    destruct (IH (destroyStep TM Addr Loc Av L e)) as [IH1 IH2].
    pose proof (countIn_destroyStep (fun Y => InstKindOf Y = LoadInst Addr)
                  TM Addr Loc Av L e) as Hs.
    rewrite addedBy_loads in Hs.
    assert (LMask (destroyStep TM Addr Loc Av L e)
            = match AvSet.get Av e, LMask L with
              | Ok Partial, None =>
                  Some (snd (maskLoad Addr Loc None (LNext L)))
              | _, _ => LMask L
              end) as HM.
    { unfold destroyStep.
      destruct (AvSet.get Av e) as [[| |]| |]; by destruct (LMask L). }
    set (L1 := destroyStep TM Addr Loc Av L e) in *.
    set (L' := fold_left (destroyStep TM Addr Loc Av) Elts L1) in *.
    destruct (AvSet.get Av e) as [[| |]| |], (LMask L) as [M|] eqn:HL;
      rewrite HM in *.
    all: split; [|first [intros _; by apply IH2 | intros; done]].
    all: try (pose proof (IH2 ltac:(discriminate)) as HL'; rewrite HL' in *).
    all: try (destruct (LMask L'); lia).
    all: lia.
Qed.

(** A diamond is two more blocks, and only a Partial element adds one. *)
Lemma blocks_fold TM Addr Loc Av Elts :
  forall L,
    let L' := fold_left (destroyStep TM Addr Loc Av) Elts L in
    length (LBefore L')
    = length (LBefore L) + 2 * length (List.filter (kindIs Partial Av) Elts).
Proof.
  induction Elts as [|e Elts IH]; intros L; cbn [fold_left List.filter].
  - cbn. lia.
  - cbn zeta in IH. rewrite IH. unfold destroyStep, kindIs.
    destruct (AvSet.get Av e) as [[| |]| |]; cbn [LBefore DIKind_eqb length];
      rewrite ?length_app; cbn [length]; lia.
Qed.

(** C6.  [handleConditionalDestroys] on the release [X] recorded as a
    conditional destroy, reached after the rounds of the releases recorded
    before it.  The element loop returns, and what it leaves at the
    release is what [destroyStep] adds for the elements [0 .. n-1] in
    turn, by the availability of each: nothing for No; the address of
    the element and a destroy of it just above the release for Yes; for
    Partial the load of the bitmap, which must then exist, unless an
    earlier element of this release loaded it, the instructions that
    compute bit [e] of it, a conditional branch, and a new block that
    destroys element [e] and branches to the continuation, which starts
    at the release.  Every destroy emitted is recorded as a release.  The round then emits the
    dealloc of a class [self], erases the release and cleans up its
    address, and the rewrite goes on with the releases recorded after it.
    Counted on the function the loop leaves: the address of element [e]
    is taken once more if [e] is Yes or Partial and not at all if it is
    No; two blocks are added for each Partial element and none
    otherwise; the bitmap is loaded at most once. *)
Theorem handleConditionalDestroys_per_element
    (del : nat -> SILFunction -> SILFunction)
    (CV : option SILValue) (Addr Op : SILValue) (X : SILInstruction)
    (Av : AvailabilitySet) (C0 C : LifetimeChecker)
    (Done Rest : list (nat * AvailabilitySet)) (i : nat)
    (Bs1 : list (nat * list SILInstruction)) (BB : nat)
    (pre post : list SILInstruction) (Bs2 : list (nat * list SILInstruction))
    (FLoc : SILLocation) (Next : nat) :
  ConditionalDestroys C0 = Done ++ (i, Av) :: Rest ->
  forEach Done (handleConditionalDestroy del CV) C0 = Ok (tt, C) ->
  Releases C !! i = Some (Some (InstPtr X)) ->
  head (getOperands (InstKindOf X)) = Some Op ->
  Fn C = focusBlock Bs1 BB (pre ++ X :: post) Bs2 FLoc Next ->
  FocusOK Bs1 BB (InstPtr X) pre post Bs2 Next ->
  let TM := TheMemory C in
  let n := DIMemoryObjectInfo.getNumMemoryElements TM in
  let Loc := InstLoc X in
  (forall e, e < n -> exists K, AvSet.get Av e = Ok K) ->
  (forall e, e < n -> AvSet.get Av e = Ok Partial -> CV = Some Addr) ->
  let L := fold_left (destroyStep TM Addr Loc Av) (seq 0 n)
             (mkDestroyLayout Bs1 BB pre Next None []) in
  let Ce := set_Releases (Releases C ++ map Some (LDestroys L))
              (set_Fn (layoutFunction L X post Bs2 FLoc) C) in
  let Finish :=
    ((if DIMemoryObjectInfo.isClassInitSelf TM then
        F <- gets Fn ;;
        r <- building freshBuilder
               (setInsertionPointInst (InstPtr X) ;;;
                emitClassSelfDealloc F X) ;;
        pushRelease (snd (fst r))
      else ret tt) ;;;
     modify (fun C => set_Fn (eraseFromParent (InstPtr X) (Fn C)) C) ;;;
     deleteDeadAddress del Op) in
  destroyElements CV X Av None (seq 0 n) C = Ok (LMask L, Ce) /\
  handleConditionalDestroy del CV (i, Av) C = Finish Ce /\
  (exists C1,
     Finish Ce = Ok (tt, C1) /\
     handleConditionalDestroys del CV C0
     = forEach Rest (handleConditionalDestroy del CV) C1 /\
     (DIMemoryObjectInfo.isClassInitSelf TM = false ->
      let Erased :=
        focusBlock (LBefore L) (LBlock L) (LAbove L ++ post) Bs2 FLoc
          (LNext L) in
      C1 = set_Fn (match ValDef Op with
                   | DefInst AddrI => del AddrI Erased
                   | DefArg _ => Erased
                   end) Ce)) /\
  (forall e, e < n ->
     length (elementAddrsOf e (Fn Ce))
     = length (elementAddrsOf e (Fn C))
       + match AvSet.get Av e with Ok Yes | Ok Partial => 1 | _ => 0 end) /\
  length (Blocks (Fn Ce))
  = length (Blocks (Fn C))
    + 2 * length (List.filter (kindIs Partial Av) (seq 0 n)) /\
  length (loadsOf Addr (Fn Ce))
  = length (loadsOf Addr (Fn C))
    + match LMask L with Some _ => 1 | None => 0 end /\
  (forall e LM Nx env P m,
     let ld := maskLoad Addr Loc LM Nx in
     let ci := conditionInsts Loc n e (snd ld) (Nx + length (fst ld)) in
     e < n -> ValDef (snd ld) = DefInst P -> P < Nx + length (fst ld) ->
     env !! P = Some m -> (m < 2 ^ N.of_nat n)%N ->
     valueIn (execInsts env (fst ci)) (snd ci)
     = Some (N.b2n (N.testbit m (N.of_nat e)))).
Proof.
  intros HCD HDone HRel HOp HFn HOK TM n Loc HAv HCV L Ce Finish.
  assert (Forall (fun e => (exists K, AvSet.get Av e = Ok K) /\
                           (AvSet.get Av e = Ok Partial -> CV = Some Addr))
                 (seq 0 n)) as HAll.
  { apply Forall_forall. intros e He. apply elem_of_seq in He.
    split; [apply HAv|apply HCV]; lia. }
  set (L0 := mkDestroyLayout Bs1 BB pre Next None []) in *.
  assert (destroyElements CV X Av None (seq 0 n) C = Ok (LMask L, Ce)) as HLoop.
  { pose proof (destroyElements_layout CV Addr X Av post Bs2 FLoc (seq 0 n)
                  HAll L0 C (Releases C)) as H.
    cbn zeta in H. cbn [LMask LDestroys LBefore LBlock LAbove LNext L0] in H.
    apply H; [exact HOK|exact HFn|]. cbn. by rewrite app_nil_r. }
  pose proof (fold_destroyStep_OK TM Addr X Av post Bs2 (seq 0 n) L0 HOK) as HOKL.
  cbn zeta in HOKL. fold Loc L in HOKL.
  assert (getInst (Fn C) (InstPtr X) = Some X) as HX.
  { rewrite HFn. destruct HOK as (Ha1 & Hpre & _). by apply getInst_focus. }
  assert (handleConditionalDestroy del CV (i, Av) C = Finish Ce) as HRound.
  { unfold handleConditionalDestroy, bind at 1, gets. cbn [fst snd id].
    unfold bind at 1, deref. rewrite HRel. cbn [fst snd].
    unfold bind at 1. cbn [fst snd].
    unfold bind at 1. rewrite HX. cbn [fst snd].
    unfold bind at 1. rewrite HOp. cbn [fst snd].
    fold TM n. unfold bind at 1. rewrite HLoop. reflexivity. }
  destruct (finishRelease_Ok del X Op Ce (LBefore L) (LBlock L) (LAbove L) post
              Bs2 FLoc (LNext L) eq_refl HOKL HOp) as (C1 & HFin & HC1).
  split; [exact HLoop|]. split; [exact HRound|]. split.
  { exists C1. split; [exact HFin|]. split; [|exact HC1].
    unfold handleConditionalDestroys, bind at 1, gets. cbn [fst snd id].
    rewrite HCD, forEach_app. unfold bind at 1. rewrite HDone.
    cbn [forEach]. unfold bind at 1. rewrite HRound.
    replace (Finish Ce) with (Ok (tt, C1) : Outcome (unit * LifetimeChecker))
      by (symmetry; exact HFin).
    reflexivity. }
  split.
  { intros e He.
    pose proof (elementAddrs_fold e TM Addr Loc Av (seq 0 n) (NoDup_seq 0 n) L0)
      as Hc. cbn zeta in Hc. fold L in Hc.
    rewrite decide_True in Hc by (apply elem_of_seq; lia).
    unfold elementAddrsOf.
    change (Fn Ce) with (layoutFunction L X post Bs2 FLoc).
    pose proof (countIn_layout (fun Y => InstKindOf Y = ElementAddrInst e)
                  L X post Bs2 FLoc) as H1.
    pose proof (countIn_layout (fun Y => InstKindOf Y = ElementAddrInst e)
                  L0 X post Bs2 FLoc) as H0.
    unfold countIn in *. rewrite H1, HFn.
    change (focusBlock Bs1 BB (pre ++ X :: post) Bs2 FLoc Next)
      with (layoutFunction L0 X post Bs2 FLoc).
    rewrite H0. cbn [L0 LBefore LAbove] in *. lia. }
  split.
  { pose proof (blocks_fold TM Addr Loc Av (seq 0 n) L0) as Hb.
    cbn zeta in Hb. fold L in Hb.
    change (Fn Ce) with (layoutFunction L X post Bs2 FLoc). rewrite HFn.
    unfold layoutFunction, focusBlock. cbn [Blocks].
    rewrite !length_app. cbn [length L0 LBefore] in *. lia. }
  split.
  { destruct (loads_fold TM Addr Loc Av (seq 0 n) L0) as [Hc _].
    cbn zeta in Hc. fold L in Hc. unfold loadsOf.
    change (Fn Ce) with (layoutFunction L X post Bs2 FLoc).
    pose proof (countIn_layout (fun Y => InstKindOf Y = LoadInst Addr)
                  L X post Bs2 FLoc) as H1.
    pose proof (countIn_layout (fun Y => InstKindOf Y = LoadInst Addr)
                  L0 X post Bs2 FLoc) as H0.
    unfold countIn in *. rewrite H1, HFn.
    change (focusBlock Bs1 BB (pre ++ X :: post) Bs2 FLoc Next)
      with (layoutFunction L0 X post Bs2 FLoc).
    rewrite H0. cbn [L0 LBefore LAbove LMask] in *. lia. }
  intros e LM Nx env P m ld ci He HD HP Hm Hsmall. subst ci.
  rewrite (conditionInsts_computes _ _ _ _ _ env P m HD HP Hm).
  f_equal. by apply bit_of_small_mask.
Qed.

Lemma handleConditionalDestroys_per_element_witness :
  exists C1,
    handleConditionalDestroys (fun _ F => F) (Some exControlVariable)
      exTupleChecker = Ok (tt, C1) /\
    length (Blocks (Fn C1)) = 6 /\
    map (fun e => length (elementAddrsOf e (Fn C1))) [0; 1; 2] = [0; 1; 1] /\
    length (loadsOf exControlVariable (Fn C1)) = 1 /\
    Releases C1 = [Some 41; Some 1001; Some 1011].
Proof.
  destruct (handleConditionalDestroys_per_element (fun _ F => F)
              (Some exControlVariable) exControlVariable exMemory exRelease
              exTupleAvailability exTupleChecker exTupleChecker [] [] 0
              exBlocksAbove 3
              [mkSILInstruction 40 (AssignInst exArg exMemory) (exLoc 105)]
              [mkSILInstruction 42 (ReturnInst exArg) (exLoc 107)]
              [] (exLoc 99) 1000)
    as (_ & _ & (C1 & _ & HAll & HC1) & _).
  - reflexivity.
  - reflexivity.
  - reflexivity.
  - reflexivity.
  - reflexivity.
  - unfold FocusOK, absentFrom. repeat split; repeat constructor; cbn; lia.
  - intros e He. cbn in He.
    destruct e as [|[|[|e]]]; [eexists; vm_compute; reflexivity..|lia].
  - reflexivity.
  - exists C1. split; [exact HAll|].
    rewrite (HC1 eq_refl). vm_compute. repeat split; reflexivity.
Defined.

(** ** The statement printer *)

Module StmtPrinterFacts.
Import StmtPrinter.

Lemma append_assoc (a b c : string) : (a +:+ b) +:+ c = a +:+ (b +:+ c).
Proof.
  induction a as [|x a IH]; [done|].
  change (String x ((a +:+ b) +:+ c) = String x (a +:+ (b +:+ c))).
  by rewrite IH.
Qed.

Lemma append_nil_r (a : string) : a +:+ EmptyString = a.
Proof.
  induction a as [|x a IH]; [done|].
  change (String x (a +:+ EmptyString) = String x a). by rewrite IH.
Qed.

Lemma unsignedAdd_lt (a b : N) : (unsignedAdd a b < 2 ^ 32)%N.
Proof. unfold unsignedAdd. apply N.mod_lt. done. Qed.

Lemma unsignedSub_unsignedAdd (I : N) :
  (I < 2 ^ 32)%N -> unsignedSub (unsignedAdd I 2) 2 = I.
Proof.
  intros HI. unfold unsignedSub, unsignedAdd.
  destruct (decide (I + 2 < 2 ^ 32)%N) as [Hlt|Hge].
  - rewrite (N.mod_small (I + 2)) by done.
    replace (I + 2 + 2 ^ 32 - 2)%N with (I + 1 * 2 ^ 32)%N by lia.
    rewrite N.Div0.mod_add. by apply N.mod_small.
  - replace (I + 2)%N with ((I + 2 - 2 ^ 32) + 1 * 2 ^ 32)%N at 1 by lia.
    rewrite N.Div0.mod_add. rewrite (N.mod_small (I + 2 - 2 ^ 32)) by lia.
    replace (I + 2 - 2 ^ 32 + 2 ^ 32 - 2)%N with I by lia.
    by apply N.mod_small.
Qed.

Section Facts.

Variable Expr : Type.
Variable Decl : Type.
Variable printExpr : Expr -> N -> string.
Variable printDecl : Decl -> N -> string.

(** Induction on statements, through the elements of a brace statement
    and the optional parts of [if] and [while]. *)
Lemma Stmt_nested_ind (Q : Stmt Expr Decl -> Prop) :
  (forall Loc, Q (SemiStmt Loc)) ->
  (forall Dest Src, Q (AssignStmt Dest Src)) ->
  (forall LBLoc Elements,
     Forall (fun Elt => match Elt with ElemStmt St => Q St | _ => True end)
            Elements ->
     Q (BraceStmt LBLoc Elements)) ->
  (forall ReturnLoc Result, Q (ReturnStmt ReturnLoc Result)) ->
  (forall IfLoc Cond Then Else,
     (forall St, Then = Some St -> Q St) ->
     (forall St, Else = Some St -> Q St) ->
     Q (IfStmt IfLoc Cond Then Else)) ->
  (forall WhileLoc Cond Body,
     (forall St, Body = Some St -> Q St) ->
     Q (WhileStmt WhileLoc Cond Body)) ->
  forall St, Q St.
Proof.
  intros HSemi HAssign HBrace HReturn HIf HWhile.
  fix IH 1. intros [L|D S0|L Elements|L R|L C Then Else|L C Body].
  - apply HSemi.
  - apply HAssign.
  - apply HBrace. induction Elements as [|Elt Elements IHE]; constructor.
    + destruct Elt; [exact I|apply IH|exact I].
    + exact IHE.
  - apply HReturn.
  - apply HIf.
    + destruct Then as [St|]; intros St' [= <-]. apply IH.
    + destruct Else as [St|]; intros St' [= <-]. apply IH.
  - apply HWhile. destruct Body as [St|]; intros St' [= <-]. apply IH.
Qed.

Lemma out_eq s os I :
  out s (mkPrintStmt os I) = mkPrintStmt (os +:+ s) I.
Proof. reflexivity. Qed.

Lemma indent_eq n os I :
  indent n (mkPrintStmt os I) = mkPrintStmt (os +:+ spaces (N.to_nat n)) I.
Proof. reflexivity. Qed.

Lemma printRecExpr_eq E os I :
  printRecExpr printExpr E (mkPrintStmt os I)
  = mkPrintStmt (os +:+ printExpr E (unsignedAdd I 2)) I.
Proof. reflexivity. Qed.

Lemma printRecDecl_eq D os I :
  printRecDecl printDecl D (mkPrintStmt os I)
  = mkPrintStmt (os +:+ printDecl D (unsignedAdd I 2)) I.
Proof. reflexivity. Qed.

Local Abbreviation writes := (writes printExpr printDecl).

Lemma printRec_eq Sub I os :
  (forall St, Sub = Some St -> writes St) -> (I < 2 ^ 32)%N ->
  printRec (visit printExpr printDecl) Sub (mkPrintStmt os I)
  = mkPrintStmt (os +:+ renderRec (render printExpr printDecl) Sub I) I.
Proof.
  intros HSub HI. unfold printRec, renderRec, setIndent. cbn [Indent OS].
  destruct Sub as [St|].
  - rewrite (HSub St eq_refl) by apply unsignedAdd_lt. cbn [Indent OS].
    by rewrite unsignedSub_unsignedAdd.
  - rewrite indent_eq, out_eq. cbn [Indent OS].
    by rewrite unsignedSub_unsignedAdd, append_assoc.
Qed.

Lemma visitElements_eq Elements I :
  Forall (fun Elt => match Elt with ElemStmt St => writes St | _ => True end)
         Elements ->
  (I < 2 ^ 32)%N ->
  forall os,
    visitElements printExpr printDecl (visit printExpr printDecl) Elements
      (mkPrintStmt os I)
    = mkPrintStmt
        (os +:+ renderElements printExpr printDecl
                  (render printExpr printDecl) Elements I) I.
Proof.
  intros HF HI. induction HF as [|Elt Elements HElt _ IH]; intros os;
    cbn [visitElements renderElements].
  - by rewrite append_nil_r.
  - rewrite out_eq. destruct Elt as [E|St|D].
    + rewrite printRecExpr_eq, IH. by rewrite !append_assoc.
    + rewrite printRec_eq; [|by intros ? [= <-]|done].
      rewrite IH. by rewrite !append_assoc.
    + rewrite printRecDecl_eq, IH. by rewrite !append_assoc.
Qed.

Ltac written :=
  repeat first [rewrite indent_eq | rewrite out_eq | rewrite printRecExpr_eq
               | rewrite printRecDecl_eq | rewrite visitElements_eq by done
               | rewrite printRec_eq by done];
  cbn [Indent OS]; rewrite ?append_assoc, ?append_nil_r.

Lemma visit_writes St : writes St.
Proof.
  induction St using Stmt_nested_ind; intros I os HI; cbn [visit render].
  - written. done.
  - written. done.
  - written. done.
  - written. done.
  - destruct Else as [St|]; written; done.
  - written. done.
Qed.

End Facts.

(** ** Parentheses *)

Lemma parenDepth_cons c s d :
  parenDepth (String c s) d
  = if Ascii.eqb c "("%char then parenDepth s (S d)
    else if Ascii.eqb c ")"%char then
      match d with
      | O => None
      | S d => parenDepth s d
      end
    else parenDepth s d.
Proof. reflexivity. Qed.

Lemma parenDepth_app a b : forall d,
  parenDepth (a +:+ b) d
  = match parenDepth a d with
    | Some d' => parenDepth b d'
    | None => None
    end.
Proof.
  induction a as [|c a IH]; intros d; [done|].
  change (String c a +:+ b) with (String c (a +:+ b)).
  rewrite !parenDepth_cons.
  destruct (Ascii.eqb c "("); [apply IH|].
  destruct (Ascii.eqb c ")"); [|apply IH].
  destruct d; [done|apply IH].
Qed.

Lemma parenDepth_shift s : forall d d' k,
  parenDepth s d = Some d' -> parenDepth s (d + k) = Some (d' + k).
Proof.
  induction s as [|c s IH]; intros d d' k; rewrite !parenDepth_cons || idtac.
  - cbn. by intros [= ->].
  - destruct (Ascii.eqb c "("); [apply (IH (S d))|].
    destruct (Ascii.eqb c ")"); [|apply IH].
    destruct d as [|d]; [done|]. apply IH.
Qed.

Lemma balanced_neutral s : balanced s -> neutral s.
Proof. intros H d. apply (parenDepth_shift s 0 0 d H). Qed.

Lemma neutral_spaces n : neutral (spaces n).
Proof. induction n as [|n IH]; intros d; [done|]. apply IH. Qed.

Lemma parenDepth_app_neutral a b :
  neutral a -> balanced b -> balanced (a +:+ b).
Proof. intros Ha Hb. unfold balanced. by rewrite parenDepth_app, Ha. Qed.

Section Balance.

Variable Expr : Type.
Variable Decl : Type.
Variable printExpr : Expr -> N -> string.
Variable printDecl : Decl -> N -> string.
Hypothesis printExpr_balanced : forall E I, balanced (printExpr E I).
Hypothesis printDecl_balanced : forall D I, balanced (printDecl D I).

(** One step of the computation of the depth after a text made of
    pieces: a piece known to be neutral, or a literal. *)
Ltac depth_literal :=
  match goal with
  | |- context [parenDepth (String ?c ?s) ?d] =>
      let r := eval vm_compute in (parenDepth (String c s) d) in
      change (parenDepth (String c s) d) with r; cbv beta iota
  | |- context [parenDepth EmptyString ?d] =>
      change (parenDepth EmptyString d) with (Some d); cbv beta iota
  end.

Ltac depth_step :=
  first
    [ rewrite parenDepth_app
    | rewrite (balanced_neutral _ (printExpr_balanced _ _))
    | rewrite (balanced_neutral _ (printDecl_balanced _ _))
    | rewrite neutral_spaces
    | match goal with
      | H : neutral ?s |- context [parenDepth ?s _] => rewrite H
      end
    | depth_literal ].

Lemma renderRec_neutral Sub I :
  (forall St, Sub = Some St -> forall I, neutral (render printExpr printDecl St I)) ->
  neutral (renderRec (render printExpr printDecl) Sub I).
Proof.
  intros HSub. unfold renderRec. destruct Sub as [St|]; [by apply HSub|].
  intros d. unfold nullStatement. repeat depth_step. reflexivity.
Qed.

Lemma renderElements_neutral Elements I :
  Forall (fun Elt =>
            match Elt with
            | ElemStmt St => forall I, neutral (render printExpr printDecl St I)
            | _ => True
            end) Elements ->
  neutral (renderElements printExpr printDecl (render printExpr printDecl)
             Elements I).
Proof.
  induction 1 as [|Elt Elements HElt _ IH]; cbn [renderElements]; intros d.
  - reflexivity.
  - destruct Elt as [E|St|D].
    + unfold newline. repeat depth_step. reflexivity.
    + assert (neutral (renderRec (render printExpr printDecl) (Some St) I))
        as HSt by (apply renderRec_neutral; by intros ? [= <-]).
      unfold newline. repeat depth_step. reflexivity.
    + unfold newline. repeat depth_step. reflexivity.
Qed.

Lemma render_neutral St : forall I, neutral (render printExpr printDecl St I).
Proof.
  induction St using Stmt_nested_ind; intros I d; cbn [render]; unfold newline.
  - repeat depth_step. reflexivity.
  - repeat depth_step. reflexivity.
  - pose proof (renderElements_neutral Elements I H) as HE.
    repeat depth_step. reflexivity.
  - repeat depth_step. reflexivity.
  - pose proof (renderRec_neutral Then I H) as HT.
    pose proof (renderRec_neutral Else I H0) as HEl.
    destruct Else as [St|]; repeat depth_step; reflexivity.
  - pose proof (renderRec_neutral Body I H) as HB.
    repeat depth_step. reflexivity.
Qed.

End Balance.

(** The text of a statement: the indentation, then one parenthesised
    group. *)
Lemma render_shape {Expr Decl} (printExpr : Expr -> N -> string)
    (printDecl : Decl -> N -> string) (St : Stmt Expr Decl) (I : N) :
  exists body,
    render printExpr printDecl St I
    = spaces (N.to_nat I) +:+ "(" +:+ body +:+ ")".
Proof.
  destruct St as [L|Dest Src|L Elements|L R|L C Then Else|L C Body];
    cbn [render].
  - by exists "semi_stmt".
  - exists ("assign_stmt" +:+ newline +:+ printExpr Dest (unsignedAdd I 2)
            +:+ newline +:+ printExpr Src (unsignedAdd I 2)).
    by rewrite !append_assoc.
  - exists ("brace_stmt" +:+ renderElements printExpr printDecl
                             (render printExpr printDecl) Elements I).
    by rewrite !append_assoc.
  - exists ("return_stmt" +:+ newline +:+ printExpr R (unsignedAdd I 2)).
    by rewrite !append_assoc.
  - exists ("if_stmt" +:+ newline +:+ printExpr C (unsignedAdd I 2)
            +:+ newline +:+ renderRec (render printExpr printDecl) Then I
            +:+ match Else with
                | Some _ =>
                    newline +:+ renderRec (render printExpr printDecl) Else I
                | None => EmptyString
                end).
    by rewrite !append_assoc.
  - exists ("while_stmt" +:+ newline +:+ printExpr C (unsignedAdd I 2)
            +:+ newline +:+ renderRec (render printExpr printDecl) Body I).
    by rewrite !append_assoc.
Qed.

End StmtPrinterFacts.

(** X18.  Printing a statement only appends to the stream and leaves the
    visitor's indentation as it was: for an indentation [I] that an
    [unsigned] holds, [visit] turns the stream [os] into [os], [I]
    spaces, an opening parenthesis, a text that does not depend on [os],
    and a closing parenthesis; [Indent] is [I] again at the end. *)
Theorem visit_appends_one_group {Expr Decl} (printExpr : Expr -> N -> string)
    (printDecl : Decl -> N -> string) (St : StmtPrinter.Stmt Expr Decl)
    (I : N) :
  (I < 2 ^ 32)%N ->
  exists body, forall os,
    StmtPrinter.visit printExpr printDecl St (StmtPrinter.mkPrintStmt os I)
    = StmtPrinter.mkPrintStmt
        (os +:+ StmtPrinter.spaces (N.to_nat I) +:+ "(" +:+ body +:+ ")") I.
Proof.
  intros HI.
  destruct (StmtPrinterFacts.render_shape printExpr printDecl St I)
    as [body Hbody].
  exists body. intros os.
  rewrite (StmtPrinterFacts.visit_writes _ _ printExpr printDecl St I os HI).
  by rewrite Hbody.
Qed.

Lemma visit_appends_one_group_witness :
  exists body, forall os,
    StmtPrinter.visit StmtPrinter.exPrintExpr StmtPrinter.exPrintDecl
      StmtPrinter.exStmt (StmtPrinter.mkPrintStmt os 4)
    = StmtPrinter.mkPrintStmt
        (os +:+ StmtPrinter.spaces 4 +:+ "(" +:+ body +:+ ")") 4.
Proof.
  apply (visit_appends_one_group StmtPrinter.exPrintExpr
           StmtPrinter.exPrintDecl StmtPrinter.exStmt 4).
  reflexivity.
Defined.

(** X19.  [Stmt::print] keeps the parentheses of the stream nested: when
    the printers of expressions and of declarations write balanced
    texts, the depth of nesting after printing a statement is the depth
    the stream had before, whatever the statement, null parts
    included. *)
Theorem print_keeps_the_nesting {Expr Decl} (printExpr : Expr -> N -> string)
    (printDecl : Decl -> N -> string) (St : StmtPrinter.Stmt Expr Decl)
    (os : string) (I : N) (d d' : nat) :
  (forall E I, StmtPrinter.balanced (printExpr E I)) ->
  (forall D I, StmtPrinter.balanced (printDecl D I)) ->
  (I < 2 ^ 32)%N ->
  StmtPrinter.parenDepth os d = Some d' ->
  StmtPrinter.parenDepth (StmtPrinter.print printExpr printDecl St os I) d
  = Some d'.
Proof.
  intros HE HD HI Hos. unfold StmtPrinter.print.
  rewrite (StmtPrinterFacts.visit_writes _ _ printExpr printDecl St I os HI).
  cbn [StmtPrinter.OS].
  rewrite StmtPrinterFacts.parenDepth_app, Hos.
  apply (StmtPrinterFacts.render_neutral _ _ printExpr printDecl HE HD).
Qed.

Lemma print_keeps_the_nesting_witness :
  StmtPrinter.parenDepth
    (StmtPrinter.print StmtPrinter.exPrintExpr StmtPrinter.exPrintDecl
       StmtPrinter.exStmt "(module" 4) 0
  = Some 1.
Proof.
  apply (print_keeps_the_nesting StmtPrinter.exPrintExpr
           StmtPrinter.exPrintDecl StmtPrinter.exStmt "(module" 4 0 1).
  - intros [] J; apply StmtPrinterFacts.parenDepth_app_neutral;
      [apply StmtPrinterFacts.neutral_spaces|reflexivity
      |apply StmtPrinterFacts.neutral_spaces|reflexivity].
  - intros [] J; apply StmtPrinterFacts.parenDepth_app_neutral;
      [apply StmtPrinterFacts.neutral_spaces|reflexivity].
  - reflexivity.
  - reflexivity.
Defined.
